(** * GlitchBook: the glitch transform library

    A shallow embedding of the transform catalog of
    [src/glitches] (TypeScript) and of its registry, together with the
    properties the specification states about them.

    Layout of the development:
    - [Num]: JavaScript numbers as IEEE-754 binary64 values
      (the executable [SpecFloat] formalisation) and the [Math]
      functions and operators the transforms use;
    - values, parameter maps and the host run-time interface;
    - the store of typed arrays, [ImageData], and a small state monad
      with abrupt completion, in which every [apply] is written;
    - the 25 transforms, file by file;
    - the registry of [index.ts];
    - the theorems. *)

From Stdlib Require Import ZArith Lia Bool List.
From Stdlib Require Import Floats.SpecFloat.
From stdpp Require Import base option list strings gmap.

Local Open Scope Z_scope.

(* ===================================================================== *)
(** * JavaScript numbers *)
(* ===================================================================== *)

Module Num.

(** A JavaScript number is an IEEE-754 binary64 value. *)
Definition number := spec_float.

Definition prec := 53.
Definition emax := 1024.

Definition NaN : number := S754_nan.
Definition Infinity : number := S754_infinity false.

(** Integer literals and integer-valued quantities (loop counters,
    [width], [height], [data.length], byte samples). The conversion is
    exact for magnitudes up to 2^53 and rounds to nearest-even above. *)
Definition of_Z (z : Z) : number := binary_normalize prec emax z 0 false.

Definition add : number -> number -> number := SFadd prec emax.
Definition sub : number -> number -> number := SFsub prec emax.
Definition mul : number -> number -> number := SFmul prec emax.
Definition div : number -> number -> number := SFdiv prec emax.
Definition neg : number -> number := SFopp.

(** A decimal literal [n / 10^k] of the source text: the correctly
    rounded quotient of two exactly representable integers is the
    double nearest to the decimal, which is the value of the literal. *)
Definition dec (n : Z) (k : Z) : number := div (of_Z n) (of_Z (10 ^ k)).

(** Relational operators; any comparison with NaN is false. *)
Definition lt (a b : number) : bool := SFltb a b.
Definition gt (a b : number) : bool := SFltb b a.
Definition le (a b : number) : bool := SFleb a b.
Definition eq (a b : number) : bool := SFeqb a b.

Definition is_nan (a : number) : bool :=
  match a with S754_nan => true | _ => false end.
Definition is_zero (a : number) : bool :=
  match a with S754_zero _ => true | _ => false end.

(** The exact integer [floor(m * 2^e)] for a positive mantissa, and
    whether anything was cut off. *)
Definition floor_pos (m : positive) (e : Z) : Z :=
  if 0 <=? e then Z.pos m * 2 ^ e else Z.pos m / 2 ^ (- e).
Definition exact_pos (m : positive) (e : Z) : bool :=
  if 0 <=? e then true else Z.pos m mod 2 ^ (- e) =? 0.

(** Exact [floor] and [ceil] of a finite value, as integers. *)
Definition floorZ (s : bool) (m : positive) (e : Z) : Z :=
  if s then - (floor_pos m e + (if exact_pos m e then 0 else 1))
  else floor_pos m e.
Definition ceilZ (s : bool) (m : positive) (e : Z) : Z :=
  if s then - floor_pos m e
  else floor_pos m e + (if exact_pos m e then 0 else 1).

(** [Math.floor] *)
Definition floor (a : number) : number :=
  match a with
  | S754_finite s m e =>
      if 0 <=? e then a else binary_normalize prec emax (floorZ s m e) 0 s
  | _ => a
  end.

(** [Math.ceil] *)
Definition ceil (a : number) : number :=
  match a with
  | S754_finite s m e =>
      if 0 <=? e then a else binary_normalize prec emax (ceilZ s m e) 0 s
  | _ => a
  end.

(** [Math.round]: the integer nearest to the argument, ties towards
    +Infinity; the sign of a zero result is that of the argument. *)
Definition round (a : number) : number :=
  match a with
  | S754_finite s m e =>
      if 0 <=? e then a
      else
        let k := - e in
        let n := ((if s then Z.neg m else Z.pos m) + 2 ^ (k - 1)) / 2 ^ k in
        binary_normalize prec emax n 0 s
  | _ => a
  end.

(** [Math.abs] *)
Definition abs : number -> number := SFabs.

(** [Math.max] and [Math.min] of two arguments: NaN if either is NaN,
    and +0 is larger than -0. *)
Definition sign_bit (a : number) : bool :=
  match a with
  | S754_zero s | S754_infinity s | S754_finite s _ _ => s
  | S754_nan => false
  end.

Definition max (a b : number) : number :=
  match SFcompare a b with
  | None => NaN
  | Some Lt => b
  | Some Gt => a
  | Some Eq => if sign_bit a then b else a
  end.

Definition min (a b : number) : number :=
  match SFcompare a b with
  | None => NaN
  | Some Lt => a
  | Some Gt => b
  | Some Eq => if sign_bit a then a else b
  end.

(** The remainder operator [%]: the result has the sign of the
    dividend and is computed exactly. *)
Definition rem (a b : number) : number :=
  match a, b with
  | S754_nan, _ | _, S754_nan => NaN
  | S754_infinity _, _ => NaN
  | _, S754_zero _ => NaN
  | _, S754_infinity _ => a
  | S754_zero _, _ => a
  | S754_finite sa ma ea, S754_finite _ mb eb =>
      let e := Z.min ea eb in
      let x := Z.pos ma * 2 ^ (ea - e) in
      let y := Z.pos mb * 2 ^ (eb - e) in
      let r := x mod y in
      binary_normalize prec emax (if sa then - r else r) e sa
  end.

(** Truncation of a finite value towards zero, as an integer. *)
Definition truncZ (a : number) : Z :=
  match a with
  | S754_finite s m e => if s then - floor_pos m e else floor_pos m e
  | _ => 0
  end.

(** [ToInt32]: truncate, wrap modulo 2^32 into the signed range. *)
Definition wrap32 (z : Z) : Z :=
  let r := z mod 2 ^ 32 in if 2 ^ 31 <=? r then r - 2 ^ 32 else r.
Definition ToInt32 (a : number) : Z := wrap32 (truncZ a).

(** The bitwise operators: both operands through [ToInt32], the result
    a signed 32-bit integer. The shift count is taken modulo 32. *)
Definition bor (a b : number) : number := of_Z (Z.lor (ToInt32 a) (ToInt32 b)).
Definition band (a b : number) : number := of_Z (Z.land (ToInt32 a) (ToInt32 b)).
Definition bxor (a b : number) : number := of_Z (Z.lxor (ToInt32 a) (ToInt32 b)).
Definition shl (a b : number) : number :=
  of_Z (wrap32 (Z.shiftl (ToInt32 a) (ToInt32 b mod 32))).
Definition shr (a b : number) : number :=
  of_Z (Z.shiftr (ToInt32 a) (ToInt32 b mod 32)).

(** The integer a number denotes when it is integral (either zero
    counts as 0): the index of an element access [arr[v]]. *)
Definition to_index (a : number) : option Z :=
  match a with
  | S754_zero _ => Some 0
  | S754_finite s m e =>
      if exact_pos m e then Some (truncZ a) else None
  | _ => None
  end.

(** The conversion applied by a store into a [Uint8ClampedArray]:
    NaN becomes 0, the value is clamped to [0, 255] and rounded to the
    nearest integer, ties to even. *)
Definition ToUint8Clamp (a : number) : Z :=
  match a with
  | S754_nan | S754_zero _ => 0
  | S754_infinity s => if s then 0 else 255
  | S754_finite true _ _ => 0
  | S754_finite false m e =>
      if 0 <=? e then Z.min 255 (floor_pos m e)
      else
        let k := - e in
        let f := Z.pos m / 2 ^ k in
        let twice_frac := 2 * (Z.pos m mod 2 ^ k) in
        let r :=
          match twice_frac ?= 2 ^ k with
          | Lt => f
          | Gt => f + 1
          | Eq => if Z.even f then f else f + 1
          end in
        Z.min 255 r
  end.

(** The number of iterations of [for (let i = 0; i < bound; i++)].
    Beyond 2^53 the counter stops growing ([2^53 + 1] rounds back to
    [2^53]) and the loop never ends. *)
Definition trip_count (bound : number) : option nat :=
  match bound with
  | S754_nan | S754_zero _ => Some O
  | S754_infinity s => if s then Some O else None
  | S754_finite true _ _ => Some O
  | S754_finite false m e =>
      let n := ceilZ false m e in
      if n <=? 2 ^ 53 then Some (Z.to_nat n) else None
  end.

End Num.

Export Num(number).

(* ===================================================================== *)
(** * Values, parameter maps and the host run time *)
(* ===================================================================== *)

(** The values a parameter map can hold ([number | boolean | string] in
    [types.ts]), and [undefined] for an absent key or an element access
    out of range. *)
Inductive JSValue : Type :=
  | undefined
  | VNum (n : number)
  | VBool (b : bool)
  | VStr (s : string).

(** [GlitchParams] of [types.ts]: an object used as a map from parameter
    names to values. *)
Abbreviation GlitchParams := (gmap string JSValue).

(** [params.key] *)
Definition get (params : GlitchParams) (key : string) : JSValue :=
  default undefined (params !! key).

(** Built-ins of the host engine that the transforms call and that this
    development does not re-implement: [Math.pow] (the language standard
    only asks for an implementation-approximated result) and the
    conversions between strings and numbers, which are reached only when
    a parameter cast [as number] holds a string. Every theorem holds for
    any such engine. *)
Class JSRuntime : Type := {
  Math_pow : number -> number -> number;
  StringToNumber : string -> number;
  NumberToString : number -> string
}.

Section Values.
Context {rt : JSRuntime}.

(** [ToBoolean] *)
Definition truthy (v : JSValue) : bool :=
  match v with
  | undefined => false
  | VNum n => negb (Num.is_nan n || Num.is_zero n)
  | VBool b => b
  | VStr s => negb (String.eqb s "")
  end.

(** [a || b] *)
Definition js_or (a b : JSValue) : JSValue := if truthy a then a else b.

(** [a ?? b] *)
Definition js_nullish (a b : JSValue) : JSValue :=
  match a with undefined => b | _ => a end.

(** [ToNumber] *)
Definition ToNumber (v : JSValue) : number :=
  match v with
  | undefined => Num.NaN
  | VNum n => n
  | VBool b => Num.of_Z (if b then 1 else 0)
  | VStr s => StringToNumber s
  end.

(** [ToString] *)
Definition ToString (v : JSValue) : string :=
  match v with
  | undefined => "undefined"
  | VNum n => NumberToString n
  | VBool b => if b then "true" else "false"
  | VStr s => s
  end.

(** [a + b]: concatenation as soon as one operand is a string. *)
Definition js_plus (a b : JSValue) : JSValue :=
  match a, b with
  | VStr _, _ | _, VStr _ => VStr (ToString a +:+ ToString b)
  | _, _ => VNum (Num.add (ToNumber a) (ToNumber b))
  end.

(** [v === 'literal'] *)
Definition is_str (v : JSValue) (lit : string) : bool :=
  match v with VStr s => String.eqb s lit | _ => false end.

(** [v !== false] *)
Definition is_not_false (v : JSValue) : bool :=
  match v with VBool false => false | _ => true end.

End Values.

(* ===================================================================== *)
(** * The store of typed arrays and the monad of [apply] *)
(* ===================================================================== *)

(** Every [Uint8ClampedArray] is an object of its own; the store holds
    them in allocation order and a reference is a position in it. *)
Abbreviation Store := (list (list Z)).

(** [ImageData]: two read-only dimensions and a reference to the pixel
    buffer. *)
Module ImageData.
Record t : Type := mk { width : Z; height : Z; data : nat }.
End ImageData.
Abbreviation ImageData := ImageData.t.

(** How a call can stop without returning: by throwing, or by running
    forever at a point where it no longer writes. *)
Inductive Stop : Type := Throws | Hangs.

Inductive Outcome (A : Type) : Type :=
  | Ret (a : A) (s : Store)
  | Stopped (w : Stop) (s : Store).
Arguments Ret {A} a s.
Arguments Stopped {A} w s.

Definition M (A : Type) : Type := Store -> Outcome A.

#[global] Instance M_ret : MRet M := fun A a s => Ret a s.
#[global] Instance M_bind : MBind M := fun A B k m s =>
  match m s with
  | Ret a s' => k a s'
  | Stopped w s' => Stopped w s'
  end.

Definition throw {A} : M A := fun s => Stopped Throws s.
Definition hang {A} : M A := fun s => Stopped Hangs s.

(** The final store of an outcome. *)
Definition final {A} (o : Outcome A) : Store :=
  match o with Ret _ s | Stopped _ s => s end.

(** [new ImageData(w, h)]: a fresh zero-filled buffer of [w*h*4] bytes;
    the constructor throws when a dimension is zero. *)
Definition new_ImageData (w h : Z) : M ImageData := fun s =>
  if (0 <? w) && (0 <? h)
  then Ret (ImageData.mk w h (length s))
           (s ++ [replicate (Z.to_nat (w * h * 4)) 0])
  else Stopped Throws s.

(** [arr.length] *)
Definition buf_length (b : nat) : M Z := fun s =>
  Ret (Z.of_nat (length (default [] (s !! b)))) s.

Definition buf_get (buf : list Z) (i : Z) : JSValue :=
  if 0 <=? i
  then match buf !! Z.to_nat i with
       | Some z => VNum (Num.of_Z z)
       | None => undefined
       end
  else undefined.

(** [arr[i]] for an integer [i]: [undefined] out of range. *)
Definition read (b : nat) (i : Z) : M JSValue := fun s =>
  Ret (buf_get (default [] (s !! b)) i) s.

(** [arr[v]] for a number [v]: [undefined] unless [v] is integral. *)
Definition read_num (b : nat) (v : number) : M JSValue :=
  match Num.to_index v with
  | Some i => read b i
  | None => mret undefined
  end.

Definition buf_set (buf : list Z) (i : Z) (v : number) : list Z :=
  if 0 <=? i then <[Z.to_nat i := Num.ToUint8Clamp v]> buf else buf.

(** [arr[i] = v]: the value is clamped and rounded; a store out of range
    is dropped (a typed array never grows). *)
Definition write (b : nat) (i : Z) (v : number) : M unit := fun s =>
  Ret tt (alter (fun buf => buf_set buf i v) b s).

Definition write_num (b : nat) (i : number) (v : number) : M unit :=
  match Num.to_index i with
  | Some i => write b i v
  | None => mret tt
  end.

(** Loops. [iterate n i step body a] runs [body] [n] times with the
    counter starting at [i]; the accumulator carries the [let]-bound
    locals the loop updates. *)
Fixpoint iterate {A} (n : nat) (i step : Z) (body : Z -> A -> M A) (a : A) : M A :=
  match n with
  | O => mret a
  | S n' => a' ← body i a; iterate n' (i + step) step body a'
  end.

(** [for (let i = lo; i < hi; i += step)] with [step > 0]. *)
Definition for_acc {A} (lo hi step : Z) (body : Z -> A -> M A) (init : A) : M A :=
  iterate (Z.to_nat ((hi - lo + step - 1) / step)) lo step body init.

Definition for_step (lo hi step : Z) (body : Z -> M unit) : M unit :=
  for_acc lo hi step (fun i _ => body i) tt.

(** [for (let i = lo; i < hi; i++)] *)
Definition for_ (lo hi : Z) (body : Z -> M unit) : M unit :=
  for_step lo hi 1 body.

(** [for (let i = 0; i < bound; i++)] with a number as bound. *)
Definition for_num {A} (bound : number) (body : Z -> A -> M A) (init : A) : M A :=
  match Num.trip_count bound with
  | Some n => iterate n 0 1 body init
  | None => hang
  end.

(* ===================================================================== *)
(** * Notation for number expressions *)
(* ===================================================================== *)

(** Integer-valued expressions built from loop counters, [width],
    [height], [data.length] and integer literals with [+], [-] and [*],
    halving and division by a power of two under [Math.floor], and [%]
    on such integers are computed in [Z]: on the sizes a bitmap can have
    they stay far below 2^53, where binary64 performs them exactly.
    Everything else -- whatever involves a parameter, a pixel sample, a
    division or a [Math] function -- is computed on [number], in
    [js_scope]. *)
Coercion Num.of_Z : Z >-> number.

Declare Scope js_scope.
Delimit Scope js_scope with js.
Bind Scope js_scope with number.
Infix "+" := Num.add : js_scope.
Infix "-" := Num.sub : js_scope.
Infix "*" := Num.mul : js_scope.
Infix "/" := Num.div : js_scope.
Infix "mod" := Num.rem : js_scope.
Infix "<?" := Num.lt : js_scope.
Infix ">?" := Num.gt : js_scope.
Infix "=?" := Num.eq : js_scope.

Arguments write b%_nat i%_Z v%_js.
Arguments write_num b%_nat i%_js v%_js.
Arguments read_num b%_nat v%_js.
Arguments VNum n%_js.

(* ===================================================================== *)
(** * [types.ts] *)
(* ===================================================================== *)

Module Param.
Inductive ParamType : Type := range | boolean | select.

(** [ParamDefinition]; the human description is left out. *)
Record ParamDefinition : Type := {
  name : string;
  type : ParamType;
  min : option number;
  max : option number;
  step : option number;
  options : list string;
  default : JSValue
}.

Definition Range (n : string) (lo hi st dflt : number) : ParamDefinition :=
  {| name := n; type := range; min := Some lo; max := Some hi;
     step := Some st; options := []; default := VNum dflt |}.
Definition Boolean (n : string) (dflt : bool) : ParamDefinition :=
  {| name := n; type := boolean; min := None; max := None;
     step := None; options := []; default := VBool dflt |}.
Definition Select (n : string) (opts : list string) (dflt : string) : ParamDefinition :=
  {| name := n; type := select; min := None; max := None;
     step := None; options := opts; default := VStr dflt |}.
End Param.
Export Param(ParamDefinition).

Inductive GlitchCategory : Type := pixel_format | memory_layout | coordinates.

#[global] Instance GlitchCategory_eq_dec : EqDecision GlitchCategory.
Proof. solve_decision. Defined.

(** [GlitchDefinition]; the documentation strings ([description],
    [technicalDetails], [bugCode], [fixCode]) are never executed and are
    left out. *)
Record GlitchDefinition : Type := {
  id : string;
  name : string;
  category : GlitchCategory;
  params : list ParamDefinition;
  apply : ImageData -> GlitchParams -> M ImageData
}.

(* ===================================================================== *)
(** * The transforms *)
(* ===================================================================== *)

Section Transforms.
Context {rt : JSRuntime}.

(** ** [pixel-format/rgba-as-rgb.ts] *)

Definition rgbaAsRgb_apply (imageData : ImageData) (params : GlitchParams)
  : M ImageData :=
  let '(ImageData.mk width height data) := imageData in
  let intensity := ToNumber (js_or (get params "intensity") (VNum 1)) in
  output ← new_ImageData width height;
  let outData := output.(ImageData.data) in
  data_length ← buf_length data;
  let bytesPerPixelWrong := 3 in
  let bytesPerPixelCorrect := 4 in
  for_ 0 height (fun y =>
    for_ 0 width (fun x =>
      let correctIdx := (y * width + x) * bytesPerPixelCorrect in
      let wrongPixelIndex := y * width + x in
      let wrongByteOffset := wrongPixelIndex * bytesPerPixelWrong in
      let wrongIdx :=
        Z.rem wrongByteOffset (width * height * bytesPerPixelCorrect) in
      if wrongIdx + 2 <? data_length then
        c0 ← read data correctIdx;
        w0 ← read data wrongIdx;
        write outData correctIdx
          (Num.round (ToNumber c0 * (1 - intensity) + ToNumber w0 * intensity));;
        c1 ← read data (correctIdx + 1);
        w1 ← read data (wrongIdx + 1);
        write outData (correctIdx + 1)
          (Num.round (ToNumber c1 * (1 - intensity) + ToNumber w1 * intensity));;
        c2 ← read data (correctIdx + 2);
        w2 ← read data (wrongIdx + 2);
        write outData (correctIdx + 2)
          (Num.round (ToNumber c2 * (1 - intensity) + ToNumber w2 * intensity));;
        write outData (correctIdx + 3) 255
      else
        c0 ← read data correctIdx;
        write outData correctIdx (ToNumber c0);;
        c1 ← read data (correctIdx + 1);
        write outData (correctIdx + 1) (ToNumber c1);;
        c2 ← read data (correctIdx + 2);
        write outData (correctIdx + 2) (ToNumber c2);;
        write outData (correctIdx + 3) 255));;
  mret output.

Definition rgbaAsRgb : GlitchDefinition := {|
  id := "rgba-as-rgb";
  name := "RGBA as RGB";
  category := pixel_format;
  params := [Param.Range "intensity" (Num.dec 1 1) 1 (Num.dec 1 1) 1];
  apply := rgbaAsRgb_apply
|}.

(** ** [pixel-format/rgb-as-rgba.ts] *)

Definition rgbAsRgba_apply (imageData : ImageData) (params : GlitchParams)
  : M ImageData :=
  let '(ImageData.mk width height data) := imageData in
  let intensity := ToNumber (js_or (get params "intensity") (VNum 1)) in
  output ← new_ImageData width height;
  let outData := output.(ImageData.data) in
  data_length ← buf_length data;
  let bytesPerPixelWrong := 4 in
  let bytesPerPixelCorrect := 3 in
  for_ 0 height (fun y =>
    for_ 0 width (fun x =>
      let outIdx := (y * width + x) * 4 in
      let wrongPixelIndex := y * width + x in
      let wrongByteOffset := wrongPixelIndex * bytesPerPixelWrong in
      let actualPixelIndex :=
        Num.floor (wrongByteOffset / bytesPerPixelCorrect)%js in
      let srcIdx := ((actualPixelIndex mod (width * height)%Z) * 4)%js in
      if (srcIdx + 3 <? Num.of_Z data_length)%js then
        c0 ← read data outIdx;
        s0 ← read_num data srcIdx;
        write outData outIdx
          (Num.round (ToNumber c0 * (1 - intensity) + ToNumber s0 * intensity));;
        c1 ← read data (outIdx + 1);
        s1 ← read_num data (srcIdx + 1);
        write outData (outIdx + 1)
          (Num.round (ToNumber c1 * (1 - intensity) + ToNumber s1 * intensity));;
        c2 ← read data (outIdx + 2);
        s2 ← read_num data (srcIdx + 2);
        write outData (outIdx + 2)
          (Num.round (ToNumber c2 * (1 - intensity) + ToNumber s2 * intensity));;
        write outData (outIdx + 3) 255
      else
        c0 ← read data outIdx;
        write outData outIdx (ToNumber c0);;
        c1 ← read data (outIdx + 1);
        write outData (outIdx + 1) (ToNumber c1);;
        c2 ← read data (outIdx + 2);
        write outData (outIdx + 2) (ToNumber c2);;
        write outData (outIdx + 3) 255));;
  mret output.

Definition rgbAsRgba : GlitchDefinition := {|
  id := "rgb-as-rgba";
  name := "RGB as RGBA";
  category := pixel_format;
  params := [
    Param.Range "intensity" (Num.dec 1 1) 1 (Num.dec 1 1) 1
  ];
  apply := rgbAsRgba_apply
|}.

(** ** [pixel-format/bgr-swap.ts] *)

Definition bgrSwap_apply (imageData : ImageData) (params : GlitchParams)
  : M ImageData :=
  let '(ImageData.mk width height data) := imageData in
  let swapMode := js_or (get params "swapMode") (VStr "RGB to BGR") in
  output ← new_ImageData width height;
  let outData := output.(ImageData.data) in
  data_length ← buf_length data;
  for_step 0 data_length 4 (fun i =>
    r ← read data i;
    g ← read data (i + 1);
    b ← read data (i + 2);
    a ← read data (i + 3);
    (if is_str swapMode "RGB to BGR" then
       write outData i (ToNumber b);;
       write outData (i + 1) (ToNumber g);;
       write outData (i + 2) (ToNumber r)
     else if is_str swapMode "Swap R and G" then
       write outData i (ToNumber g);;
       write outData (i + 1) (ToNumber r);;
       write outData (i + 2) (ToNumber b)
     else if is_str swapMode "Swap G and B" then
       write outData i (ToNumber r);;
       write outData (i + 1) (ToNumber b);;
       write outData (i + 2) (ToNumber g)
     else
       write outData i (ToNumber b);;
       write outData (i + 1) (ToNumber g);;
       write outData (i + 2) (ToNumber r));;
    write outData (i + 3) (ToNumber a));;
  mret output.

Definition bgrSwap : GlitchDefinition := {|
  id := "bgr-swap";
  name := "BGR Swap";
  category := pixel_format;
  params := [
    Param.Select "swapMode"
      ["RGB to BGR";
       "Swap R and G";
       "Swap G and B"]
      "RGB to BGR"
  ];
  apply := bgrSwap_apply
|}.

(** ** [pixel-format/argb-order.ts] *)

Definition argbOrder_apply (imageData : ImageData) (params : GlitchParams)
  : M ImageData :=
  let '(ImageData.mk width height data) := imageData in
  let format := js_or (get params "format") (VStr "RGBA as ARGB") in
  output ← new_ImageData width height;
  let outData := output.(ImageData.data) in
  data_length ← buf_length data;
  for_step 0 data_length 4 (fun i =>
    r ← read data i;
    g ← read data (i + 1);
    b ← read data (i + 2);
    a ← read data (i + 3);
    if is_str format "RGBA as ARGB" then
      write outData i (ToNumber a);;
      write outData (i + 1) (ToNumber r);;
      write outData (i + 2) (ToNumber g);;
      write outData (i + 3) (ToNumber b)
    else if is_str format "RGBA as ABGR" then
      write outData i (ToNumber a);;
      write outData (i + 1) (ToNumber b);;
      write outData (i + 2) (ToNumber g);;
      write outData (i + 3) (ToNumber r)
    else if is_str format "RGBA as BGRA" then
      write outData i (ToNumber b);;
      write outData (i + 1) (ToNumber g);;
      write outData (i + 2) (ToNumber r);;
      write outData (i + 3) (ToNumber a)
    else if is_str format "Rotate channels left" then
      write outData i (ToNumber g);;
      write outData (i + 1) (ToNumber b);;
      write outData (i + 2) (ToNumber a);;
      write outData (i + 3) (ToNumber r)
    else if is_str format "Rotate channels right" then
      write outData i (ToNumber a);;
      write outData (i + 1) (ToNumber r);;
      write outData (i + 2) (ToNumber g);;
      write outData (i + 3) (ToNumber b)
    else
      write outData i (ToNumber r);;
      write outData (i + 1) (ToNumber g);;
      write outData (i + 2) (ToNumber b);;
      write outData (i + 3) (ToNumber a));;
  mret output.

Definition argbOrder : GlitchDefinition := {|
  id := "argb-order";
  name := "ARGB/ABGR Order";
  category := pixel_format;
  params := [
    Param.Select "format"
      ["RGBA as ARGB";
       "RGBA as ABGR";
       "RGBA as BGRA";
       "Rotate channels left";
       "Rotate channels right"]
      "RGBA as ARGB"
  ];
  apply := argbOrder_apply
|}.

(** ** [pixel-format/endianness.ts] *)

Definition endianness_apply (imageData : ImageData) (params : GlitchParams)
  : M ImageData :=
  let '(ImageData.mk width height data) := imageData in
  let swapMode :=
    js_or (get params "swapMode") (VStr "Swap 32-bit (full reverse)") in
  output ← new_ImageData width height;
  let outData := output.(ImageData.data) in
  data_length ← buf_length data;
  for_step 0 data_length 4 (fun i =>
    r ← read data i;
    g ← read data (i + 1);
    b ← read data (i + 2);
    a ← read data (i + 3);
    if is_str swapMode "Swap 32-bit (full reverse)" then
      write outData i (ToNumber a);;
      write outData (i + 1) (ToNumber b);;
      write outData (i + 2) (ToNumber g);;
      write outData (i + 3) (ToNumber r)
    else if is_str swapMode "Swap 16-bit pairs" then
      write outData i (ToNumber g);;
      write outData (i + 1) (ToNumber r);;
      write outData (i + 2) (ToNumber a);;
      write outData (i + 3) (ToNumber b)
    else if is_str swapMode "Swap within 16-bit" then
      write outData i (ToNumber g);;
      write outData (i + 1) (ToNumber r);;
      write outData (i + 2) (ToNumber b);;
      write outData (i + 3) (ToNumber a)
    else
      write outData i (ToNumber r);;
      write outData (i + 1) (ToNumber g);;
      write outData (i + 2) (ToNumber b);;
      write outData (i + 3) (ToNumber a));;
  mret output.

Definition endianness : GlitchDefinition := {|
  id := "endianness";
  name := "Endianness Swap";
  category := pixel_format;
  params := [
    Param.Select "swapMode"
      ["Swap 32-bit (full reverse)";
       "Swap 16-bit pairs";
       "Swap within 16-bit"]
      "Swap 32-bit (full reverse)"
  ];
  apply := endianness_apply
|}.

(** ** [pixel-format/channel-shift.ts] *)

Definition channelShift_apply (imageData : ImageData) (params : GlitchParams)
  : M ImageData :=
  let '(ImageData.mk width height data) := imageData in
  let redShift := js_or (get params "redShift") (VNum 0) in
  let greenShift := js_or (get params "greenShift") (VNum 0) in
  let blueShift := js_or (get params "blueShift") (VNum 0) in
  output ← new_ImageData width height;
  let outData := output.(ImageData.data) in
  for_ 0 height (fun y =>
    for_ 0 width (fun x =>
      let idx := (y * width + x) * 4 in
      let redX :=
        Num.max 0 (Num.min (width - 1)%Z (ToNumber (js_plus (VNum x) redShift))) in
      let greenX :=
        Num.max 0 (Num.min (width - 1)%Z (ToNumber (js_plus (VNum x) greenShift))) in
      let blueX :=
        Num.max 0 (Num.min (width - 1)%Z (ToNumber (js_plus (VNum x) blueShift))) in
      let redIdx := (((y * width)%Z + redX) * 4)%js in
      let greenIdx := (((y * width)%Z + greenX) * 4)%js in
      let blueIdx := (((y * width)%Z + blueX) * 4)%js in
      r ← read_num data redIdx;
      write outData idx (ToNumber r);;
      g ← read_num data (greenIdx + 1);
      write outData (idx + 1) (ToNumber g);;
      b ← read_num data (blueIdx + 2);
      write outData (idx + 2) (ToNumber b);;
      a ← read data (idx + 3);
      write outData (idx + 3) (ToNumber a)));;
  mret output.

Definition channelShift : GlitchDefinition := {|
  id := "channel-shift";
  name := "Channel Shift";
  category := pixel_format;
  params := [
    Param.Range "redShift" (-20) 20 1 5;
    Param.Range "greenShift" (-20) 20 1 0;
    Param.Range "blueShift" (-20) 20 1 (-5)
  ];
  apply := channelShift_apply
|}.

(** ** [pixel-format/bit-depth.ts] *)

Definition bitDepth_apply (imageData : ImageData) (params : GlitchParams)
  : M ImageData :=
  let '(ImageData.mk width height data) := imageData in
  let mode := js_or (get params "mode") (VStr "Posterize (reduce bits)") in
  let bits := ToNumber (js_or (get params "bits") (VNum 3)) in
  output ← new_ImageData width height;
  let outData := output.(ImageData.data) in
  data_length ← buf_length data;
  let levels := Math_pow 2 bits in
  let factor := (255 / (levels - 1))%js in
  for_step 0 data_length 4 (fun i =>
    r ← read data i;
    g ← read data (i + 1);
    b ← read data (i + 2);
    let '(r, g, b) :=
      if is_str mode "Posterize (reduce bits)" then
        (Num.round (Num.round (ToNumber r / factor) * factor),
         Num.round (Num.round (ToNumber g / factor) * factor),
         Num.round (Num.round (ToNumber b / factor) * factor))%js
      else if is_str mode "Simulate 16-bit as 8-bit" then
        ((ToNumber r * 256) mod 256,
         (ToNumber g * 256) mod 256,
         (ToNumber b * 256) mod 256)%js
      else if is_str mode "Bit truncation" then
        let mask := Num.band (Num.shl 255 (8 - bits)) 255 in
        (Num.band (ToNumber r) mask,
         Num.band (ToNumber g) mask,
         Num.band (ToNumber b) mask)
      else (ToNumber r, ToNumber g, ToNumber b) in
    write outData i r;;
    write outData (i + 1) g;;
    write outData (i + 2) b;;
    a ← read data (i + 3);
    write outData (i + 3) (ToNumber a));;
  mret output.

Definition bitDepth : GlitchDefinition := {|
  id := "bit-depth";
  name := "Bit Depth Mismatch";
  category := pixel_format;
  params := [
    Param.Select "mode"
      ["Posterize (reduce bits)";
       "Simulate 16-bit as 8-bit";
       "Bit truncation"]
      "Posterize (reduce bits)";
    Param.Range "bits" 1 7 1 3
  ];
  apply := bitDepth_apply
|}.

(** ** [pixel-format/gamma.ts] *)

Definition gamma_apply (imageData : ImageData) (params : GlitchParams)
  : M ImageData :=
  let '(ImageData.mk width height data) := imageData in
  let mode :=
    js_or (get params "mode") (VStr "sRGB treated as Linear (washed out)") in
  let gamma := ToNumber (js_or (get params "gamma") (VNum (Num.dec 22 1))) in
  output ← new_ImageData width height;
  let outData := output.(ImageData.data) in
  data_length ← buf_length data;
  for_step 0 data_length 4 (fun i =>
    r ← read data i;
    g ← read data (i + 1);
    b ← read data (i + 2);
    let r := (ToNumber r / 255)%js in
    let g := (ToNumber g / 255)%js in
    let b := (ToNumber b / 255)%js in
    let '(r, g, b) :=
      if is_str mode "sRGB treated as Linear (washed out)" then
        (Math_pow r (1 / gamma), Math_pow g (1 / gamma), Math_pow b (1 / gamma))%js
      else if is_str mode "Linear treated as sRGB (too dark)" then
        (Math_pow r gamma, Math_pow g gamma, Math_pow b gamma)
      else if is_str mode "Double gamma" then
        (Math_pow r (gamma / Num.dec 22 1 * 2),
         Math_pow g (gamma / Num.dec 22 1 * 2),
         Math_pow b (gamma / Num.dec 22 1 * 2))%js
      else if is_str mode "Inverse gamma" then
        (Math_pow r (1 / (gamma * gamma / Num.dec 22 1)),
         Math_pow g (1 / (gamma * gamma / Num.dec 22 1)),
         Math_pow b (1 / (gamma * gamma / Num.dec 22 1)))%js
      else (r, g, b) in
    write outData i (Num.round (Num.max 0 (Num.min 1 r) * 255));;
    write outData (i + 1) (Num.round (Num.max 0 (Num.min 1 g) * 255));;
    write outData (i + 2) (Num.round (Num.max 0 (Num.min 1 b) * 255));;
    a ← read data (i + 3);
    write outData (i + 3) (ToNumber a));;
  mret output.

Definition gamma : GlitchDefinition := {|
  id := "gamma";
  name := "Gamma / sRGB Mismatch";
  category := pixel_format;
  params := [
    Param.Select "mode"
      ["sRGB treated as Linear (washed out)";
       "Linear treated as sRGB (too dark)";
       "Double gamma";
       "Inverse gamma"]
      "sRGB treated as Linear (washed out)";
    Param.Range "gamma" (Num.dec 10 1) (Num.dec 30 1) (Num.dec 1 1) (Num.dec 22 1)
  ];
  apply := gamma_apply
|}.

(** ** [pixel-format/premultiplied-alpha.ts] *)

Definition premultipliedAlpha_apply (imageData : ImageData) (params : GlitchParams)
  : M ImageData :=
  let '(ImageData.mk width height data) := imageData in
  let mode :=
    js_or (get params "mode")
          (VStr "Straight as Premultiplied (dark fringes)") in
  let bgR := (ToNumber (js_or (get params "backgroundR") (VNum 128)) / 255)%js in
  let bgG := (ToNumber (js_or (get params "backgroundG") (VNum 128)) / 255)%js in
  let bgB := (ToNumber (js_or (get params "backgroundB") (VNum 128)) / 255)%js in
  output ← new_ImageData width height;
  let outData := output.(ImageData.data) in
  data_length ← buf_length data;
  for_step 0 data_length 4 (fun i =>
    r ← read data i;
    g ← read data (i + 1);
    b ← read data (i + 2);
    a ← read data (i + 3);
    let r := (ToNumber r / 255)%js in
    let g := (ToNumber g / 255)%js in
    let b := (ToNumber b / 255)%js in
    let a := (ToNumber a / 255)%js in
    let '(outR, outG, outB) :=
      if is_str mode "Straight as Premultiplied (dark fringes)" then
        (r + bgR * (1 - a), g + bgG * (1 - a), b + bgB * (1 - a))%js
      else if is_str mode "Premultiplied as Straight (too bright)" then
        let pm_r := (r * a)%js in
        let pm_g := (g * a)%js in
        let pm_b := (b * a)%js in
        (pm_r * a + bgR * (1 - a),
         pm_g * a + bgG * (1 - a),
         pm_b * a + bgB * (1 - a))%js
      else if is_str mode "Double premultiply" then
        let a2 := (a * a)%js in
        (r * a2 + bgR * (1 - a),
         g * a2 + bgG * (1 - a),
         b * a2 + bgB * (1 - a))%js
      else if is_str mode "Show alpha errors" then
        let maxRGB := Num.max (Num.max r g) b in
        if (a <? 1)%js && (maxRGB >? a + Num.dec 1 2)%js then
          (Num.of_Z 1, Num.of_Z 0, Num.of_Z 1)
        else
          (r * a + bgR * (1 - a),
           g * a + bgG * (1 - a),
           b * a + bgB * (1 - a))%js
      else
        (r * a + bgR * (1 - a),
         g * a + bgG * (1 - a),
         b * a + bgB * (1 - a))%js in
    write outData i (Num.round (Num.max 0 (Num.min 1 outR) * 255));;
    write outData (i + 1) (Num.round (Num.max 0 (Num.min 1 outG) * 255));;
    write outData (i + 2) (Num.round (Num.max 0 (Num.min 1 outB) * 255));;
    write outData (i + 3) 255);;
  mret output.

Definition premultipliedAlpha : GlitchDefinition := {|
  id := "premultiplied-alpha";
  name := "Premultiplied Alpha";
  category := pixel_format;
  params := [
    Param.Select "mode"
      ["Straight as Premultiplied (dark fringes)";
       "Premultiplied as Straight (too bright)";
       "Double premultiply";
       "Show alpha errors"]
      "Straight as Premultiplied (dark fringes)";
    Param.Range "backgroundR" 0 255 1 128;
    Param.Range "backgroundG" 0 255 1 128;
    Param.Range "backgroundB" 0 255 1 128
  ];
  apply := premultipliedAlpha_apply
|}.

(** ** [pixel-format/signed-unsigned.ts] *)

Definition signedUnsigned_apply (imageData : ImageData) (params : GlitchParams)
  : M ImageData :=
  let '(ImageData.mk width height data) := imageData in
  let mode :=
    js_or (get params "mode")
          (VStr "Unsigned as Signed (bright becomes dark)") in
  output ← new_ImageData width height;
  let outData := output.(ImageData.data) in
  data_length ← buf_length data;
  for_step 0 data_length 4 (fun i =>
    r ← read data i;
    g ← read data (i + 1);
    b ← read data (i + 2);
    let r := ToNumber r in
    let g := ToNumber g in
    let b := ToNumber b in
    let '(r, g, b) :=
      if is_str mode "Unsigned as Signed (bright becomes dark)" then
        let r := if (r >? 127)%js then (r - 256)%js else r in
        let g := if (g >? 127)%js then (g - 256)%js else g in
        let b := if (b >? 127)%js then (b - 256)%js else b in
        let r := if (r <? 0)%js then (256 + r)%js else r in
        let g := if (g <? 0)%js then (256 + g)%js else g in
        let b := if (b <? 0)%js then (256 + b)%js else b in
        ((r + 128) mod 256, (g + 128) mod 256, (b + 128) mod 256)%js
      else if is_str mode "Signed range visualization" then
        if (r >? 127)%js || (g >? 127)%js || (b >? 127)%js then
          (if (r >? 127)%js then (255 - r)%js else r,
           if (g >? 127)%js then (255 - g)%js else g,
           if (b >? 127)%js then (255 - b)%js else b)
        else (r, g, b)
      else if is_str mode "Normalize to signed (-1 to 1)" then
        (Num.round (((r / 255) * 2 - 1) * 127 + 128),
         Num.round (((g / 255) * 2 - 1) * 127 + 128),
         Num.round (((b / 255) * 2 - 1) * 127 + 128))%js
      else if is_str mode "Absolute value (fold negatives)" then
        let r := if (r >? 127)%js then (255 - r)%js else r in
        let g := if (g >? 127)%js then (255 - g)%js else g in
        let b := if (b >? 127)%js then (255 - b)%js else b in
        (Num.min 255 (r * 2), Num.min 255 (g * 2), Num.min 255 (b * 2))%js
      else (r, g, b) in
    write outData i (Num.max 0 (Num.min 255 r));;
    write outData (i + 1) (Num.max 0 (Num.min 255 g));;
    write outData (i + 2) (Num.max 0 (Num.min 255 b));;
    a ← read data (i + 3);
    write outData (i + 3) (ToNumber a));;
  mret output.

Definition signedUnsigned : GlitchDefinition := {|
  id := "signed-unsigned";
  name := "Signed/Unsigned Mismatch";
  category := pixel_format;
  params := [
    Param.Select "mode"
      ["Unsigned as Signed (bright becomes dark)";
       "Signed range visualization";
       "Normalize to signed (-1 to 1)";
       "Absolute value (fold negatives)"]
      "Unsigned as Signed (bright becomes dark)"
  ];
  apply := signedUnsigned_apply
|}.

(** ** [pixel-format/compression.ts] *)

Definition compression_apply (imageData : ImageData) (params : GlitchParams)
  : M ImageData :=
  let '(ImageData.mk width height data) := imageData in
  let blockSizeStr := js_or (get params "blockSize") (VStr "8x8 (JPEG)") in
  let quality := ToNumber (js_or (get params "quality") (VNum 3)) in
  output ← new_ImageData width height;
  let outData := output.(ImageData.data) in
  (* [blockSizeStr.startsWith] is not a function unless the value is a
     string: the call throws a TypeError. *)
  match blockSizeStr with
  | VStr str =>
    let blockSize :=
      if String.prefix "4" str then 4
      else if String.prefix "8" str then 8 else 16 in
    let quantFactor := Num.floor (32 / quality)%js in
    for_step 0 height blockSize (fun by_ =>
      for_step 0 width blockSize (fun bx =>
        '(sumR, sumG, sumB, count) ←
          for_acc by_ (Z.min (by_ + blockSize) height) 1 (fun y acc =>
            for_acc bx (Z.min (bx + blockSize) width) 1
              (fun x '(sumR, sumG, sumB, count) =>
                let idx := (y * width + x) * 4 in
                r ← read data idx;
                g ← read data (idx + 1);
                b ← read data (idx + 2);
                mret ((sumR + ToNumber r)%js,
                      (sumG + ToNumber g)%js,
                      (sumB + ToNumber b)%js,
                      count + 1)) acc)
            (Num.of_Z 0, Num.of_Z 0, Num.of_Z 0, 0);
        let avgR := (sumR / Num.of_Z count)%js in
        let avgG := (sumG / Num.of_Z count)%js in
        let avgB := (sumB / Num.of_Z count)%js in
        for_step by_ (Z.min (by_ + blockSize) height) 1 (fun y =>
          for_step bx (Z.min (bx + blockSize) width) 1 (fun x =>
            let idx := (y * width + x) * 4 in
            r ← read data idx;
            g ← read data (idx + 1);
            b ← read data (idx + 2);
            let r := (Num.round (ToNumber r / quantFactor) * quantFactor)%js in
            let g := (Num.round (ToNumber g / quantFactor) * quantFactor)%js in
            let b := (Num.round (ToNumber b / quantFactor) * quantFactor)%js in
            let blendFactor := ((11 - quality) / 20)%js in
            let r := Num.round (r * (1 - blendFactor) + avgR * blendFactor) in
            let g := Num.round (g * (1 - blendFactor) + avgG * blendFactor) in
            let b := Num.round (b * (1 - blendFactor) + avgB * blendFactor) in
            write outData idx (Num.max 0 (Num.min 255 r));;
            write outData (idx + 1) (Num.max 0 (Num.min 255 g));;
            write outData (idx + 2) (Num.max 0 (Num.min 255 b));;
            a ← read data (idx + 3);
            write outData (idx + 3) (ToNumber a)))));;
    mret output
  | _ => throw
  end.

Definition compression : GlitchDefinition := {|
  id := "compression";
  name := "Compression Artifacts";
  category := pixel_format;
  params := [
    Param.Select "blockSize"
      ["4x4 (DXT/BCn)";
       "8x8 (JPEG)";
       "16x16 (heavy)"]
      "8x8 (JPEG)";
    Param.Range "quality" 1 10 1 3
  ];
  apply := compression_apply
|}.

(** ** [pixel-format/yuv.ts] *)

(** RGB to YUV (BT.709) *)
Definition rgbToYuv (r g b : number) : number * number * number :=
  (Num.dec 2126 4 * r + Num.dec 7152 4 * g + Num.dec 722 4 * b,
   Num.dec (-1146) 4 * r - Num.dec 3854 4 * g + Num.dec 5 1 * b + 128,
   Num.dec 5 1 * r - Num.dec 4542 4 * g - Num.dec 458 4 * b + 128)%js.

(** YUV to RGB (BT.709) *)
Definition yuvToRgb (y u v : number) : number * number * number :=
  (y + Num.dec 15748 4 * (v - 128),
   y - Num.dec 1873 4 * (u - 128) - Num.dec 4681 4 * (v - 128),
   y + Num.dec 18556 4 * (u - 128))%js.

(** Wrong matrix (BT.601 instead of BT.709) *)
Definition yuvToRgbWrong (y u v : number) : number * number * number :=
  (y + Num.dec 1402 3 * (v - 128),
   y - Num.dec 344 3 * (u - 128) - Num.dec 714 3 * (v - 128),
   y + Num.dec 1772 3 * (u - 128))%js.

Definition yuv_apply (imageData : ImageData) (params : GlitchParams)
  : M ImageData :=
  let '(ImageData.mk width height data) := imageData in
  let mode := js_or (get params "mode") (VStr "YUV interpreted as RGB") in
  output ← new_ImageData width height;
  let outData := output.(ImageData.data) in
  data_length ← buf_length data;
  for_step 0 data_length 4 (fun i =>
    r ← read data i;
    g ← read data (i + 1);
    b ← read data (i + 2);
    let '(y, u, v) := rgbToYuv (ToNumber r) (ToNumber g) (ToNumber b) in
    '(outR, outG, outB) ←
      (if is_str mode "YUV interpreted as RGB" then
         mret (y, u, v)
       else if is_str mode "Swapped U/V (green/purple)" then
         mret (yuvToRgb y v u)
       else if is_str mode "Wrong range (washed out)" then
         let yLimited := ((y - 16) * 255 / 219)%js in
         let uLimited := ((u - 16) * 255 / 224)%js in
         let vLimited := ((v - 16) * 255 / 224)%js in
         mret (yuvToRgb yLimited uLimited vLimited)
       else if is_str mode "Wrong matrix (color shift)" then
         mret (yuvToRgbWrong y u v)
       else if is_str mode "Missing chroma (grayscale bleed)" then
         (* [i] is a multiple of 4, so [i / 4] is the pixel index *)
         let blockX := Z.rem (i / 4) width / 4 in
         let blockY :=
           Num.floor (Num.floor (Num.of_Z (i / 4) / Num.of_Z width) / 4)%js in
         let cornerIdx :=
           ((blockY * 4 * Num.of_Z width + Num.of_Z (blockX * 4)) * 4)%js in
         c0 ← read_num data cornerIdx;
         let cornerR := js_nullish c0 r in
         c1 ← read_num data (cornerIdx + 1);
         let cornerG := js_nullish c1 g in
         c2 ← read_num data (cornerIdx + 2);
         let cornerB := js_nullish c2 b in
         let '(_, cornerU, cornerV) :=
           rgbToYuv (ToNumber cornerR) (ToNumber cornerG) (ToNumber cornerB) in
         mret (yuvToRgb y cornerU cornerV)
       else
         mret (ToNumber r, ToNumber g, ToNumber b));
    write outData i (Num.max 0 (Num.min 255 (Num.round outR)));;
    write outData (i + 1) (Num.max 0 (Num.min 255 (Num.round outG)));;
    write outData (i + 2) (Num.max 0 (Num.min 255 (Num.round outB)));;
    a ← read data (i + 3);
    write outData (i + 3) (ToNumber a));;
  mret output.

Definition yuv : GlitchDefinition := {|
  id := "yuv";
  name := "YUV/Color Space Errors";
  category := pixel_format;
  params := [
    Param.Select "mode"
      ["YUV interpreted as RGB";
       "Swapped U/V (green/purple)";
       "Wrong range (washed out)";
       "Wrong matrix (color shift)";
       "Missing chroma (grayscale bleed)"]
      "YUV interpreted as RGB"
  ];
  apply := yuv_apply
|}.

(** ** [pixel-format/float-precision.ts] *)

(** Simple hash for deterministic randomness *)
Definition hash (x y : number) : number :=
  let h := (x * 374761393 + y * 668265263)%js in
  let h := (Num.bxor h (Num.shr h 13) * 1274126177)%js in
  (Num.bxor h (Num.shr h 16) / 4294967296 + Num.dec 5 1)%js.

Definition floatPrecision_apply (imageData : ImageData) (params : GlitchParams)
  : M ImageData :=
  let '(ImageData.mk width height data) := imageData in
  let mode := js_or (get params "mode") (VStr "NaN holes (black spots)") in
  let intensity := ToNumber (js_or (get params "intensity") (VNum 5)) in
  output ← new_ImageData width height;
  let outData := output.(ImageData.data) in
  for_ 0 height (fun y =>
    for_ 0 width (fun x =>
      let idx := (y * width + x) * 4 in
      r ← read data idx;
      g ← read data (idx + 1);
      b ← read data (idx + 2);
      let r := ToNumber r in
      let g := ToNumber g in
      let b := ToNumber b in
      let '(r, g, b) :=
        if is_str mode "NaN holes (black spots)" then
          let threshold := (intensity * 10)%js in
          if ((r + g + b) / 3 <? threshold)%js
             || ((r + g + b) / 3 >? 255 - threshold)%js
          then
            if (hash x y <? intensity / 20)%js
            then (Num.of_Z 0, Num.of_Z 0, Num.of_Z 0)
            else (r, g, b)
          else (r, g, b)
        else if is_str mode "Infinity clipping" then
          let brightness := ((r + g + b) / 3)%js in
          if (brightness >? 255 - intensity * 10)%js then
            let overflowFactor :=
              (1 + (brightness - (255 - intensity * 10)) / 50)%js in
            let r := Num.min 255 (r * overflowFactor) in
            let g := Num.min 255 (g * overflowFactor) in
            let b := Num.min 255 (b * overflowFactor) in
            (if (r >? 255)%js then Num.of_Z 255 else r,
             if (g >? 250)%js then Num.of_Z 250 else g,
             if (b >? 245)%js then Num.of_Z 245 else b)
          else (r, g, b)
        else if is_str mode "Precision banding" then
          let precision := Num.max 1 (Num.floor (intensity * 3)) in
          let quantR := Num.max 1 (precision - Num.floor (r / 32)) in
          let quantG := Num.max 1 (precision - Num.floor (g / 32)) in
          let quantB := Num.max 1 (precision - Num.floor (b / 32)) in
          (Num.round (r / quantR) * quantR,
           Num.round (g / quantG) * quantG,
           Num.round (b / quantB) * quantB)%js
        else if is_str mode "Denormal visualization" then
          let denormalThreshold := intensity in
          (if (r <? denormalThreshold)%js
           then (if (r >? 0)%js then Num.of_Z 128 else Num.of_Z 0) else r,
           if (g <? denormalThreshold)%js
           then (if (g >? 0)%js then Num.of_Z 128 else Num.of_Z 0) else g,
           if (b <? denormalThreshold)%js
           then (if (b >? 0)%js then Num.of_Z 128 else Num.of_Z 0) else b)
        else if is_str mode "Random corruption" then
          if (hash x y <? intensity / 100)%js then
            let corruptType := Num.floor (hash (x + 100)%Z y * 4) in
            if (corruptType =? 0)%js then (Num.of_Z 0, Num.of_Z 0, Num.of_Z 0)
            else if (corruptType =? 1)%js
            then (Num.of_Z 255, Num.of_Z 255, Num.of_Z 255)
            else if (corruptType =? 2)%js
            then (Num.of_Z 255, Num.of_Z 0, Num.of_Z 255)
            else if (corruptType =? 3)%js
            then (Num.floor (hash x (y + 1)%Z * 256),
                  Num.floor (hash (x + 1)%Z y * 256),
                  Num.floor (hash (x + 1)%Z (y + 1)%Z * 256))
            else (r, g, b)
          else (r, g, b)
        else (r, g, b) in
      write outData idx (Num.max 0 (Num.min 255 (Num.round r)));;
      write outData (idx + 1) (Num.max 0 (Num.min 255 (Num.round g)));;
      write outData (idx + 2) (Num.max 0 (Num.min 255 (Num.round b)));;
      a ← read data (idx + 3);
      write outData (idx + 3) (ToNumber a)));;
  mret output.

Definition floatPrecision : GlitchDefinition := {|
  id := "float-precision";
  name := "Float Precision Errors";
  category := pixel_format;
  params := [
    Param.Select "mode"
      ["NaN holes (black spots)";
       "Infinity clipping";
       "Precision banding";
       "Denormal visualization";
       "Random corruption"]
      "NaN holes (black spots)";
    Param.Range "intensity" 1 10 1 5
  ];
  apply := floatPrecision_apply
|}.

(** ** [memory-layout/wrong-stride.ts] *)

Definition wrongStride_apply (imageData : ImageData) (params : GlitchParams)
  : M ImageData :=
  let '(ImageData.mk width height data) := imageData in
  let strideError := js_or (get params "strideError") (VNum 4) in
  output ← new_ImageData width height;
  let outData := output.(ImageData.data) in
  data_length ← buf_length data;
  let correctStride := width * 4 in
  let wrongStride := ToNumber (js_plus (VNum correctStride) strideError) in
  for_ 0 height (fun y =>
    for_ 0 width (fun x =>
      let outIdx := (y * width + x) * 4 in
      let wrongOffset := (y * wrongStride + (x * 4)%Z)%js in
      let wrongIdx := (wrongOffset mod Num.of_Z data_length)%js in
      if (wrongIdx + 3 <? Num.of_Z data_length)%js then
        v0 ← read_num data wrongIdx;
        write outData outIdx (ToNumber v0);;
        v1 ← read_num data (wrongIdx + 1);
        write outData (outIdx + 1) (ToNumber v1);;
        v2 ← read_num data (wrongIdx + 2);
        write outData (outIdx + 2) (ToNumber v2);;
        write outData (outIdx + 3) 255
      else
        write outData outIdx 0;;
        write outData (outIdx + 1) 0;;
        write outData (outIdx + 2) 0;;
        write outData (outIdx + 3) 255));;
  mret output.

Definition wrongStride : GlitchDefinition := {|
  id := "wrong-stride";
  name := "Wrong Stride";
  category := memory_layout;
  params := [
    Param.Range "strideError" (-20) 20 1 4
  ];
  apply := wrongStride_apply
|}.

(** ** [memory-layout/wrong-pitch.ts] *)

Definition wrongPitch_apply (imageData : ImageData) (params : GlitchParams)
  : M ImageData :=
  let '(ImageData.mk width height data) := imageData in
  let pitchMultiplier :=
    ToNumber (js_or (get params "pitchMultiplier") (VNum (Num.dec 125 2))) in
  output ← new_ImageData width height;
  let outData := output.(ImageData.data) in
  data_length ← buf_length data;
  let correctPitch := width * 4 in
  let wrongPitch := Num.floor (correctPitch * pitchMultiplier) in
  for_ 0 height (fun y =>
    for_ 0 width (fun x =>
      let outIdx := (y * width + x) * 4 in
      let wrongOffset := (y * wrongPitch + (x * 4)%Z)%js in
      let wrongIdx := (wrongOffset mod Num.of_Z data_length)%js in
      if (wrongIdx + 3 <? Num.of_Z data_length)%js then
        v0 ← read_num data wrongIdx;
        write outData outIdx (ToNumber v0);;
        v1 ← read_num data (wrongIdx + 1);
        write outData (outIdx + 1) (ToNumber v1);;
        v2 ← read_num data (wrongIdx + 2);
        write outData (outIdx + 2) (ToNumber v2);;
        write outData (outIdx + 3) 255
      else
        write outData outIdx 0;;
        write outData (outIdx + 1) 0;;
        write outData (outIdx + 2) 0;;
        write outData (outIdx + 3) 255));;
  mret output.

Definition wrongPitch : GlitchDefinition := {|
  id := "wrong-pitch";
  name := "Wrong Pitch";
  category := memory_layout;
  params := [
    Param.Range "pitchMultiplier" (Num.dec 5 1) 2 (Num.dec 1 1) (Num.dec 125 2)
  ];
  apply := wrongPitch_apply
|}.

(** ** [memory-layout/row-padding.ts] *)

Definition rowPadding_apply (imageData : ImageData) (params : GlitchParams)
  : M ImageData :=
  let '(ImageData.mk width height data) := imageData in
  let paddingBytes := ToNumber (js_or (get params "paddingBytes") (VNum 4)) in
  let simulateBMP := js_or (get params "simulateBMP") (VBool false) in
  output ← new_ImageData width height;
  let outData := output.(ImageData.data) in
  data_length ← buf_length data;
  (if truthy simulateBMP then
     let rowSizeUnpadded := width * 3 in
     let padding := Z.rem (4 - Z.rem rowSizeUnpadded 4) 4 in
     for_ 0 height (fun y =>
       for_ 0 width (fun x =>
         let outIdx := (y * width + x) * 4 in
         let unpaddedOffset := y * rowSizeUnpadded + x * 3 in
         let effectiveOffset := unpaddedOffset + y * padding in
         let srcPixel := effectiveOffset / 4 in
         let srcIdx := srcPixel * 4 in
         if srcIdx + 3 <? data_length then
           v0 ← read data srcIdx;
           write outData outIdx (ToNumber v0);;
           v1 ← read data (srcIdx + 1);
           write outData (outIdx + 1) (ToNumber v1);;
           v2 ← read data (srcIdx + 2);
           write outData (outIdx + 2) (ToNumber v2);;
           write outData (outIdx + 3) 255
         else mret tt))
   else
     for_ 0 height (fun y =>
       for_ 0 width (fun x =>
         let outIdx := (y * width + x) * 4 in
         let offset := (y * paddingBytes)%js in
         let srcIdx := ((Num.of_Z outIdx + offset) mod Num.of_Z data_length)%js in
         v0 ← read_num data srcIdx;
         write outData outIdx (ToNumber v0);;
         v1 ← read_num data (Num.min (srcIdx + 1) (data_length - 1)%Z);
         write outData (outIdx + 1) (ToNumber v1);;
         v2 ← read_num data (Num.min (srcIdx + 2) (data_length - 1)%Z);
         write outData (outIdx + 2) (ToNumber v2);;
         write outData (outIdx + 3) 255)));;
  mret output.

Definition rowPadding : GlitchDefinition := {|
  id := "row-padding";
  name := "Row Padding";
  category := memory_layout;
  params := [
    Param.Range "paddingBytes" 0 16 1 4;
    Param.Boolean "simulateBMP" false
  ];
  apply := rowPadding_apply
|}.

(** ** [memory-layout/alignment.ts] *)

Definition alignment_apply (imageData : ImageData) (params : GlitchParams)
  : M ImageData :=
  let '(ImageData.mk width height data) := imageData in
  let offsetBytes := js_or (get params "offsetBytes") (VNum 1) in
  let blockSize := ToNumber (js_or (get params "blockSize") (VNum 16)) in
  output ← new_ImageData width height;
  let outData := output.(ImageData.data) in
  data_length ← buf_length data;
  for_step 0 data_length 4 (fun i =>
    let blockIndex := Num.floor (i / blockSize) in
    let offset := if (blockIndex mod 2 =? 0)%js then offsetBytes else VNum 0 in
    let srcIdx :=
      (ToNumber (js_plus (VNum i) offset) mod Num.of_Z data_length)%js in
    v0 ← read_num data srcIdx;
    write outData i (ToNumber v0);;
    v1 ← read_num data (Num.min (srcIdx + 1) (data_length - 1)%Z);
    write outData (i + 1) (ToNumber v1);;
    v2 ← read_num data (Num.min (srcIdx + 2) (data_length - 1)%Z);
    write outData (i + 2) (ToNumber v2);;
    a ← read data (i + 3);
    write outData (i + 3) (ToNumber a));;
  mret output.

Definition alignment : GlitchDefinition := {|
  id := "alignment";
  name := "Byte Alignment";
  category := memory_layout;
  params := [
    Param.Range "offsetBytes" 1 7 1 1;
    Param.Range "blockSize" 4 64 4 16
  ];
  apply := alignment_apply
|}.

(** ** [memory-layout/swizzle.ts] *)

(** Morton code helpers *)
Definition splitBits (x : number) : number :=
  let x := Num.band (Num.bor x (Num.shl x 8)) 0x00FF00FF in
  let x := Num.band (Num.bor x (Num.shl x 4)) 0x0F0F0F0F in
  let x := Num.band (Num.bor x (Num.shl x 2)) 0x33333333 in
  let x := Num.band (Num.bor x (Num.shl x 1)) 0x55555555 in
  x.

Definition mortonEncode (x y : number) : number :=
  Num.bor (splitBits x) (Num.shl (splitBits y) 1).

Definition compactBits (x : number) : number :=
  let x := Num.band x 0x55555555 in
  let x := Num.band (Num.bor x (Num.shr x 1)) 0x33333333 in
  let x := Num.band (Num.bor x (Num.shr x 2)) 0x0F0F0F0F in
  let x := Num.band (Num.bor x (Num.shr x 4)) 0x00FF00FF in
  let x := Num.band (Num.bor x (Num.shr x 8)) 0x0000FFFF in
  x.

Definition mortonDecode (code : number) : number * number :=
  (compactBits code, compactBits (Num.shr code 1)).

Definition swizzle_apply (imageData : ImageData) (params : GlitchParams)
  : M ImageData :=
  let '(ImageData.mk width height data) := imageData in
  let pattern := js_or (get params "pattern") (VStr "Morton (Z-order)") in
  let inverse := js_or (get params "inverse") (VBool false) in
  output ← new_ImageData width height;
  let outData := output.(ImageData.data) in
  for_ 0 height (fun y =>
    for_ 0 width (fun x =>
      let outIdx := (y * width + x) * 4 in
      let '(srcX, srcY) :=
        if truthy inverse then
          (* Reading linear data as if it were swizzled *)
          if is_str pattern "Morton (Z-order)" then
            let morton := mortonEncode x y in
            let linearIdx := (morton mod (width * height)%Z)%js in
            ((linearIdx mod width)%js, Num.floor (linearIdx / width)%js)
          else if is_str pattern "Tiled 8x8" then
            let tileX8 := x / 8 in
            let tileY8 := y / 8 in
            let inTileX8 := Z.rem x 8 in
            let inTileY8 := Z.rem y 8 in
            let tilesPerRow8 := (width + 7) / 8 in
            let linearIdx :=
              (tileY8 * tilesPerRow8 + tileX8) * 64 + inTileY8 * 8 + inTileX8 in
            let linearIdx := Z.rem linearIdx (width * height) in
            (Num.of_Z (Z.rem linearIdx width),
             Num.floor (Num.of_Z linearIdx / Num.of_Z width)%js)
          else if is_str pattern "Tiled 4x4" then
            let tileX4 := x / 4 in
            let tileY4 := y / 4 in
            let inTileX4 := Z.rem x 4 in
            let inTileY4 := Z.rem y 4 in
            let tilesPerRow4 := (width + 3) / 4 in
            let linearIdx :=
              (tileY4 * tilesPerRow4 + tileX4) * 16 + inTileY4 * 4 + inTileX4 in
            let linearIdx := Z.rem linearIdx (width * height) in
            (Num.of_Z (Z.rem linearIdx width),
             Num.floor (Num.of_Z linearIdx / Num.of_Z width)%js)
          else if is_str pattern "Interleaved rows" then
            (Num.of_Z x,
             Num.of_Z (if Z.rem y 2 =? 0 then y / 2 else y / 2 + height / 2))
          else (Num.of_Z x, Num.of_Z y)
        else
          (* Reading swizzled data as linear *)
          let linearIdx := y * width + x in
          if is_str pattern "Morton (Z-order)" then
            let '(srcX, srcY) := mortonDecode linearIdx in
            ((srcX mod width)%js, (srcY mod height)%js)
          else if is_str pattern "Tiled 8x8" then
            let tile8 := linearIdx / 64 in
            let inTile8 := Z.rem linearIdx 64 in
            let tilesPerRow8 := (width + 7) / 8 in
            let tileX8 := Z.rem tile8 tilesPerRow8 in
            let tileY8 := Num.floor (Num.of_Z tile8 / Num.of_Z tilesPerRow8)%js in
            (Num.of_Z (tileX8 * 8 + Z.rem inTile8 8),
             (tileY8 * 8 + Num.of_Z (inTile8 / 8))%js)
          else if is_str pattern "Tiled 4x4" then
            let tile4 := linearIdx / 16 in
            let inTile4 := Z.rem linearIdx 16 in
            let tilesPerRow4 := (width + 3) / 4 in
            let tileX4 := Z.rem tile4 tilesPerRow4 in
            let tileY4 := Num.floor (Num.of_Z tile4 / Num.of_Z tilesPerRow4)%js in
            (Num.of_Z (tileX4 * 4 + Z.rem inTile4 4),
             (tileY4 * 4 + Num.of_Z (inTile4 / 4))%js)
          else if is_str pattern "Interleaved rows" then
            (Num.of_Z x,
             Num.of_Z (if 2 * y <? height then y * 2
                       else (y - height / 2) * 2 + 1))
          else (Num.of_Z x, Num.of_Z y) in
      let srcX := Num.max 0 (Num.min (width - 1)%Z srcX) in
      let srcY := Num.max 0 (Num.min (height - 1)%Z srcY) in
      let srcIdx := ((srcY * width + srcX) * 4)%js in
      v0 ← read_num data srcIdx;
      write outData outIdx (ToNumber v0);;
      v1 ← read_num data (srcIdx + 1);
      write outData (outIdx + 1) (ToNumber v1);;
      v2 ← read_num data (srcIdx + 2);
      write outData (outIdx + 2) (ToNumber v2);;
      v3 ← read_num data (srcIdx + 3);
      write outData (outIdx + 3) (ToNumber v3)));;
  mret output.

Definition swizzle : GlitchDefinition := {|
  id := "swizzle";
  name := "Swizzle/Tiled Layout";
  category := memory_layout;
  params := [
    Param.Select "pattern"
      ["Morton (Z-order)";
       "Tiled 8x8";
       "Tiled 4x4";
       "Interleaved rows"]
      "Morton (Z-order)";
    Param.Boolean "inverse" false
  ];
  apply := swizzle_apply
|}.

(** ** [coordinates/off-by-one.ts] *)

Definition offByOne_apply (imageData : ImageData) (params : GlitchParams)
  : M ImageData :=
  let '(ImageData.mk width height data) := imageData in
  let xOffset := js_or (get params "xOffset") (VNum 1) in
  let yOffset := js_or (get params "yOffset") (VNum 1) in
  let wrapEdges := is_not_false (get params "wrapEdges") in
  output ← new_ImageData width height;
  let outData := output.(ImageData.data) in
  for_ 0 height (fun y =>
    for_ 0 width (fun x =>
      let outIdx := (y * width + x) * 4 in
      let srcX := ToNumber (js_plus (VNum x) xOffset) in
      let srcY := ToNumber (js_plus (VNum y) yOffset) in
      let '(srcX, srcY) :=
        if wrapEdges then
          ((((srcX mod width) + width) mod width)%js,
           (((srcY mod height) + height) mod height)%js)
        else
          (Num.max 0 (Num.min (width - 1)%Z srcX),
           Num.max 0 (Num.min (height - 1)%Z srcY)) in
      let srcIdx := ((srcY * width + srcX) * 4)%js in
      v0 ← read_num data srcIdx;
      write outData outIdx (ToNumber v0);;
      v1 ← read_num data (srcIdx + 1);
      write outData (outIdx + 1) (ToNumber v1);;
      v2 ← read_num data (srcIdx + 2);
      write outData (outIdx + 2) (ToNumber v2);;
      v3 ← read_num data (srcIdx + 3);
      write outData (outIdx + 3) (ToNumber v3)));;
  mret output.

Definition offByOne : GlitchDefinition := {|
  id := "off-by-one";
  name := "Off-by-One";
  category := coordinates;
  params := [
    Param.Range "xOffset" (-5) 5 1 1;
    Param.Range "yOffset" (-5) 5 1 1;
    Param.Boolean "wrapEdges" true
  ];
  apply := offByOne_apply
|}.

(** ** [coordinates/flipped-axis.ts] *)

Definition flippedAxis_apply (imageData : ImageData) (params : GlitchParams)
  : M ImageData :=
  let '(ImageData.mk width height data) := imageData in
  let flipMode := js_or (get params "flipMode") (VStr "Flip Vertical") in
  output ← new_ImageData width height;
  let outData := output.(ImageData.data) in
  for_ 0 height (fun y =>
    for_ 0 width (fun x =>
      let outIdx := (y * width + x) * 4 in
      let '(srcX, srcY) :=
        if is_str flipMode "Flip Vertical" then (x, height - 1 - y)
        else if is_str flipMode "Flip Horizontal" then (width - 1 - x, y)
        else if is_str flipMode "Flip Both" then (width - 1 - x, height - 1 - y)
        else if is_str flipMode "Rotate 180" then (width - 1 - x, height - 1 - y)
        else (x, y) in
      let srcIdx := (srcY * width + srcX) * 4 in
      v0 ← read data srcIdx;
      write outData outIdx (ToNumber v0);;
      v1 ← read data (srcIdx + 1);
      write outData (outIdx + 1) (ToNumber v1);;
      v2 ← read data (srcIdx + 2);
      write outData (outIdx + 2) (ToNumber v2);;
      v3 ← read data (srcIdx + 3);
      write outData (outIdx + 3) (ToNumber v3)));;
  mret output.

Definition flippedAxis : GlitchDefinition := {|
  id := "flipped-axis";
  name := "Flipped Axis";
  category := coordinates;
  params := [
    Param.Select "flipMode"
      ["Flip Vertical";
       "Flip Horizontal";
       "Flip Both";
       "Rotate 180"]
      "Flip Vertical"
  ];
  apply := flippedAxis_apply
|}.

(** ** [coordinates/uv-wrapping.ts] *)

Definition uvWrapping_apply (imageData : ImageData) (params : GlitchParams)
  : M ImageData :=
  let '(ImageData.mk width height data) := imageData in
  let wrapMode := js_or (get params "wrapMode") (VStr "Repeat") in
  let uvScale := ToNumber (js_or (get params "uvScale") (VNum 2)) in
  let uvOffsetX := js_or (get params "uvOffsetX") (VNum 0) in
  let uvOffsetY := js_or (get params "uvOffsetY") (VNum 0) in
  output ← new_ImageData width height;
  let outData := output.(ImageData.data) in
  for_ 0 height (fun y =>
    for_ 0 width (fun x =>
      let outIdx := (y * width + x) * 4 in
      (* Convert to UV coordinates *)
      let u := ToNumber (js_plus (VNum ((x / width) * uvScale)) uvOffsetX) in
      let v := ToNumber (js_plus (VNum ((y / height) * uvScale)) uvOffsetY) in
      if is_str wrapMode "None (shows bug)"
         && ((u <? 0)%js || (u >? 1)%js || (v <? 0)%js || (v >? 1)%js)
      then
        (* out of range: magenta, and [continue] *)
        write outData outIdx 255;;
        write outData (outIdx + 1) 0;;
        write outData (outIdx + 2) 255;;
        write outData (outIdx + 3) 255
      else
        let '(u, v) :=
          if is_str wrapMode "Repeat" then
            ((((u mod 1) + 1) mod 1)%js, (((v mod 1) + 1) mod 1)%js)
          else if is_str wrapMode "Mirror" then
            let u := Num.abs (((u mod 2) + 2) mod 2 - 1)%js in
            let v := Num.abs (((v mod 2) + 2) mod 2 - 1)%js in
            let u :=
              if (Num.floor (Num.abs (u * uvScale)) mod 2 =? 1)%js
              then (1 - u)%js else u in
            let v :=
              if (Num.floor (Num.abs (v * uvScale)) mod 2 =? 1)%js
              then (1 - v)%js else v in
            ((((u mod 1) + 1) mod 1)%js, (((v mod 1) + 1) mod 1)%js)
          else if is_str wrapMode "Clamp" then
            (Num.max 0 (Num.min 1 u), Num.max 0 (Num.min 1 v))
          else (u, v) in
        let srcX := Num.floor (u * (width - 1)%Z) in
        let srcY := Num.floor (v * (height - 1)%Z) in
        let srcIdx := ((srcY * width + srcX) * 4)%js in
        v0 ← read_num data srcIdx;
        write outData outIdx (ToNumber v0);;
        v1 ← read_num data (srcIdx + 1);
        write outData (outIdx + 1) (ToNumber v1);;
        v2 ← read_num data (srcIdx + 2);
        write outData (outIdx + 2) (ToNumber v2);;
        v3 ← read_num data (srcIdx + 3);
        write outData (outIdx + 3) (ToNumber v3)));;
  mret output.

Definition uvWrapping : GlitchDefinition := {|
  id := "uv-wrapping";
  name := "UV Wrapping";
  category := coordinates;
  params := [
    Param.Select "wrapMode"
      ["Repeat";
       "Mirror";
       "Clamp";
       "None (shows bug)"]
      "Repeat";
    Param.Range "uvScale" (Num.dec 5 1) 4 (Num.dec 25 2) 2;
    Param.Range "uvOffsetX" (-1) 1 (Num.dec 1 1) 0;
    Param.Range "uvOffsetY" (-1) 1 (Num.dec 1 1) 0
  ];
  apply := uvWrapping_apply
|}.

(** ** [coordinates/aspect-ratio.ts] *)

Definition aspectRatio_apply (imageData : ImageData) (params : GlitchParams)
  : M ImageData :=
  let '(ImageData.mk width height data) := imageData in
  let mode := js_or (get params "mode") (VStr "Swap Width/Height") in
  let scaleX := ToNumber (js_or (get params "scaleX") (VNum 1)) in
  let scaleY := ToNumber (js_or (get params "scaleY") (VNum 1)) in
  output ← new_ImageData width height;
  let outData := output.(ImageData.data) in
  for_ 0 height (fun y =>
    for_ 0 width (fun x =>
      let outIdx := (y * width + x) * 4 in
      let '(srcX, srcY) :=
        if is_str mode "Swap Width/Height" then
          let normalizedX := (Num.of_Z x / Num.of_Z width)%js in
          let normalizedY := (Num.of_Z y / Num.of_Z height)%js in
          (Num.floor (normalizedY * (width - 1)%Z),
           Num.floor (normalizedX * (height - 1)%Z))
        else if is_str mode "Force Square" then
          let maxDim := Z.max width height in
          ((Num.floor ((Num.of_Z x / Num.of_Z width) * maxDim) mod width)%js,
           (Num.floor ((Num.of_Z y / Num.of_Z height) * maxDim) mod height)%js)
        else if is_str mode "Wrong Aspect Scale" then
          let centerX := (Num.of_Z width / 2)%js in
          let centerY := (Num.of_Z height / 2)%js in
          let srcX := Num.floor (centerX + (x - centerX) / scaleX) in
          let srcY := Num.floor (centerY + (y - centerY) / scaleY) in
          (Num.max 0 (Num.min (width - 1)%Z srcX),
           Num.max 0 (Num.min (height - 1)%Z srcY))
        else (Num.of_Z x, Num.of_Z y) in
      (* Clamp to valid range *)
      let srcX := Num.max 0 (Num.min (width - 1)%Z srcX) in
      let srcY := Num.max 0 (Num.min (height - 1)%Z srcY) in
      let srcIdx := ((srcY * width + srcX) * 4)%js in
      v0 ← read_num data srcIdx;
      write outData outIdx (ToNumber v0);;
      v1 ← read_num data (srcIdx + 1);
      write outData (outIdx + 1) (ToNumber v1);;
      v2 ← read_num data (srcIdx + 2);
      write outData (outIdx + 2) (ToNumber v2);;
      v3 ← read_num data (srcIdx + 3);
      write outData (outIdx + 3) (ToNumber v3)));;
  mret output.

Definition aspectRatio : GlitchDefinition := {|
  id := "aspect-ratio";
  name := "Aspect Ratio";
  category := coordinates;
  params := [
    Param.Select "mode"
      ["Swap Width/Height";
       "Force Square";
       "Wrong Aspect Scale"]
      "Swap Width/Height";
    Param.Range "scaleX" (Num.dec 25 2) 2 (Num.dec 1 1) 1;
    Param.Range "scaleY" (Num.dec 25 2) 2 (Num.dec 1 1) 1
  ];
  apply := aspectRatio_apply
|}.

(** ** [coordinates/sampling.ts] and [coordinates/half-pixel.ts]:
       the two closures both files define, word for word *)

Definition Pixel : Type := (number * number * number * number)%type.

(** Get pixel with bounds checking. An [undefined] sample only ever
    reaches arithmetic or a typed-array store, so it is converted here. *)
Definition getPixel (width height : Z) (data : nat) (x y : number) : M Pixel :=
  let x := Num.max 0 (Num.min (width - 1)%Z (Num.floor x)) in
  let y := Num.max 0 (Num.min (height - 1)%Z (Num.floor y)) in
  let idx := ((y * width + x) * 4)%js in
  v0 ← read_num data idx;
  v1 ← read_num data (idx + 1);
  v2 ← read_num data (idx + 2);
  v3 ← read_num data (idx + 3);
  mret (ToNumber v0, ToNumber v1, ToNumber v2, ToNumber v3).

(** Bilinear interpolation *)
Definition bilinear (width height : Z) (data : nat) (x y : number) : M Pixel :=
  let x0 := Num.floor x in
  let y0 := Num.floor y in
  let x1 := Num.min (x0 + 1) (width - 1)%Z in
  let y1 := Num.min (y0 + 1) (height - 1)%Z in
  let fx := (x - x0)%js in
  let fy := (y - y0)%js in
  '(p00r, p00g, p00b, p00a) ← getPixel width height data x0 y0;
  '(p10r, p10g, p10b, p10a) ← getPixel width height data x1 y0;
  '(p01r, p01g, p01b, p01a) ← getPixel width height data x0 y1;
  '(p11r, p11g, p11b, p11a) ← getPixel width height data x1 y1;
  let channel (p00 p10 p01 p11 : number) : number :=
    let top := (p00 * (1 - fx) + p10 * fx)%js in
    let bottom := (p01 * (1 - fx) + p11 * fx)%js in
    Num.round (top * (1 - fy) + bottom * fy) in
  mret (channel p00r p10r p01r p11r,
        channel p00g p10g p01g p11g,
        channel p00b p10b p01b p11b,
        channel p00a p10a p01a p11a).

Definition sampling_apply (imageData : ImageData) (params : GlitchParams)
  : M ImageData :=
  let '(ImageData.mk width height data) := imageData in
  let mode := js_or (get params "mode") (VStr "Nearest (blocky)") in
  let scale := ToNumber (js_or (get params "scale") (VNum 4)) in
  output ← new_ImageData width height;
  let outData := output.(ImageData.data) in
  for_ 0 height (fun y =>
    for_ 0 width (fun x =>
      let outIdx := (y * width + x) * 4 in
      '(p0, p1, p2, p3) ←
        (if is_str mode "Nearest (blocky)" then
           (* Sample from center of "texel" at lower resolution *)
           let nx := (Num.floor (x / scale) * scale + scale / 2)%js in
           let ny := (Num.floor (y / scale) * scale + scale / 2)%js in
           getPixel width height data nx ny
         else if is_str mode "Exaggerated nearest (pixelate)" then
           let px := (Num.floor (x / scale) * scale)%js in
           let py := (Num.floor (y / scale) * scale)%js in
           getPixel width height data px py
         else if is_str mode "Bad bilinear (blurry)" then
           let samples := scale in
           '(r, g, b, a) ←
             for_num samples (fun sy acc =>
               for_num samples (fun sx '(r, g, b, a) =>
                 let sampleX := (x + (sx - samples / 2) * Num.dec 5 1)%js in
                 let sampleY := (y + (sy - samples / 2) * Num.dec 5 1)%js in
                 '(q0, q1, q2, q3) ← bilinear width height data sampleX sampleY;
                 mret ((r + q0)%js, (g + q1)%js, (b + q2)%js, (a + q3)%js))
                 acc)
               (Num.of_Z 0, Num.of_Z 0, Num.of_Z 0, Num.of_Z 0);
           let count := (samples * samples)%js in
           mret (Num.round (r / count), Num.round (g / count),
                 Num.round (b / count), Num.round (a / count))
         else getPixel width height data x y);
      write outData outIdx p0;;
      write outData (outIdx + 1) p1;;
      write outData (outIdx + 2) p2;;
      write outData (outIdx + 3) p3));;
  mret output.

Definition sampling : GlitchDefinition := {|
  id := "sampling";
  name := "Wrong Texture Sampling";
  category := coordinates;
  params := [
    Param.Select "mode"
      ["Nearest (blocky)";
       "Exaggerated nearest (pixelate)";
       "Bad bilinear (blurry)"]
      "Nearest (blocky)";
    Param.Range "scale" 2 16 1 4
  ];
  apply := sampling_apply
|}.

Definition halfPixel_apply (imageData : ImageData) (params : GlitchParams)
  : M ImageData :=
  let '(ImageData.mk width height data) := imageData in
  let offsetX := js_nullish (get params "offsetX") (VNum (Num.dec 5 1)) in
  let offsetY := js_nullish (get params "offsetY") (VNum (Num.dec 5 1)) in
  let useFiltering := is_not_false (get params "useFiltering") in
  output ← new_ImageData width height;
  let outData := output.(ImageData.data) in
  for_ 0 height (fun y =>
    for_ 0 width (fun x =>
      let outIdx := (y * width + x) * 4 in
      let sampleX := ToNumber (js_plus (VNum x) offsetX) in
      let sampleY := ToNumber (js_plus (VNum y) offsetY) in
      '(p0, p1, p2, p3) ←
        (if useFiltering
         then bilinear width height data sampleX sampleY
         else getPixel width height data (Num.floor sampleX) (Num.floor sampleY));
      write outData outIdx p0;;
      write outData (outIdx + 1) p1;;
      write outData (outIdx + 2) p2;;
      write outData (outIdx + 3) p3));;
  mret output.

Definition halfPixel : GlitchDefinition := {|
  id := "half-pixel";
  name := "Half-Pixel Offset";
  category := coordinates;
  params := [
    Param.Range "offsetX" (-1) 1 (Num.dec 1 1) (Num.dec 5 1);
    Param.Range "offsetY" (-1) 1 (Num.dec 1 1) (Num.dec 5 1);
    Param.Boolean "useFiltering" true
  ];
  apply := halfPixel_apply
|}.

(** ** [coordinates/mipmap.ts] *)

(** [arr[v]] on an ordinary array. *)
Definition lookup_num {A} (arr : list A) (v : number) : option A :=
  match Num.to_index v with
  | Some i => if 0 <=? i then arr !! Z.to_nat i else None
  | None => None
  end.

(** Pre-compute mip levels: the [while (mipW > 1 || mipH > 1)] loop.
    Each round at least halves the larger dimension; [fuel] bounds the
    number of rounds, and [mip_chain_fuel] below shows that
    [mipW + mipH] rounds always suffice. *)
Fixpoint mip_chain (fuel : nat) (mipLevels : list ImageData) (mipW mipH : Z)
  : M (list ImageData) :=
  if (1 <? mipW) || (1 <? mipH) then
    match fuel with
    | O => hang
    | S fuel =>
      match last mipLevels with
      | None => throw
      | Some prevMip =>
        let newW := Z.max 1 (mipW / 2) in
        let newH := Z.max 1 (mipH / 2) in
        newMip ← new_ImageData newW newH;
        (* Box filter downsample *)
        for_ 0 newH (fun y =>
          for_ 0 newW (fun x =>
            let srcX := x * 2 in
            let srcY := y * 2 in
            '(r, g, b, a, count) ←
              for_acc 0 (Z.min 2 (mipH - srcY)) 1 (fun dy acc =>
                for_acc 0 (Z.min 2 (mipW - srcX)) 1
                  (fun dx '(r, g, b, a, count) =>
                    let idx := ((srcY + dy) * mipW + (srcX + dx)) * 4 in
                    v0 ← read prevMip.(ImageData.data) idx;
                    v1 ← read prevMip.(ImageData.data) (idx + 1);
                    v2 ← read prevMip.(ImageData.data) (idx + 2);
                    v3 ← read prevMip.(ImageData.data) (idx + 3);
                    mret ((r + ToNumber v0)%js, (g + ToNumber v1)%js,
                          (b + ToNumber v2)%js, (a + ToNumber v3)%js,
                          count + 1)) acc)
                (Num.of_Z 0, Num.of_Z 0, Num.of_Z 0, Num.of_Z 0, 0);
            let outIdx := (y * newW + x) * 4 in
            write newMip.(ImageData.data) outIdx
                  (Num.round (r / Num.of_Z count));;
            write newMip.(ImageData.data) (outIdx + 1)
                  (Num.round (g / Num.of_Z count));;
            write newMip.(ImageData.data) (outIdx + 2)
                  (Num.round (b / Num.of_Z count));;
            write newMip.(ImageData.data) (outIdx + 3)
                  (Num.round (a / Num.of_Z count))));;
        mip_chain fuel (mipLevels ++ [newMip]) newW newH
      end
    end
  else mret mipLevels.

Definition mipLevels_of (imageData : ImageData) : M (list ImageData) :=
  let '(ImageData.mk width height data) := imageData in
  mip_chain (Z.to_nat (width + height)) [imageData] width height.

(** Mip level colors for visualization *)
Definition mipColors : list (number * number * number) :=
  [(Num.of_Z 255, Num.of_Z 0, Num.of_Z 0); (Num.of_Z 0, Num.of_Z 255, Num.of_Z 0);
   (Num.of_Z 0, Num.of_Z 0, Num.of_Z 255); (Num.of_Z 255, Num.of_Z 255, Num.of_Z 0);
   (Num.of_Z 255, Num.of_Z 0, Num.of_Z 255); (Num.of_Z 0, Num.of_Z 255, Num.of_Z 255);
   (Num.of_Z 255, Num.of_Z 128, Num.of_Z 0); (Num.of_Z 128, Num.of_Z 0, Num.of_Z 255)].

Definition mipmap_apply (imageData : ImageData) (params : GlitchParams)
  : M ImageData :=
  let '(ImageData.mk width height data) := imageData in
  let mode := js_or (get params "mode") (VStr "Too blurry (high LOD)") in
  let lodBias := ToNumber (js_or (get params "lodBias") (VNum 2)) in
  output ← new_ImageData width height;
  let outData := output.(ImageData.data) in
  mipLevels ← mipLevels_of imageData;
  let mipLevels_length := Z.of_nat (length mipLevels) in
  for_ 0 height (fun y =>
    for_ 0 width (fun x =>
      let outIdx := (y * width + x) * 4 in
      (* Calculate which mip level to sample *)
      let mipLevel :=
        if is_str mode "Too blurry (high LOD)" then
          Num.min (mipLevels_length - 1)%Z (Num.floor lodBias)
        else if is_str mode "Aliased (low LOD)" then Num.of_Z 0
        else if is_str mode "Wrong mip level" then
          Num.of_Z (Z.rem ((x + y) / 32) mipLevels_length)
        else if is_str mode "Visualize mip levels" then
          Num.min (mipLevels_length - 1)%Z (Num.floor lodBias)
        else Num.of_Z 0 in
      (* [mip.width] on [undefined] throws a TypeError *)
      match lookup_num mipLevels mipLevel with
      | None => throw
      | Some mip =>
        let scale := Math_pow 2 mipLevel in
        let srcX := (Num.floor (x / scale) mod mip.(ImageData.width))%js in
        let srcY := (Num.floor (y / scale) mod mip.(ImageData.height))%js in
        let srcIdx := ((srcY * mip.(ImageData.width) + srcX) * 4)%js in
        (if is_str mode "Visualize mip levels" then
           (* Tint with mip level color *)
           match lookup_num mipColors
                   (mipLevel mod Z.of_nat (length mipColors))%js with
           | None => throw
           | Some (color0, color1, color2) =>
             v0 ← read_num mip.(ImageData.data) srcIdx;
             write outData outIdx (Num.round ((ToNumber v0 + color0) / 2));;
             v1 ← read_num mip.(ImageData.data) (srcIdx + 1);
             write outData (outIdx + 1) (Num.round ((ToNumber v1 + color1) / 2));;
             v2 ← read_num mip.(ImageData.data) (srcIdx + 2);
             write outData (outIdx + 2) (Num.round ((ToNumber v2 + color2) / 2))
           end
         else
           v0 ← read_num mip.(ImageData.data) srcIdx;
           write outData outIdx (ToNumber v0);;
           v1 ← read_num mip.(ImageData.data) (srcIdx + 1);
           write outData (outIdx + 1) (ToNumber v1);;
           v2 ← read_num mip.(ImageData.data) (srcIdx + 2);
           write outData (outIdx + 2) (ToNumber v2));;
        write outData (outIdx + 3) 255
      end));;
  mret output.

Definition mipmap : GlitchDefinition := {|
  id := "mipmap";
  name := "Mipmap LOD Errors";
  category := coordinates;
  params := [
    Param.Select "mode"
      ["Too blurry (high LOD)";
       "Aliased (low LOD)";
       "Wrong mip level";
       "Visualize mip levels"]
      "Too blurry (high LOD)";
    Param.Range "lodBias" 0 4 (Num.dec 5 1) 2
  ];
  apply := mipmap_apply
|}.
End Transforms.

(* ===================================================================== *)
(** * The registry: [index.ts] *)
(* ===================================================================== *)

Section Registry.
Context {rt : JSRuntime}.

Definition glitches : list GlitchDefinition := [
  (* Pixel format *)
  rgbaAsRgb;
  rgbAsRgba;
  bgrSwap;
  argbOrder;
  endianness;
  channelShift;
  bitDepth;
  gamma;
  premultipliedAlpha;
  signedUnsigned;
  compression;
  yuv;
  floatPrecision;
  (* Memory layout *)
  wrongStride;
  wrongPitch;
  rowPadding;
  alignment;
  swizzle;
  (* Coordinates *)
  offByOne;
  flippedAxis;
  uvWrapping;
  aspectRatio;
  sampling;
  halfPixel;
  mipmap
].

(** [new Map(glitches.map(g => [g.id, g]))]: entries are inserted in
    order, a later entry replacing an earlier one with the same key. *)
Definition glitchById : gmap string GlitchDefinition :=
  foldl (fun m g => <[g.(id) := g]> m) ∅ glitches.

(** The three properties of the [glitchesByCategory] object. *)
Definition glitchesByCategory (c : GlitchCategory) : list GlitchDefinition :=
  filter (fun g => g.(category) = c) glitches.

End Registry.


(* ===================================================================== *)
(** * Notions used to state the properties *)
(* ===================================================================== *)

(** An 8-bit sample. *)
Definition byte (z : Z) : Prop := 0 <= z <= 255.

(** [bitmap s img c]: in the store [s], [img] is a well-formed bitmap whose
    pixel buffer holds the bytes [c]: both dimensions are positive (an
    [ImageData] cannot be built otherwise), [c] has [width*height*4]
    entries, each a byte, and the length is one a typed array can have
    (below 2^53). *)
Definition bitmap (s : Store) (img : ImageData) (c : list Z) : Prop :=
  s !! img.(ImageData.data) = Some c /\
  0 < img.(ImageData.width) /\
  0 < img.(ImageData.height) /\
  Z.of_nat (length c) = img.(ImageData.width) * img.(ImageData.height) * 4 /\
  Forall byte c /\
  img.(ImageData.width) * img.(ImageData.height) * 4 < 2 ^ 53.

(** [same_shape s' img out]: [out] has the dimensions of [img] and its
    buffer, in the store [s'], has [width*height*4] entries. *)
Definition same_shape (s' : Store) (img out : ImageData) : Prop :=
  out.(ImageData.width) = img.(ImageData.width) /\
  out.(ImageData.height) = img.(ImageData.height) /\
  exists o, s' !! out.(ImageData.data) = Some o /\
    Z.of_nat (length o) = img.(ImageData.width) * img.(ImageData.height) * 4.

(** The four samples of pixel [(x, y)] in a buffer [width] pixels wide. *)
Definition pixel (width : Z) (buf : list Z) (x y : Z) : list Z :=
  take 4 (drop (Z.to_nat ((y * width + x) * 4)) buf).

(** Channel [ch] of pixel [(x, y)] in a buffer [width] pixels wide. *)
Definition sample (width : Z) (buf : list Z) (x y ch : Z) : option Z :=
  buf !! Z.to_nat ((y * width + x) * 4 + ch).

(** The bytes of the buffer an outcome returned, if it returned one. *)
Definition returned_pixels (o : Outcome ImageData) : option (list Z) :=
  match o with
  | Ret out s => s !! out.(ImageData.data)
  | Stopped _ _ => None
  end.

(** How a call ended, forgetting the store. *)
Definition completion {A} (o : Outcome A) : option Stop :=
  match o with Ret _ _ => None | Stopped w _ => Some w end.

(** A parameter value is admitted by a schema entry when it has the kind
    the entry declares and, for a range, is a binary64 value between
    [min] and [max]; for a choice, is one of the options. *)
Definition admits (d : ParamDefinition) (v : JSValue) : Prop :=
  match d.(Param.type), v with
  | Param.range, VNum n =>
      valid_binary Num.prec Num.emax n = true /\
      (forall lo, d.(Param.min) = Some lo -> Num.le lo n = true) /\
      (forall hi, d.(Param.max) = Some hi -> Num.le n hi = true)
  | Param.boolean, VBool _ => True
  | Param.select, VStr str => str ∈ d.(Param.options)
  | _, _ => False
  end.

(** A parameter map conforms to a schema when every value it holds for
    a key of the schema is admitted by that entry; keys may be missing,
    and keys the schema does not name are unconstrained. *)
Definition conforms (schema : list ParamDefinition) (p : GlitchParams) : Prop :=
  forall d v, d ∈ schema -> p !! d.(Param.name) = Some v -> admits d v.

(** The declared defaults of a schema, as a parameter map. *)
Definition defaults (schema : list ParamDefinition) : GlitchParams :=
  list_to_map ((fun d => (d.(Param.name), d.(Param.default))) <$> schema).

(** A partial map completed with the schema defaults: a key the map
    holds keeps its value, a missing schema key gets its default. *)
Definition complete (schema : list ParamDefinition) (p : GlitchParams) : GlitchParams :=
  p ∪ defaults schema.

(** The average of four samples rounded to the nearest integer (halves
    upwards). *)
Definition box_average (a b c d : Z) : Z := (2 * (a + b + c + d) + 4) / 8.

(** ** Two runs that differ only in where the buffers live

    [s1] and [s2] are two stores that hold the same input bytes [c], at
    [d1] and at [d2]. During a call each store grows by the buffers the
    call allocates; [sim R m1 m2] says that the computations [m1] and
    [m2], started in such a pair of stores, end the same way, with
    results related by [R], having added the same buffers and left
    [s1] and [s2] as they were. *)
Section SimDefs.
Variables (s1 s2 : Store) (d1 d2 : nat).

(** References to the same buffer: the input, or the [k]-th buffer
    allocated since the call began. *)
Inductive Rloc : nat -> nat -> Prop :=
  | Rloc_input : Rloc d1 d2
  | Rloc_fresh k : Rloc (length s1 + k) (length s2 + k).

Definition Rfresh (l1 l2 : nat) : Prop :=
  exists k, l1 = (length s1 + k)%nat /\ l2 = (length s2 + k)%nat.

Definition Rstore (t1 t2 : Store) : Prop :=
  exists ext, t1 = s1 ++ ext /\ t2 = s2 ++ ext.

(** Images of the same size over the same buffer. *)
Definition Rimg (a b : ImageData) : Prop :=
  a.(ImageData.width) = b.(ImageData.width) /\
  a.(ImageData.height) = b.(ImageData.height) /\
  Rloc a.(ImageData.data) b.(ImageData.data).

(** The same, over a buffer the call allocated. *)
Definition Rout (a b : ImageData) : Prop :=
  a.(ImageData.width) = b.(ImageData.width) /\
  a.(ImageData.height) = b.(ImageData.height) /\
  Rfresh a.(ImageData.data) b.(ImageData.data).

Definition sim {A} (R : A -> A -> Prop) (m1 m2 : M A) : Prop :=
  forall t1 t2, Rstore t1 t2 ->
    match m1 t1, m2 t2 with
    | Ret a u1, Ret b u2 => R a b /\ Rstore u1 u2
    | Stopped w u1, Stopped w' u2 => w = w' /\ Rstore u1 u2
    | _, _ => False
    end.

End SimDefs.

(** ** What a computation leaves behind

    [t ⊑ t'] (written [extends t t']): [t'] has the buffers of [t], each
    with the length it had, and possibly more after them. *)
Definition extends (t t' : Store) : Prop :=
  exists more, length <$> t' = (length <$> t) ++ more.

(** [post m Q]: however [m] ends, the store it leaves extends the one
    it started in, and a returned value satisfies [Q]. *)
Definition post {A} (m : M A) (Q : A -> Prop) : Prop :=
  forall t, match m t with
            | Ret a t' => Q a /\ extends t t'
            | Stopped _ t' => extends t t'
            end.

(** [returns m Q]: moreover [m] does return. *)
Definition returns {A} (m : M A) (Q : A -> Prop) : Prop :=
  forall t, exists a t', m t = Ret a t' /\ Q a /\ extends t t'.

(** [allocates_first w h m]: [m] begins with [new ImageData(w, h)] and,
    whatever it does next, returns that image if it returns. *)
Definition allocates_first (w h : Z) (m : M ImageData) : Prop :=
  exists k, m = (new_ImageData w h ≫= k) /\ forall out, post (k out) (eq out).

(** ** An engine for the closed examples

    [Math.pow] for a small non-negative integral exponent, by repeated
    multiplication (exact for the powers of two the mipmap transform
    asks for); no example reaches the string conversions. *)
Definition example_pow (x y : number) : number :=
  match Num.to_index y with
  | Some n => if (0 <=? n) && (n <=? 64)
              then Nat.iter (Z.to_nat n) (Num.mul x) (Num.of_Z 1)
              else Num.NaN
  | None => Num.NaN
  end.

Definition example_runtime : JSRuntime := {|
  Math_pow := example_pow;
  StringToNumber := fun _ => Num.NaN;
  NumberToString := fun _ => ""
|}.

(** ** Inputs of the closed examples *)

(** A row of four pixels with different colours. *)
Definition four_pixels : list Z :=
  [10; 20; 30; 255;  11; 21; 31; 255;  12; 22; 32; 255;  13; 23; 33; 255].

(** A 4x4 bitmap with a distinct colour at every pixel: pixel number
    [k] is [(k, 100 + k, 200 + k, 255)]. *)
Definition distinct_4x4 : list Z :=
  flat_map (fun k => [k; 100 + k; 200 + k; 255]) (seqZ 0 16).

Definition wrap_params : GlitchParams :=
  <["xOffset" := VNum 1]> (<["yOffset" := VNum 0]> (<["wrapEdges" := VBool true]> ∅)).

(** A 2x2 bitmap. *)
Definition two_by_two : list Z :=
  [1; 2; 3; 255;  4; 5; 6; 255;  7; 8; 9; 255;  10; 11; 12; 255].

(** A 4x4 bitmap made of four uniform 2x2 quadrants. *)
Definition quadrants_4x4 : list Z :=
  let A := [10; 20; 30; 255] in
  let B := [40; 50; 60; 255] in
  let C := [70; 80; 90; 255] in
  let D := [100; 110; 120; 255] in
  concat [A; A; B; B;
          A; A; B; B;
          C; C; D; D;
          C; C; D; D].

Definition flip_both_params : GlitchParams :=
  <["flipMode" := VStr "Flip Both"]> ∅.

Definition sixteen_as_eight_params : GlitchParams :=
  <["mode" := VStr "Simulate 16-bit as 8-bit"]> ∅.

(** ** Pixel by pixel *)

(** The four stores of one pixel. *)
Definition buf_set4 (buf : list Z) (i : Z) (v0 v1 v2 v3 : number) : list Z :=
  buf_set (buf_set (buf_set (buf_set buf i v0) (i + 1) v1) (i + 2) v2) (i + 3) v3.

(** [filled val n buf]: the first [n] pixels of [buf] hold the samples
    [val k ch] (pixel [k], channel [ch]). *)
Definition filled (val : Z -> Z -> Z) (n : Z) (buf : list Z) : Prop :=
  forall k ch, 0 <= k < n -> 0 <= ch < 4 ->
    buf !! Z.to_nat (4 * k + ch) = Some (val k ch).

(** Equality of binary64 values is decidable. *)
#[global] Instance spec_float_eq_dec : EqDecision spec_float.
Proof. solve_decision. Defined.

(** ** Integers among the numbers *)

(** [integral v z]: the number [v] is the integer [z], of magnitude
    below [2^53]. Zero has two representations, [+0] and [-0]. *)
Definition integral (v : number) (z : Z) : Prop :=
  Z.abs z < 2 ^ 53 /\ (v = Num.of_Z z \/ (z = 0 /\ v = S754_zero true)).

(** The range of [ToInt32]. *)
Definition int32 (z : Z) : Prop := - 2 ^ 31 <= z < 2 ^ 31.

(** One step of [splitBits], [(x | (x << k)) & m], and one step of
    [compactBits], [(x | (x >> k)) & m], on integers. *)
Definition spread (k m x : Z) : Z := Z.land (Z.lor x (Z.shiftl x k)) m.
Definition squeeze (k m x : Z) : Z := Z.land (Z.lor x (Z.shiftr x k)) m.

(** The steps of [splitBits] and of [compactBits], in the order of the
    code. *)
Definition splitZ (x : Z) : Z :=
  spread 1 0x55555555 (spread 2 0x33333333 (spread 4 0x0F0F0F0F (spread 8 0x00FF00FF x))).

Definition compactZ (x : Z) : Z :=
  squeeze 8 0x0000FFFF
    (squeeze 4 0x00FF00FF
       (squeeze 2 0x0F0F0F0F (squeeze 1 0x33333333 (Z.land x 0x55555555)))).

(** ** Buffers, pixel by pixel *)

(** The buffer in which every pixel [(r, g, b, a)] of [buf] is replaced
    by [f r g b a]. *)
Fixpoint map_pixels (f : Z -> Z -> Z -> Z -> Z * Z * Z * Z) (buf : list Z)
  : list Z :=
  match buf with
  | r :: g :: b :: a :: rest =>
      let '(r', g', b', a') := f r g b a in
      r' :: g' :: b' :: a' :: map_pixels f rest
  | _ => []
  end.

(** Channel [ch] of a pixel. *)
Definition channel (q : Z * Z * Z * Z) (ch : Z) : Z :=
  let '(r, g, b, a) := q in
  if ch =? 0 then r else if ch =? 1 then g else if ch =? 2 then b else a.

(** The buffer of a [w] by [h] bitmap whose pixel [(x, y)] is the pixel
    of [buf] at the position [src x y]. *)
Definition gather (w h : Z) (src : Z -> Z -> Z * Z) (buf : list Z) : list Z :=
  flat_map (fun k => let '(sx, sy) := src (k mod w) (k / w) in pixel w buf sx sy)
           (seqZ 0 (w * h)).

(** ** [components/glitch-card.ts] and [components/sandbox.ts]

    Of the two components, what decides which parameters reach [apply]
    and what becomes of its result; the drawing on canvases is left
    out. *)

(** The loop of [GlitchCard.renderPreview] and of [Sandbox.resetParams]:
    a fresh object in which the name of every schema entry, in schema
    order, is set to the entry's default. *)
Definition defaultParams (schema : list ParamDefinition) : GlitchParams :=
  foldl (fun m d => <[d.(Param.name) := d.(Param.default)]> m) ∅ schema.

(** The [try] of [GlitchCard.renderPreview]: the transform applied with
    its default parameters; [None] is the error state drawn in the
    [catch] branch. *)
Definition renderPreview (glitch : GlitchDefinition) (imageData : ImageData)
  : M (option ImageData) := fun s =>
  match glitch.(apply) imageData (defaultParams glitch.(params)) s with
  | Ret glitchedData s' => Ret (Some glitchedData) s'
  | Stopped Throws s' => Ret None s'
  | Stopped Hangs s' => Stopped Hangs s'
  end.

(** The fields of a [Sandbox] that its event handlers read and write. *)
Module Sandbox.
Record t : Type := mk {
  originalImageData : option ImageData;
  processedImageData : option ImageData;
  currentGlitch : option GlitchDefinition;
  currentParams : GlitchParams
}.
End Sandbox.

(** [Sandbox.resetParams] *)
Definition resetParams (this : Sandbox.t) : Sandbox.t :=
  match this.(Sandbox.currentGlitch) with
  | None => this
  | Some glitch =>
      Sandbox.mk this.(Sandbox.originalImageData) this.(Sandbox.processedImageData)
                 this.(Sandbox.currentGlitch) (defaultParams glitch.(params))
  end.

(** [Sandbox.applyGlitch]: nothing happens without an image or a
    transform; an exception is caught and leaves the fields as they
    are. *)
Definition applyGlitch (this : Sandbox.t) : M Sandbox.t := fun s =>
  match this.(Sandbox.originalImageData), this.(Sandbox.currentGlitch) with
  | Some img, Some glitch =>
      match glitch.(apply) img this.(Sandbox.currentParams) s with
      | Ret out s' =>
          Ret (Sandbox.mk this.(Sandbox.originalImageData) (Some out)
                          this.(Sandbox.currentGlitch) this.(Sandbox.currentParams)) s'
      | Stopped Throws s' => Ret this s'
      | Stopped Hangs s' => Stopped Hangs s'
      end
  | _, _ => Ret this s
  end.

(** [Sandbox.showOriginal], without the drawing. *)
Definition showOriginal (this : Sandbox.t) : Sandbox.t :=
  match this.(Sandbox.originalImageData) with
  | None => this
  | Some _ =>
      Sandbox.mk this.(Sandbox.originalImageData) None
                 this.(Sandbox.currentGlitch) this.(Sandbox.currentParams)
  end.

(** The [change] handler of the transform menu, [glitchId] being the
    value of the menu: a non-empty id is looked up, the parameters are
    reset and the transform is applied; the empty entry deselects. *)
Definition selectGlitch {rt : JSRuntime} (this : Sandbox.t) (glitchId : string)
  : M Sandbox.t :=
  if truthy (VStr glitchId) then
    let this :=
      Sandbox.mk this.(Sandbox.originalImageData) this.(Sandbox.processedImageData)
                 (glitchById !! glitchId) this.(Sandbox.currentParams) in
    applyGlitch (resetParams this)
  else
    let this :=
      Sandbox.mk this.(Sandbox.originalImageData) this.(Sandbox.processedImageData)
                 None this.(Sandbox.currentParams) in
    mret (showOriginal this).

(** [Sandbox.handleParamChange], [value] being what the input element
    holds for [param]. *)
Definition handleParamChange (this : Sandbox.t) (param : ParamDefinition)
    (value : JSValue) : M Sandbox.t :=
  applyGlitch
    (Sandbox.mk this.(Sandbox.originalImageData) this.(Sandbox.processedImageData)
                this.(Sandbox.currentGlitch)
                (<[param.(Param.name) := value]> this.(Sandbox.currentParams))).

(** A schema whose names are distinct and whose defaults are admitted by
    their own entries. *)
Definition sound_schema (schema : list ParamDefinition) : Prop :=
  NoDup (Param.name <$> schema) /\
  Forall (fun d => admits d d.(Param.default)) schema.

(* ===================================================================== *)
(** * The monad: equations for running a computation *)
(* ===================================================================== *)

Lemma run_ret {A} (a : A) (t : Store) : (mret a : M A) t = Ret a t.
Proof. reflexivity. Qed.

Lemma run_bind {A B} (m : M A) (k : A -> M B) (t : Store) :
  (m ≫= k) t =
  match m t with Ret a t' => k a t' | Stopped w t' => Stopped w t' end.
Proof. reflexivity. Qed.

Lemma run_bind_ret {A B} (m : M A) (k : A -> M B) t a t' :
  m t = Ret a t' -> (m ≫= k) t = k a t'.
Proof. intros H. rewrite run_bind, H. reflexivity. Qed.

Lemma iterate_S {A} n i step (body : Z -> A -> M A) a :
  iterate (S n) i step body a = (body i a ≫= iterate n (i + step) step body).
Proof. reflexivity. Qed.

(** A loop with an invariant that every round re-establishes returns,
    and the invariant holds at the end. *)
Lemma iterate_inv {A} n :
  forall (P : nat -> A -> Store -> Prop) i step (body : Z -> A -> M A) a t,
  P O a t ->
  (forall k a t, (k < n)%nat -> P k a t ->
     exists a' t', body (i + Z.of_nat k * step) a t = Ret a' t' /\ P (S k) a' t') ->
  exists a' t', iterate n i step body a t = Ret a' t' /\ P n a' t'.
Proof.
  induction n as [|n IH]; intros P i step body a t H0 Hstep.
  - exists a, t. split; [reflexivity | assumption].
  - destruct (Hstep O a t) as (a1 & t1 & Hrun & HP1); [lia | assumption |].
    replace (i + Z.of_nat 0 * step) with i in Hrun by lia.
    destruct (IH (fun k => P (S k)) (i + step) step body a1 t1 HP1) as (a' & t' & Hit & HP').
    + intros k a2 t2 Hk HP.
      destruct (Hstep (S k) a2 t2) as (a3 & t3 & Hrun3 & HP3); [lia | assumption |].
      exists a3, t3. split; [|assumption].
      rewrite <- Hrun3. f_equal. lia.
    + exists a', t'. split; [|assumption].
      rewrite iterate_S. erewrite run_bind_ret by eassumption. assumption.
Qed.

Lemma for_inv (P : nat -> Store -> Prop) lo hi (body : Z -> M unit) t :
  P O t ->
  (forall k t, (k < Z.to_nat (hi - lo))%nat -> P k t ->
     exists t', body (lo + Z.of_nat k) t = Ret tt t' /\ P (S k) t') ->
  exists t', for_ lo hi body t = Ret tt t' /\ P (Z.to_nat (hi - lo)) t'.
Proof.
  intros H0 Hstep. unfold for_, for_step, for_acc.
  replace ((hi - lo + 1 - 1) / 1) with (hi - lo) by (rewrite Z.div_1_r; lia).
  destruct (iterate_inv (Z.to_nat (hi - lo)) (fun k (_ : unit) => P k) lo 1
              (fun i _ => body i) tt t H0) as ([] & t' & Hrun & HP).
  - intros k [] t1 Hk HP. destruct (Hstep k t1 Hk HP) as (t2 & Hb & HP2).
    exists tt, t2. split; [|assumption]. rewrite <- Hb. f_equal. lia.
  - eauto.
Qed.

(* ===================================================================== *)
(** * What a computation leaves behind *)
(* ===================================================================== *)

Lemma extends_refl t : extends t t.
Proof. exists []. by rewrite app_nil_r. Qed.

Lemma extends_trans t1 t2 t3 : extends t1 t2 -> extends t2 t3 -> extends t1 t3.
Proof.
  intros [m1 H1] [m2 H2]. exists (m1 ++ m2). rewrite H2, H1. by rewrite app_assoc.
Qed.

Lemma extends_alter (f : list Z -> list Z) b t :
  (forall buf, length (f buf) = length buf) -> extends t (alter f b t).
Proof.
  intros Hf. exists []. rewrite app_nil_r.
  apply list_eq. intros i. rewrite !list_lookup_fmap.
  destruct (decide (i = b)) as [->|Hne].
  - rewrite list_lookup_alter_eq. destruct (t !! b); simpl; [f_equal; apply Hf|done].
  - by rewrite list_lookup_alter_ne.
Qed.

Lemma length_buf_set buf i v : length (buf_set buf i v) = length buf.
Proof. unfold buf_set. destruct (0 <=? i); [apply length_insert|done]. Qed.

Lemma extends_lookup t t' b buf :
  extends t t' -> t !! b = Some buf ->
  exists buf', t' !! b = Some buf' /\ length buf' = length buf.
Proof.
  intros [more H] Hb.
  assert (Hl : (length <$> t') !! b = Some (length buf)).
  { rewrite H. rewrite lookup_app_l.
    - by rewrite list_lookup_fmap, Hb.
    - rewrite length_fmap. by eapply lookup_lt_Some. }
  rewrite list_lookup_fmap in Hl.
  destruct (t' !! b) as [buf'|]; simplify_eq/=. eauto.
Qed.

Lemma post_ret {A} (a : A) (Q : A -> Prop) : Q a -> post (mret a) Q.
Proof. intros HQ t. simpl. split; [done|apply extends_refl]. Qed.

Lemma post_bind {A B} (m : M A) (k : A -> M B) Q Q' :
  post m Q -> (forall a, Q a -> post (k a) Q') -> post (m ≫= k) Q'.
Proof.
  intros Hm Hk t. rewrite run_bind. specialize (Hm t).
  destruct (m t) as [a t'|w t'].
  - destruct Hm as [HQ He]. specialize (Hk a HQ t').
    destruct (k a t'); [destruct Hk; split|]; eauto using extends_trans.
  - done.
Qed.

Lemma post_weaken {A} (m : M A) (Q Q' : A -> Prop) :
  post m Q -> (forall a, Q a -> Q' a) -> post m Q'.
Proof.
  intros Hm HQ t. specialize (Hm t). destruct (m t); [destruct Hm; split|]; auto.
Qed.

Lemma post_throw {A} (Q : A -> Prop) : post throw Q.
Proof. intros t. apply extends_refl. Qed.

Lemma post_hang {A} (Q : A -> Prop) : post hang Q.
Proof. intros t. apply extends_refl. Qed.

Lemma post_read b i : post (read b i) (fun _ => True).
Proof. intros t. split; [done|apply extends_refl]. Qed.

Lemma post_read_num b i : post (read_num b i) (fun _ => True).
Proof. unfold read_num. destruct (Num.to_index i); [apply post_read|by apply post_ret]. Qed.

Lemma post_buf_length b : post (buf_length b) (fun _ => True).
Proof. intros t. split; [done|apply extends_refl]. Qed.

Lemma post_write b i v : post (write b i v) (fun _ => True).
Proof.
  intros t. split; [done|]. apply extends_alter. intros. apply length_buf_set.
Qed.

Lemma post_write_num b i v : post (write_num b i v) (fun _ => True).
Proof. unfold write_num. destruct (Num.to_index i); [apply post_write|by apply post_ret]. Qed.

Lemma post_new w h :
  post (new_ImageData w h)
       (fun out => out.(ImageData.width) = w /\ out.(ImageData.height) = h).
Proof.
  intros t. unfold new_ImageData. destruct ((0 <? w) && (0 <? h)).
  - split; [done|]. eexists. by rewrite fmap_app.
  - apply extends_refl.
Qed.

Lemma post_iterate {A} n : forall i step (body : Z -> A -> M A) a,
  (forall i a, post (body i a) (fun _ => True)) ->
  post (iterate n i step body a) (fun _ => True).
Proof.
  induction n as [|n IH]; intros i step body a Hb; simpl.
  - by apply post_ret.
  - eapply post_bind; [apply Hb|]. intros a' _. by apply IH.
Qed.

Lemma post_for_acc {A} lo hi step (body : Z -> A -> M A) a :
  (forall i a, post (body i a) (fun _ => True)) ->
  post (for_acc lo hi step body a) (fun _ => True).
Proof. apply post_iterate. Qed.

Lemma post_for_step lo hi step body :
  (forall i, post (body i) (fun _ => True)) ->
  post (for_step lo hi step body) (fun _ => True).
Proof. intros Hb. apply post_for_acc. auto. Qed.

Lemma post_for lo hi body :
  (forall i, post (body i) (fun _ => True)) -> post (for_ lo hi body) (fun _ => True).
Proof. apply post_for_step. Qed.

Lemma post_for_num {A} bound (body : Z -> A -> M A) a :
  (forall i a, post (body i a) (fun _ => True)) ->
  post (for_num bound body a) (fun _ => True).
Proof.
  intros Hb. unfold for_num. destruct (Num.trip_count bound).
  - by apply post_iterate.
  - apply post_hang.
Qed.

(** The same rules for computations that do return. *)
Lemma returns_post {A} (m : M A) Q : returns m Q -> post m Q.
Proof. intros H t. destruct (H t) as (a & t' & -> & HQ & He). done. Qed.

Lemma returns_ret {A} (a : A) (Q : A -> Prop) : Q a -> returns (mret a) Q.
Proof. intros HQ t. exists a, t. split; [done|]. split; [done|apply extends_refl]. Qed.

Lemma returns_bind {A B} (m : M A) (k : A -> M B) Q Q' :
  returns m Q -> (forall a, Q a -> returns (k a) Q') -> returns (m ≫= k) Q'.
Proof.
  intros Hm Hk t. destruct (Hm t) as (a & t' & Hrun & HQ & He).
  destruct (Hk a HQ t') as (b & t'' & Hrun' & HQ' & He').
  exists b, t''. rewrite run_bind, Hrun. eauto using extends_trans.
Qed.

Lemma returns_weaken {A} (m : M A) (Q Q' : A -> Prop) :
  returns m Q -> (forall a, Q a -> Q' a) -> returns m Q'.
Proof.
  intros Hm HQ t. destruct (Hm t) as (a & t' & Hrun & Ha & He). eauto 6.
Qed.

Lemma returns_read b i : returns (read b i) (fun _ => True).
Proof. intros t. eexists _, t. split; [done|]. split; [done|apply extends_refl]. Qed.

Lemma returns_read_num b i : returns (read_num b i) (fun _ => True).
Proof. unfold read_num. destruct (Num.to_index i); [apply returns_read|by apply returns_ret]. Qed.

Lemma returns_buf_length b : returns (buf_length b) (fun _ => True).
Proof. intros t. eexists _, t. split; [done|]. split; [done|apply extends_refl]. Qed.

Lemma returns_write b i v : returns (write b i v) (fun _ => True).
Proof.
  intros t. eexists tt, _. split; [done|]. split; [done|].
  apply extends_alter. intros. apply length_buf_set.
Qed.

Lemma returns_write_num b i v : returns (write_num b i v) (fun _ => True).
Proof. unfold write_num. destruct (Num.to_index i); [apply returns_write|by apply returns_ret]. Qed.

Lemma returns_new w h :
  0 < w -> 0 < h ->
  returns (new_ImageData w h)
          (fun out => out.(ImageData.width) = w /\ out.(ImageData.height) = h).
Proof.
  intros Hw Hh t. unfold new_ImageData.
  assert ((0 <? w) && (0 <? h) = true) as -> by (apply andb_true_iff; split; lia).
  eexists _, _. split; [done|]. split; [done|]. eexists. by rewrite fmap_app.
Qed.

Lemma returns_iterate {A} n : forall i step (body : Z -> A -> M A) a,
  (forall i a, returns (body i a) (fun _ => True)) ->
  returns (iterate n i step body a) (fun _ => True).
Proof.
  induction n as [|n IH]; intros i step body a Hb; simpl.
  - by apply returns_ret.
  - eapply returns_bind; [apply Hb|]. intros a' _. by apply IH.
Qed.

Lemma returns_for_acc {A} lo hi step (body : Z -> A -> M A) a :
  (forall i a, returns (body i a) (fun _ => True)) ->
  returns (for_acc lo hi step body a) (fun _ => True).
Proof. apply returns_iterate. Qed.

Lemma returns_for_step lo hi step body :
  (forall i, returns (body i) (fun _ => True)) ->
  returns (for_step lo hi step body) (fun _ => True).
Proof. intros Hb. apply returns_for_acc. auto. Qed.

Lemma returns_for lo hi body :
  (forall i, returns (body i) (fun _ => True)) ->
  returns (for_ lo hi body) (fun _ => True).
Proof. apply returns_for_step. Qed.

(* ===================================================================== *)
(** * Two runs that differ only in where the buffers live *)
(* ===================================================================== *)

Section SimLemmas.
Context {rt : JSRuntime}.
Variables (s1 s2 : Store) (d1 d2 : nat) (c : list Z).
Hypothesis H1 : s1 !! d1 = Some c.
Hypothesis H2 : s2 !! d2 = Some c.

Local Abbreviation Loc := (Rloc s1 s2 d1 d2).
Local Abbreviation Fresh := (Rfresh s1 s2).
Local Abbreviation Sto := (Rstore s1 s2).
Local Abbreviation Img := (Rimg s1 s2 d1 d2).
Local Abbreviation Out := (Rout s1 s2).
Local Abbreviation Sim := (sim s1 s2).

Lemma Rfresh_Rloc l1 l2 : Fresh l1 l2 -> Loc l1 l2.
Proof. intros (k & -> & ->). constructor. Qed.

Lemma Rout_fresh a b : Out a b -> Fresh (ImageData.data a) (ImageData.data b).
Proof. by intros (? & ? & ?). Qed.

Lemma Rout_Rimg a b : Out a b -> Img a b.
Proof. intros (? & ? & ?). repeat split; auto using Rfresh_Rloc. Qed.

Lemma Rimg_loc a b : Img a b -> Loc (ImageData.data a) (ImageData.data b).
Proof. by intros (? & ? & ?). Qed.

Lemma Rloc_lookup l1 l2 t1 t2 :
  Loc l1 l2 -> Sto t1 t2 -> t1 !! l1 = t2 !! l2.
Proof.
  intros Hl (ext & -> & ->). destruct Hl.
  - rewrite !lookup_app_l by (eapply lookup_lt_Some; eauto). congruence.
  - rewrite !lookup_app_r by lia. f_equal. lia.
Qed.

Lemma sim_ret {A} (R : A -> A -> Prop) a b : R a b -> Sim R (mret a) (mret b).
Proof. intros HR t1 t2 Ht. simpl. auto. Qed.

Lemma sim_bind {A B} (R : A -> A -> Prop) (R' : B -> B -> Prop) m1 m2 k1 k2 :
  Sim R m1 m2 -> (forall a b, R a b -> Sim R' (k1 a) (k2 b)) ->
  Sim R' (m1 ≫= k1) (m2 ≫= k2).
Proof.
  intros Hm Hk t1 t2 Ht. specialize (Hm t1 t2 Ht). rewrite !run_bind.
  destruct (m1 t1), (m2 t2); try contradiction.
  - destruct Hm as [HR Hs]. apply (Hk _ _ HR _ _ Hs).
  - exact Hm.
Qed.

Lemma sim_read l1 l2 i : Loc l1 l2 -> Sim eq (read l1 i) (read l2 i).
Proof.
  intros Hl t1 t2 Ht. unfold read. rewrite (Rloc_lookup _ _ _ _ Hl Ht). auto.
Qed.

Lemma sim_read_num l1 l2 i : Loc l1 l2 -> Sim eq (read_num l1 i) (read_num l2 i).
Proof.
  intros Hl. unfold read_num. destruct (Num.to_index i).
  - by apply sim_read.
  - by apply sim_ret.
Qed.

Lemma sim_buf_length l1 l2 : Loc l1 l2 -> Sim eq (buf_length l1) (buf_length l2).
Proof.
  intros Hl t1 t2 Ht. unfold buf_length. rewrite (Rloc_lookup _ _ _ _ Hl Ht). auto.
Qed.

Lemma sim_write l1 l2 i v : Fresh l1 l2 -> Sim eq (write l1 i v) (write l2 i v).
Proof.
  intros (k & -> & ->) t1 t2 (ext & -> & ->). unfold write. split; [done|].
  exists (alter (fun buf => buf_set buf i v) k ext).
  rewrite !alter_app_r. done.
Qed.

Lemma sim_write_num l1 l2 i v :
  Fresh l1 l2 -> Sim eq (write_num l1 i v) (write_num l2 i v).
Proof.
  intros Hl. unfold write_num. destruct (Num.to_index i).
  - by apply sim_write.
  - by apply sim_ret.
Qed.

Lemma sim_new w h : Sim Out (new_ImageData w h) (new_ImageData w h).
Proof.
  intros t1 t2 (ext & -> & ->). unfold new_ImageData.
  destruct ((0 <? w) && (0 <? h)).
  - split.
    + repeat split; simpl. exists (length ext). rewrite !length_app. done.
    + eexists. rewrite <- !app_assoc. done.
  - split; [done|]. by exists ext.
Qed.

Lemma sim_throw {A} (R : A -> A -> Prop) : Sim R throw throw.
Proof. intros t1 t2 Ht. simpl. auto. Qed.

Lemma sim_hang {A} (R : A -> A -> Prop) : Sim R hang hang.
Proof. intros t1 t2 Ht. simpl. auto. Qed.

Lemma sim_iterate {A} (R : A -> A -> Prop) n : forall i step body1 body2 a b,
  (forall i a b, R a b -> Sim R (body1 i a) (body2 i b)) -> R a b ->
  Sim R (iterate n i step body1 a) (iterate n i step body2 b).
Proof.
  induction n as [|n IH]; intros i step body1 body2 a b Hb HR; simpl.
  - by apply sim_ret.
  - eapply sim_bind; [by apply Hb|]. intros a' b' HR'. by apply IH.
Qed.

Lemma sim_for_acc {A} lo hi step (body1 body2 : Z -> A -> M A) a :
  (forall i a, Sim eq (body1 i a) (body2 i a)) ->
  Sim eq (for_acc lo hi step body1 a) (for_acc lo hi step body2 a).
Proof. intros Hb. apply sim_iterate; [|done]. by intros i a0 b ->. Qed.

Lemma sim_for_step lo hi step body1 body2 :
  (forall i, Sim eq (body1 i) (body2 i)) ->
  Sim eq (for_step lo hi step body1) (for_step lo hi step body2).
Proof. intros Hb. apply sim_for_acc; auto. Qed.

Lemma sim_for lo hi body1 body2 :
  (forall i, Sim eq (body1 i) (body2 i)) ->
  Sim eq (for_ lo hi body1) (for_ lo hi body2).
Proof. apply sim_for_step. Qed.

Lemma sim_for_num {A} bound (body1 body2 : Z -> A -> M A) a :
  (forall i a, Sim eq (body1 i a) (body2 i a)) ->
  Sim eq (for_num bound body1 a) (for_num bound body2 a).
Proof.
  intros Hb. unfold for_num. destruct (Num.trip_count bound).
  - apply sim_iterate; [|done]. by intros i a0 b ->.
  - apply sim_hang.
Qed.

(** The descent through two copies of the same program text. *)
Ltac sim_intro :=
  let a := fresh "a" in let b := fresh "b" in let H := fresh "H" in
  intros a b H;
  first [ subst b | subst a | idtac ].

Ltac sim_loc := eauto using Rfresh_Rloc, Rout_fresh, Rimg_loc, Rloc_input.

Ltac sim_hook := fail.

Ltac sim_go :=
  first [ sim_hook | sim_go_core ]
with sim_go_core :=
  lazymatch goal with
  | |- sim _ _ _ (mret _) (mret _) =>
      first [ apply (sim_ret eq); reflexivity | apply sim_ret; try done ]
  | |- sim _ _ _ (_ ≫= _) (_ ≫= _) =>
      eapply sim_bind; [sim_go|sim_intro; sim_go]
  | |- sim _ _ _ (read _ _) (read _ _) => apply sim_read; sim_loc
  | |- sim _ _ _ (read_num _ _) (read_num _ _) => apply sim_read_num; sim_loc
  | |- sim _ _ _ (buf_length _) (buf_length _) => apply sim_buf_length; sim_loc
  | |- sim _ _ _ (write _ _ _) (write _ _ _) => apply sim_write; sim_loc
  | |- sim _ _ _ (write_num _ _ _) (write_num _ _ _) =>
      apply sim_write_num; sim_loc
  | |- sim _ _ _ (new_ImageData _ _) (new_ImageData _ _) => apply sim_new
  | |- sim _ _ _ (for_ _ _ _) (for_ _ _ _) => apply sim_for; intros ?; sim_go
  | |- sim _ _ _ (for_step _ _ _ _) (for_step _ _ _ _) =>
      apply sim_for_step; intros ?; sim_go
  | |- sim _ _ _ (for_acc _ _ _ _ _) (for_acc _ _ _ _ _) =>
      apply sim_for_acc; intros ? ?; sim_go
  | |- sim _ _ _ (for_num _ _ _) (for_num _ _ _) =>
      apply sim_for_num; intros ? ?; sim_go
  | |- sim _ _ _ throw throw => apply sim_throw
  | |- sim _ _ _ hang hang => apply sim_hang
  | |- sim _ _ _ (match ?x with _ => _ end) (match ?x with _ => _ end) =>
      destruct x; sim_go
  | |- sim _ _ _ (let x := _ in _) _ => cbv zeta; sim_go
  | |- _ => idtac
  end.

Ltac sim_apply f := unfold f; cbv zeta; sim_go.

Lemma sim_rgbaAsRgb w h p :
  Sim Out (rgbaAsRgb_apply (ImageData.mk w h d1) p)
           (rgbaAsRgb_apply (ImageData.mk w h d2) p).
Proof. sim_apply @rgbaAsRgb_apply. Qed.

Lemma sim_rgbAsRgba w h p :
  Sim Out (rgbAsRgba_apply (ImageData.mk w h d1) p)
           (rgbAsRgba_apply (ImageData.mk w h d2) p).
Proof. sim_apply @rgbAsRgba_apply. Qed.

Lemma sim_bgrSwap w h p :
  Sim Out (bgrSwap_apply (ImageData.mk w h d1) p)
           (bgrSwap_apply (ImageData.mk w h d2) p).
Proof. sim_apply @bgrSwap_apply. Qed.

Lemma sim_argbOrder w h p :
  Sim Out (argbOrder_apply (ImageData.mk w h d1) p)
           (argbOrder_apply (ImageData.mk w h d2) p).
Proof. sim_apply @argbOrder_apply. Qed.

Lemma sim_endianness w h p :
  Sim Out (endianness_apply (ImageData.mk w h d1) p)
           (endianness_apply (ImageData.mk w h d2) p).
Proof. sim_apply @endianness_apply. Qed.

Lemma sim_channelShift w h p :
  Sim Out (channelShift_apply (ImageData.mk w h d1) p)
           (channelShift_apply (ImageData.mk w h d2) p).
Proof. sim_apply @channelShift_apply. Qed.

Lemma sim_bitDepth w h p :
  Sim Out (bitDepth_apply (ImageData.mk w h d1) p)
           (bitDepth_apply (ImageData.mk w h d2) p).
Proof. sim_apply @bitDepth_apply. Qed.

Lemma sim_gamma w h p :
  Sim Out (gamma_apply (ImageData.mk w h d1) p)
           (gamma_apply (ImageData.mk w h d2) p).
Proof. sim_apply @gamma_apply. Qed.

Lemma sim_premultipliedAlpha w h p :
  Sim Out (premultipliedAlpha_apply (ImageData.mk w h d1) p)
           (premultipliedAlpha_apply (ImageData.mk w h d2) p).
Proof. sim_apply @premultipliedAlpha_apply. Qed.

Lemma sim_signedUnsigned w h p :
  Sim Out (signedUnsigned_apply (ImageData.mk w h d1) p)
           (signedUnsigned_apply (ImageData.mk w h d2) p).
Proof. sim_apply @signedUnsigned_apply. Qed.

Lemma sim_compression w h p :
  Sim Out (compression_apply (ImageData.mk w h d1) p)
           (compression_apply (ImageData.mk w h d2) p).
Proof. sim_apply @compression_apply. Qed.

Lemma sim_yuv w h p :
  Sim Out (yuv_apply (ImageData.mk w h d1) p)
           (yuv_apply (ImageData.mk w h d2) p).
Proof. sim_apply @yuv_apply. Qed.

Lemma sim_floatPrecision w h p :
  Sim Out (floatPrecision_apply (ImageData.mk w h d1) p)
           (floatPrecision_apply (ImageData.mk w h d2) p).
Proof. sim_apply @floatPrecision_apply. Qed.

Lemma sim_wrongStride w h p :
  Sim Out (wrongStride_apply (ImageData.mk w h d1) p)
           (wrongStride_apply (ImageData.mk w h d2) p).
Proof. sim_apply @wrongStride_apply. Qed.

Lemma sim_wrongPitch w h p :
  Sim Out (wrongPitch_apply (ImageData.mk w h d1) p)
           (wrongPitch_apply (ImageData.mk w h d2) p).
Proof. sim_apply @wrongPitch_apply. Qed.

Lemma sim_rowPadding w h p :
  Sim Out (rowPadding_apply (ImageData.mk w h d1) p)
           (rowPadding_apply (ImageData.mk w h d2) p).
Proof. sim_apply @rowPadding_apply. Qed.

Lemma sim_alignment w h p :
  Sim Out (alignment_apply (ImageData.mk w h d1) p)
           (alignment_apply (ImageData.mk w h d2) p).
Proof. sim_apply @alignment_apply. Qed.

Lemma sim_swizzle w h p :
  Sim Out (swizzle_apply (ImageData.mk w h d1) p)
           (swizzle_apply (ImageData.mk w h d2) p).
Proof. sim_apply @swizzle_apply. Qed.

Lemma sim_offByOne w h p :
  Sim Out (offByOne_apply (ImageData.mk w h d1) p)
           (offByOne_apply (ImageData.mk w h d2) p).
Proof. sim_apply @offByOne_apply. Qed.

Lemma sim_flippedAxis w h p :
  Sim Out (flippedAxis_apply (ImageData.mk w h d1) p)
           (flippedAxis_apply (ImageData.mk w h d2) p).
Proof. sim_apply @flippedAxis_apply. Qed.

Lemma sim_uvWrapping w h p :
  Sim Out (uvWrapping_apply (ImageData.mk w h d1) p)
           (uvWrapping_apply (ImageData.mk w h d2) p).
Proof. sim_apply @uvWrapping_apply. Qed.

Lemma sim_aspectRatio w h p :
  Sim Out (aspectRatio_apply (ImageData.mk w h d1) p)
           (aspectRatio_apply (ImageData.mk w h d2) p).
Proof. sim_apply @aspectRatio_apply. Qed.

Lemma sim_getPixel w h l1 l2 x y :
  Loc l1 l2 -> Sim eq (getPixel w h l1 x y) (getPixel w h l2 x y).
Proof. intros Hl. sim_apply @getPixel. Qed.

Ltac sim_hook ::=
  lazymatch goal with
  | |- sim _ _ _ (getPixel _ _ _ _ _) (getPixel _ _ _ _ _) =>
      apply sim_getPixel; sim_loc
  end.

Lemma sim_bilinear w h l1 l2 x y :
  Loc l1 l2 -> Sim eq (bilinear w h l1 x y) (bilinear w h l2 x y).
Proof. intros Hl. sim_apply @bilinear. Qed.

Ltac sim_hook ::=
  lazymatch goal with
  | |- sim _ _ _ (getPixel _ _ _ _ _) (getPixel _ _ _ _ _) =>
      apply sim_getPixel; sim_loc
  | |- sim _ _ _ (bilinear _ _ _ _ _) (bilinear _ _ _ _ _) =>
      apply sim_bilinear; sim_loc
  end.

Lemma sim_sampling w h p :
  Sim Out (sampling_apply (ImageData.mk w h d1) p)
          (sampling_apply (ImageData.mk w h d2) p).
Proof. sim_apply @sampling_apply. Qed.

Lemma sim_halfPixel w h p :
  Sim Out (halfPixel_apply (ImageData.mk w h d1) p)
          (halfPixel_apply (ImageData.mk w h d2) p).
Proof. sim_apply @halfPixel_apply. Qed.

(** The mip chain: the levels of the two runs are the same images. *)
Lemma Forall2_last {A} (R : A -> A -> Prop) l1 l2 :
  Forall2 R l1 l2 -> option_Forall2 R (last l1) (last l2).
Proof.
  intros HF. rewrite !last_lookup, <- (Forall2_length _ _ _ HF).
  by apply Forall2_lookup.
Qed.

Lemma Forall2_lookup_num {A} (R : A -> A -> Prop) l1 l2 v :
  Forall2 R l1 l2 -> option_Forall2 R (lookup_num l1 v) (lookup_num l2 v).
Proof.
  intros HF. unfold lookup_num. destruct (Num.to_index v); [|constructor].
  destruct (0 <=? z); [|constructor]. by apply Forall2_lookup.
Qed.

Lemma sim_mip_chain fuel : forall l1 l2 w h,
  Forall2 Img l1 l2 ->
  Sim (Forall2 Img) (mip_chain fuel l1 w h) (mip_chain fuel l2 w h).
Proof.
  induction fuel as [|fuel IH]; intros l1 l2 w h HF; simpl.
  - destruct ((1 <? w) || (1 <? h)); [apply sim_hang|by apply sim_ret].
  - destruct ((1 <? w) || (1 <? h)); [|by apply sim_ret].
    destruct (Forall2_last _ _ _ HF) as [prev1 prev2 Hprev|]; [|apply sim_throw].
    cbv zeta. sim_go.
    apply IH. apply Forall2_app; [done|]. constructor; [|constructor].
    by apply Rout_Rimg.
Qed.

Lemma sim_mipLevels_of w h :
  Sim (Forall2 Img) (mipLevels_of (ImageData.mk w h d1))
                    (mipLevels_of (ImageData.mk w h d2)).
Proof.
  unfold mipLevels_of. apply sim_mip_chain.
  constructor; [|constructor]. repeat split. apply Rloc_input.
Qed.

Lemma sim_mipmap w h p :
  Sim Out (mipmap_apply (ImageData.mk w h d1) p)
          (mipmap_apply (ImageData.mk w h d2) p).
Proof.
  unfold mipmap_apply. cbv zeta.
  eapply sim_bind; [apply sim_new|]. intros out1 out2 Hout.
  eapply sim_bind; [apply sim_mipLevels_of|]. intros l1 l2 HF.
  rewrite <- (Forall2_length _ _ _ HF).
  eapply sim_bind; [|intros _ _ _; by apply sim_ret].
  apply sim_for; intros y. apply sim_for; intros x.
  match goal with
  | |- sim _ _ _ (match lookup_num l1 ?v with _ => _ end) _ =>
      destruct (Forall2_lookup_num _ _ _ v HF) as [mip1 mip2 (Hw & Hh & Hl)|]
  end; [|apply sim_throw].
  rewrite Hw, Hh.
  sim_go.
Qed.

End SimLemmas.

(* ===================================================================== *)
(** * Every transform allocates its output first and never resizes it *)
(* ===================================================================== *)

Lemma allocates_first_shape w h m t out t' :
  allocates_first w h m -> m t = Ret out t' ->
  out = ImageData.mk w h (length t) /\
  exists o, t' !! length t = Some o /\ length o = Z.to_nat (w * h * 4).
Proof.
  intros (k & -> & Hk) Hrun. rewrite run_bind in Hrun. unfold new_ImageData in Hrun.
  destruct ((0 <? w) && (0 <? h)); [|discriminate].
  specialize (Hk (ImageData.mk w h (length t)) (t ++ [replicate (Z.to_nat (w * h * 4)) 0])).
  rewrite Hrun in Hk. destruct Hk as [<- Hext]. split; [done|].
  destruct (extends_lookup _ _ (length t) (replicate (Z.to_nat (w * h * 4)) 0) Hext)
    as (o & Ho & Hlen).
  - rewrite lookup_app_r by lia. by rewrite Nat.sub_diag.
  - exists o. split; [done|]. by rewrite Hlen, length_replicate.
Qed.

Lemma allocates_first_extends w h m t :
  allocates_first w h m -> extends t (final (m t)).
Proof.
  intros (k & -> & Hk).
  pose proof (post_bind _ k _ (eq (ImageData.mk w h (length t))) (post_new w h)) as Hp.
  rewrite run_bind. unfold new_ImageData.
  destruct ((0 <? w) && (0 <? h)); simpl; [|apply extends_refl].
  specialize (Hk (ImageData.mk w h (length t)) (t ++ [replicate (Z.to_nat (w * h * 4)) 0])).
  assert (extends t (t ++ [replicate (Z.to_nat (w * h * 4)) 0])) as He
    by (eexists; by rewrite fmap_app).
  destruct (k _ _); simpl; [destruct Hk|]; eauto using extends_trans.
Qed.

Section Posts.
Context {rt : JSRuntime}.

Ltac post_hook := fail.

Ltac post_go :=
  first [ post_hook | post_go_core ]
with post_go_core :=
  lazymatch goal with
  | |- post (mret _) _ =>
      first [ apply (post_ret _ (fun _ => True)); exact I
            | apply post_ret; reflexivity ]
  | |- post (_ ≫= _) _ => eapply post_bind; [post_go|intros ? ?; post_go]
  | |- post (read _ _) _ => apply post_read
  | |- post (read_num _ _) _ => apply post_read_num
  | |- post (buf_length _) _ => apply post_buf_length
  | |- post (write _ _ _) _ => apply post_write
  | |- post (write_num _ _ _) _ => apply post_write_num
  | |- post (new_ImageData _ _) _ => apply post_new
  | |- post (for_ _ _ _) _ => apply post_for; intros ?; post_go
  | |- post (for_step _ _ _ _) _ => apply post_for_step; intros ?; post_go
  | |- post (for_acc _ _ _ _ _) _ => apply post_for_acc; intros ? ?; post_go
  | |- post (for_num _ _ _) _ => apply post_for_num; intros ? ?; post_go
  | |- post throw _ => apply post_throw
  | |- post hang _ => apply post_hang
  | |- post (match ?x with _ => _ end) _ => destruct x; post_go
  | |- post (let x := _ in _) _ => cbv zeta; post_go
  | |- _ => idtac
  end.

Ltac alloc_first f :=
  unfold f; cbv zeta; eexists; split; [reflexivity|]; intros ?; cbv beta; post_go.

Lemma alloc_rgbaAsRgb w h d p : allocates_first w h (rgbaAsRgb_apply (ImageData.mk w h d) p).
Proof. alloc_first @rgbaAsRgb_apply. Qed.
Lemma alloc_rgbAsRgba w h d p : allocates_first w h (rgbAsRgba_apply (ImageData.mk w h d) p).
Proof. alloc_first @rgbAsRgba_apply. Qed.
Lemma alloc_bgrSwap w h d p : allocates_first w h (bgrSwap_apply (ImageData.mk w h d) p).
Proof. alloc_first @bgrSwap_apply. Qed.
Lemma alloc_argbOrder w h d p : allocates_first w h (argbOrder_apply (ImageData.mk w h d) p).
Proof. alloc_first @argbOrder_apply. Qed.
Lemma alloc_endianness w h d p : allocates_first w h (endianness_apply (ImageData.mk w h d) p).
Proof. alloc_first @endianness_apply. Qed.
Lemma alloc_channelShift w h d p : allocates_first w h (channelShift_apply (ImageData.mk w h d) p).
Proof. alloc_first @channelShift_apply. Qed.
Lemma alloc_bitDepth w h d p : allocates_first w h (bitDepth_apply (ImageData.mk w h d) p).
Proof. alloc_first @bitDepth_apply. Qed.
Lemma alloc_gamma w h d p : allocates_first w h (gamma_apply (ImageData.mk w h d) p).
Proof. alloc_first @gamma_apply. Qed.
Lemma alloc_premultipliedAlpha w h d p :
  allocates_first w h (premultipliedAlpha_apply (ImageData.mk w h d) p).
Proof. alloc_first @premultipliedAlpha_apply. Qed.
Lemma alloc_signedUnsigned w h d p :
  allocates_first w h (signedUnsigned_apply (ImageData.mk w h d) p).
Proof. alloc_first @signedUnsigned_apply. Qed.
Lemma alloc_compression w h d p : allocates_first w h (compression_apply (ImageData.mk w h d) p).
Proof. alloc_first @compression_apply. Qed.
Lemma alloc_yuv w h d p : allocates_first w h (yuv_apply (ImageData.mk w h d) p).
Proof. alloc_first @yuv_apply. Qed.
Lemma alloc_floatPrecision w h d p :
  allocates_first w h (floatPrecision_apply (ImageData.mk w h d) p).
Proof. alloc_first @floatPrecision_apply. Qed.
Lemma alloc_wrongStride w h d p : allocates_first w h (wrongStride_apply (ImageData.mk w h d) p).
Proof. alloc_first @wrongStride_apply. Qed.
Lemma alloc_wrongPitch w h d p : allocates_first w h (wrongPitch_apply (ImageData.mk w h d) p).
Proof. alloc_first @wrongPitch_apply. Qed.
Lemma alloc_rowPadding w h d p : allocates_first w h (rowPadding_apply (ImageData.mk w h d) p).
Proof. alloc_first @rowPadding_apply. Qed.
Lemma alloc_alignment w h d p : allocates_first w h (alignment_apply (ImageData.mk w h d) p).
Proof. alloc_first @alignment_apply. Qed.
Lemma alloc_swizzle w h d p : allocates_first w h (swizzle_apply (ImageData.mk w h d) p).
Proof. alloc_first @swizzle_apply. Qed.
Lemma alloc_offByOne w h d p : allocates_first w h (offByOne_apply (ImageData.mk w h d) p).
Proof. alloc_first @offByOne_apply. Qed.
Lemma alloc_flippedAxis w h d p : allocates_first w h (flippedAxis_apply (ImageData.mk w h d) p).
Proof. alloc_first @flippedAxis_apply. Qed.
Lemma alloc_uvWrapping w h d p : allocates_first w h (uvWrapping_apply (ImageData.mk w h d) p).
Proof. alloc_first @uvWrapping_apply. Qed.
Lemma alloc_aspectRatio w h d p : allocates_first w h (aspectRatio_apply (ImageData.mk w h d) p).
Proof. alloc_first @aspectRatio_apply. Qed.

Lemma post_getPixel w h d x y : post (getPixel w h d x y) (fun _ => True).
Proof. unfold getPixel; post_go. Qed.

Ltac post_hook ::=
  lazymatch goal with
  | |- post (getPixel _ _ _ _ _) _ => apply post_getPixel
  end.

Lemma post_bilinear w h d x y : post (bilinear w h d x y) (fun _ => True).
Proof. unfold bilinear; post_go. Qed.

Lemma post_mip_chain fuel : forall l w h, post (mip_chain fuel l w h) (fun _ => True).
Proof.
  induction fuel as [|fuel IH]; intros l w h; simpl.
  - destruct ((1 <? w) || (1 <? h)); [apply post_hang|by apply post_ret].
  - destruct ((1 <? w) || (1 <? h)); [|by apply post_ret].
    destruct (last l); [|apply post_throw].
    cbv zeta. post_go. apply IH.
Qed.

Ltac post_hook ::=
  lazymatch goal with
  | |- post (getPixel _ _ _ _ _) _ => apply post_getPixel
  | |- post (bilinear _ _ _ _ _) _ => apply post_bilinear
  | |- post (mipLevels_of _) _ => apply post_mip_chain
  end.

Lemma alloc_sampling w h d p : allocates_first w h (sampling_apply (ImageData.mk w h d) p).
Proof. alloc_first @sampling_apply. Qed.
Lemma alloc_halfPixel w h d p : allocates_first w h (halfPixel_apply (ImageData.mk w h d) p).
Proof. alloc_first @halfPixel_apply. Qed.
Lemma alloc_mipmap w h d p : allocates_first w h (mipmap_apply (ImageData.mk w h d) p).
Proof. alloc_first @mipmap_apply. Qed.

End Posts.

(* ===================================================================== *)
(** * The catalog as a whole *)
(* ===================================================================== *)

Section Catalog.
Context {rt : JSRuntime}.

(** Case analysis over the 25 entries of [glitches]. *)
Ltac each_glitch H :=
  unfold glitches in H;
  repeat (apply elem_of_cons in H as [->|H]);
  [..|by apply elem_of_nil in H];
  cbv [apply rgbaAsRgb rgbAsRgba bgrSwap argbOrder endianness channelShift
       bitDepth gamma premultipliedAlpha signedUnsigned compression yuv
       floatPrecision wrongStride wrongPitch rowPadding alignment swizzle
       offByOne flippedAxis uvWrapping aspectRatio sampling halfPixel mipmap].

Lemma apply_sim g s1 s2 d1 d2 c w h p :
  g ∈ glitches -> s1 !! d1 = Some c -> s2 !! d2 = Some c ->
  sim s1 s2 (Rout s1 s2) (apply g (ImageData.mk w h d1) p)
                         (apply g (ImageData.mk w h d2) p).
Proof.
  intros Hg Hs1 Hs2. each_glitch Hg;
  [> by eapply sim_rgbaAsRgb
   | by eapply sim_rgbAsRgba
   | by eapply sim_bgrSwap
   | by eapply sim_argbOrder
   | by eapply sim_endianness
   | by eapply sim_channelShift
   | by eapply sim_bitDepth
   | by eapply sim_gamma
   | by eapply sim_premultipliedAlpha
   | by eapply sim_signedUnsigned
   | by eapply sim_compression
   | by eapply sim_yuv
   | by eapply sim_floatPrecision
   | by eapply sim_wrongStride
   | by eapply sim_wrongPitch
   | by eapply sim_rowPadding
   | by eapply sim_alignment
   | by eapply sim_swizzle
   | by eapply sim_offByOne
   | by eapply sim_flippedAxis
   | by eapply sim_uvWrapping
   | by eapply sim_aspectRatio
   | by eapply sim_sampling
   | by eapply sim_halfPixel
   | by eapply sim_mipmap ].
Qed.

Lemma apply_allocates_first g w h d p :
  g ∈ glitches -> allocates_first w h (apply g (ImageData.mk w h d) p).
Proof.
  intros Hg. each_glitch Hg;
  [> apply alloc_rgbaAsRgb
   | apply alloc_rgbAsRgba
   | apply alloc_bgrSwap
   | apply alloc_argbOrder
   | apply alloc_endianness
   | apply alloc_channelShift
   | apply alloc_bitDepth
   | apply alloc_gamma
   | apply alloc_premultipliedAlpha
   | apply alloc_signedUnsigned
   | apply alloc_compression
   | apply alloc_yuv
   | apply alloc_floatPrecision
   | apply alloc_wrongStride
   | apply alloc_wrongPitch
   | apply alloc_rowPadding
   | apply alloc_alignment
   | apply alloc_swizzle
   | apply alloc_offByOne
   | apply alloc_flippedAxis
   | apply alloc_uvWrapping
   | apply alloc_aspectRatio
   | apply alloc_sampling
   | apply alloc_halfPixel
   | apply alloc_mipmap ].
Qed.

End Catalog.

Section CatalogTheorems.
Context {rt : JSRuntime}.

(** Two calls on equal bitmaps, wherever these live, end the same way;
    each store grows by the same buffers, and what was there stays. *)
Lemma apply_two_runs g s1 s2 d1 d2 c w h p :
  g ∈ glitches -> s1 !! d1 = Some c -> s2 !! d2 = Some c ->
  completion (apply g (ImageData.mk w h d1) p s1)
    = completion (apply g (ImageData.mk w h d2) p s2) /\
  returned_pixels (apply g (ImageData.mk w h d1) p s1)
    = returned_pixels (apply g (ImageData.mk w h d2) p s2) /\
  exists ext, final (apply g (ImageData.mk w h d1) p s1) = s1 ++ ext /\
              final (apply g (ImageData.mk w h d2) p s2) = s2 ++ ext.
Proof.
  intros Hg Hs1 Hs2.
  assert (Rstore s1 s2 s1 s2) as Hst by (exists []; by rewrite !app_nil_r).
  pose proof (apply_sim g s1 s2 d1 d2 c w h p Hg Hs1 Hs2 s1 s2 Hst) as Hsim.
  destruct (apply g (ImageData.mk w h d1) p s1) as [out1 u1|w1 u1],
           (apply g (ImageData.mk w h d2) p s2) as [out2 u2|w2 u2];
    try contradiction; simpl.
  - destruct Hsim as [(_ & _ & k & Hk1 & Hk2) (ext & -> & ->)].
    split; [done|]. split; [|by exists ext].
    rewrite Hk1, Hk2, !lookup_app_r by lia. f_equal. lia.
  - destruct Hsim as [-> (ext & -> & ->)]. eauto.
Qed.

Lemma apply_frame g img p s c :
  g ∈ glitches -> s !! img.(ImageData.data) = Some c ->
  exists ext, final (apply g img p s) = s ++ ext.
Proof.
  intros Hg Hs. destruct img as [w h d].
  destruct (apply_two_runs g s s d d c w h p Hg Hs Hs) as (_ & _ & ext & Hext & _).
  eauto.
Qed.

Lemma bitmap_app s ext img c : bitmap s img c -> bitmap (s ++ ext) img c.
Proof.
  intros (Hs & ?). split; [|done].
  rewrite lookup_app_l; [done|by eapply lookup_lt_Some].
Qed.

(** C2. For every transform of the catalog, every well-formed bitmap and
    every parameter map, a call of [apply] -- whether it returns, throws
    or hangs -- leaves the store with every buffer that existed before
    the call unchanged, the input bitmap's among them; the buffer of a
    returned bitmap is a fresh one. *)
Theorem apply_leaves_input_unchanged g img p s c :
  g ∈ glitches -> bitmap s img c ->
  let s' := final (apply g img p s) in
  bitmap s' img c /\
  (forall i buf, s !! i = Some buf -> s' !! i = Some buf) /\
  (forall out u, apply g img p s = Ret out u -> s !! out.(ImageData.data) = None).
Proof.
  intros Hg Hb s'. pose proof Hb as (Hs & _).
  destruct (apply_frame g img p s c Hg Hs) as [ext Hext].
  subst s'. rewrite Hext. split; [by apply bitmap_app|]. split.
  - intros i buf Hi. rewrite lookup_app_l; [done|by eapply lookup_lt_Some].
  - intros out u Hrun. destruct img as [w h d].
    destruct (allocates_first_shape w h _ s out u
                (apply_allocates_first g w h d p Hg) Hrun) as [-> _].
    simpl. by apply lookup_ge_None.
Qed.

(** C3. For every transform of the catalog and every parameter map, two
    calls of [apply] on bitmaps with the same dimensions and the same
    bytes end the same way and, when they return, return buffers with
    the same bytes: whether the two bitmaps live in unrelated stores,
    or the second call runs on the same bitmap in the store the first
    call left. *)
Theorem apply_deterministic g p s s' img img' c :
  g ∈ glitches -> bitmap s img c -> bitmap s' img' c ->
  img.(ImageData.width) = img'.(ImageData.width) ->
  img.(ImageData.height) = img'.(ImageData.height) ->
  (completion (apply g img p s) = completion (apply g img' p s') /\
   returned_pixels (apply g img p s) = returned_pixels (apply g img' p s')) /\
  (completion (apply g img p (final (apply g img p s)))
     = completion (apply g img p s) /\
   returned_pixels (apply g img p (final (apply g img p s)))
     = returned_pixels (apply g img p s)).
Proof.
  intros Hg Hb Hb' Hw Hh. destruct img as [w h d], img' as [w' h' d'].
  simpl in Hw, Hh. subst w' h'. split.
  - destruct Hb as (Hs & _), Hb' as (Hs' & _).
    destruct (apply_two_runs g s s' d d' c w h p Hg Hs Hs') as (? & ? & _). done.
  - pose proof Hb as (Hs & _).
    destruct (apply_frame g (ImageData.mk w h d) p s c Hg Hs) as [ext Hext].
    assert (Hs' : (s ++ ext) !! d = Some c).
    { rewrite lookup_app_l; [done|by eapply lookup_lt_Some]. }
    rewrite Hext.
    destruct (apply_two_runs g (s ++ ext) s d d c w h p Hg Hs' Hs) as (? & ? & _).
    done.
Qed.

End CatalogTheorems.

(* ===================================================================== *)
(** * The registry *)
(* ===================================================================== *)

Section RegistryTheorems.
Context {rt : JSRuntime}.

Lemma lookup_foldl_insert_fresh (l : list GlitchDefinition) :
  forall (m : gmap string GlitchDefinition) k,
  k ∉ id <$> l -> foldl (fun m g => <[g.(id) := g]> m) m l !! k = m !! k.
Proof.
  induction l as [|g l IH]; intros m k Hk; simpl; [done|].
  rewrite fmap_cons, not_elem_of_cons in Hk. destruct Hk as [Hne Hk].
  rewrite IH by done. by rewrite lookup_insert_ne.
Qed.

Lemma lookup_foldl_insert (l : list GlitchDefinition) :
  forall (m : gmap string GlitchDefinition) g,
  NoDup (id <$> l) -> g ∈ l ->
  foldl (fun m g => <[g.(id) := g]> m) m l !! g.(id) = Some g.
Proof.
  induction l as [|g' l IH]; intros m g Hnd Hg; simpl.
  - by apply elem_of_nil in Hg.
  - rewrite fmap_cons, NoDup_cons in Hnd. destruct Hnd as [Hfresh Hnd].
    apply elem_of_cons in Hg as [->|Hg].
    + rewrite lookup_foldl_insert_fresh by done. by rewrite lookup_insert_eq.
    + by apply IH.
Qed.

Lemma glitch_ids :
  id <$> glitches =
  ["rgba-as-rgb"; "rgb-as-rgba"; "bgr-swap"; "argb-order"; "endianness";
   "channel-shift"; "bit-depth"; "gamma"; "premultiplied-alpha";
   "signed-unsigned"; "compression"; "yuv"; "float-precision";
   "wrong-stride"; "wrong-pitch"; "row-padding"; "alignment"; "swizzle";
   "off-by-one"; "flipped-axis"; "uv-wrapping"; "aspect-ratio"; "sampling";
   "half-pixel"; "mipmap"].
Proof. reflexivity. Qed.

(** C8. In the registry no two transforms share an id, so that the
    lookup by id finds each of them; and for each of the three
    categories the listing by category holds exactly the transforms of
    the catalog with that category, in catalog order. *)
Theorem registry_unique_and_grouped :
  NoDup (id <$> glitches) /\
  (forall g, g ∈ glitches -> glitchById !! g.(id) = Some g) /\
  (forall c,
     sublist (glitchesByCategory c) glitches /\
     forall g, g ∈ glitchesByCategory c <-> g ∈ glitches /\ g.(category) = c) /\
  id <$> glitchesByCategory pixel_format =
    ["rgba-as-rgb"; "rgb-as-rgba"; "bgr-swap"; "argb-order"; "endianness";
     "channel-shift"; "bit-depth"; "gamma"; "premultiplied-alpha";
     "signed-unsigned"; "compression"; "yuv"; "float-precision"] /\
  id <$> glitchesByCategory memory_layout =
    ["wrong-stride"; "wrong-pitch"; "row-padding"; "alignment"; "swizzle"] /\
  id <$> glitchesByCategory coordinates =
    ["off-by-one"; "flipped-axis"; "uv-wrapping"; "aspect-ratio"; "sampling";
     "half-pixel"; "mipmap"].
Proof.
  assert (Hnd : NoDup (id <$> glitches)).
  { rewrite glitch_ids. refine (bool_decide_unpack _ _). vm_compute. exact I. }
  split; [exact Hnd|]. split.
  { intros g Hg. by apply lookup_foldl_insert. }
  split.
  { intros c. split.
    - apply sublist_filter.
    - intros g. unfold glitchesByCategory. rewrite list_elem_of_filter. tauto. }
  repeat split; reflexivity.
Qed.

End RegistryTheorems.

(* ===================================================================== *)
(** * Flipped axis *)
(* ===================================================================== *)

Section FlippedAxis.
Context {rt : JSRuntime}.

Lemma get_insert (p : GlitchParams) k v : get (<[k := v]> p) k = v.
Proof. unfold get. by rewrite lookup_insert_eq. Qed.

(** C9. For every bitmap and every parameter map, [flipped-axis] run
    with [flipMode] set to 'Flip Both' and run with [flipMode] set to
    'Rotate 180' end in the same outcome: the same returned image over
    the same bytes. *)
Theorem flip_both_same_as_rotate_180 (img : ImageData) (p : GlitchParams) (s : Store) :
  apply flippedAxis img (<["flipMode" := VStr "Flip Both"]> p) s =
  apply flippedAxis img (<["flipMode" := VStr "Rotate 180"]> p) s.
Proof.
  cbv [apply flippedAxis]. unfold flippedAxis_apply. rewrite !get_insert.
  reflexivity.
Qed.

End FlippedAxis.

(* ===================================================================== *)
(** * Running a pixel loop *)
(* ===================================================================== *)

(** Bytes, by cases: a property checked on the 256 byte values holds of
    every byte. *)
Lemma byte_cases (P : Z -> bool) :
  forallb P (seqZ 0 256) = true -> forall z, byte z -> P z = true.
Proof.
  intros Hall z [Hlo Hhi]. rewrite forallb_forall in Hall.
  apply Hall. apply list_elem_of_In, elem_of_seqZ. lia.
Qed.

Lemma clamp_byte z : byte z -> Num.ToUint8Clamp (Num.of_Z z) = z.
Proof.
  intros Hz. apply Z.eqb_eq.
  apply (byte_cases (fun z => Num.ToUint8Clamp (Num.of_Z z) =? z)); [|done].
  vm_compute. reflexivity.
Qed.

Section PixelLoops.
Context {rt : JSRuntime}.
Variables (s : Store) (d : nat) (c : list Z).
Hypothesis Hd : s !! d = Some c.

Lemma run_read_input i buf :
  read d i (s ++ [buf]) = Ret (buf_get c i) (s ++ [buf]).
Proof.
  unfold read. rewrite lookup_app_l by (by eapply lookup_lt_Some). by rewrite Hd.
Qed.

Lemma run_write_output i v buf :
  write (length s) i v (s ++ [buf]) = Ret tt (s ++ [buf_set buf i v]).
Proof.
  unfold write. f_equal.
  replace (length s) with (length s + 0)%nat by lia. by rewrite alter_app_r.
Qed.

Lemma run_buf_length_input buf :
  buf_length d (s ++ [buf]) = Ret (Z.of_nat (length c)) (s ++ [buf]).
Proof.
  unfold buf_length. rewrite lookup_app_l by (by eapply lookup_lt_Some). by rewrite Hd.
Qed.

Lemma buf_get_byte i z :
  0 <= i -> c !! Z.to_nat i = Some z -> buf_get c i = VNum (Num.of_Z z).
Proof.
  intros Hi Hz. unfold buf_get.
  assert ((0 <=? i) = true) as -> by lia. by rewrite Hz.
Qed.

End PixelLoops.


Lemma length_buf_set4 buf i v0 v1 v2 v3 :
  length (buf_set4 buf i v0 v1 v2 v3) = length buf.
Proof. unfold buf_set4. by rewrite !length_buf_set. Qed.

Lemma lookup_buf_set_ne buf i v j :
  j <> Z.to_nat i -> buf_set buf i v !! j = buf !! j.
Proof.
  intros Hne. unfold buf_set. destruct (0 <=? i); [|done].
  by rewrite list_lookup_insert_ne.
Qed.

Lemma lookup_buf_set_eq buf i v :
  0 <= i -> (Z.to_nat i < length buf)%nat ->
  buf_set buf i v !! Z.to_nat i = Some (Num.ToUint8Clamp v).
Proof.
  intros Hi Hlt. unfold buf_set. assert ((0 <=? i) = true) as -> by lia.
  by rewrite list_lookup_insert_eq.
Qed.

Lemma buf_set4_lookup buf i v0 v1 v2 v3 ch :
  0 <= i -> i + 3 < Z.of_nat (length buf) -> 0 <= ch < 4 ->
  buf_set4 buf i v0 v1 v2 v3 !! Z.to_nat (i + ch) =
    Some (Num.ToUint8Clamp
            (if ch =? 0 then v0 else if ch =? 1 then v1
             else if ch =? 2 then v2 else v3)).
Proof.
  intros Hi Hlen Hch. unfold buf_set4.
  assert (ch = 0 \/ ch = 1 \/ ch = 2 \/ ch = 3) as [-> | [-> | [-> | ->]]] by lia; simpl.
  - rewrite !lookup_buf_set_ne by lia. rewrite Z.add_0_r.
    apply lookup_buf_set_eq; lia.
  - rewrite !lookup_buf_set_ne by lia.
    apply lookup_buf_set_eq; [lia|]. rewrite length_buf_set. lia.
  - rewrite !lookup_buf_set_ne by lia.
    apply lookup_buf_set_eq; [lia|]. rewrite !length_buf_set. lia.
  - apply lookup_buf_set_eq; [lia|]. rewrite !length_buf_set. lia.
Qed.

Lemma buf_set4_lookup_other buf i v0 v1 v2 v3 j :
  0 <= i -> (j < Z.to_nat i \/ Z.to_nat i + 3 < j)%nat ->
  buf_set4 buf i v0 v1 v2 v3 !! j = buf !! j.
Proof.
  intros Hi Hj. unfold buf_set4. rewrite !lookup_buf_set_ne by lia. done.
Qed.

Lemma filled_step val n buf v0 v1 v2 v3 :
  0 <= n -> 4 * (n + 1) <= Z.of_nat (length buf) ->
  filled val n buf ->
  Num.ToUint8Clamp v0 = val n 0 -> Num.ToUint8Clamp v1 = val n 1 ->
  Num.ToUint8Clamp v2 = val n 2 -> Num.ToUint8Clamp v3 = val n 3 ->
  filled val (n + 1) (buf_set4 buf (4 * n) v0 v1 v2 v3).
Proof.
  intros Hn Hlen Hfilled H0 H1 H2 H3 k ch Hk Hch.
  destruct (decide (k = n)) as [->|Hne].
  - rewrite buf_set4_lookup by lia. f_equal.
    assert (ch = 0 \/ ch = 1 \/ ch = 2 \/ ch = 3) as [-> | [-> | [-> | ->]]] by lia;
      simpl; congruence.
  - rewrite buf_set4_lookup_other by lia. apply Hfilled; lia.
Qed.

Section Fill.
Variable s : Store.

(** A loop whose [k]-th round stores the four samples of pixel
    [base + k] fills the pixels [base .. base + n - 1] and keeps the
    earlier ones. *)
Lemma fill_loop (n : nat) (base i0 step : Z) (body : Z -> M unit)
      (val : Z -> Z -> Z) (L : nat) (buf0 : list Z) :
  0 <= base -> 4 * (base + Z.of_nat n) <= Z.of_nat L ->
  (forall k buf, 0 <= k < Z.of_nat n -> length buf = L ->
     exists v0 v1 v2 v3,
       body (i0 + k * step) (s ++ [buf])
         = Ret tt (s ++ [buf_set4 buf (4 * (base + k)) v0 v1 v2 v3]) /\
       Num.ToUint8Clamp v0 = val (base + k) 0 /\
       Num.ToUint8Clamp v1 = val (base + k) 1 /\
       Num.ToUint8Clamp v2 = val (base + k) 2 /\
       Num.ToUint8Clamp v3 = val (base + k) 3) ->
  length buf0 = L -> filled val base buf0 ->
  exists out,
    iterate n i0 step (fun i _ => body i) tt (s ++ [buf0]) = Ret tt (s ++ [out]) /\
    length out = L /\ filled val (base + Z.of_nat n) out.
Proof.
  intros Hbase HL Hstep Hlen0 Hfill0.
  destruct (iterate_inv n
    (fun k (_ : unit) t => exists buf, t = s ++ [buf] /\ length buf = L /\
                                 filled val (base + Z.of_nat k) buf)
    i0 step (fun i _ => body i) tt (s ++ [buf0])) as ([] & t' & Hrun & out & -> & ? & ?).
  - exists buf0. rewrite Z.add_0_r. done.
  - intros k [] t Hk (buf & -> & Hlen & Hfilled).
    destruct (Hstep (Z.of_nat k) buf) as (v0 & v1 & v2 & v3 & Hrun & H0 & H1 & H2 & H3);
      [lia|done|].
    eexists tt, _. split; [exact Hrun|].
    eexists. split; [done|]. split; [by rewrite length_buf_set4|].
    replace (base + Z.of_nat (S k)) with (base + Z.of_nat k + 1) by lia.
    apply filled_step; auto; lia.
  - eauto.
Qed.

End Fill.

(* ===================================================================== *)
(** * Bit depth: 'Simulate 16-bit as 8-bit' *)
(* ===================================================================== *)

Lemma run_new_ImageData w h (t : Store) :
  0 < w -> 0 < h ->
  new_ImageData w h t =
    Ret (ImageData.mk w h (length t)) (t ++ [replicate (Z.to_nat (w * h * 4)) 0]).
Proof.
  intros Hw Hh. unfold new_ImageData.
  assert (((0 <? w) && (0 <? h)) = true) as -> by (apply andb_true_iff; lia).
  reflexivity.
Qed.

Lemma bitmap_lookup s img c i :
  bitmap s img c -> 0 <= i < img.(ImageData.width) * img.(ImageData.height) * 4 ->
  exists z, c !! Z.to_nat i = Some z /\ byte z.
Proof.
  intros (_ & _ & _ & Hlen & Hbytes & _) Hi.
  destruct (lookup_lt_is_Some_2 c (Z.to_nat i)) as [z Hz]; [lia|].
  exists z. split; [done|]. by eapply Forall_lookup_1.
Qed.

Section BitDepth.
Context {rt : JSRuntime}.

(** [(v * 256) % 256] is 0 for every byte [v], and so is what the store
    into the output makes of it. *)
Lemma sixteen_as_eight_byte z :
  byte z -> Num.ToUint8Clamp ((Num.of_Z z * 256) mod 256)%js = 0.
Proof.
  intros Hz. apply Z.eqb_eq.
  apply (byte_cases
           (fun z => Num.ToUint8Clamp ((Num.of_Z z * 256) mod 256)%js =? 0)); [|done].
  vm_compute. reflexivity.
Qed.

Lemma bitDepth_apply_16_as_8 w h d p :
  get p "mode" = VStr "Simulate 16-bit as 8-bit" ->
  bitDepth_apply (ImageData.mk w h d) p =
  (output ← new_ImageData w h;
   data_length ← buf_length d;
   for_step 0 data_length 4 (fun i =>
     r ← read d i;
     g ← read d (i + 1);
     b ← read d (i + 2);
     write output.(ImageData.data) i ((ToNumber r * 256) mod 256);;
     write output.(ImageData.data) (i + 1) ((ToNumber g * 256) mod 256);;
     write output.(ImageData.data) (i + 2) ((ToNumber b * 256) mod 256);;
     a ← read d (i + 3);
     write output.(ImageData.data) (i + 3) (ToNumber a));;
   mret output).
Proof. intros Hmode. unfold bitDepth_apply. rewrite Hmode. reflexivity. Qed.

(** C10. For every well-formed bitmap and every parameter map whose
    [mode] is 'Simulate 16-bit as 8-bit' (whatever [bits] is),
    [bit-depth] returns a bitmap of the same size in which every pixel
    has R = G = B = 0 and the alpha of the input pixel. *)
Theorem bitDepth_16_as_8_blacks_out_rgb s img c p :
  bitmap s img c ->
  get p "mode" = VStr "Simulate 16-bit as 8-bit" ->
  exists out,
    apply bitDepth img p s =
      Ret (ImageData.mk img.(ImageData.width) img.(ImageData.height) (length s))
          (s ++ [out]) /\
    length out = length c /\
    forall k, 0 <= k < img.(ImageData.width) * img.(ImageData.height) ->
      out !! Z.to_nat (4 * k) = Some 0 /\
      out !! Z.to_nat (4 * k + 1) = Some 0 /\
      out !! Z.to_nat (4 * k + 2) = Some 0 /\
      out !! Z.to_nat (4 * k + 3) = c !! Z.to_nat (4 * k + 3).
Proof.
  intros Hb Hmode. destruct img as [w h d].
  pose proof Hb as (Hd & Hw & Hh & Hlen & Hbytes & _). simpl in Hd, Hw, Hh, Hlen.
  simpl ImageData.width. simpl ImageData.height.
  cbv [apply bitDepth]. rewrite (bitDepth_apply_16_as_8 _ _ _ _ Hmode).
  rewrite run_bind, run_new_ImageData by done. cbv beta iota. simpl ImageData.data.
  rewrite run_bind, (run_buf_length_input s d c Hd). cbv beta iota.
  rewrite run_bind. unfold for_step, for_acc.
  set (val := fun k ch : Z => if ch =? 3 then default 0 (c !! Z.to_nat (4 * k + 3)) else 0).
  edestruct (fill_loop s (Z.to_nat (w * h)) 0 0 4) with (val := val)
    as (out & Hrun & Hlenout & Hfilled); cycle -1.
  - replace (Z.to_nat ((Z.of_nat (length c) - 0 + 4 - 1) / 4)) with (Z.to_nat (w * h)).
    2:{ f_equal. rewrite Hlen. replace (w * h * 4 - 0 + 4 - 1) with (3 + (w * h) * 4) by lia.
        rewrite Z.div_add by lia. reflexivity. }
    rewrite Hrun. cbv beta iota. exists out. split; [reflexivity|]. split.
    + rewrite Hlenout. reflexivity.
    + intros k Hk. rewrite Z.add_0_l, Z2Nat.id in Hfilled by lia.
      pose proof (Hfilled k 0 Hk ltac:(lia)) as H0.
      pose proof (Hfilled k 1 Hk ltac:(lia)) as H1.
      pose proof (Hfilled k 2 Hk ltac:(lia)) as H2.
      pose proof (Hfilled k 3 Hk ltac:(lia)) as H3.
      rewrite Z.add_0_r in H0. unfold val in *. simpl in *.
      repeat split; try done.
      rewrite H3. destruct (bitmap_lookup _ _ _ (4 * k + 3) Hb) as (z & -> & _);
        [simpl; lia|done].
  - lia.
  - lia.
  - intros k buf Hk Hbuf.
    destruct (bitmap_lookup _ _ _ (4 * k) Hb) as (r & Hr & Hrb); [simpl; lia|].
    destruct (bitmap_lookup _ _ _ (4 * k + 1) Hb) as (g & Hg & Hgb); [simpl; lia|].
    destruct (bitmap_lookup _ _ _ (4 * k + 2) Hb) as (b & Hbl & Hbb); [simpl; lia|].
    destruct (bitmap_lookup _ _ _ (4 * k + 3) Hb) as (a & Ha & Hab); [simpl; lia|].
    replace (0 + k * 4) with (4 * k) by lia.
    eexists _, _, _, _. split.
    + rewrite run_bind, (run_read_input s d c Hd), (buf_get_byte c _ r) by (done || lia).
      cbv beta iota.
      rewrite run_bind, (run_read_input s d c Hd), (buf_get_byte c _ g) by (done || lia).
      cbv beta iota.
      rewrite run_bind, (run_read_input s d c Hd), (buf_get_byte c _ b) by (done || lia).
      cbv beta iota.
      do 3 (rewrite run_bind, run_write_output; cbv beta iota).
      rewrite run_bind, (run_read_input s d c Hd), (buf_get_byte c _ a) by (done || lia).
      cbv beta iota. rewrite run_write_output.
      replace (4 * (0 + k)) with (4 * k) by lia. reflexivity.
    + unfold val. rewrite Z.add_0_l, Ha.
      repeat split; [by apply sixteen_as_eight_byte..|by apply clamp_byte].
  - rewrite length_replicate. lia.
  - intros k ch Hk. lia.
Qed.

End BitDepth.

(* ===================================================================== *)
(** * Flipped axis: 'Flip Both' twice *)
(* ===================================================================== *)

Lemma for_unfold lo hi (body : Z -> M unit) :
  for_ lo hi body = iterate (Z.to_nat (hi - lo)) lo 1 (fun i _ => body i) tt.
Proof.
  unfold for_, for_step, for_acc. f_equal. f_equal.
  rewrite Z.div_1_r. lia.
Qed.

(** The two nested loops over [y] and [x], when each round stores the
    four samples of pixel [y * w + x], fill the whole buffer. *)
Lemma fill_pixels (s : Store) (w h : Z) (body : Z -> Z -> M unit)
      (val : Z -> Z -> Z) (buf0 : list Z) :
  0 <= w -> 0 <= h -> Z.of_nat (length buf0) = w * h * 4 ->
  (forall x y buf, 0 <= x < w -> 0 <= y < h -> length buf = length buf0 ->
     exists v0 v1 v2 v3,
       body y x (s ++ [buf])
         = Ret tt (s ++ [buf_set4 buf (4 * (y * w + x)) v0 v1 v2 v3]) /\
       Num.ToUint8Clamp v0 = val (y * w + x) 0 /\
       Num.ToUint8Clamp v1 = val (y * w + x) 1 /\
       Num.ToUint8Clamp v2 = val (y * w + x) 2 /\
       Num.ToUint8Clamp v3 = val (y * w + x) 3) ->
  exists out,
    for_ 0 h (fun y => for_ 0 w (fun x => body y x)) (s ++ [buf0])
      = Ret tt (s ++ [out]) /\
    length out = length buf0 /\ filled val (w * h) out.
Proof.
  intros Hw Hh Hlen Hstep. rewrite for_unfold.
  destruct (iterate_inv (Z.to_nat (h - 0))
    (fun k (_ : unit) t => exists buf, t = s ++ [buf] /\ length buf = length buf0 /\
                                 filled val (Z.of_nat k * w) buf)
    0 1 (fun y _ => for_ 0 w (fun x => body y x)) tt (s ++ [buf0]))
    as ([] & t' & Hrun & out & -> & Hlenout & Hfilled).
  - exists buf0. split; [done|]. split; [done|]. intros k ch Hk. lia.
  - intros k [] t Hk (buf & -> & Hbuf & Hfilled).
    rewrite for_unfold, Z.sub_0_r.
    destruct (fill_loop s (Z.to_nat w) (Z.of_nat k * w) 0 1
                (fun x => body (0 + Z.of_nat k * 1) x) val (length buf0) buf)
      as (out & Hrun & Hlenout & Hfilled'); try done.
    + nia.
    + nia.
    + intros x buf' Hx Hbuf'.
      destruct (Hstep x (Z.of_nat k) buf') as (v0 & v1 & v2 & v3 & Hb & Hv); [lia..|done|].
      exists v0, v1, v2, v3.
      replace (0 + Z.of_nat k * 1) with (Z.of_nat k) by lia.
      replace (0 + x * 1) with x by lia. done.
    + exists tt, (s ++ [out]). split; [exact Hrun|].
      exists out. split; [done|]. split; [done|].
      replace (Z.of_nat (S k) * w) with (Z.of_nat k * w + Z.of_nat (Z.to_nat w)) by lia.
      done.
  - exists out. split; [exact Hrun|]. split; [done|].
    replace (w * h) with (Z.of_nat (Z.to_nat (h - 0)) * w) by lia. done.
Qed.

Section FlipBoth.
Context {rt : JSRuntime}.

Lemma flippedAxis_apply_flip_both w h d p :
  get p "flipMode" = VStr "Flip Both" ->
  flippedAxis_apply (ImageData.mk w h d) p =
  (output ← new_ImageData w h;
   for_ 0 h (fun y =>
     for_ 0 w (fun x =>
       let outIdx := (y * w + x) * 4 in
       let srcIdx := ((h - 1 - y) * w + (w - 1 - x)) * 4 in
       v0 ← read d srcIdx;
       write output.(ImageData.data) outIdx (ToNumber v0);;
       v1 ← read d (srcIdx + 1);
       write output.(ImageData.data) (outIdx + 1) (ToNumber v1);;
       v2 ← read d (srcIdx + 2);
       write output.(ImageData.data) (outIdx + 2) (ToNumber v2);;
       v3 ← read d (srcIdx + 3);
       write output.(ImageData.data) (outIdx + 3) (ToNumber v3)));;
   mret output).
Proof. intros Hmode. unfold flippedAxis_apply. rewrite Hmode. reflexivity. Qed.

(** 'Flip Both' writes the pixels in reverse order: pixel [k] of the
    output is pixel [w*h - 1 - k] of the input. *)
Lemma flip_both_reverses s img c p :
  bitmap s img c ->
  get p "flipMode" = VStr "Flip Both" ->
  exists out,
    apply flippedAxis img p s =
      Ret (ImageData.mk img.(ImageData.width) img.(ImageData.height) (length s))
          (s ++ [out]) /\
    length out = length c /\
    filled (fun k ch =>
              default 0 (c !! Z.to_nat
                (4 * (img.(ImageData.width) * img.(ImageData.height) - 1 - k) + ch)))
           (img.(ImageData.width) * img.(ImageData.height)) out.
Proof.
  intros Hb Hmode. destruct img as [w h d].
  pose proof Hb as (Hd & Hw & Hh & Hlen & Hbytes & _). simpl in Hd, Hw, Hh, Hlen.
  simpl ImageData.width. simpl ImageData.height.
  cbv [apply flippedAxis]. rewrite (flippedAxis_apply_flip_both _ _ _ _ Hmode).
  rewrite run_bind, run_new_ImageData by done. cbv beta iota. simpl ImageData.data.
  rewrite run_bind.
  edestruct (fill_pixels s w h) as (out & Hrun & Hlenout & Hfilled); cycle -1.
  - rewrite Hrun. cbv beta iota. exists out. split; [reflexivity|]. split; [|exact Hfilled].
    rewrite Hlenout, length_replicate. lia.
  - lia.
  - lia.
  - rewrite length_replicate. lia.
  - intros x y buf Hx Hy Hbuf. cbv beta zeta.
    assert (Hsrc : ((h - 1 - y) * w + (w - 1 - x)) * 4 = 4 * (w * h - 1 - (y * w + x))) by lia.
    assert (Hrange : 0 <= w * h - 1 - (y * w + x) < w * h) by nia.
    rewrite Hsrc.
    destruct (bitmap_lookup _ _ _ (4 * (w * h - 1 - (y * w + x))) Hb) as (r & Hr & Hrb);
      [simpl; lia|].
    destruct (bitmap_lookup _ _ _ (4 * (w * h - 1 - (y * w + x)) + 1) Hb) as (g & Hg & Hgb);
      [simpl; lia|].
    destruct (bitmap_lookup _ _ _ (4 * (w * h - 1 - (y * w + x)) + 2) Hb) as (b & Hbl & Hbb);
      [simpl; lia|].
    destruct (bitmap_lookup _ _ _ (4 * (w * h - 1 - (y * w + x)) + 3) Hb) as (a & Ha & Hab);
      [simpl; lia|].
    eexists _, _, _, _. split.
    + rewrite run_bind, (run_read_input s d c Hd), (buf_get_byte c _ r) by (done || lia).
      cbv beta iota. rewrite run_bind, run_write_output. cbv beta iota.
      rewrite run_bind, (run_read_input s d c Hd), (buf_get_byte c _ g) by (done || lia).
      cbv beta iota. rewrite run_bind, run_write_output. cbv beta iota.
      rewrite run_bind, (run_read_input s d c Hd), (buf_get_byte c _ b) by (done || lia).
      cbv beta iota. rewrite run_bind, run_write_output. cbv beta iota.
      rewrite run_bind, (run_read_input s d c Hd), (buf_get_byte c _ a) by (done || lia).
      cbv beta iota. rewrite run_write_output.
      replace ((y * w + x) * 4) with (4 * (y * w + x)) by lia. reflexivity.
    + rewrite Z.add_0_r, Hr, Hg, Hbl, Ha. simpl ToNumber. simpl default.
      repeat split; by apply clamp_byte.
Qed.

End FlipBoth.

Lemma filled_Forall (P : Z -> Prop) val n buf :
  Z.of_nat (length buf) = n * 4 ->
  filled val n buf ->
  (forall k ch, 0 <= k < n -> 0 <= ch < 4 -> P (val k ch)) ->
  Forall P buf.
Proof.
  intros Hlen Hfilled HP. apply Forall_lookup_2. intros i z Hi.
  pose proof (lookup_lt_Some _ _ _ Hi) as Hlt.
  specialize (Hfilled (Z.of_nat i / 4) (Z.of_nat i mod 4)).
  assert (Hdm := Z.div_mod (Z.of_nat i) 4 ltac:(lia)).
  assert (Hm := Z.mod_pos_bound (Z.of_nat i) 4 ltac:(lia)).
  assert (Hrange : 0 <= Z.of_nat i / 4 < n).
  { split; [apply Z.div_pos; lia|]. apply Z.div_lt_upper_bound; lia. }
  rewrite <- Hdm, Nat2Z.id, Hi in Hfilled.
  specialize (Hfilled Hrange Hm). injection Hfilled as ->. by apply HP.
Qed.

Lemma filled_eq val n buf c :
  Z.of_nat (length buf) = n * 4 -> length c = length buf ->
  filled val n buf ->
  (forall k ch, 0 <= k < n -> 0 <= ch < 4 ->
     c !! Z.to_nat (4 * k + ch) = Some (val k ch)) ->
  buf = c.
Proof.
  intros Hlen Hlenc Hfilled Hc. apply list_eq. intros i.
  destruct (decide (i < length buf)%nat) as [Hlt|Hge].
  - specialize (Hfilled (Z.of_nat i / 4) (Z.of_nat i mod 4)).
    specialize (Hc (Z.of_nat i / 4) (Z.of_nat i mod 4)).
    assert (Hdm := Z.div_mod (Z.of_nat i) 4 ltac:(lia)).
    assert (Hm := Z.mod_pos_bound (Z.of_nat i) 4 ltac:(lia)).
    assert (Hrange : 0 <= Z.of_nat i / 4 < n).
    { split; [apply Z.div_pos; lia|]. apply Z.div_lt_upper_bound; lia. }
    rewrite <- Hdm, Nat2Z.id in Hfilled, Hc.
    rewrite Hfilled, Hc by done. done.
  - rewrite !lookup_ge_None_2 by lia. done.
Qed.

Section FlipTwice.
Context {rt : JSRuntime}.

(** C6. For every well-formed bitmap of even width and even height,
    [flipped-axis] with [flipMode] 'Flip Both' applied to the bitmap and
    then to its own result returns both times, and the bytes of the
    second result are those of the original, one for one. (The proof
    makes no use of the dimensions being even.) *)
Theorem flip_both_twice_is_identity s img c p :
  bitmap s img c ->
  Z.even img.(ImageData.width) = true ->
  Z.even img.(ImageData.height) = true ->
  get p "flipMode" = VStr "Flip Both" ->
  exists out1 s1 out2 s2,
    apply flippedAxis img p s = Ret out1 s1 /\
    apply flippedAxis out1 p s1 = Ret out2 s2 /\
    s2 !! out2.(ImageData.data) = Some c.
Proof.
  intros Hb _ _ Hmode.
  destruct (flip_both_reverses s img c p Hb Hmode) as (o1 & Hrun1 & Hlen1 & Hfill1).
  destruct img as [w h d].
  pose proof Hb as (Hd & Hw & Hh & Hlen & Hbytes & Hsize).
  cbn [ImageData.width ImageData.height ImageData.data] in Hd, Hw, Hh, Hlen, Hsize, Hrun1, Hfill1.
  assert (Hb1 : bitmap (s ++ [o1]) (ImageData.mk w h (length s)) o1).
  { unfold bitmap. simpl. repeat split; try lia.
    - rewrite lookup_app_r by lia. by rewrite Nat.sub_diag.
    - eapply filled_Forall with (n := w * h); [lia|exact Hfill1|]. cbv beta.
      intros k ch Hk Hch.
      destruct (bitmap_lookup _ _ _ (4 * (w * h - 1 - k) + ch) Hb) as (z & -> & Hz);
        [simpl; lia|done]. }
  destruct (flip_both_reverses _ _ o1 p Hb1 Hmode) as (o2 & Hrun2 & Hlen2 & Hfill2).
  cbn [ImageData.width ImageData.height ImageData.data] in Hrun2, Hfill2.
  eexists _, _, _, _. split; [exact Hrun1|]. split; [exact Hrun2|].
  cbn [ImageData.data]. rewrite lookup_app_r by lia. rewrite Nat.sub_diag. simpl. f_equal.
  eapply filled_eq with (n := w * h); [lia|lia|exact Hfill2|]. cbv beta.
  intros k ch Hk Hch.
  rewrite (Hfill1 (w * h - 1 - k) ch) by lia. cbn [default].
  replace (4 * (w * h - 1 - (w * h - 1 - k)) + ch) with (4 * k + ch) by lia.
  destruct (bitmap_lookup _ _ _ (4 * k + ch) Hb) as (z & -> & Hz); [simpl; lia|done].
Qed.

End FlipTwice.

(* ===================================================================== *)
(** * Integers in binary64 *)
(* ===================================================================== *)

(** [m * 2^n], on positives. *)
Lemma iter_xO_value m d : Z.pos (Pos.iter xO m d) = Z.pos m * 2 ^ Z.pos d.
Proof.
  apply (Pos.iter_ind _ xO m (fun p r => Z.pos r = Z.pos m * 2 ^ Z.pos p)).
  - rewrite Z.pow_1_r. lia.
  - intros p r IH. rewrite Pos2Z.inj_succ, Z.pow_succ_r by lia.
    rewrite Pos2Z.inj_xO, IH. lia.
Qed.

Lemma iter_xO_digits m d :
  Z.pos (digits2_pos (Pos.iter xO m d)) = Z.pos (digits2_pos m) + Z.pos d.
Proof.
  apply (Pos.iter_ind _ xO m
    (fun p r => Z.pos (digits2_pos r) = Z.pos (digits2_pos m) + Z.pos p)).
  - simpl. lia.
  - intros p r IH. simpl digits2_pos. rewrite !Pos2Z.inj_succ. lia.
Qed.

Lemma shiftl_value m n :
  0 <= n -> Z.pos (Pos.shiftl m (Z.to_N n)) = Z.pos m * 2 ^ n.
Proof.
  intros Hn. destruct n as [|d|d]; [unfold Pos.shiftl, Z.to_N; rewrite Z.pow_0_r; lia | | lia].
  unfold Pos.shiftl, Z.to_N. apply iter_xO_value.
Qed.

Lemma shiftl_digits m n :
  0 <= n ->
  Z.pos (digits2_pos (Pos.shiftl m (Z.to_N n))) = Z.pos (digits2_pos m) + n.
Proof.
  intros Hn. destruct n as [|d|d]; [unfold Pos.shiftl, Z.to_N; lia | | lia].
  unfold Pos.shiftl, Z.to_N. apply iter_xO_digits.
Qed.

Lemma digits2_pos_lower m : 2 ^ (Z.pos (digits2_pos m) - 1) <= Z.pos m.
Proof.
  induction m as [m IH | m IH |]; simpl digits2_pos.
  - rewrite Pos2Z.inj_succ.
    replace (Z.succ (Z.pos (digits2_pos m)) - 1)
      with (Z.succ (Z.pos (digits2_pos m) - 1)) by lia.
    rewrite Z.pow_succ_r by lia. lia.
  - rewrite Pos2Z.inj_succ.
    replace (Z.succ (Z.pos (digits2_pos m)) - 1)
      with (Z.succ (Z.pos (digits2_pos m) - 1)) by lia.
    rewrite Z.pow_succ_r by lia. lia.
  - simpl. lia.
Qed.

Lemma digits2_pos_le m k : Z.pos m < 2 ^ k -> Z.pos (digits2_pos m) <= k.
Proof.
  intros Hm. pose proof (digits2_pos_lower m) as Hl.
  destruct (Z.le_gt_cases (Z.pos (digits2_pos m)) k) as [|Hgt]; [done|].
  assert (2 ^ k <= 2 ^ (Z.pos (digits2_pos m) - 1))
    by (apply Z.pow_le_mono_r; lia).
  lia.
Qed.

Lemma iter_pos_nat {A} (f : A -> A) p : forall x,
  SpecFloat.iter_pos f p x = Nat.iter (Pos.to_nat p) f x.
Proof.
  induction p as [p IH | p IH |]; intros x; simpl SpecFloat.iter_pos.
  - rewrite !IH, Pos2Nat.inj_xI.
    replace (S (2 * Pos.to_nat p)) with (Pos.to_nat p + (Pos.to_nat p + 1))%nat by lia.
    rewrite !Nat.iter_add. reflexivity.
  - rewrite !IH, Pos2Nat.inj_xO.
    replace (2 * Pos.to_nat p)%nat with (Pos.to_nat p + Pos.to_nat p)%nat by lia.
    rewrite Nat.iter_add. reflexivity.
  - reflexivity.
Qed.

Lemma pos_iter_nat {A} (f : A -> A) p x :
  Pos.iter f x p = Nat.iter (Pos.to_nat p) f x.
Proof. rewrite Pos2Nat.inj_iter. reflexivity. Qed.

(** Shifting out zeros loses nothing. *)
Lemma shr_zeros m p :
  SpecFloat.iter_pos shr_1 p
    {| shr_m := Z.pos (Pos.iter xO m p); shr_r := false; shr_s := false |}
  = {| shr_m := Z.pos m; shr_r := false; shr_s := false |}.
Proof.
  rewrite iter_pos_nat, pos_iter_nat.
  induction (Pos.to_nat p) as [|n IH]; [reflexivity|].
  rewrite Nat.iter_succ_r. simpl Nat.iter at 2. simpl shr_1. exact IH.
Qed.

(** A 53-bit mantissa at an exponent in range is its own rounding. *)
Lemma binary_round_aux_canonical s m e :
  Z.pos (digits2_pos m) = 53 -> -1074 <= e <= 971 ->
  binary_round_aux Num.prec Num.emax s (Z.pos m) e loc_Exact = S754_finite s m e.
Proof.
  intros Hd He.
  assert (Hf : fexp Num.prec Num.emax (Z.pos (digits2_pos m) + e) - e = 0).
  { unfold fexp, emin, Num.prec, Num.emax. lia. }
  unfold binary_round_aux, shr_fexp. cbn [Zdigits2 shr_record_of_loc].
  rewrite Hf. cbn [shr shr_m loc_of_shr_record round_nearest_even Zdigits2 shr_record_of_loc].
  rewrite Hf. cbn [shr shr_m].
  destruct (Z.leb_spec e (Num.emax - Num.prec)) as [|Hgt]; [done|].
  unfold Num.emax, Num.prec in Hgt. lia.
Qed.

(** Rounding [m * 2^n * 2^e] when [m] has at most 53 bits: the
    mantissa is brought to 53 bits, exactly. *)
Lemma binary_round_exact s m n e :
  let dm := Z.pos (digits2_pos m) in
  dm <= 53 -> 0 <= n -> -1074 <= dm + n + e - 53 <= 971 ->
  binary_round Num.prec Num.emax s (Pos.shiftl m (Z.to_N n)) e
  = S754_finite s (Pos.shiftl m (Z.to_N (53 - dm))) (dm + n + e - 53).
Proof.
  intros dm Hdm Hn He.
  assert (Hdig : Z.pos (digits2_pos (Pos.shiftl m (Z.to_N n))) = dm + n)
    by (by apply shiftl_digits).
  assert (Hcan : Z.pos (digits2_pos (Pos.shiftl m (Z.to_N (53 - dm)))) = 53).
  { rewrite shiftl_digits by lia. fold dm. lia. }
  assert (Hf : fexp Num.prec Num.emax (dm + n + e) = dm + n + e - 53).
  { unfold fexp, emin, Num.prec, Num.emax. lia. }
  unfold binary_round. rewrite Hdig, Hf. unfold shl_align.
  destruct (dm + n + e - 53 - e) as [|p|p] eqn:E.
  - (* already 53 bits *)
    assert (n = 53 - dm) as -> by lia.
    replace (dm + (53 - dm) + e - 53) with e by lia.
    apply binary_round_aux_canonical; [done|lia].
  - (* more than 53 bits: the low ones are zero *)
    assert (Hsplit : Pos.shiftl m (Z.to_N n)
                     = Pos.iter xO (Pos.shiftl m (Z.to_N (53 - dm))) p).
    { apply Pos2Z.inj. rewrite iter_xO_value, !shiftl_value by lia.
      rewrite <- Z.mul_assoc, <- Z.pow_add_r by lia. do 2 f_equal. lia. }
    unfold binary_round_aux, shr_fexp. cbn [Zdigits2 shr_record_of_loc].
    rewrite Hdig, Hf, E, Hsplit. cbn [shr]. rewrite !shr_zeros.
    cbn [shr_m loc_of_shr_record round_nearest_even Zdigits2 shr_record_of_loc].
    rewrite Hcan.
    assert (Hf' : fexp Num.prec Num.emax (53 + (e + Z.pos p)) - (e + Z.pos p) = 0).
    { unfold fexp, emin, Num.prec, Num.emax. lia. }
    rewrite Hf'. cbn [shr shr_m].
    destruct (Z.leb_spec (e + Z.pos p) (Num.emax - Num.prec)) as [|Hgt].
    + f_equal; lia.
    + unfold Num.emax, Num.prec in Hgt. lia.
  - (* fewer than 53 bits: shift left *)
    assert (Hsplit : Pos.iter xO (Pos.shiftl m (Z.to_N n)) p
                     = Pos.shiftl m (Z.to_N (53 - dm))).
    { apply Pos2Z.inj. rewrite iter_xO_value, !shiftl_value by lia.
      rewrite <- Z.mul_assoc, <- Z.pow_add_r by lia. do 2 f_equal. lia. }
    rewrite Hsplit. apply binary_round_aux_canonical; [done|lia].
Qed.

(** The binary64 value of a positive integer below [2^53]. *)
Lemma of_Z_pos p :
  let d := Z.pos (digits2_pos p) in
  d <= 53 ->
  Num.of_Z (Z.pos p) = S754_finite false (Pos.shiftl p (Z.to_N (53 - d))) (d - 53).
Proof.
  intros d Hd. unfold Num.of_Z, binary_normalize.
  pose proof (binary_round_exact false p 0 0) as H. cbv zeta in H. fold d in H.
  change (Pos.shiftl p (Z.to_N 0)) with p in H.
  rewrite H by lia. f_equal; lia.
Qed.

Lemma shl_align_value m e e' :
  e' <= e -> Z.pos (fst (shl_align m e e')) = Z.pos m * 2 ^ (e - e').
Proof.
  intros He. unfold shl_align. destruct (e' - e) as [|p|p] eqn:E; cbn [fst].
  - replace (e - e') with 0 by lia. rewrite Z.pow_0_r. lia.
  - lia.
  - rewrite iter_xO_value. do 2 f_equal. lia.
Qed.

(** Addition of non-negative integers is exact as long as the sum is
    below [2^53]. *)
Lemma add_exact x y :
  0 <= x -> 0 <= y -> x + y < 2 ^ 53 ->
  Num.add (Num.of_Z x) (Num.of_Z y) = Num.of_Z (x + y).
Proof.
  intros Hx Hy Hsum.
  destruct x as [|px|px]; [|destruct y as [|py|py]|]; try lia.
  - (* 0 + y *)
    change (Num.of_Z 0) with (S754_zero false). rewrite Z.add_0_l.
    destruct y as [|py|py]; [reflexivity| |lia].
    rewrite of_Z_pos by (apply digits2_pos_le; lia). reflexivity.
  - (* x + 0 *)
    change (Num.of_Z 0) with (S754_zero false). rewrite Z.add_0_r.
    rewrite of_Z_pos by (apply digits2_pos_le; lia). reflexivity.
  - (* both positive *)
    assert (Hdx : Z.pos (digits2_pos px) <= 53) by (apply digits2_pos_le; lia).
    assert (Hdy : Z.pos (digits2_pos py) <= 53) by (apply digits2_pos_le; lia).
    assert (Hds : Z.pos (digits2_pos (px + py)) <= 53)
      by (apply digits2_pos_le; rewrite Pos2Z.inj_add; lia).
    rewrite (of_Z_pos px), (of_Z_pos py) by done.
    change (Z.pos px + Z.pos py) with (Z.pos (px + py)).
    rewrite (of_Z_pos (px + py)) by done.
    set (dx := Z.pos (digits2_pos px)) in *.
    set (dy := Z.pos (digits2_pos py)) in *.
    set (ds := Z.pos (digits2_pos (px + py))) in *.
    unfold Num.add, SFadd. cbv zeta. unfold cond_Zopp.
    set (ez := Z.min (dx - 53) (dy - 53)).
    set (X := fst (shl_align (Pos.shiftl px (Z.to_N (53 - dx))) (dx - 53) ez)).
    set (Y := fst (shl_align (Pos.shiftl py (Z.to_N (53 - dy))) (dy - 53) ez)).
    change (Z.pos X + Z.pos Y) with (Z.pos (X + Y)).
    unfold binary_normalize.
    assert (HXY : (X + Y)%positive = Pos.shiftl (px + py) (Z.to_N (- ez))).
    { apply Pos2Z.inj. rewrite Pos2Z.inj_add. subst X Y.
      rewrite !shl_align_value, !shiftl_value by lia.
      rewrite <- !Z.mul_assoc, <- !Z.pow_add_r by lia.
      replace (53 - dx + (dx - 53 - ez)) with (- ez) by lia.
      replace (53 - dy + (dy - 53 - ez)) with (- ez) by lia.
      rewrite Pos2Z.inj_add. lia. }
    rewrite HXY.
    pose proof (binary_round_exact false (px + py) (- ez) ez) as H.
    cbv zeta in H. fold ds in H. rewrite H by lia. f_equal; lia.
Qed.

(** ** Integers in binary64, with their signs *)

Lemma digits2_pos_upper m : Z.pos m < 2 ^ Z.pos (digits2_pos m).
Proof.
  induction m as [m IH|m IH|]; cbn [digits2_pos].
  - rewrite Pos2Z.inj_succ, Z.pow_succ_r, Pos2Z.inj_xI by lia. lia.
  - rewrite Pos2Z.inj_succ, Z.pow_succ_r, Pos2Z.inj_xO by lia. lia.
  - reflexivity.
Qed.

(** The binary64 value of a negative integer above [- 2^53]. *)
Lemma of_Z_neg p :
  let d := Z.pos (digits2_pos p) in
  d <= 53 ->
  Num.of_Z (Z.neg p) = S754_finite true (Pos.shiftl p (Z.to_N (53 - d))) (d - 53).
Proof.
  intros d Hd. unfold Num.of_Z, binary_normalize.
  pose proof (binary_round_exact true p 0 0) as H. cbv zeta in H. fold d in H.
  change (Pos.shiftl p (Z.to_N 0)) with p in H.
  rewrite H by lia. f_equal; lia.
Qed.

(** The shape of a non-zero integer: a 53-bit mantissa and an exponent
    between -52 and 0. *)
Lemma of_Z_finite z :
  z <> 0 -> Z.abs z < 2 ^ 53 ->
  exists m e,
    Num.of_Z z = S754_finite (z <? 0) m e /\ -52 <= e <= 0 /\
    Z.pos m = Z.abs z * 2 ^ (- e) /\ Z.pos (digits2_pos m) = 53.
Proof.
  intros Hz Hlt. destruct z as [|p|p]; [done| |].
  - assert (Hd : Z.pos (digits2_pos p) <= 53) by (apply digits2_pos_le; lia).
    exists (Pos.shiftl p (Z.to_N (53 - Z.pos (digits2_pos p)))), (Z.pos (digits2_pos p) - 53).
    split; [by apply of_Z_pos|]. split; [lia|]. split.
    + rewrite shiftl_value by lia. cbn [Z.abs]. do 2 f_equal. lia.
    + rewrite shiftl_digits by lia. lia.
  - assert (Hd : Z.pos (digits2_pos p) <= 53) by (apply digits2_pos_le; lia).
    exists (Pos.shiftl p (Z.to_N (53 - Z.pos (digits2_pos p)))), (Z.pos (digits2_pos p) - 53).
    split; [by apply of_Z_neg|]. split; [lia|]. split.
    + rewrite shiftl_value by lia. cbn [Z.abs]. do 2 f_equal. lia.
    + rewrite shiftl_digits by lia. lia.
Qed.

(** [binary_normalize] of an integer multiple of a power of two. *)
Lemma binary_normalize_shifted z k s :
  Z.abs z < 2 ^ 53 -> 0 <= k <= 1074 ->
  binary_normalize Num.prec Num.emax (z * 2 ^ k) (- k) s
  = if z =? 0 then S754_zero s else Num.of_Z z.
Proof.
  intros Hz Hk. destruct z as [|p|p].
  - reflexivity.
  - assert (Hd : Z.pos (digits2_pos p) <= 53) by (apply digits2_pos_le; lia).
    rewrite <- shiftl_value by lia. cbn [Z.eqb]. rewrite of_Z_pos by done.
    unfold binary_normalize.
    pose proof (binary_round_exact false p k (- k)) as H. cbv zeta in H.
    rewrite H by lia. f_equal; lia.
  - assert (Hd : Z.pos (digits2_pos p) <= 53) by (apply digits2_pos_le; lia).
    replace (Z.neg p * 2 ^ k) with (Z.neg (Pos.shiftl p (Z.to_N k))).
    2:{ rewrite <- !Pos2Z.opp_pos, shiftl_value by lia. lia. }
    cbn [Z.eqb]. rewrite of_Z_neg by done. unfold binary_normalize.
    pose proof (binary_round_exact true p k (- k)) as H. cbv zeta in H.
    rewrite H by lia. f_equal; lia.
Qed.

Lemma integral_of_Z z : Z.abs z < 2 ^ 53 -> integral (Num.of_Z z) z.
Proof. intros Hz. split; [done|]. by left. Qed.

Lemma integral_zero s : integral (S754_zero s) 0.
Proof. split; [done|]. destruct s; [by right | by left]. Qed.

Lemma integral_nonzero v z : integral v z -> z <> 0 -> v = Num.of_Z z.
Proof. intros [_ [->|[-> _]]] Hz; done. Qed.

Lemma integral_normalize z k s :
  Z.abs z < 2 ^ 53 -> 0 <= k <= 1074 ->
  integral (binary_normalize Num.prec Num.emax (z * 2 ^ k) (- k) s) z.
Proof.
  intros Hz Hk. rewrite binary_normalize_shifted by done.
  destruct (Z.eqb_spec z 0) as [->|]; [apply integral_zero | by apply integral_of_Z].
Qed.

(** An integer is a zero, or a 53-bit mantissa at an exponent between
    -52 and 0. *)
Lemma integral_shape v z :
  integral v z ->
  (z = 0 /\ exists s, v = S754_zero s) \/
  (z <> 0 /\ exists m e,
     v = S754_finite (z <? 0) m e /\ -52 <= e <= 0 /\
     Z.pos m = Z.abs z * 2 ^ (- e) /\ Z.pos (digits2_pos m) = 53).
Proof.
  intros [Hz Hv]. destruct (Z.eq_dec z 0) as [->|Hnz].
  - left. split; [done|]. destruct Hv as [->|[_ ->]]; by eexists.
  - right. split; [done|]. destruct Hv as [->|[? _]]; [|done].
    by apply of_Z_finite.
Qed.

Lemma cond_Zopp_abs z K : cond_Zopp (z <? 0) (Z.abs z * K) = z * K.
Proof.
  unfold cond_Zopp. destruct (Z.ltb_spec z 0).
  - rewrite Z.abs_neq by lia. ring.
  - rewrite Z.abs_eq by lia. ring.
Qed.

(** Addition of integers is exact as long as the sum is below [2^53]. *)
Lemma add_integral a b x y :
  integral a x -> integral b y -> Z.abs (x + y) < 2 ^ 53 ->
  integral (Num.add a b) (x + y).
Proof.
  intros Ha Hb Hs.
  destruct (integral_shape _ _ Ha) as [[-> [sa ->]]|[Hx (ma & ea & -> & Hea & Hma & Hda)]];
  destruct (integral_shape _ _ Hb) as [[-> [sb ->]]|[Hy (mb & eb & -> & Heb & Hmb & Hdb)]].
  - destruct sa, sb; apply integral_zero.
  - rewrite Z.add_0_l. exact Hb.
  - rewrite Z.add_0_r. exact Ha.
  - unfold Num.add, SFadd. cbv zeta.
    set (ez := Z.min ea eb).
    rewrite !shl_align_value by lia. rewrite Hma, Hmb.
    rewrite <- !Z.mul_assoc, <- !Z.pow_add_r by lia.
    replace (- ea + (ea - ez)) with (- ez) by lia.
    replace (- eb + (eb - ez)) with (- ez) by lia.
    rewrite !cond_Zopp_abs, <- Z.mul_add_distr_r.
    replace ez with (- - ez) at 2 by lia.
    apply integral_normalize; lia.
Qed.

Lemma binary_round_is_aux s m e :
  53 <= Z.pos (digits2_pos m) ->
  binary_round Num.prec Num.emax s m e
  = binary_round_aux Num.prec Num.emax s (Z.pos m) e loc_Exact.
Proof.
  intros Hd. unfold binary_round, shl_align.
  destruct (fexp Num.prec Num.emax (Z.pos (digits2_pos m) + e) - e) as [|p|p] eqn:E;
    [reflexivity|reflexivity|].
  unfold fexp, emin, Num.prec, Num.emax in E. lia.
Qed.

(** Multiplication of integers is exact as long as the product is below
    [2^53]. *)
Lemma mul_integral a b x y :
  integral a x -> integral b y -> Z.abs (x * y) < 2 ^ 53 ->
  integral (Num.mul a b) (x * y).
Proof.
  intros Ha Hb Hs.
  destruct (integral_shape _ _ Ha) as [[-> [sa ->]]|[Hx (ma & ea & -> & Hea & Hma & Hda)]];
  destruct (integral_shape _ _ Hb) as [[-> [sb ->]]|[Hy (mb & eb & -> & Heb & Hmb & Hdb)]].
  - apply integral_zero.
  - rewrite Z.mul_0_l. apply integral_zero.
  - rewrite Z.mul_0_r. apply integral_zero.
  - unfold Num.mul, SFmul.
    set (p := Z.to_pos (Z.abs (x * y))).
    assert (Hp : Z.pos p = Z.abs (x * y)) by (subst p; rewrite Z2Pos.id; lia).
    assert (Hdp : Z.pos (digits2_pos p) <= 53) by (apply digits2_pos_le; lia).
    assert (Hprod : (ma * mb)%positive = Pos.shiftl p (Z.to_N (- ea - eb))).
    { apply Pos2Z.inj. rewrite Pos2Z.inj_mul, shiftl_value, Hma, Hmb, Hp by lia.
      rewrite Z.abs_mul.
      replace (- ea - eb) with (- ea + - eb) by lia. rewrite Z.pow_add_r by lia. ring. }
    assert (Hbig : 53 <= Z.pos (digits2_pos (ma * mb))).
    { rewrite Hprod, shiftl_digits by lia.
      pose proof (digits2_pos_lower ma) as La. pose proof (digits2_pos_lower mb) as Lb.
      rewrite Hda in La. rewrite Hdb in Lb.
      pose proof (digits2_pos_upper (ma * mb)) as U.
      rewrite Hprod in U at 2. rewrite shiftl_digits in U by lia.
      rewrite Pos2Z.inj_mul in U.
      assert (2 ^ 104 <= Z.pos ma * Z.pos mb).
      { change (2 ^ 104) with (2 ^ (53 - 1) * 2 ^ (53 - 1)). nia. }
      assert (104 < Z.pos (digits2_pos p) + (- ea - eb)); [|lia].
      apply (Z.pow_lt_mono_r_iff 2); lia. }
    rewrite <- binary_round_is_aux by done.
    rewrite Hprod.
    pose proof (binary_round_exact (xorb (x <? 0) (y <? 0)) p (- ea - eb) (ea + eb)) as H.
    cbv zeta in H. rewrite H by lia.
    replace (Z.pos (digits2_pos p) + (- ea - eb) + (ea + eb) - 53)
      with (Z.pos (digits2_pos p) - 53) by lia.
    split; [done|]. left.
    destruct (Z.ltb_spec x 0), (Z.ltb_spec y 0); cbn [xorb].
    + replace (x * y) with (Z.pos p) by nia. by rewrite of_Z_pos.
    + replace (x * y) with (Z.neg p) by nia. by rewrite of_Z_neg.
    + replace (x * y) with (Z.neg p) by nia. by rewrite of_Z_neg.
    + replace (x * y) with (Z.pos p) by nia. by rewrite of_Z_pos.
Qed.

(** The sign of the remainder is that of the dividend. *)
Lemma rem_abs_sign x y :
  y <> 0 -> (if x <? 0 then - (Z.abs x mod Z.abs y) else Z.abs x mod Z.abs y) = Z.rem x y.
Proof.
  intros Hy.
  assert (Hr : Z.abs x mod Z.abs y = Z.abs (Z.rem x y)).
  { rewrite <- Z.rem_mod_nonneg by lia. rewrite Z.rem_abs by done. reflexivity. }
  rewrite Hr.
  pose proof (Z.rem_sign_nz x y Hy) as Hs.
  destruct (Z.ltb_spec x 0) as [Hx|Hx].
  - destruct (Z.eq_dec (Z.rem x y) 0) as [E|E]; [rewrite E; reflexivity|].
    specialize (Hs E). lia.
  - pose proof (Z.rem_nonneg x y Hy Hx). lia.
Qed.

(** The remainder of integers is exact. *)
Lemma rem_integral a b x y :
  integral a x -> integral b y -> y <> 0 ->
  integral (Num.rem a b) (Z.rem x y).
Proof.
  intros Ha Hb Hy0.
  destruct (integral_shape _ _ Hb) as [[-> _]|[_ (mb & eb & -> & Heb & Hmb & Hdb)]]; [done|].
  destruct (integral_shape _ _ Ha) as [[-> [sa ->]]|[Hx (ma & ea & -> & Hea & Hma & Hda)]].
  - rewrite Z.rem_0_l by done. apply integral_zero.
  - unfold Num.rem. cbv zeta.
    set (e := Z.min ea eb).
    rewrite Hma, Hmb.
    rewrite <- !Z.mul_assoc, <- !Z.pow_add_r by lia.
    replace (- ea + (ea - e)) with (- e) by lia.
    replace (- eb + (eb - e)) with (- e) by lia.
    rewrite Z.mul_mod_distr_r by lia.
    assert (Hr : (if x <? 0 then - (Z.abs x mod Z.abs y * 2 ^ (- e))
                  else Z.abs x mod Z.abs y * 2 ^ (- e)) = Z.rem x y * 2 ^ (- e)).
    { rewrite <- (rem_abs_sign x y) by done. destruct (x <? 0); ring. }
    rewrite Hr. replace e with (- - e) at 2 by lia.
    destruct Ha as [Hxb _]. destruct Hb as [Hyb _].
    pose proof (Z.rem_bound_abs x y Hy0).
    apply integral_normalize; lia.
Qed.

(** Comparing magnitudes in normal form. *)
Lemma compare_magnitudes m1 e1 m2 e2 x y :
  -52 <= e1 <= 0 -> -52 <= e2 <= 0 ->
  Z.pos m1 = x * 2 ^ (- e1) -> Z.pos m2 = y * 2 ^ (- e2) ->
  Z.pos (digits2_pos m1) = 53 -> Z.pos (digits2_pos m2) = 53 ->
  match e1 ?= e2 with
  | Lt => Lt
  | Gt => Gt
  | Eq => Pos.compare_cont Eq m1 m2
  end = (x ?= y).
Proof.
  intros He1 He2 Hm1 Hm2 Hd1 Hd2.
  pose proof (digits2_pos_lower m1) as L1. pose proof (digits2_pos_upper m1) as U1.
  pose proof (digits2_pos_lower m2) as L2. pose proof (digits2_pos_upper m2) as U2.
  rewrite Hd1 in L1, U1. rewrite Hd2 in L2, U2.
  assert (P1 : 0 < 2 ^ (- e1)) by (apply Z.pow_pos_nonneg; lia).
  assert (P2 : 0 < 2 ^ (- e2)) by (apply Z.pow_pos_nonneg; lia).
  assert (below : forall m e z, -52 <= e <= 0 -> Z.pos m = z * 2 ^ (- e) ->
            Z.pos m < 2 ^ 53 -> z < 2 ^ (53 + e)).
  { intros m e z He Hm Hu.
    apply (Z.mul_lt_mono_pos_r (2 ^ (- e))); [apply Z.pow_pos_nonneg; lia|].
    rewrite <- Z.pow_add_r by lia. replace (53 + e + - e) with 53 by lia. lia. }
  assert (above : forall m e z, -52 <= e <= 0 -> Z.pos m = z * 2 ^ (- e) ->
            2 ^ (53 - 1) <= Z.pos m -> 2 ^ (52 + e) <= z).
  { intros m e z He Hm Hl.
    apply (Z.mul_le_mono_pos_r _ _ (2 ^ (- e))); [apply Z.pow_pos_nonneg; lia|].
    rewrite <- Z.pow_add_r by lia. replace (52 + e + - e) with (53 - 1) by lia. lia. }
  destruct (Z.compare_spec e1 e2) as [E|E|E].
  - subst e2. change (Pos.compare_cont Eq m1 m2) with (Z.pos m1 ?= Z.pos m2).
    rewrite Hm1, Hm2.
    destruct (Z.compare_spec x y); [apply Z.compare_eq_iff | apply Z.compare_lt_iff | apply Z.compare_gt_iff]; nia.
  - symmetry. apply Z.compare_lt_iff.
    pose proof (below _ _ _ He1 Hm1 U1). pose proof (above _ _ _ He2 Hm2 L2).
    assert (2 ^ (53 + e1) <= 2 ^ (52 + e2)) by (apply Z.pow_le_mono_r; lia). lia.
  - symmetry. apply Z.compare_gt_iff.
    pose proof (below _ _ _ He2 Hm2 U2). pose proof (above _ _ _ He1 Hm1 L1).
    assert (2 ^ (53 + e2) <= 2 ^ (52 + e1)) by (apply Z.pow_le_mono_r; lia). lia.
Qed.

(** Integers compare as themselves. *)
Lemma compare_integral a b x y :
  integral a x -> integral b y -> SFcompare a b = Some (x ?= y).
Proof.
  intros Ha Hb.
  destruct (integral_shape _ _ Ha) as [[-> [sa ->]]|[Hx (ma & ea & -> & Hea & Hma & Hda)]];
  destruct (integral_shape _ _ Hb) as [[-> [sb ->]]|[Hy (mb & eb & -> & Heb & Hmb & Hdb)]].
  - reflexivity.
  - cbn [SFcompare]. f_equal. destruct (Z.ltb_spec y 0); symmetry.
    + apply Z.compare_gt_iff. lia.
    + apply Z.compare_lt_iff. lia.
  - cbn [SFcompare]. f_equal. destruct (Z.ltb_spec x 0); symmetry.
    + apply Z.compare_lt_iff. lia.
    + apply Z.compare_gt_iff. lia.
  - cbn [SFcompare]. f_equal.
    pose proof (compare_magnitudes ma ea mb eb _ _ Hea Heb Hma Hmb Hda Hdb) as Hc.
    assert (Hopp : match ea ?= eb with
                   | Lt => Gt
                   | Gt => Lt
                   | Eq => CompOpp (Pos.compare_cont Eq ma mb)
                   end = CompOpp (Z.abs x ?= Z.abs y))
      by (rewrite <- Hc; destruct (ea ?= eb); reflexivity).
    destruct (Z.ltb_spec x 0), (Z.ltb_spec y 0).
    + rewrite Hopp.
      destruct (Z.compare_spec (Z.abs x) (Z.abs y)); cbn [CompOpp]; symmetry;
        first [apply Z.compare_eq_iff | apply Z.compare_lt_iff | apply Z.compare_gt_iff]; lia.
    + symmetry. apply Z.compare_lt_iff. lia.
    + symmetry. apply Z.compare_gt_iff. lia.
    + rewrite Hc.
      destruct (Z.compare_spec (Z.abs x) (Z.abs y)); symmetry;
        first [apply Z.compare_eq_iff | apply Z.compare_lt_iff | apply Z.compare_gt_iff]; lia.
Qed.

(** [Math.max] and [Math.min] of integers. *)
Lemma max_integral a b x y :
  integral a x -> integral b y -> integral (Num.max a b) (Z.max x y).
Proof.
  intros Ha Hb. unfold Num.max. rewrite (compare_integral a b x y) by done.
  destruct (Z.compare_spec x y) as [E|E|E].
  - subst y. rewrite Z.max_id. by destruct (Num.sign_bit a).
  - by rewrite Z.max_r by lia.
  - by rewrite Z.max_l by lia.
Qed.

Lemma min_integral a b x y :
  integral a x -> integral b y -> integral (Num.min a b) (Z.min x y).
Proof.
  intros Ha Hb. unfold Num.min. rewrite (compare_integral a b x y) by done.
  destruct (Z.compare_spec x y) as [E|E|E].
  - subst y. rewrite Z.min_id. by destruct (Num.sign_bit a).
  - by rewrite Z.min_l by lia.
  - by rewrite Z.min_r by lia.
Qed.

(** An integer is its own index. *)
Lemma to_index_integral a x : integral a x -> Num.to_index a = Some x.
Proof.
  intros Ha.
  destruct (integral_shape _ _ Ha) as [[-> [sa ->]]|[Hx (ma & ea & -> & Hea & Hma & Hda)]];
    [reflexivity|].
  unfold Num.to_index, Num.exact_pos, Num.truncZ, Num.floor_pos.
  destruct (Z.leb_spec 0 ea) as [H0|H0].
  - assert (ea = 0) as -> by lia. change (- 0) with 0 in Hma.
    rewrite Z.pow_0_r, Z.mul_1_r in *. rewrite Hma. f_equal.
    destruct (Z.ltb_spec x 0); lia.
  - rewrite Hma, Z.mod_mul by lia. cbn [Z.eqb]. f_equal.
    rewrite Z.div_mul by lia. destruct (Z.ltb_spec x 0); lia.
Qed.

Lemma read_num_integral {rt : JSRuntime} b a x :
  integral a x -> read_num b a = read b x.
Proof. intros Ha. unfold read_num. by rewrite (to_index_integral a x). Qed.

(** [Math.round] leaves an integer as it is. *)
Lemma round_integral a x : integral a x -> integral (Num.round a) x.
Proof.
  intros Ha.
  destruct (integral_shape _ _ Ha) as [[-> [sa ->]]|[Hx (ma & ea & -> & Hea & Hma & Hda)]];
    [exact Ha|].
  unfold Num.round. destruct (Z.leb_spec 0 ea) as [H0|H0]; [exact Ha|]. cbv zeta.
  assert (Hs : (if x <? 0 then Z.neg ma else Z.pos ma) = x * 2 ^ (- ea)).
  { rewrite <- (cond_Zopp_abs x), <- Hma. unfold cond_Zopp.
    destruct (x <? 0); [apply Pos2Z.opp_pos | reflexivity]. }
  rewrite Hs.
  assert (Hp : 0 < 2 ^ (- ea)) by (apply Z.pow_pos_nonneg; lia).
  rewrite Z.div_add_l by lia.
  rewrite Z.div_small.
  2:{ split; [apply Z.pow_nonneg; lia|]. apply Z.pow_lt_mono_r; lia. }
  rewrite Z.add_0_r.
  replace x with (x * 2 ^ 0) at 1 by (rewrite Z.pow_0_r; lia).
  change 0 with (- 0) at 2.
  destruct Ha as [Hb _]. apply integral_normalize; lia.
Qed.

(** Storing an integer between 0 and 255 stores that integer. *)
Lemma clamp_integral a x : integral a x -> byte x -> Num.ToUint8Clamp a = x.
Proof.
  intros Ha Hx. destruct (Z.eq_dec x 0) as [->|Hnz].
  - destruct (integral_shape _ _ Ha) as [[_ [sa ->]]|[? _]]; done.
  - rewrite (integral_nonzero _ _ Ha Hnz). by apply clamp_byte.
Qed.

(* ===================================================================== *)
(** * Mipmap: the first level down *)
(* ===================================================================== *)

(** Sums of up to four bytes are computed exactly. *)
Lemma add_bytes_exact x y :
  0 <= x <= 765 -> byte y -> (Num.of_Z x + Num.of_Z y)%js = Num.of_Z (x + y).
Proof. intros Hx [Hlo Hhi]. apply add_exact; lia. Qed.

Lemma round_quarter_exact t :
  0 <= t <= 1020 ->
  Num.ToUint8Clamp (Num.round (Num.of_Z t / Num.of_Z 4)%js) = (2 * t + 4) / 8.
Proof.
  intros Ht.
  assert (Hall : forallb (fun t =>
            Num.ToUint8Clamp (Num.round (Num.of_Z t / Num.of_Z 4)%js) =? (2 * t + 4) / 8)
            (seqZ 0 1021) = true) by (vm_compute; reflexivity).
  rewrite forallb_forall in Hall. apply Z.eqb_eq, Hall.
  apply list_elem_of_In, elem_of_seqZ. lia.
Qed.

(** The box filter on four bytes: what is stored is their average,
    rounded to nearest. *)
Lemma box_filter_exact a b c d :
  byte a -> byte b -> byte c -> byte d ->
  Num.ToUint8Clamp
    (Num.round
       (((((Num.of_Z 0 + Num.of_Z a) + Num.of_Z b) + Num.of_Z c) + Num.of_Z d)
        / Num.of_Z 4)%js)
  = box_average a b c d.
Proof.
  intros Ha Hb Hc Hd. unfold byte in *.
  rewrite !add_bytes_exact by (unfold byte; lia).
  rewrite round_quarter_exact by lia. unfold box_average.
  replace (0 + a + b + c + d) with (a + b + c + d) by lia. reflexivity.
Qed.

(* ===================================================================== *)
(** * mipmap: the first level of the chain *)
(* ===================================================================== *)

Lemma box_average_uniform a : box_average a a a a = a.
Proof.
  unfold box_average.
  replace (2 * (a + a + a + a) + 4) with (4 + a * 8) by lia.
  rewrite Z.div_add by lia. reflexivity.
Qed.

Section MipLevel.
Context {rt : JSRuntime}.

(** The chain built from a 4x4 bitmap that sits alone in the store. *)
Lemma mipLevels_of_4x4_alone c :
  Z.of_nat (length c) = 64 -> Forall byte c ->
  exists m1 m2,
    mipLevels_of (ImageData.mk 4 4 0) [c] =
      Ret [ImageData.mk 4 4 0; ImageData.mk 2 2 1; ImageData.mk 1 1 2]
          [c; m1; m2] /\
    forall x y ch, 0 <= x < 2 -> 0 <= y < 2 -> 0 <= ch < 4 ->
      exists p q r t,
        sample 4 c (2 * x) (2 * y) ch = Some p /\
        sample 4 c (2 * x + 1) (2 * y) ch = Some q /\
        sample 4 c (2 * x) (2 * y + 1) ch = Some r /\
        sample 4 c (2 * x + 1) (2 * y + 1) ch = Some t /\
        sample 2 m1 x y ch = Some (box_average p q r t).
Proof.
  intros Hlen Hb.
  do 64 (destruct c as [|? c]; [simpl in Hlen; lia|]).
  destruct c; [|simpl in Hlen; lia]. clear Hlen.
  repeat match goal with
  | H : Forall byte (_ :: _) |- _ => apply Forall_cons in H as [? H]
  end. clear Hb.
  eexists _, _. split.
  - cbv -[Num.add Num.div Num.round Num.of_Z Num.ToUint8Clamp].
    rewrite !box_filter_exact by assumption. reflexivity.
  - intros x y ch Hx Hy Hch.
    assert (Ex : x = 0 \/ x = 1) by lia.
    assert (Ey : y = 0 \/ y = 1) by lia.
    assert (Ec : ch = 0 \/ ch = 1 \/ ch = 2 \/ ch = 3) by lia.
    destruct Ex as [-> | ->], Ey as [-> | ->],
             Ec as [-> | [-> | [-> | ->]]];
      eexists _, _, _, _; repeat split; reflexivity.
Qed.

(** C7. For every well-formed 4x4 bitmap, the chain of mip levels that
    mipmap builds is the input, a 2x2 level and a 1x1 level, and channel
    [ch] of pixel [(x, y)] of the 2x2 level is the average of that channel
    over the source pixels [(2x, 2y)], [(2x+1, 2y)], [(2x, 2y+1)] and
    [(2x+1, 2y+1)], rounded to the nearest integer; where the four source
    values agree, as they do in a bitmap made of four uniform 2x2
    quadrants, it is their common value. *)
Theorem mipmap_first_level_is_box_average s img c :
  bitmap s img c ->
  img.(ImageData.width) = 4 -> img.(ImageData.height) = 4 ->
  exists m1 m2,
    mipLevels_of img s =
      Ret [img; ImageData.mk 2 2 (length s); ImageData.mk 1 1 (S (length s))]
          (s ++ [m1; m2]) /\
    forall x y ch, 0 <= x < 2 -> 0 <= y < 2 -> 0 <= ch < 4 ->
      exists p q r t,
        sample 4 c (2 * x) (2 * y) ch = Some p /\
        sample 4 c (2 * x + 1) (2 * y) ch = Some q /\
        sample 4 c (2 * x) (2 * y + 1) ch = Some r /\
        sample 4 c (2 * x + 1) (2 * y + 1) ch = Some t /\
        sample 2 m1 x y ch = Some (box_average p q r t) /\
        (p = q -> q = r -> r = t -> sample 2 m1 x y ch = Some p).
Proof.
  intros (Hc & _ & _ & Hlen & Hb & _) Hw Hh.
  destruct img as [w h d];
    cbn [ImageData.width ImageData.height ImageData.data] in *; subst w h.
  destruct (mipLevels_of_4x4_alone c) as (m1 & m2 & Hrun & Hpix);
    [lia | assumption |].
  exists m1, m2. split.
  - assert (HR : Rstore [c] s [c] s).
    { exists []. split; symmetry; apply app_nil_r. }
    pose proof (sim_mipLevels_of [c] s 0 d c eq_refl Hc 4 4 [c] s HR) as Hsim.
    rewrite Hrun in Hsim. clear Hrun Hpix HR.
    destruct (mipLevels_of _ s) as [lv u | ? ?]; [|contradiction].
    destruct Hsim as [Hlv (ext & E1 & ->)].
    injection E1 as <-.
    apply Forall2_cons_inv_l in Hlv as (a0 & lv' & R0 & Hlv & ->).
    apply Forall2_cons_inv_l in Hlv as (a1 & lv'' & R1 & Hlv & ->).
    apply Forall2_cons_inv_l in Hlv as (a2 & lv3 & R2 & Hlv & ->).
    apply Forall2_nil_inv_l in Hlv as ->.
    destruct a0 as [w0 h0 e0], a1 as [w1 h1 e1], a2 as [w2 h2 e2].
    destruct R0 as (? & ? & L0), R1 as (? & ? & L1), R2 as (? & ? & L2).
    cbn [ImageData.width ImageData.height ImageData.data] in *; subst.
    assert (e0 = d) as ->
      by (inversion L0; subst; cbn [length] in *; first [reflexivity | lia]).
    assert (e1 = length s) as ->
      by (inversion L1; subst; cbn [length] in *; first [reflexivity | lia]).
    assert (e2 = S (length s)) as ->
      by (inversion L2; subst; cbn [length] in *; first [reflexivity | lia]).
    reflexivity.
  - intros x y ch Hx Hy Hch.
    destruct (Hpix x y ch Hx Hy Hch) as (p & q & r & t & ? & ? & ? & ? & E).
    exists p, q, r, t. repeat split; try assumption.
    intros -> -> ->. rewrite E, box_average_uniform. reflexivity.
Qed.

End MipLevel.

(* ===================================================================== *)
(** * Parameters within their declared range *)
(* ===================================================================== *)

Lemma digits2_pos_bound m : Z.pos m < 2 ^ Z.pos (digits2_pos m).
Proof.
  induction m as [m IH | m IH |]; simpl digits2_pos.
  - rewrite Pos2Z.inj_succ, Z.pow_succ_r by lia. lia.
  - rewrite Pos2Z.inj_succ, Z.pow_succ_r by lia. lia.
  - reflexivity.
Qed.

(** The mantissa of a binary64 value has at most 53 bits. *)
Lemma valid_mantissa s m e :
  valid_binary Num.prec Num.emax (S754_finite s m e) = true -> Z.pos m < 2 ^ 53.
Proof.
  unfold valid_binary, bounded, canonical_mantissa, fexp, emin.
  intros H. apply andb_true_iff in H as [H _].
  apply Z.eqb_eq in H.
  pose proof (digits2_pos_bound m) as Hm.
  assert (Z.pos (digits2_pos m) <= 53) by (unfold Num.prec, Num.emax in H; lia).
  eapply Z.lt_le_trans; [exact Hm|]. apply Z.pow_le_mono_r; lia.
Qed.

(** A valid non-negative value that is at most [2^k * 2^52 * 2^e'] has
    an exponent at most [e']. *)
Lemma le_finite_exponent m e m' e' :
  Num.le (S754_finite false m e) (S754_finite false m' e') = true -> e <= e'.
Proof.
  unfold Num.le, SFleb, SFcompare.
  destruct (Z.compare_spec e e'); [lia | lia | discriminate].
Qed.

Lemma floor_pos_small m e k :
  Z.pos m < 2 ^ 53 -> e <= - k -> 0 <= k <= 53 ->
  0 <= Num.floor_pos m e < 2 ^ (53 - k).
Proof.
  intros Hm He Hk. unfold Num.floor_pos.
  destruct (Z.leb_spec 0 e) as [H0 | H0].
  - assert (e = 0) as -> by lia. assert (k = 0) as -> by lia.
    rewrite Z.pow_0_r, Z.mul_1_r. simpl. lia.
  - split; [apply Z.div_pos; [lia | apply Z.pow_pos_nonneg; lia]|].
    apply Z.div_lt_upper_bound; [apply Z.pow_pos_nonneg; lia|].
    rewrite <- Z.pow_add_r by lia.
    eapply Z.lt_le_trans; [exact Hm|]. apply Z.pow_le_mono_r; lia.
Qed.

Lemma range_cases (P : Z -> bool) n :
  forallb P (seqZ 0 n) = true -> forall z, 0 <= z < n -> P z = true.
Proof.
  intros Hall z Hz. rewrite forallb_forall in Hall.
  apply Hall. apply list_elem_of_In, elem_of_seqZ. lia.
Qed.

(** A loop bounded by a value that is at most 16 ends. *)
Lemma trip_count_bounded n :
  valid_binary Num.prec Num.emax n = true ->
  Num.le n (Num.of_Z 16) = true ->
  Num.trip_count n <> None.
Proof.
  intros Hv Hle.
  destruct n as [? | [|] | | [|] m e]; try done.
  change (Num.of_Z 16) with (S754_finite false 4503599627370496 (-48)) in Hle.
  apply le_finite_exponent in Hle. apply valid_mantissa in Hv.
  pose proof (floor_pos_small m e 48 Hv Hle ltac:(lia)) as Hf.
  change (2 ^ (53 - 48)) with 32 in Hf.
  unfold Num.trip_count, Num.ceilZ.
  destruct (_ <=? 2 ^ 53) eqn:E; [done|].
  apply Z.leb_gt in E. destruct (Num.exact_pos m e); lia.
Qed.

(** [Math.floor] of a value in [(0, 4]] is one of the integers below 8. *)
Lemma floor_bounded n :
  valid_binary Num.prec Num.emax n = true ->
  Num.is_zero n = false ->
  Num.le (Num.of_Z 0) n = true ->
  Num.le n (Num.of_Z 4) = true ->
  exists k, 0 <= k < 8 /\ Num.floor n = Num.of_Z k.
Proof.
  intros Hv Hz H0 Hle.
  destruct n as [? | [|] | | [|] m e]; try done.
  change (Num.of_Z 4) with (S754_finite false 4503599627370496 (-50)) in Hle.
  apply le_finite_exponent in Hle. apply valid_mantissa in Hv.
  pose proof (floor_pos_small m e 50 Hv Hle ltac:(lia)) as Hf.
  change (2 ^ (53 - 50)) with 8 in Hf.
  exists (Num.floor_pos m e). split; [done|].
  unfold Num.floor. destruct (Z.leb_spec 0 e); [lia|]. reflexivity.
Qed.

Lemma min_small j k :
  0 <= j < 64 -> 0 <= k < 8 ->
  Num.min (Num.of_Z j) (Num.of_Z k) = Num.of_Z (Z.min j k).
Proof.
  intros Hj Hk.
  assert (Hall : forallb (fun j => forallb (fun k =>
            bool_decide (Num.min (Num.of_Z j) (Num.of_Z k) = Num.of_Z (Z.min j k)))
            (seqZ 0 8)) (seqZ 0 64) = true) by (vm_compute; reflexivity).
  pose proof (range_cases _ _ Hall j Hj) as Hall'. cbv beta in Hall'.
  pose proof (range_cases _ _ Hall' k Hk) as H. cbv beta in H.
  by apply bool_decide_eq_true in H.
Qed.

Lemma to_index_small j : 0 <= j < 64 -> Num.to_index (Num.of_Z j) = Some j.
Proof.
  intros Hj.
  assert (Hall : forallb
    (fun j => bool_decide (Num.to_index (Num.of_Z j) = Some j))
    (seqZ 0 64) = true) by (vm_compute; reflexivity).
  pose proof (range_cases _ _ Hall j Hj) as H.
  cbv beta in H. by apply bool_decide_eq_true in H.
Qed.

Lemma lookup_num_small {A} (l : list A) j :
  0 <= j < 64 -> j < Z.of_nat (length l) ->
  exists a, lookup_num l (Num.of_Z j) = Some a.
Proof.
  intros Hj Hl. unfold lookup_num. rewrite to_index_small by done.
  destruct (Z.leb_spec 0 j); [|lia].
  apply lookup_lt_is_Some. lia.
Qed.

Lemma mipColors_small j :
  0 <= j < 64 ->
  exists col, lookup_num mipColors
    (Num.rem (Num.of_Z j) (Num.of_Z (Z.of_nat (length mipColors)))) = Some col.
Proof.
  intros Hj.
  assert (Hall : forallb
    (fun j => bool_decide (is_Some (lookup_num mipColors
       (Num.rem (Num.of_Z j) (Num.of_Z (Z.of_nat (length mipColors)))))))
    (seqZ 0 64) = true) by (vm_compute; reflexivity).
  pose proof (range_cases _ _ Hall j Hj) as H.
  cbv beta in H. apply bool_decide_eq_true in H. destruct H; eauto.
Qed.

Section ParamFacts.
Context {rt : JSRuntime}.

(** A choice that conforms to its schema, or its default, is a string. *)
Lemma select_or_default schema p k opts dflt :
  conforms schema p -> Param.Select k opts dflt ∈ schema ->
  exists str, js_or (get p k) (VStr dflt) = VStr str.
Proof.
  intros Hc Hin. unfold get, js_or.
  destruct (p !! k) as [v|] eqn:E; simpl; [|eauto].
  specialize (Hc _ v Hin E). unfold admits in Hc. simpl in Hc.
  destruct v; try done. destruct (truthy (VStr s)); eauto.
Qed.

(** A range value that conforms to its schema, or its default, lies in
    the declared range and is neither zero nor NaN. *)
Lemma range_or_default schema p k lo hi st dflt :
  conforms schema p -> Param.Range k lo hi st dflt ∈ schema ->
  valid_binary Num.prec Num.emax dflt = true ->
  Num.le lo dflt = true -> Num.le dflt hi = true ->
  truthy (VNum dflt) = true ->
  let n := ToNumber (js_or (get p k) (VNum dflt)) in
  valid_binary Num.prec Num.emax n = true /\
  Num.le lo n = true /\ Num.le n hi = true /\ Num.is_zero n = false.
Proof.
  intros Hc Hin Hv Hlo Hhi Ht. unfold get, js_or.
  assert (Hd : Num.is_zero dflt = false).
  { simpl in Ht. apply negb_true_iff, orb_false_iff in Ht. tauto. }
  destruct (p !! k) as [v|] eqn:E; simpl; [|done].
  specialize (Hc _ v Hin E). unfold admits in Hc. simpl in Hc.
  destruct v as [|n| |]; try done.
  destruct Hc as (Hvn & Hl & Hh).
  destruct (truthy (VNum n)) eqn:Etr; simpl; [|done].
  simpl in Etr. apply negb_true_iff, orb_false_iff in Etr.
  repeat split; [done | by apply Hl | by apply Hh | tauto].
Qed.

End ParamFacts.

(* ===================================================================== *)
(** * Which calls return *)
(* ===================================================================== *)

Lemma returns_iterate_range {A} n : forall i (body : Z -> A -> M A) a,
  (forall j a, i <= j < i + Z.of_nat n -> returns (body j a) (fun _ => True)) ->
  returns (iterate n i 1 body a) (fun _ => True).
Proof.
  induction n as [|n IH]; intros i body a Hb; simpl.
  - by apply returns_ret.
  - eapply returns_bind; [apply Hb; lia|]. intros a' _.
    apply IH. intros j a'' Hj. apply Hb. lia.
Qed.

Lemma returns_for_range lo hi body :
  (forall i, lo <= i < hi -> returns (body i) (fun _ => True)) ->
  returns (for_ lo hi body) (fun _ => True).
Proof.
  intros Hb. unfold for_, for_step, for_acc.
  apply returns_iterate_range. intros j _ Hj. apply Hb.
  rewrite Z.div_1_r in Hj. lia.
Qed.

Lemma returns_for_num {A} bound (body : Z -> A -> M A) a :
  Num.trip_count bound <> None ->
  (forall i a, returns (body i a) (fun _ => True)) ->
  returns (for_num bound body a) (fun _ => True).
Proof.
  intros Hn Hb. unfold for_num. destruct (Num.trip_count bound); [|done].
  by apply returns_iterate.
Qed.

Section Returns.
Context {rt : JSRuntime}.

Ltac returns_hook := fail.

Ltac returns_go :=
  first [ returns_hook | returns_go_core ]
with returns_go_core :=
  lazymatch goal with
  | |- returns (mret _) _ => apply (returns_ret _ (fun _ => True)); exact I
  | |- returns (_ ≫= _) _ =>
      eapply returns_bind; [returns_go|intros ? ?; returns_go]
  | |- returns (read _ _) _ => apply returns_read
  | |- returns (read_num _ _) _ => apply returns_read_num
  | |- returns (buf_length _) _ => apply returns_buf_length
  | |- returns (write _ _ _) _ => apply returns_write
  | |- returns (write_num _ _ _) _ => apply returns_write_num
  | |- returns (new_ImageData _ _) _ => apply returns_new; assumption
  | |- returns (for_ _ _ _) _ => apply returns_for; intros ?; returns_go
  | |- returns (for_step _ _ _ _) _ =>
      apply returns_for_step; intros ?; returns_go
  | |- returns (for_acc _ _ _ _ _) _ =>
      apply returns_for_acc; intros ? ?; returns_go
  | |- returns (match ?x with _ => _ end) _ => destruct x; returns_go
  | |- returns (let x := _ in _) _ => cbv zeta; returns_go
  | |- _ => idtac
  end.

Ltac returns_apply f := unfold f; cbv zeta; returns_go.

Lemma ret_rgbaAsRgb w h d p : 0 < w -> 0 < h ->
  returns (rgbaAsRgb_apply (ImageData.mk w h d) p) (fun _ => True).
Proof. intros. returns_apply @rgbaAsRgb_apply. Qed.
Lemma ret_rgbAsRgba w h d p : 0 < w -> 0 < h ->
  returns (rgbAsRgba_apply (ImageData.mk w h d) p) (fun _ => True).
Proof. intros. returns_apply @rgbAsRgba_apply. Qed.
Lemma ret_bgrSwap w h d p : 0 < w -> 0 < h ->
  returns (bgrSwap_apply (ImageData.mk w h d) p) (fun _ => True).
Proof. intros. returns_apply @bgrSwap_apply. Qed.
Lemma ret_argbOrder w h d p : 0 < w -> 0 < h ->
  returns (argbOrder_apply (ImageData.mk w h d) p) (fun _ => True).
Proof. intros. returns_apply @argbOrder_apply. Qed.
Lemma ret_endianness w h d p : 0 < w -> 0 < h ->
  returns (endianness_apply (ImageData.mk w h d) p) (fun _ => True).
Proof. intros. returns_apply @endianness_apply. Qed.
Lemma ret_channelShift w h d p : 0 < w -> 0 < h ->
  returns (channelShift_apply (ImageData.mk w h d) p) (fun _ => True).
Proof. intros. returns_apply @channelShift_apply. Qed.
Lemma ret_bitDepth w h d p : 0 < w -> 0 < h ->
  returns (bitDepth_apply (ImageData.mk w h d) p) (fun _ => True).
Proof. intros. returns_apply @bitDepth_apply. Qed.
Lemma ret_gamma w h d p : 0 < w -> 0 < h ->
  returns (gamma_apply (ImageData.mk w h d) p) (fun _ => True).
Proof. intros. returns_apply @gamma_apply. Qed.
Lemma ret_premultipliedAlpha w h d p : 0 < w -> 0 < h ->
  returns (premultipliedAlpha_apply (ImageData.mk w h d) p) (fun _ => True).
Proof. intros. returns_apply @premultipliedAlpha_apply. Qed.
Lemma ret_signedUnsigned w h d p : 0 < w -> 0 < h ->
  returns (signedUnsigned_apply (ImageData.mk w h d) p) (fun _ => True).
Proof. intros. returns_apply @signedUnsigned_apply. Qed.
Lemma ret_yuv w h d p : 0 < w -> 0 < h ->
  returns (yuv_apply (ImageData.mk w h d) p) (fun _ => True).
Proof. intros. returns_apply @yuv_apply. Qed.
Lemma ret_floatPrecision w h d p : 0 < w -> 0 < h ->
  returns (floatPrecision_apply (ImageData.mk w h d) p) (fun _ => True).
Proof. intros. returns_apply @floatPrecision_apply. Qed.
Lemma ret_wrongStride w h d p : 0 < w -> 0 < h ->
  returns (wrongStride_apply (ImageData.mk w h d) p) (fun _ => True).
Proof. intros. returns_apply @wrongStride_apply. Qed.
Lemma ret_wrongPitch w h d p : 0 < w -> 0 < h ->
  returns (wrongPitch_apply (ImageData.mk w h d) p) (fun _ => True).
Proof. intros. returns_apply @wrongPitch_apply. Qed.
Lemma ret_rowPadding w h d p : 0 < w -> 0 < h ->
  returns (rowPadding_apply (ImageData.mk w h d) p) (fun _ => True).
Proof. intros. returns_apply @rowPadding_apply. Qed.
Lemma ret_alignment w h d p : 0 < w -> 0 < h ->
  returns (alignment_apply (ImageData.mk w h d) p) (fun _ => True).
Proof. intros. returns_apply @alignment_apply. Qed.
Lemma ret_swizzle w h d p : 0 < w -> 0 < h ->
  returns (swizzle_apply (ImageData.mk w h d) p) (fun _ => True).
Proof. intros. returns_apply @swizzle_apply. Qed.
Lemma ret_offByOne w h d p : 0 < w -> 0 < h ->
  returns (offByOne_apply (ImageData.mk w h d) p) (fun _ => True).
Proof. intros. returns_apply @offByOne_apply. Qed.
Lemma ret_flippedAxis w h d p : 0 < w -> 0 < h ->
  returns (flippedAxis_apply (ImageData.mk w h d) p) (fun _ => True).
Proof. intros. returns_apply @flippedAxis_apply. Qed.
Lemma ret_uvWrapping w h d p : 0 < w -> 0 < h ->
  returns (uvWrapping_apply (ImageData.mk w h d) p) (fun _ => True).
Proof. intros. returns_apply @uvWrapping_apply. Qed.
Lemma ret_aspectRatio w h d p : 0 < w -> 0 < h ->
  returns (aspectRatio_apply (ImageData.mk w h d) p) (fun _ => True).
Proof. intros. returns_apply @aspectRatio_apply. Qed.

Lemma returns_getPixel w h d x y : returns (getPixel w h d x y) (fun _ => True).
Proof. unfold getPixel; returns_go. Qed.

Ltac returns_hook ::=
  lazymatch goal with
  | |- returns (getPixel _ _ _ _ _) _ => apply returns_getPixel
  end.

Lemma returns_bilinear w h d x y : returns (bilinear w h d x y) (fun _ => True).
Proof. unfold bilinear; returns_go. Qed.

Ltac returns_hook ::=
  lazymatch goal with
  | |- returns (getPixel _ _ _ _ _) _ => apply returns_getPixel
  | |- returns (bilinear _ _ _ _ _) _ => apply returns_bilinear
  end.

Lemma ret_halfPixel w h d p : 0 < w -> 0 < h ->
  returns (halfPixel_apply (ImageData.mk w h d) p) (fun _ => True).
Proof. intros. returns_apply @halfPixel_apply. Qed.


Lemma ret_compression w h d p : 0 < w -> 0 < h ->
  conforms compression.(params) p ->
  returns (compression_apply (ImageData.mk w h d) p) (fun _ => True).
Proof.
  intros Hw Hh Hc.
  eapply select_or_default in Hc as [str E]; [|apply list_elem_of_here].
  unfold compression_apply; cbv zeta. rewrite E. returns_go.
Qed.

Lemma ret_sampling w h d p : 0 < w -> 0 < h ->
  conforms sampling.(params) p ->
  returns (sampling_apply (ImageData.mk w h d) p) (fun _ => True).
Proof.
  intros Hw Hh Hc.
  eapply range_or_default in Hc as (Hv & _ & Hle & _);
    [|apply list_elem_of_further, list_elem_of_here | done..].
  pose proof (trip_count_bounded _ Hv Hle) as Htrip.
  unfold sampling_apply; cbv zeta.
  set (scale := ToNumber (js_or (get p "scale") (VNum 4))) in *.
  repeat first
    [ progress returns_go
    | apply returns_for_num; [exact Htrip | intros ? ?] ].
Qed.

Lemma max_halves W H :
  0 < W -> 0 < H -> 1 < W \/ 1 < H ->
  Z.max (Z.max 1 (W / 2)) (Z.max 1 (H / 2)) = Z.max W H / 2.
Proof.
  intros HW HH Hone.
  destruct (Z.max_spec W H) as [[? ->]|[? ->]];
    Z.div_mod_to_equations; lia.
Qed.

Lemma log2_half n : 2 <= n -> Z.log2 (n / 2) = Z.log2 n - 1.
Proof.
  intros Hn. change (n / 2) with (n / 2 ^ 1).
  rewrite <- Z.shiftr_div_pow2, Z.log2_shiftr by lia.
  assert (1 <= Z.log2 n) by (apply Z.log2_le_pow2; simpl; lia). lia.
Qed.

(** The [while] loop that builds the mip chain ends, with one level
    more for each halving of the larger dimension. *)
Lemma returns_mip_chain fuel : forall l W H,
  0 < W -> 0 < H -> l <> [] -> W + H - 2 <= Z.of_nat fuel ->
  returns (mip_chain fuel l W H)
    (fun r => Z.of_nat (length r) = Z.of_nat (length l) + Z.log2 (Z.max W H)).
Proof.
  induction fuel as [|fuel IH]; intros l W H HW HH Hl Hfuel; simpl.
  - destruct (Z.ltb_spec 1 W); [lia|]. destruct (Z.ltb_spec 1 H); [lia|].
    simpl. apply returns_ret.
    assert (W = 1) as -> by lia. assert (H = 1) as -> by lia. simpl. lia.
  - destruct ((1 <? W) || (1 <? H)) eqn:Hcond.
    + apply orb_true_iff in Hcond.
      rewrite !Z.ltb_lt in Hcond.
      destruct (last l) as [prevMip|] eqn:El;
        [|by apply last_None in El].
      cbv zeta.
      assert (HW' : 0 < Z.max 1 (W / 2)) by lia.
      assert (HH' : 0 < Z.max 1 (H / 2)) by lia.
      eapply returns_bind; [apply returns_new; assumption|].
      intros newMip _.
      eapply returns_bind; [returns_go|]. intros _ _.
      eapply returns_weaken.
      * apply IH; [done | done | by destruct l | ].
        Z.div_mod_to_equations; lia.
      * intros r Hr. cbv beta in Hr. rewrite Hr, length_app. simpl.
        rewrite max_halves by done.
        rewrite log2_half by lia. lia.
    + apply orb_false_iff in Hcond. rewrite !Z.ltb_ge in Hcond.
      apply returns_ret.
      assert (W = 1) as -> by lia. assert (H = 1) as -> by lia. simpl. lia.
Qed.

(** The level [mipLevel] that mipmap samples from exists. *)
Lemma mipLevel_exists (mode : JSValue) (lodBias : number) len x y :
  1 <= len <= 64 -> 0 <= x -> 0 <= y ->
  (exists k, 0 <= k < 8 /\ Num.floor lodBias = Num.of_Z k) ->
  exists j, 0 <= j < len /\
    (if is_str mode "Too blurry (high LOD)" then
       Num.min (Num.of_Z (len - 1)) (Num.floor lodBias)
     else if is_str mode "Aliased (low LOD)" then Num.of_Z 0
     else if is_str mode "Wrong mip level" then
       Num.of_Z (Z.rem ((x + y) / 32) len)
     else if is_str mode "Visualize mip levels" then
       Num.min (Num.of_Z (len - 1)) (Num.floor lodBias)
     else Num.of_Z 0) = Num.of_Z j.
Proof.
  intros Hlen Hx Hy (k & Hk & ->).
  assert (Hmin : exists j, 0 <= j < len /\
            Num.min (Num.of_Z (len - 1)) (Num.of_Z k) = Num.of_Z j).
  { exists (Z.min (len - 1) k). split; [lia|]. apply min_small; lia. }
  assert (Hrem : 0 <= Z.rem ((x + y) / 32) len < len).
  { apply Z.rem_bound_pos; [|lia]. apply Z.div_pos; lia. }
  destruct (is_str mode "Too blurry (high LOD)"); [done|].
  destruct (is_str mode "Aliased (low LOD)"); [exists 0; split; [lia|done]|].
  destruct (is_str mode "Wrong mip level"); [eauto|].
  destruct (is_str mode "Visualize mip levels"); [done|].
  exists 0; split; [lia|done].
Qed.

Lemma ret_mipmap w h d p : 0 < w -> 0 < h -> w * h * 4 < 2 ^ 53 ->
  conforms mipmap.(params) p ->
  returns (mipmap_apply (ImageData.mk w h d) p) (fun _ => True).
Proof.
  intros Hw Hh Hsize Hc.
  eapply range_or_default in Hc as (Hv & H0 & H4 & Hz);
    [|apply list_elem_of_further, list_elem_of_here | done..].
  pose proof (floor_bounded _ Hv Hz H0 H4) as Hfloor.
  unfold mipmap_apply; cbv zeta.
  set (lodBias := ToNumber (js_or (get p "lodBias") (VNum 2))) in *.
  set (mode := js_or (get p "mode") (VStr "Too blurry (high LOD)")).
  eapply returns_bind; [apply returns_new; assumption|]. intros output _.
  eapply returns_bind.
  { apply (returns_mip_chain _ [ImageData.mk w h d] w h); [done | done | done | lia]. }
  intros mipLevels Hlen. cbv beta in Hlen. simpl length in Hlen.
  assert (Hlog : Z.log2 (Z.max w h) < 53).
  { apply Z.log2_lt_pow2; [lia|]. nia. }
  assert (Hl : 1 <= Z.of_nat (length mipLevels) <= 64).
  { pose proof (Z.log2_nonneg (Z.max w h)). lia. }
  eapply returns_bind; [|intros; by apply returns_ret].
  apply returns_for_range; intros y Hy.
  apply returns_for_range; intros x Hx.
  destruct (mipLevel_exists mode lodBias _ x y Hl ltac:(lia) ltac:(lia) Hfloor)
    as (j & Hj & ->).
  destruct (lookup_num_small mipLevels j ltac:(lia) ltac:(lia)) as [mip ->].
  destruct (mipColors_small j ltac:(lia)) as [[[c0 c1] c2] ->].
  returns_go.
Qed.

End Returns.

(* ===================================================================== *)
(** * Shape preservation *)
(* ===================================================================== *)

Section Shape.
Context {rt : JSRuntime}.

Ltac each_glitch H :=
  unfold glitches in H;
  repeat (apply elem_of_cons in H as [->|H]);
  [..|by apply elem_of_nil in H];
  cbv [apply rgbaAsRgb rgbAsRgba bgrSwap argbOrder endianness channelShift
       bitDepth gamma premultipliedAlpha signedUnsigned compression yuv
       floatPrecision wrongStride wrongPitch rowPadding alignment swizzle
       offByOne flippedAxis uvWrapping aspectRatio sampling halfPixel mipmap].

(** With parameters that conform to the transform's schema, the call
    returns. *)
Lemma apply_returns g w h d p :
  g ∈ glitches -> 0 < w -> 0 < h -> w * h * 4 < 2 ^ 53 ->
  conforms g.(params) p ->
  returns (apply g (ImageData.mk w h d) p) (fun _ => True).
Proof.
  intros Hg Hw Hh Hsize Hc. each_glitch Hg;
  [> by apply ret_rgbaAsRgb
   | by apply ret_rgbAsRgba
   | by apply ret_bgrSwap
   | by apply ret_argbOrder
   | by apply ret_endianness
   | by apply ret_channelShift
   | by apply ret_bitDepth
   | by apply ret_gamma
   | by apply ret_premultipliedAlpha
   | by apply ret_signedUnsigned
   | by apply ret_compression
   | by apply ret_yuv
   | by apply ret_floatPrecision
   | by apply ret_wrongStride
   | by apply ret_wrongPitch
   | by apply ret_rowPadding
   | by apply ret_alignment
   | by apply ret_swizzle
   | by apply ret_offByOne
   | by apply ret_flippedAxis
   | by apply ret_uvWrapping
   | by apply ret_aspectRatio
   | by apply ret_sampling
   | by apply ret_halfPixel
   | by apply ret_mipmap ].
Qed.

Lemma apply_shape g s img c p out s' :
  g ∈ glitches -> bitmap s img c ->
  apply g img p s = Ret out s' -> same_shape s' img out.
Proof.
  intros Hg (_ & Hw & Hh & _) Hrun. destruct img as [w h d].
  cbn [ImageData.width ImageData.height] in *.
  destruct (allocates_first_shape w h _ s out s'
              (apply_allocates_first g w h d p Hg) Hrun) as [-> (o & Ho & Hlen)].
  repeat split. exists o. split; [done|]. cbn [ImageData.width ImageData.height].
  rewrite Hlen. lia.
Qed.

(** C1. For every transform of the catalog and every well-formed bitmap:
    a bitmap that [apply] returns, whatever the parameter map, has the
    width and the height of the input and a buffer of [width*height*4]
    bytes; and with a parameter map that conforms to the transform's
    schema [apply] does return one. *)
Theorem apply_preserves_shape g s img c p :
  g ∈ glitches -> bitmap s img c ->
  (forall out s', apply g img p s = Ret out s' -> same_shape s' img out) /\
  (conforms g.(params) p ->
   exists out s', apply g img p s = Ret out s' /\ same_shape s' img out).
Proof.
  intros Hg Hb. split.
  - intros out s'. by apply apply_shape with c.
  - intros Hc. pose proof Hb as (_ & Hw & Hh & _ & _ & Hsize).
    destruct img as [w h d]. cbn [ImageData.width ImageData.height] in *.
    destruct (apply_returns g w h d p Hg Hw Hh Hsize Hc s)
      as (out & s' & Hrun & _ & _).
    exists out, s'. split; [done|]. by apply (apply_shape g s _ c p).
Qed.

End Shape.

(* ===================================================================== *)
(** * Missing parameters and the schema defaults *)
(* ===================================================================== *)

Section Defaults.
Context {rt : JSRuntime}.

Lemma get_complete schema p k :
  get (complete schema p) k =
    match p !! k with
    | Some v => v
    | None => default undefined (defaults schema !! k)
    end.
Proof.
  unfold get, complete. rewrite lookup_union.
  destruct (p !! k), (defaults schema !! k); reflexivity.
Qed.

(** [params.k || f]: completing the map changes nothing when the
    declared default is [f], or is falsy. *)
Lemma js_or_complete schema p k dflt f :
  defaults schema !! k = Some dflt ->
  (truthy dflt = true -> dflt = f) ->
  js_or (get (complete schema p) k) f = js_or (get p k) f.
Proof.
  intros Hd Hf. rewrite get_complete, Hd. unfold get.
  destruct (p !! k); simpl; [done|].
  unfold js_or. simpl. destruct (truthy dflt) eqn:E; [by apply Hf|done].
Qed.

(** [params.k ?? f]: the declared default has to be [f]. *)
Lemma js_nullish_complete schema p k f :
  defaults schema !! k = Some f -> f <> undefined ->
  js_nullish (get (complete schema p) k) f = js_nullish (get p k) f.
Proof.
  intros Hd Hf. rewrite get_complete, Hd. unfold get.
  destruct (p !! k); simpl; [done|]. by destruct f.
Qed.

(** [params.k !== false]: the declared default has to be [true]. *)
Lemma is_not_false_complete schema p k :
  defaults schema !! k = Some (VBool true) ->
  is_not_false (get (complete schema p) k) = is_not_false (get p k).
Proof.
  intros Hd. rewrite get_complete, Hd. unfold get.
  destruct (p !! k); reflexivity.
Qed.

Ltac by_default :=
  first [ vm_compute; reflexivity
        | intros _; vm_compute; reflexivity
        | vm_compute; discriminate ].

Ltac completes f :=
  intros [w h d] p; unfold f; cbv beta iota;
  repeat first
    [ erewrite js_or_complete by by_default
    | erewrite js_nullish_complete by by_default
    | erewrite is_not_false_complete by by_default ];
  reflexivity.

Lemma complete_rgbaAsRgb : forall img p,
  rgbaAsRgb_apply img (complete rgbaAsRgb.(params) p) = rgbaAsRgb_apply img p.
Proof. completes @rgbaAsRgb_apply. Qed.
Lemma complete_rgbAsRgba : forall img p,
  rgbAsRgba_apply img (complete rgbAsRgba.(params) p) = rgbAsRgba_apply img p.
Proof. completes @rgbAsRgba_apply. Qed.
Lemma complete_bgrSwap : forall img p,
  bgrSwap_apply img (complete bgrSwap.(params) p) = bgrSwap_apply img p.
Proof. completes @bgrSwap_apply. Qed.
Lemma complete_argbOrder : forall img p,
  argbOrder_apply img (complete argbOrder.(params) p) = argbOrder_apply img p.
Proof. completes @argbOrder_apply. Qed.
Lemma complete_endianness : forall img p,
  endianness_apply img (complete endianness.(params) p) = endianness_apply img p.
Proof. completes @endianness_apply. Qed.
Lemma complete_bitDepth : forall img p,
  bitDepth_apply img (complete bitDepth.(params) p) = bitDepth_apply img p.
Proof. completes @bitDepth_apply. Qed.
Lemma complete_gamma : forall img p,
  gamma_apply img (complete gamma.(params) p) = gamma_apply img p.
Proof. completes @gamma_apply. Qed.
Lemma complete_premultipliedAlpha : forall img p,
  premultipliedAlpha_apply img (complete premultipliedAlpha.(params) p) = premultipliedAlpha_apply img p.
Proof. completes @premultipliedAlpha_apply. Qed.
Lemma complete_signedUnsigned : forall img p,
  signedUnsigned_apply img (complete signedUnsigned.(params) p) = signedUnsigned_apply img p.
Proof. completes @signedUnsigned_apply. Qed.
Lemma complete_compression : forall img p,
  compression_apply img (complete compression.(params) p) = compression_apply img p.
Proof. completes @compression_apply. Qed.
Lemma complete_yuv : forall img p,
  yuv_apply img (complete yuv.(params) p) = yuv_apply img p.
Proof. completes @yuv_apply. Qed.
Lemma complete_floatPrecision : forall img p,
  floatPrecision_apply img (complete floatPrecision.(params) p) = floatPrecision_apply img p.
Proof. completes @floatPrecision_apply. Qed.
Lemma complete_wrongStride : forall img p,
  wrongStride_apply img (complete wrongStride.(params) p) = wrongStride_apply img p.
Proof. completes @wrongStride_apply. Qed.
Lemma complete_wrongPitch : forall img p,
  wrongPitch_apply img (complete wrongPitch.(params) p) = wrongPitch_apply img p.
Proof. completes @wrongPitch_apply. Qed.
Lemma complete_rowPadding : forall img p,
  rowPadding_apply img (complete rowPadding.(params) p) = rowPadding_apply img p.
Proof. completes @rowPadding_apply. Qed.
Lemma complete_alignment : forall img p,
  alignment_apply img (complete alignment.(params) p) = alignment_apply img p.
Proof. completes @alignment_apply. Qed.
Lemma complete_swizzle : forall img p,
  swizzle_apply img (complete swizzle.(params) p) = swizzle_apply img p.
Proof. completes @swizzle_apply. Qed.
Lemma complete_offByOne : forall img p,
  offByOne_apply img (complete offByOne.(params) p) = offByOne_apply img p.
Proof. completes @offByOne_apply. Qed.
Lemma complete_flippedAxis : forall img p,
  flippedAxis_apply img (complete flippedAxis.(params) p) = flippedAxis_apply img p.
Proof. completes @flippedAxis_apply. Qed.
Lemma complete_uvWrapping : forall img p,
  uvWrapping_apply img (complete uvWrapping.(params) p) = uvWrapping_apply img p.
Proof. completes @uvWrapping_apply. Qed.
Lemma complete_aspectRatio : forall img p,
  aspectRatio_apply img (complete aspectRatio.(params) p) = aspectRatio_apply img p.
Proof. completes @aspectRatio_apply. Qed.
Lemma complete_sampling : forall img p,
  sampling_apply img (complete sampling.(params) p) = sampling_apply img p.
Proof. completes @sampling_apply. Qed.
Lemma complete_halfPixel : forall img p,
  halfPixel_apply img (complete halfPixel.(params) p) = halfPixel_apply img p.
Proof. completes @halfPixel_apply. Qed.
Lemma complete_mipmap : forall img p,
  mipmap_apply img (complete mipmap.(params) p) = mipmap_apply img p.
Proof. completes @mipmap_apply. Qed.

(** Every transform but [channel-shift] resolves a missing parameter to
    the default its schema declares: the call on a partial map is the
    call on the map completed with the defaults. *)
Lemma apply_resolves_defaults g img p :
  g ∈ glitches -> g.(id) <> "channel-shift" ->
  apply g img (complete g.(params) p) = apply g img p.
Proof.
  intros Hg Hid. unfold glitches in Hg.
  repeat (apply elem_of_cons in Hg as [->|Hg]);
    [..|by apply elem_of_nil in Hg];
  [> exact (complete_rgbaAsRgb img p)
   | exact (complete_rgbAsRgba img p)
   | exact (complete_bgrSwap img p)
   | exact (complete_argbOrder img p)
   | exact (complete_endianness img p)
   | done
   | exact (complete_bitDepth img p)
   | exact (complete_gamma img p)
   | exact (complete_premultipliedAlpha img p)
   | exact (complete_signedUnsigned img p)
   | exact (complete_compression img p)
   | exact (complete_yuv img p)
   | exact (complete_floatPrecision img p)
   | exact (complete_wrongStride img p)
   | exact (complete_wrongPitch img p)
   | exact (complete_rowPadding img p)
   | exact (complete_alignment img p)
   | exact (complete_swizzle img p)
   | exact (complete_offByOne img p)
   | exact (complete_flippedAxis img p)
   | exact (complete_uvWrapping img p)
   | exact (complete_aspectRatio img p)
   | exact (complete_sampling img p)
   | exact (complete_halfPixel img p)
   | exact (complete_mipmap img p) ].
Qed.

End Defaults.

(* ===================================================================== *)
(** * Transforms that work pixel by pixel *)
(* ===================================================================== *)

Lemma list_ind4 {A} (P : list A -> Prop) :
  P [] -> (forall a, P [a]) -> (forall a b, P [a; b]) ->
  (forall a b c, P [a; b; c]) ->
  (forall a b c d l, P l -> P (a :: b :: c :: d :: l)) ->
  forall l, P l.
Proof.
  intros H0 H1 H2 H3 H4.
  assert (H : forall l, P l /\ (forall a, P (a :: l)) /\
                        (forall a b, P (a :: b :: l)) /\
                        (forall a b c, P (a :: b :: c :: l))).
  { induction l as [|x l (IH0 & IH1 & IH2 & IH3)]; [by auto|].
    repeat split; auto. }
  intros l. apply H.
Qed.

Lemma length_map_pixels f c n :
  Z.of_nat (length c) = n * 4 -> length (map_pixels f c) = length c.
Proof.
  revert n. induction c as [| | | |r g b a l IH] using list_ind4;
    intros n Hn; cbn [length map_pixels] in *; try lia.
  destruct (f r g b a) as [[[r' g'] b'] a']. cbn [length].
  rewrite (IH (n - 1)) by lia. reflexivity.
Qed.

Lemma map_pixels_lookup_nat f c r g b a : forall n j,
  (j < 4)%nat ->
  c !! (4 * n)%nat = Some r -> c !! (4 * n + 1)%nat = Some g ->
  c !! (4 * n + 2)%nat = Some b -> c !! (4 * n + 3)%nat = Some a ->
  map_pixels f c !! (4 * n + j)%nat = Some (channel (f r g b a) (Z.of_nat j)).
Proof.
  intros n. revert c. induction n as [|n IH]; intros c j Hj Hr Hg Hb Ha.
  - destruct c as [|r0 [|g0 [|b0 [|a0 l]]]]; try discriminate.
    cbn in Hr, Hg, Hb, Ha. simplify_eq. cbn [map_pixels].
    destruct (f r g b a) as [[[r' g'] b'] a']. unfold channel.
    destruct j as [|[|[|[|j]]]]; [reflexivity..|lia].
  - replace (4 * S n)%nat with (S (S (S (S (4 * n))))) in * by lia.
    destruct c as [|r0 [|g0 [|b0 [|a0 l]]]]; try discriminate.
    cbn [map_pixels]. destruct (f r0 g0 b0 a0) as [[[r' g'] b'] a'].
    cbn [Nat.add lookup list_lookup] in *. by apply IH.
Qed.

Lemma map_pixels_lookup f c k ch r g b a :
  0 <= k -> 0 <= ch < 4 ->
  c !! Z.to_nat (4 * k) = Some r -> c !! Z.to_nat (4 * k + 1) = Some g ->
  c !! Z.to_nat (4 * k + 2) = Some b -> c !! Z.to_nat (4 * k + 3) = Some a ->
  map_pixels f c !! Z.to_nat (4 * k + ch) = Some (channel (f r g b a) ch).
Proof.
  intros Hk Hch Hr Hg Hb Ha.
  replace (Z.to_nat (4 * k)) with (4 * Z.to_nat k)%nat in Hr by lia.
  replace (Z.to_nat (4 * k + 1)) with (4 * Z.to_nat k + 1)%nat in Hg by lia.
  replace (Z.to_nat (4 * k + 2)) with (4 * Z.to_nat k + 2)%nat in Hb by lia.
  replace (Z.to_nat (4 * k + 3)) with (4 * Z.to_nat k + 3)%nat in Ha by lia.
  replace (Z.to_nat (4 * k + ch)) with (4 * Z.to_nat k + Z.to_nat ch)%nat by lia.
  rewrite (map_pixels_lookup_nat f c r g b a) by (done || lia).
  by rewrite Z2Nat.id by lia.
Qed.

Lemma map_pixels_compose f g c :
  map_pixels g (map_pixels f c) =
  map_pixels (fun r g0 b a => let '(r', g', b', a') := f r g0 b a in g r' g' b' a') c.
Proof.
  induction c as [| | | |r g0 b a l IH] using list_ind4; try reflexivity.
  simpl. destruct (f r g0 b a) as [[[r' g'] b'] a']. simpl.
  destruct (g r' g' b' a') as [[[r'' g''] b''] a'']. by rewrite IH.
Qed.

Lemma map_pixels_ext f g c :
  Forall byte c ->
  (forall r g0 b a, byte r -> byte g0 -> byte b -> byte a -> f r g0 b a = g r g0 b a) ->
  map_pixels f c = map_pixels g c.
Proof.
  intros Hc Hfg. induction c as [| | | |r g0 b a l IH] using list_ind4; try reflexivity.
  apply Forall_cons in Hc as [Hr Hc]. apply Forall_cons in Hc as [Hg Hc].
  apply Forall_cons in Hc as [Hb Hc]. apply Forall_cons in Hc as [Ha Hc].
  simpl. rewrite Hfg by done. by rewrite IH.
Qed.

Lemma map_pixels_id c n :
  Z.of_nat (length c) = n * 4 -> map_pixels (fun r g b a => (r, g, b, a)) c = c.
Proof.
  revert n. induction c as [| | | |r g b a l IH] using list_ind4;
    intros n Hn; cbn [length map_pixels] in *; try lia; [done|].
  by rewrite (IH (n - 1)) by lia.
Qed.

Lemma map_pixels_bytes f c :
  Forall byte c ->
  (forall r g b a, byte r -> byte g -> byte b -> byte a ->
     forall ch, 0 <= ch < 4 -> byte (channel (f r g b a) ch)) ->
  Forall byte (map_pixels f c).
Proof.
  intros Hc Hf. induction c as [| | | |r g b a l IH] using list_ind4;
    try (by constructor).
  apply Forall_cons in Hc as [Hr Hc]. apply Forall_cons in Hc as [Hg Hc].
  apply Forall_cons in Hc as [Hb Hc]. apply Forall_cons in Hc as [Ha Hc].
  simpl. pose proof (Hf r g b a Hr Hg Hb Ha) as Hq.
  destruct (f r g b a) as [[[r' g'] b'] a'].
  constructor; [apply (Hq 0); lia|]. constructor; [apply (Hq 1); lia|].
  constructor; [apply (Hq 2); lia|]. constructor; [apply (Hq 3); lia|].
  by apply IH.
Qed.

(** Running one round of such a loop. *)
Ltac run_pixel Hd :=
  repeat first
    [ rewrite run_bind
    | rewrite (run_read_input _ _ _ Hd)
    | erewrite buf_get_byte by (eassumption || lia || nia)
    | rewrite run_write_output
    | progress cbn [ImageData.data]
    | progress cbv beta iota ].

Section PixelTransforms.
Context {rt : JSRuntime}.

(** The loop [for (i = 0; i < data.length; i += 4)] of a transform whose
    round [i] stores, at pixel [i / 4] of the output, [f] of that pixel of
    the input. *)
Lemma run_pixel_loop s w h d c (body : ImageData -> Z -> M unit) f :
  bitmap s (ImageData.mk w h d) c ->
  (forall k buf r g b a, 0 <= k < w * h -> length buf = length c ->
     c !! Z.to_nat (4 * k) = Some r -> c !! Z.to_nat (4 * k + 1) = Some g ->
     c !! Z.to_nat (4 * k + 2) = Some b -> c !! Z.to_nat (4 * k + 3) = Some a ->
     byte r -> byte g -> byte b -> byte a ->
     exists v0 v1 v2 v3,
       body (ImageData.mk w h (length s)) (4 * k) (s ++ [buf])
         = Ret tt (s ++ [buf_set4 buf (4 * k) v0 v1 v2 v3]) /\
       f r g b a = (Num.ToUint8Clamp v0, Num.ToUint8Clamp v1,
                    Num.ToUint8Clamp v2, Num.ToUint8Clamp v3)) ->
  (output ← new_ImageData w h;
   data_length ← buf_length d;
   for_step 0 data_length 4 (fun i => body output i);;
   mret output) s
  = Ret (ImageData.mk w h (length s)) (s ++ [map_pixels f c]).
Proof.
  intros Hb Hbody.
  pose proof Hb as (Hd & Hw & Hh & Hlen & Hbytes & _).
  cbn [ImageData.width ImageData.height ImageData.data] in Hd, Hw, Hh, Hlen.
  rewrite run_bind, run_new_ImageData by done. cbv beta iota.
  rewrite run_bind, (run_buf_length_input s d c Hd). cbv beta iota.
  rewrite run_bind. unfold for_step, for_acc.
  set (val := fun k ch : Z => default 0 (map_pixels f c !! Z.to_nat (4 * k + ch))).
  assert (Hval : forall k ch, 0 <= k < w * h -> 0 <= ch < 4 ->
            exists r g b a,
              c !! Z.to_nat (4 * k) = Some r /\ c !! Z.to_nat (4 * k + 1) = Some g /\
              c !! Z.to_nat (4 * k + 2) = Some b /\ c !! Z.to_nat (4 * k + 3) = Some a /\
              byte r /\ byte g /\ byte b /\ byte a /\
              map_pixels f c !! Z.to_nat (4 * k + ch) = Some (channel (f r g b a) ch)).
  { intros k ch Hk Hch.
    destruct (bitmap_lookup _ _ _ (4 * k) Hb) as (r & Hr & Hrb); [simpl; lia|].
    destruct (bitmap_lookup _ _ _ (4 * k + 1) Hb) as (g & Hg & Hgb); [simpl; lia|].
    destruct (bitmap_lookup _ _ _ (4 * k + 2) Hb) as (b & Hbl & Hbb); [simpl; lia|].
    destruct (bitmap_lookup _ _ _ (4 * k + 3) Hb) as (a & Ha & Hab); [simpl; lia|].
    exists r, g, b, a. do 8 (split; [done|]).
    apply map_pixels_lookup; (done || lia). }
  edestruct (fill_loop s (Z.to_nat (w * h)) 0 0 4
               (fun i => body (ImageData.mk w h (length s)) i) val
               (length c) (replicate (Z.to_nat (w * h * 4)) 0))
    as (out & Hrun & Hlenout & Hfilled).
  - lia.
  - lia.
  - intros k buf Hk Hbuf.
    replace (0 + k * 4) with (4 * k) by lia.
    replace (0 + k) with k by lia.
    destruct (Hval k 0) as (r & g & b & a & Hr & Hg & Hbl & Ha & ? & ? & ? & ? & _);
      [lia..|].
    destruct (Hbody k buf r g b a) as (v0 & v1 & v2 & v3 & Hrunb & Hf);
      [lia|done..|].
    exists v0, v1, v2, v3. split; [exact Hrunb|].
    unfold val.
    rewrite !(map_pixels_lookup f c k _ r g b a) by (done || lia).
    rewrite Hf. done.
  - rewrite length_replicate. lia.
  - intros k ch Hk. lia.
  - replace (Z.to_nat ((Z.of_nat (length c) - 0 + 4 - 1) / 4)) with (Z.to_nat (w * h)).
    2:{ f_equal. rewrite Hlen. replace (w * h * 4 - 0 + 4 - 1) with (3 + (w * h) * 4) by lia.
        rewrite Z.div_add by lia. reflexivity. }
    rewrite Hrun. cbv beta iota. do 3 f_equal.
    rewrite Z.add_0_l, Z2Nat.id in Hfilled by lia.
    eapply filled_eq with (n := w * h); [lia | | exact Hfilled | ].
    + rewrite (length_map_pixels f c (w * h)) by lia. lia.
    + intros k ch Hk Hch. unfold val.
      destruct (Hval k ch Hk Hch) as (r & g & b & a & _ & _ & _ & _ & _ & _ & _ & _ & ->).
      done.
Qed.

Lemma bitmap_output s w h d c out :
  bitmap s (ImageData.mk w h d) c -> Forall byte out -> length out = length c ->
  bitmap (s ++ [out]) (ImageData.mk w h (length s)) out.
Proof.
  intros (_ & Hw & Hh & Hlen & _ & Hsize) Hbytes Hlenout.
  cbn [ImageData.width ImageData.height ImageData.data] in *.
  unfold bitmap. cbn [ImageData.width ImageData.height ImageData.data].
  rewrite lookup_app_r, Nat.sub_diag by lia. repeat split; try done; lia.
Qed.

(** A transform that maps the pixels by [f], run again with a map [g] on
    its own result. *)
Lemma map_pixels_twice s w h d c (m1 m2 : ImageData -> M ImageData) f g :
  bitmap s (ImageData.mk w h d) c ->
  (forall r g0 b a, byte r -> byte g0 -> byte b -> byte a ->
     forall ch, 0 <= ch < 4 -> byte (channel (f r g0 b a) ch)) ->
  (forall r g0 b a, byte r -> byte g0 -> byte b -> byte a ->
     (let '(r', g', b', a') := f r g0 b a in g r' g' b' a') = (r, g0, b, a)) ->
  (forall t img' c', bitmap t img' c' ->
     m1 img' t = Ret (ImageData.mk img'.(ImageData.width) img'.(ImageData.height) (length t))
                     (t ++ [map_pixels f c'])) ->
  (forall t img' c', bitmap t img' c' ->
     m2 img' t = Ret (ImageData.mk img'.(ImageData.width) img'.(ImageData.height) (length t))
                     (t ++ [map_pixels g c'])) ->
  m1 (ImageData.mk w h d) s
    = Ret (ImageData.mk w h (length s)) (s ++ [map_pixels f c]) /\
  m2 (ImageData.mk w h (length s)) (s ++ [map_pixels f c])
    = Ret (ImageData.mk w h (S (length s))) (s ++ [map_pixels f c; c]).
Proof.
  intros Hb Hbytes Hinv H1 H2.
  pose proof Hb as (_ & _ & _ & Hlen & Hc & _).
  cbn [ImageData.width ImageData.height] in Hlen.
  split; [by rewrite (H1 _ _ _ Hb)|].
  assert (Hb' : bitmap (s ++ [map_pixels f c]) (ImageData.mk w h (length s))
                       (map_pixels f c)).
  { apply (bitmap_output s w h d c); [done | by apply map_pixels_bytes |].
    apply (length_map_pixels f c (w * h)). lia. }
  rewrite (H2 _ _ _ Hb'). cbn [ImageData.width ImageData.height].
  rewrite length_app. cbn [length]. rewrite Nat.add_1_r.
  rewrite <- app_assoc. cbn [app]. do 4 f_equal.
  rewrite map_pixels_compose.
  rewrite (map_pixels_ext _ (fun r g0 b a => (r, g0, b, a))) by done.
  apply (map_pixels_id c (w * h)). lia.
Qed.

(** ** bgr-swap *)

(** What [bgr-swap] makes of a pixel. *)
Lemma bgrSwap_pixels s img c p :
  bitmap s img c ->
  let swapMode := js_or (get p "swapMode") (VStr "RGB to BGR") in
  apply bgrSwap img p s =
    Ret (ImageData.mk img.(ImageData.width) img.(ImageData.height) (length s))
        (s ++ [map_pixels (fun r g b a =>
                 if is_str swapMode "RGB to BGR" then (b, g, r, a)
                 else if is_str swapMode "Swap R and G" then (g, r, b, a)
                 else if is_str swapMode "Swap G and B" then (r, b, g, a)
                 else (b, g, r, a)) c]).
Proof.
  intros Hb swapMode. destruct img as [w h d]. pose proof Hb as (Hd & _).
  cbn [ImageData.width ImageData.height ImageData.data] in *.
  cbv [apply bgrSwap]. unfold bgrSwap_apply. fold swapMode. cbv zeta.
  apply run_pixel_loop; [done|].
  intros k buf r g b a Hk Hbuf Hr Hg Hbl Ha Hrb Hgb Hbb Hab.
  destruct (is_str swapMode "RGB to BGR"); [|
  destruct (is_str swapMode "Swap R and G"); [|
  destruct (is_str swapMode "Swap G and B")]];
    (eexists _, _, _, _; split;
     [run_pixel Hd; reflexivity | cbn [ToNumber]; by rewrite !clamp_byte]).
Qed.


(** [bgr-swap] exchanges two colour channels of every pixel and keeps
    alpha -- which two depends on [swapMode]; anything but the three
    modes, a missing value included, acts as 'RGB to BGR' -- so that a
    second application with the same parameters gives the original
    bytes back. *)
Theorem bgrSwap_twice_is_identity s img c p :
  bitmap s img c ->
  let w := img.(ImageData.width) in
  let h := img.(ImageData.height) in
  let swapMode := js_or (get p "swapMode") (VStr "RGB to BGR") in
  let out := map_pixels (fun r g b a =>
               if is_str swapMode "RGB to BGR" then (b, g, r, a)
               else if is_str swapMode "Swap R and G" then (g, r, b, a)
               else if is_str swapMode "Swap G and B" then (r, b, g, a)
               else (b, g, r, a)) c in
  apply bgrSwap img p s = Ret (ImageData.mk w h (length s)) (s ++ [out]) /\
  apply bgrSwap (ImageData.mk w h (length s)) p (s ++ [out])
    = Ret (ImageData.mk w h (S (length s))) (s ++ [out; c]).
Proof.
  intros Hb w h swapMode out. destruct img as [w0 h0 d]. subst w h out.
  cbn [ImageData.width ImageData.height].
  match goal with |- context [map_pixels ?f0 c] => set (f := f0) end.
  apply (map_pixels_twice s w0 h0 d c (fun i => apply bgrSwap i p)
                          (fun i => apply bgrSwap i p) f f); subst f; try done.
  - intros r g b a Hr Hg Hbl Ha ch Hch. unfold channel.
    destruct (is_str swapMode "RGB to BGR"); [|
    destruct (is_str swapMode "Swap R and G"); [|
    destruct (is_str swapMode "Swap G and B")]];
      repeat case_match; done.
  - intros r g b a _ _ _ _.
    destruct (is_str swapMode "RGB to BGR"); [|
    destruct (is_str swapMode "Swap R and G"); [|
    destruct (is_str swapMode "Swap G and B")]]; reflexivity.
  - intros t img' c' Hb'. apply (bgrSwap_pixels t img' c' p Hb').
  - intros t img' c' Hb'. apply (bgrSwap_pixels t img' c' p Hb').
Qed.

(** ** argb-order *)

Lemma argbOrder_pixels s img c p :
  bitmap s img c ->
  let format := js_or (get p "format") (VStr "RGBA as ARGB") in
  apply argbOrder img p s =
    Ret (ImageData.mk img.(ImageData.width) img.(ImageData.height) (length s))
        (s ++ [map_pixels (fun r g b a =>
                 if is_str format "RGBA as ARGB" then (a, r, g, b)
                 else if is_str format "RGBA as ABGR" then (a, b, g, r)
                 else if is_str format "RGBA as BGRA" then (b, g, r, a)
                 else if is_str format "Rotate channels left" then (g, b, a, r)
                 else if is_str format "Rotate channels right" then (a, r, g, b)
                 else (r, g, b, a)) c]).
Proof.
  intros Hb format. destruct img as [w h d]. pose proof Hb as (Hd & _).
  cbn [ImageData.width ImageData.height ImageData.data] in *.
  cbv [apply argbOrder]. unfold argbOrder_apply. fold format. cbv zeta.
  apply run_pixel_loop; [done|].
  intros k buf r g b a Hk Hbuf Hr Hg Hbl Ha Hrb Hgb Hbb Hab.
  destruct (is_str format "RGBA as ARGB"); [|
  destruct (is_str format "RGBA as ABGR"); [|
  destruct (is_str format "RGBA as BGRA"); [|
  destruct (is_str format "Rotate channels left"); [|
  destruct (is_str format "Rotate channels right")]]]];
    (eexists _, _, _, _; split;
     [run_pixel Hd; reflexivity | cbn [ToNumber]; by rewrite !clamp_byte]).
Qed.

(** ** endianness *)

Lemma endianness_pixels s img c p :
  bitmap s img c ->
  let swapMode := js_or (get p "swapMode") (VStr "Swap 32-bit (full reverse)") in
  apply endianness img p s =
    Ret (ImageData.mk img.(ImageData.width) img.(ImageData.height) (length s))
        (s ++ [map_pixels (fun r g b a =>
                 if is_str swapMode "Swap 32-bit (full reverse)" then (a, b, g, r)
                 else if is_str swapMode "Swap 16-bit pairs" then (g, r, a, b)
                 else if is_str swapMode "Swap within 16-bit" then (g, r, b, a)
                 else (r, g, b, a)) c]).
Proof.
  intros Hb swapMode. destruct img as [w h d]. pose proof Hb as (Hd & _).
  cbn [ImageData.width ImageData.height ImageData.data] in *.
  cbv [apply endianness]. unfold endianness_apply. fold swapMode. cbv zeta.
  apply run_pixel_loop; [done|].
  intros k buf r g b a Hk Hbuf Hr Hg Hbl Ha Hrb Hgb Hbb Hab.
  destruct (is_str swapMode "Swap 32-bit (full reverse)"); [|
  destruct (is_str swapMode "Swap 16-bit pairs"); [|
  destruct (is_str swapMode "Swap within 16-bit")]];
    (eexists _, _, _, _; split;
     [run_pixel Hd; reflexivity | cbn [ToNumber]; by rewrite !clamp_byte]).
Qed.

(** Each byte swap of [endianness] -- the full reversal of the four
    bytes of a pixel, the swap of the two bytes of each 16-bit half
    ('Swap 16-bit pairs'), the swap of the first two bytes alone ('Swap
    within 16-bit'), and the plain copy made for any other [swapMode]
    -- undoes itself: a second application with the same parameters
    gives the original bytes back. *)
Theorem endianness_twice_is_identity s img c p :
  bitmap s img c ->
  let w := img.(ImageData.width) in
  let h := img.(ImageData.height) in
  let swapMode := js_or (get p "swapMode") (VStr "Swap 32-bit (full reverse)") in
  let out := map_pixels (fun r g b a =>
               if is_str swapMode "Swap 32-bit (full reverse)" then (a, b, g, r)
               else if is_str swapMode "Swap 16-bit pairs" then (g, r, a, b)
               else if is_str swapMode "Swap within 16-bit" then (g, r, b, a)
               else (r, g, b, a)) c in
  apply endianness img p s = Ret (ImageData.mk w h (length s)) (s ++ [out]) /\
  apply endianness (ImageData.mk w h (length s)) p (s ++ [out])
    = Ret (ImageData.mk w h (S (length s))) (s ++ [out; c]).
Proof.
  intros Hb w h swapMode out. destruct img as [w0 h0 d]. subst w h out.
  cbn [ImageData.width ImageData.height].
  match goal with |- context [map_pixels ?f0 c] => set (f := f0) end.
  apply (map_pixels_twice s w0 h0 d c (fun i => apply endianness i p)
                          (fun i => apply endianness i p) f f); subst f; try done.
  - intros r g b a Hr Hg Hbl Ha ch Hch. unfold channel.
    destruct (is_str swapMode "Swap 32-bit (full reverse)"); [|
    destruct (is_str swapMode "Swap 16-bit pairs"); [|
    destruct (is_str swapMode "Swap within 16-bit")]];
      repeat case_match; done.
  - intros r g b a _ _ _ _.
    destruct (is_str swapMode "Swap 32-bit (full reverse)"); [|
    destruct (is_str swapMode "Swap 16-bit pairs"); [|
    destruct (is_str swapMode "Swap within 16-bit")]]; reflexivity.
  - intros t img' c' Hb'. apply (endianness_pixels t img' c' p Hb').
  - intros t img' c' Hb'. apply (endianness_pixels t img' c' p Hb').
Qed.


(** ** signed-unsigned *)

(** What 'Unsigned as Signed' computes on a byte: the byte with its top
    bit flipped. *)
Lemma unsigned_as_signed_byte z :
  byte z ->
  Num.ToUint8Clamp
    (Num.max 0
       (Num.min 255
          (((if ((if z >? 127 then z - 256 else z) <? 0)%js
             then (256 + (if z >? 127 then z - 256 else z))%js
             else if (z >? 127)%js then (z - 256)%js else z) + 128)
           mod 256)%js))
  = (z + 128) mod 256.
Proof.
  intros Hz. apply Z.eqb_eq.
  apply (byte_cases (fun z =>
    Num.ToUint8Clamp
      (Num.max 0
         (Num.min 255
            (((if ((if z >? 127 then z - 256 else z) <? 0)%js
               then (256 + (if z >? 127 then z - 256 else z))%js
               else if (z >? 127)%js then (z - 256)%js else z) + 128)
             mod 256)%js))
    =? (z + 128) mod 256)); [|done].
  vm_compute. reflexivity.
Qed.

Lemma signedUnsigned_pixels s img c p :
  bitmap s img c ->
  js_or (get p "mode") (VStr "Unsigned as Signed (bright becomes dark)")
    = VStr "Unsigned as Signed (bright becomes dark)" ->
  apply signedUnsigned img p s =
    Ret (ImageData.mk img.(ImageData.width) img.(ImageData.height) (length s))
        (s ++ [map_pixels (fun r g b a =>
                 ((r + 128) mod 256, (g + 128) mod 256, (b + 128) mod 256, a)) c]).
Proof.
  intros Hb Hmode. destruct img as [w h d]. pose proof Hb as (Hd & _).
  cbn [ImageData.width ImageData.height ImageData.data] in *.
  cbv [apply signedUnsigned]. unfold signedUnsigned_apply. rewrite Hmode.
  cbn [String.eqb Ascii.eqb Bool.eqb is_str]. cbv zeta.
  apply run_pixel_loop; [done|].
  intros k buf r g b a Hk Hbuf Hr Hg Hbl Ha Hrb Hgb Hbb Hab.
  eexists _, _, _, _; split.
  - run_pixel Hd. reflexivity.
  - cbn [ToNumber]. by rewrite !unsigned_as_signed_byte, clamp_byte.
Qed.

(** In its default mode 'Unsigned as Signed', [signed-unsigned] replaces
    every colour byte [v] by [(v + 128) mod 256] and keeps alpha; a
    second application gives the original bytes back. *)
Theorem signedUnsigned_twice_is_identity s img c p :
  bitmap s img c ->
  js_or (get p "mode") (VStr "Unsigned as Signed (bright becomes dark)")
    = VStr "Unsigned as Signed (bright becomes dark)" ->
  let w := img.(ImageData.width) in
  let h := img.(ImageData.height) in
  let out := map_pixels (fun r g b a =>
               ((r + 128) mod 256, (g + 128) mod 256, (b + 128) mod 256, a)) c in
  apply signedUnsigned img p s = Ret (ImageData.mk w h (length s)) (s ++ [out]) /\
  apply signedUnsigned (ImageData.mk w h (length s)) p (s ++ [out])
    = Ret (ImageData.mk w h (S (length s))) (s ++ [out; c]).
Proof.
  intros Hb Hmode w h out. destruct img as [w0 h0 d]. subst w h out.
  cbn [ImageData.width ImageData.height].
  match goal with |- context [map_pixels ?f0 c] => set (f := f0) end.
  apply (map_pixels_twice s w0 h0 d c (fun i => apply signedUnsigned i p)
                          (fun i => apply signedUnsigned i p) f f); subst f; try done.
  - intros r g b a Hr Hg Hbl Ha ch Hch. unfold channel, byte in *.
    pose proof (Z.mod_pos_bound (r + 128) 256).
    pose proof (Z.mod_pos_bound (g + 128) 256).
    pose proof (Z.mod_pos_bound (b + 128) 256).
    repeat case_match; lia.
  - intros r g b a Hr Hg Hbl _.
    assert (E : forall z, byte z -> ((z + 128) mod 256 + 128) mod 256 = z)
      by (intros z [? ?]; Z.div_mod_to_equations; lia).
    cbv beta iota. by rewrite !E.
  - intros t img' c' Hb'. by apply signedUnsigned_pixels.
  - intros t img' c' Hb'. by apply signedUnsigned_pixels.
Qed.


(** ** argb-order, continued *)

Lemma get_format (p : GlitchParams) v : get (<["format" := v]> p) "format" = v.
Proof. unfold get. by rewrite lookup_insert_eq. Qed.

(** Every byte order that [argb-order] simulates is undone by [argb-order]
    itself: 'RGBA as ARGB' and 'Rotate channels right' (which are the same
    permutation) by 'Rotate channels left' and the other way round,
    'RGBA as ABGR' and 'RGBA as BGRA' each by itself. *)
Theorem argbOrder_formats_invert s img c p fmt inv :
  bitmap s img c ->
  (fmt, inv) ∈ [("RGBA as ARGB", "Rotate channels left");
                ("RGBA as ABGR", "RGBA as ABGR");
                ("RGBA as BGRA", "RGBA as BGRA");
                ("Rotate channels left", "Rotate channels right");
                ("Rotate channels left", "RGBA as ARGB");
                ("Rotate channels right", "Rotate channels left")] ->
  let w := img.(ImageData.width) in
  let h := img.(ImageData.height) in
  exists out,
    apply argbOrder img (<["format" := VStr fmt]> p) s
      = Ret (ImageData.mk w h (length s)) (s ++ [out]) /\
    apply argbOrder (ImageData.mk w h (length s)) (<["format" := VStr inv]> p)
          (s ++ [out])
      = Ret (ImageData.mk w h (S (length s))) (s ++ [out; c]).
Proof.
  intros Hb Hin w h. destruct img as [w0 h0 d]. subst w h.
  cbn [ImageData.width ImageData.height].
  repeat (apply elem_of_cons in Hin as [Hin|Hin]; [injection Hin as -> ->|]);
    [..|by apply elem_of_nil in Hin];
  eexists;
  (eapply (map_pixels_twice s w0 h0 d c
            (fun i => apply argbOrder i (<["format" := VStr _]> p))
            (fun i => apply argbOrder i (<["format" := VStr _]> p)));
   [ done
   | shelve
   | shelve
   | intros t img' c' Hb'; rewrite (argbOrder_pixels t img' c' _ Hb');
     rewrite get_format; reflexivity
   | intros t img' c' Hb'; rewrite (argbOrder_pixels t img' c' _ Hb');
     rewrite get_format; reflexivity ]).
  Unshelve.
  all: cbv beta iota;
    cbn [js_or truthy negb String.eqb Ascii.eqb Bool.eqb is_str].
  all: try (intros r g b a Hr Hg Hbl Ha ch Hch; unfold channel;
            repeat case_match; done).
  all: intros r g b a _ _ _ _; reflexivity.
Qed.


(** ** bit-depth: 'Bit truncation' *)

(** [v & ((0xFF << (8 - bits)) & 0xFF)] clears the low [8 - bits] bits. *)
Lemma bit_truncation_byte n z :
  1 <= n <= 8 -> byte z ->
  Num.ToUint8Clamp
    (Num.band (Num.of_Z z) (Num.band (Num.shl 255 (8 - Num.of_Z n)%js) 255))
  = z - z mod 2 ^ (8 - n).
Proof.
  intros Hn [Hlo Hhi].
  assert (Hall : forallb (fun n => forallb (fun z =>
            Num.ToUint8Clamp
              (Num.band (Num.of_Z z) (Num.band (Num.shl 255 (8 - Num.of_Z n)%js) 255))
            =? z - z mod 2 ^ (8 - n)) (seqZ 0 256)) (seqZ 1 8) = true)
    by (vm_compute; reflexivity).
  rewrite forallb_forall in Hall. specialize (Hall n).
  rewrite forallb_forall in Hall.
  apply Z.eqb_eq, Hall; apply list_elem_of_In, elem_of_seqZ; lia.
Qed.

Lemma bitDepth_truncation_pixels s img c p n :
  bitmap s img c ->
  get p "mode" = VStr "Bit truncation" ->
  get p "bits" = VNum (Num.of_Z n) -> 1 <= n <= 8 ->
  apply bitDepth img p s =
    Ret (ImageData.mk img.(ImageData.width) img.(ImageData.height) (length s))
        (s ++ [map_pixels (fun r g b a =>
                 (r - r mod 2 ^ (8 - n), g - g mod 2 ^ (8 - n),
                  b - b mod 2 ^ (8 - n), a)) c]).
Proof.
  intros Hb Hmode Hbits Hn. destruct img as [w h d]. pose proof Hb as (Hd & _).
  cbn [ImageData.width ImageData.height ImageData.data] in *.
  cbv [apply bitDepth]. unfold bitDepth_apply. rewrite Hmode, Hbits.
  assert (Hor : js_or (VNum (Num.of_Z n)) (VNum 3) = VNum (Num.of_Z n)).
  { assert (n = 1 \/ n = 2 \/ n = 3 \/ n = 4 \/ n = 5 \/ n = 6 \/ n = 7 \/ n = 8)
      as [-> | [-> | [-> | [-> | [-> | [-> | [-> | ->]]]]]]] by lia; reflexivity. }
  rewrite Hor.
  cbn [js_or truthy negb String.eqb Ascii.eqb Bool.eqb is_str ToNumber]. cbv zeta.
  apply run_pixel_loop; [done|].
  intros k buf r g b a Hk Hbuf Hr Hg Hbl Ha Hrb Hgb Hbb Hab.
  eexists _, _, _, _; split.
  - run_pixel Hd. reflexivity.
  - cbn [ToNumber]. by rewrite !bit_truncation_byte, clamp_byte.
Qed.


(** A transform that maps the pixels by [f], run again on its result. *)
Lemma map_pixels_again s w h d c (m : ImageData -> M ImageData) f :
  bitmap s (ImageData.mk w h d) c ->
  (forall r g0 b a, byte r -> byte g0 -> byte b -> byte a ->
     forall ch, 0 <= ch < 4 -> byte (channel (f r g0 b a) ch)) ->
  (forall t img' c', bitmap t img' c' ->
     m img' t = Ret (ImageData.mk img'.(ImageData.width) img'.(ImageData.height) (length t))
                    (t ++ [map_pixels f c'])) ->
  m (ImageData.mk w h d) s
    = Ret (ImageData.mk w h (length s)) (s ++ [map_pixels f c]) /\
  m (ImageData.mk w h (length s)) (s ++ [map_pixels f c])
    = Ret (ImageData.mk w h (S (length s)))
          (s ++ [map_pixels f c; map_pixels f (map_pixels f c)]).
Proof.
  intros Hb Hbytes Hm.
  pose proof Hb as (_ & _ & _ & Hlen & Hc & _).
  cbn [ImageData.width ImageData.height] in Hlen.
  split; [by rewrite (Hm _ _ _ Hb)|].
  assert (Hb' : bitmap (s ++ [map_pixels f c]) (ImageData.mk w h (length s))
                       (map_pixels f c)).
  { apply (bitmap_output s w h d c); [done | by apply map_pixels_bytes |].
    apply (length_map_pixels f c (w * h)). lia. }
  rewrite (Hm _ _ _ Hb'). cbn [ImageData.width ImageData.height].
  rewrite length_app. cbn [length]. rewrite Nat.add_1_r.
  rewrite <- app_assoc. reflexivity.
Qed.

(** 'Bit truncation' with [bits] = n clears the low [8 - n] bits of every
    colour byte and keeps alpha; truncating again changes nothing. *)
Theorem bitDepth_truncation_idempotent s img c p n :
  bitmap s img c ->
  get p "mode" = VStr "Bit truncation" ->
  get p "bits" = VNum (Num.of_Z n) -> 1 <= n <= 8 ->
  let w := img.(ImageData.width) in
  let h := img.(ImageData.height) in
  let out := map_pixels (fun r g b a =>
               (r - r mod 2 ^ (8 - n), g - g mod 2 ^ (8 - n),
                b - b mod 2 ^ (8 - n), a)) c in
  apply bitDepth img p s = Ret (ImageData.mk w h (length s)) (s ++ [out]) /\
  apply bitDepth (ImageData.mk w h (length s)) p (s ++ [out])
    = Ret (ImageData.mk w h (S (length s))) (s ++ [out; out]).
Proof.
  intros Hb Hmode Hbits Hn w h out. destruct img as [w0 h0 d]. subst w h.
  cbn [ImageData.width ImageData.height].
  assert (Hpow : 0 < 2 ^ (8 - n)) by (apply Z.pow_pos_nonneg; lia).
  assert (Hidem : map_pixels (fun r g b a =>
               (r - r mod 2 ^ (8 - n), g - g mod 2 ^ (8 - n),
                b - b mod 2 ^ (8 - n), a)) out = out).
  { subst out. rewrite map_pixels_compose.
    apply map_pixels_ext; [by destruct Hb as (_ & _ & _ & _ & ? & _)|].
    intros r g b a _ _ _ _. cbv beta iota.
    assert (E : forall z, z - z mod 2 ^ (8 - n)
                          - (z - z mod 2 ^ (8 - n)) mod 2 ^ (8 - n)
                          = z - z mod 2 ^ (8 - n)).
    { intros z. rewrite (Z.div_mod z (2 ^ (8 - n))) at 3 by lia.
      replace (2 ^ (8 - n) * (z / 2 ^ (8 - n)) + z mod 2 ^ (8 - n) - z mod 2 ^ (8 - n))
        with (z / 2 ^ (8 - n) * 2 ^ (8 - n)) by lia.
      rewrite Z.mod_mul by lia. lia. }
    by rewrite !E. }
  rewrite <- Hidem at 4.
  apply (map_pixels_again s w0 h0 d c (fun i => apply bitDepth i p)); [done| |].
  - intros r g b a Hr Hg Hbl Ha ch Hch. unfold channel, byte in *.
    pose proof (Z.mod_pos_bound r (2 ^ (8 - n)) Hpow).
    pose proof (Z.mod_pos_bound g (2 ^ (8 - n)) Hpow).
    pose proof (Z.mod_pos_bound b (2 ^ (8 - n)) Hpow).
    pose proof (Z.mod_le r (2 ^ (8 - n)) ltac:(lia) Hpow).
    pose proof (Z.mod_le g (2 ^ (8 - n)) ltac:(lia) Hpow).
    pose proof (Z.mod_le b (2 ^ (8 - n)) ltac:(lia) Hpow).
    repeat case_match; lia.
  - intros t img' c' Hb'. by apply bitDepth_truncation_pixels.
Qed.

End PixelTransforms.

(* ===================================================================== *)
(** * The components: previews and the sandbox *)
(* ===================================================================== *)

Lemma defaultParams_fresh (schema : list ParamDefinition) :
  forall (m : GlitchParams) k,
  k ∉ Param.name <$> schema ->
  foldl (fun m d => <[d.(Param.name) := d.(Param.default)]> m) m schema !! k = m !! k.
Proof.
  induction schema as [|d l IH]; intros m k Hk; simpl; [done|].
  rewrite fmap_cons, not_elem_of_cons in Hk. destruct Hk as [Hne Hk].
  rewrite IH by done. by rewrite lookup_insert_ne.
Qed.

Lemma defaultParams_lookup (schema : list ParamDefinition) d :
  NoDup (Param.name <$> schema) -> d ∈ schema ->
  defaultParams schema !! d.(Param.name) = Some d.(Param.default).
Proof.
  unfold defaultParams. generalize (∅ : GlitchParams).
  induction schema as [|d' l IH]; intros m Hnd Hd; simpl.
  - by apply elem_of_nil in Hd.
  - rewrite fmap_cons, NoDup_cons in Hnd. destruct Hnd as [Hfresh Hnd].
    apply elem_of_cons in Hd as [->|Hd].
    + rewrite defaultParams_fresh by done. by rewrite lookup_insert_eq.
    + by apply IH.
Qed.

Lemma conforms_defaultParams schema :
  sound_schema schema -> conforms schema (defaultParams schema).
Proof.
  intros [Hnd Hadm] d v Hd Hv.
  rewrite defaultParams_lookup in Hv by done. injection Hv as <-.
  by eapply Forall_forall in Hadm.
Qed.

Lemma conforms_insert schema p d v :
  NoDup (Param.name <$> schema) -> conforms schema p ->
  d ∈ schema -> admits d v ->
  conforms schema (<[d.(Param.name) := v]> p).
Proof.
  intros Hnd Hc Hd Hv d' v' Hd' Hlook.
  destruct (decide (d'.(Param.name) = d.(Param.name))) as [E|Hne].
  - rewrite E, lookup_insert_eq in Hlook. injection Hlook as <-.
    assert (d' = d) as ->; [|done].
    apply list_elem_of_lookup in Hd as [i Hi]. apply list_elem_of_lookup in Hd' as [j Hj].
    assert (i = j) as ->; [|congruence].
    eapply NoDup_lookup; [exact Hnd| |]; rewrite list_lookup_fmap.
    + by rewrite Hi.
    + rewrite Hj. simpl. by rewrite E.
  - rewrite lookup_insert_ne in Hlook by done. by apply (Hc d').
Qed.

Section Components.
Context {rt : JSRuntime}.

Ltac default_is_legal :=
  unfold admits;
  cbn [Param.type Param.default Param.min Param.max Param.options
       Param.Range Param.Select Param.Boolean];
  first
    [ exact I
    | split; [vm_compute; reflexivity|];
      split; intros ? [= <-]; vm_compute; reflexivity
    | solve [repeat constructor] ].

Lemma schemas_sound g : g ∈ glitches -> sound_schema g.(params).
Proof.
  intros Hg. unfold glitches in Hg.
  repeat (apply elem_of_cons in Hg as [->|Hg]);
    [..|by apply elem_of_nil in Hg];
    (split;
     [ refine (bool_decide_unpack _ _); vm_compute; exact I
     | repeat (constructor; [default_is_legal|]); constructor ]).
Qed.

Lemma glitchById_member i g : glitchById !! i = Some g -> g ∈ glitches /\ g.(id) = i.
Proof.
  unfold glitchById.
  assert (H : forall (l : list GlitchDefinition) (m : gmap string GlitchDefinition),
            foldl (fun m g => <[g.(id) := g]> m) m l !! i = Some g ->
            (g ∈ l /\ g.(id) = i) \/ m !! i = Some g).
  { induction l as [|g' l IH]; intros m Hl; simpl in Hl; [by right|].
    destruct (IH _ Hl) as [[Hin Hid]|Hm].
    - left. split; [by apply elem_of_cons; right|done].
    - destruct (decide (g'.(id) = i)) as [E|Hne].
      + rewrite E, lookup_insert_eq in Hm. injection Hm as ->.
        left. split; [by apply elem_of_cons; left|done].
      + rewrite lookup_insert_ne in Hm by done. by right. }
  intros Hl. destruct (H _ _ Hl) as [?|Hm]; [done|].
  by rewrite lookup_empty in Hm.
Qed.

(** [apply] with parameters that conform returns a bitmap of the shape
    of the input. *)
Lemma apply_conforming g s img c p :
  g ∈ glitches -> bitmap s img c -> conforms g.(params) p ->
  exists out s', apply g img p s = Ret out s' /\ same_shape s' img out.
Proof.
  intros Hg Hb Hc. pose proof Hb as (_ & Hw & Hh & _ & _ & Hsize).
  destruct img as [w h d]. cbn [ImageData.width ImageData.height] in *.
  destruct (apply_returns g w h d p Hg Hw Hh Hsize Hc s)
    as (out & s' & Hrun & _ & _).
  exists out, s'. split; [done|]. by apply (apply_shape g s _ c p).
Qed.

(** The preview of a card never shows the error state: for every
    transform of the catalog and every well-formed bitmap, [apply] with
    the default parameters that [renderPreview] builds returns, and the
    bitmap it returns has the shape of the input. *)
Theorem renderPreview_shows_a_bitmap g s img c :
  g ∈ glitches -> bitmap s img c ->
  conforms g.(params) (defaultParams g.(params)) /\
  exists out s', renderPreview g img s = Ret (Some out) s' /\ same_shape s' img out.
Proof.
  intros Hg Hb.
  assert (Hc : conforms g.(params) (defaultParams g.(params)))
    by (by apply conforms_defaultParams, schemas_sound).
  split; [done|].
  destruct (apply_conforming g s img c _ Hg Hb Hc) as (out & s' & Hrun & Hshape).
  exists out, s'. unfold renderPreview. by rewrite Hrun.
Qed.

(** Choosing a transform in the sandbox: an id of the catalog selects
    the transform registered under it, resets the parameters to the
    schema defaults and shows the transformed image, of the shape of
    the original; an unknown id selects nothing and leaves the shown
    image; the empty entry deselects and shows the original. *)
Theorem selectGlitch_resets_and_applies this glitchId s img c :
  this.(Sandbox.originalImageData) = Some img -> bitmap s img c ->
  if decide (glitchId = "") then
    selectGlitch this glitchId s =
      Ret (Sandbox.mk (Some img) None None this.(Sandbox.currentParams)) s
  else
    match glitchById !! glitchId with
    | Some g =>
        g.(id) = glitchId /\
        exists out s',
          selectGlitch this glitchId s =
            Ret (Sandbox.mk (Some img) (Some out) (Some g)
                            (defaultParams g.(params))) s' /\
          same_shape s' img out
    | None =>
        selectGlitch this glitchId s =
          Ret (Sandbox.mk (Some img) this.(Sandbox.processedImageData) None
                          this.(Sandbox.currentParams)) s
    end.
Proof.
  intros Himg Hb. unfold selectGlitch, resetParams, applyGlitch, showOriginal.
  cbn [truthy].
  destruct (decide (glitchId = "")) as [->|Hne].
  { cbn [String.eqb negb
         Sandbox.originalImageData Sandbox.processedImageData
         Sandbox.currentGlitch Sandbox.currentParams].
    rewrite Himg. reflexivity. }
  assert ((glitchId =? "")%string = false) as -> by (by apply String.eqb_neq).
  cbn [negb Sandbox.originalImageData Sandbox.processedImageData
       Sandbox.currentGlitch Sandbox.currentParams].
  destruct (glitchById !! glitchId) as [g|] eqn:E.
  - apply glitchById_member in E as [Hg Hid]. split; [done|].
    cbn [Sandbox.originalImageData Sandbox.processedImageData
         Sandbox.currentGlitch Sandbox.currentParams].
    rewrite Himg.
    destruct (apply_conforming g s img c (defaultParams g.(params)) Hg Hb)
      as (out & s' & Hrun & Hshape);
      [by apply conforms_defaultParams, schemas_sound|].
    exists out, s'. by rewrite Hrun.
  - cbn [Sandbox.originalImageData Sandbox.processedImageData
         Sandbox.currentGlitch Sandbox.currentParams].
    rewrite Himg. reflexivity.
Qed.

(** Moving a control of the sandbox: when the parameters conform to the
    schema of the selected transform and the new value is one the
    control's schema entry admits, the parameters with the new value
    conform again, and the transformed image is shown, of the shape of
    the original -- the [catch] branch is not taken. *)
Theorem handleParamChange_keeps_conforming this g param value s img c :
  this.(Sandbox.originalImageData) = Some img -> bitmap s img c ->
  this.(Sandbox.currentGlitch) = Some g -> g ∈ glitches ->
  conforms g.(params) this.(Sandbox.currentParams) ->
  param ∈ g.(params) -> admits param value ->
  let params' := <[param.(Param.name) := value]> this.(Sandbox.currentParams) in
  conforms g.(params) params' /\
  exists out s',
    handleParamChange this param value s =
      Ret (Sandbox.mk (Some img) (Some out) (Some g) params') s' /\
    same_shape s' img out.
Proof.
  intros Himg Hb Hcur Hg Hc Hparam Hv params'.
  assert (Hc' : conforms g.(params) params').
  { apply conforms_insert; try done. by apply schemas_sound. }
  split; [done|].
  destruct (apply_conforming g s img c params' Hg Hb Hc') as (out & s' & Hrun & Hshape).
  exists out, s'. split; [|done].
  unfold handleParamChange, applyGlitch.
  cbn [Sandbox.originalImageData Sandbox.processedImageData
       Sandbox.currentGlitch Sandbox.currentParams].
  rewrite Himg, Hcur. fold params'. by rewrite Hrun.
Qed.

End Components.

(* ===================================================================== *)
(** * Transforms that move pixels *)
(* ===================================================================== *)

Lemma flat_map_length4 {A B} (F : A -> list B) (l : list A) :
  (forall a, a ∈ l -> length (F a) = 4%nat) ->
  length (flat_map F l) = (4 * length l)%nat.
Proof.
  induction l as [|a l IH]; intros HF; [done|].
  cbn [flat_map length]. rewrite length_app, HF, IH; [lia | | by left].
  intros a' Ha'. apply HF. by right.
Qed.

Lemma flat_map_lookup4 {A B} (F : A -> list B) (l : list A) :
  (forall a, a ∈ l -> length (F a) = 4%nat) ->
  forall i j a, l !! i = Some a -> (j < 4)%nat ->
  flat_map F l !! (4 * i + j)%nat = F a !! j.
Proof.
  induction l as [|a0 l IH]; intros HF i j a Hi Hj; [done|].
  cbn [flat_map]. destruct i as [|i].
  - injection Hi as ->. rewrite lookup_app_l; [done|].
    rewrite HF; [lia|by left].
  - cbn in Hi. rewrite lookup_app_r; rewrite HF by (by left); [|lia].
    replace (4 * S i + j - 4)%nat with (4 * i + j)%nat by lia.
    apply IH; [|done..]. intros a' Ha'. apply HF. by right.
Qed.

Lemma length_pixel w c x y :
  0 <= (y * w + x) * 4 -> (y * w + x) * 4 + 4 <= Z.of_nat (length c) ->
  length (pixel w c x y) = 4%nat.
Proof. intros H0 H4. unfold pixel. rewrite length_take, length_drop. lia. Qed.

Lemma lookup_pixel w c x y j :
  0 <= (y * w + x) * 4 -> (j < 4)%nat ->
  pixel w c x y !! j = c !! (Z.to_nat ((y * w + x) * 4) + j)%nat.
Proof.
  intros H0 Hj. unfold pixel. rewrite lookup_take_lt by lia. by rewrite lookup_drop.
Qed.

Lemma pixel_index w h k :
  0 < w -> 0 < h -> 0 <= k < w * h -> 0 <= k mod w < w /\ 0 <= k / w < h.
Proof.
  intros Hw Hh Hk. split; [apply Z.mod_pos_bound; lia|].
  split; [apply Z.div_pos; lia|]. apply Z.div_lt_upper_bound; lia.
Qed.

Section Gather.
Variables (w h : Z) (src : Z -> Z -> Z * Z) (c : list Z).
Hypothesis Hw : 0 < w.
Hypothesis Hh : 0 < h.
Hypothesis Hlen : Z.of_nat (length c) = w * h * 4.
Hypothesis Hsrc : forall x y, 0 <= x < w -> 0 <= y < h ->
  0 <= fst (src x y) < w /\ 0 <= snd (src x y) < h.

Lemma gather_chunk k :
  k ∈ seqZ 0 (w * h) ->
  length (let '(sx, sy) := src (k mod w) (k / w) in pixel w c sx sy) = 4%nat.
Proof.
  intros Hk%elem_of_seqZ. destruct (pixel_index w h k) as [Hx Hy]; [done|done|lia|].
  pose proof (Hsrc _ _ Hx Hy) as [Hsx Hsy].
  destruct (src (k mod w) (k / w)) as [sx sy]. cbn [fst snd] in *.
  apply length_pixel; nia.
Qed.

Lemma length_gather : Z.of_nat (length (gather w h src c)) = w * h * 4.
Proof.
  unfold gather. rewrite flat_map_length4 by apply gather_chunk.
  rewrite length_seqZ. nia.
Qed.

Lemma gather_lookup k ch :
  0 <= k < w * h -> 0 <= ch < 4 ->
  gather w h src c !! Z.to_nat (4 * k + ch)
  = c !! Z.to_nat (4 * (snd (src (k mod w) (k / w)) * w
                        + fst (src (k mod w) (k / w))) + ch).
Proof.
  intros Hk Hch. unfold gather.
  replace (Z.to_nat (4 * k + ch)) with (4 * Z.to_nat k + Z.to_nat ch)%nat by lia.
  rewrite (flat_map_lookup4 _ _ gather_chunk (Z.to_nat k) (Z.to_nat ch) k);
    [| |lia].
  2:{ rewrite lookup_seqZ. split; [lia|]. lia. }
  destruct (pixel_index w h k) as [Hx Hy]; [done|done|lia|].
  pose proof (Hsrc _ _ Hx Hy) as [Hsx Hsy].
  destruct (src (k mod w) (k / w)) as [sx sy]. cbn [fst snd] in *.
  rewrite lookup_pixel by (lia || nia). f_equal. nia.
Qed.

Lemma gather_bytes : Forall byte c -> Forall byte (gather w h src c).
Proof.
  intros Hc. apply Forall_lookup_2. intros i z Hi.
  pose proof (lookup_lt_Some _ _ _ Hi) as Hlt.
  pose proof length_gather as Hlg.
  assert (Hdm := Z.div_mod (Z.of_nat i) 4 ltac:(lia)).
  assert (Hm := Z.mod_pos_bound (Z.of_nat i) 4 ltac:(lia)).
  assert (Hrange : 0 <= Z.of_nat i / 4 < w * h).
  { split; [apply Z.div_pos; lia|]. apply Z.div_lt_upper_bound; lia. }
  replace i with (Z.to_nat (4 * (Z.of_nat i / 4) + Z.of_nat i mod 4)) in Hi by lia.
  rewrite gather_lookup in Hi by done.
  by eapply Forall_lookup_1.
Qed.

End Gather.

Lemma buffers_eq (a b : list Z) n :
  Z.of_nat (length a) = n * 4 -> Z.of_nat (length b) = n * 4 ->
  (forall k ch, 0 <= k < n -> 0 <= ch < 4 ->
     a !! Z.to_nat (4 * k + ch) = b !! Z.to_nat (4 * k + ch)) ->
  a = b.
Proof.
  intros Ha Hb Hab. apply list_eq. intros i.
  destruct (decide (i < length a)%nat) as [Hlt|Hge].
  - assert (Hdm := Z.div_mod (Z.of_nat i) 4 ltac:(lia)).
    assert (Hm := Z.mod_pos_bound (Z.of_nat i) 4 ltac:(lia)).
    assert (Hrange : 0 <= Z.of_nat i / 4 < n).
    { split; [apply Z.div_pos; lia|]. apply Z.div_lt_upper_bound; lia. }
    specialize (Hab (Z.of_nat i / 4) (Z.of_nat i mod 4) Hrange Hm).
    by rewrite <- Hdm, Nat2Z.id in Hab.
  - rewrite !lookup_ge_None_2 by lia. done.
Qed.

Lemma gather_ext w h f g c :
  0 < w -> 0 < h ->
  (forall x y, 0 <= x < w -> 0 <= y < h -> f x y = g x y) ->
  gather w h f c = gather w h g c.
Proof.
  intros Hw Hh Hfg. unfold gather.
  assert (H : forall l, Forall (fun k => 0 <= k < w * h) l ->
            flat_map (fun k => let '(sx, sy) := f (k mod w) (k / w) in pixel w c sx sy) l
            = flat_map (fun k => let '(sx, sy) := g (k mod w) (k / w) in pixel w c sx sy) l).
  { induction l as [|k l IH]; intros Hl; [done|].
    apply Forall_cons in Hl as [Hk Hl]. cbn [flat_map].
    destruct (pixel_index w h k Hw Hh Hk) as [Hx Hy].
    by rewrite Hfg, IH. }
  apply H. apply Forall_forall. intros k Hk%elem_of_seqZ. lia.
Qed.

Lemma gather_id w h c :
  0 < w -> 0 < h -> Z.of_nat (length c) = w * h * 4 ->
  gather w h (fun x y => (x, y)) c = c.
Proof.
  intros Hw Hh Hlen.
  apply (buffers_eq _ _ (w * h)); [by apply length_gather|done|].
  intros k ch Hk Hch. rewrite gather_lookup by done. cbn [fst snd].
  do 2 f_equal. pose proof (Z.div_mod k w ltac:(lia)). lia.
Qed.

Lemma gather_gather w h f g c :
  0 < w -> 0 < h -> Z.of_nat (length c) = w * h * 4 ->
  (forall x y, 0 <= x < w -> 0 <= y < h ->
     0 <= fst (f x y) < w /\ 0 <= snd (f x y) < h) ->
  (forall x y, 0 <= x < w -> 0 <= y < h ->
     0 <= fst (g x y) < w /\ 0 <= snd (g x y) < h) ->
  gather w h g (gather w h f c)
  = gather w h (fun x y => f (fst (g x y)) (snd (g x y))) c.
Proof.
  intros Hw Hh Hlen Hf Hg.
  assert (Hfg : forall x y, 0 <= x < w -> 0 <= y < h ->
            0 <= fst (f (fst (g x y)) (snd (g x y))) < w /\
            0 <= snd (f (fst (g x y)) (snd (g x y))) < h).
  { intros x y Hx Hy. destruct (Hg x y Hx Hy). by apply Hf. }
  pose proof (length_gather w h f c Hw Hh Hlen Hf) as Hlf.
  apply (buffers_eq _ _ (w * h)); [by apply length_gather..|].
  intros k ch Hk Hch.
  destruct (pixel_index w h k Hw Hh Hk) as [Hx Hy].
  destruct (Hg _ _ Hx Hy) as [Hgx Hgy].
  rewrite (gather_lookup w h g _ Hw Hh Hlf Hg k ch Hk Hch).
  rewrite (gather_lookup w h _ c Hw Hh Hlen Hfg k ch Hk Hch).
  set (gx := fst (g (k mod w) (k / w))) in *.
  set (gy := snd (g (k mod w) (k / w))) in *.
  rewrite (gather_lookup w h f c Hw Hh Hlen Hf (gy * w + gx) ch) by (done || nia).
  replace ((gy * w + gx) mod w) with gx.
  2:{ rewrite Z.add_comm, Z.mod_add, Z.mod_small; lia. }
  replace ((gy * w + gx) / w) with gy.
  2:{ rewrite Z.add_comm, Z.div_add, Z.div_small; lia. }
  reflexivity.
Qed.

Section MovingPixels.
Context {rt : JSRuntime}.

(** The loops over [y] and [x] of a transform whose round [(x, y)]
    stores, at pixel [(x, y)] of the output, the pixel of the input at
    [src x y]. *)
Lemma run_gather_loop s w h d c (body : ImageData -> Z -> Z -> M unit) src :
  bitmap s (ImageData.mk w h d) c ->
  (forall x y, 0 <= x < w -> 0 <= y < h ->
     0 <= fst (src x y) < w /\ 0 <= snd (src x y) < h) ->
  (forall x y buf v0 v1 v2 v3, 0 <= x < w -> 0 <= y < h ->
     length buf = length c ->
     let i := 4 * (snd (src x y) * w + fst (src x y)) in
     c !! Z.to_nat i = Some v0 -> c !! Z.to_nat (i + 1) = Some v1 ->
     c !! Z.to_nat (i + 2) = Some v2 -> c !! Z.to_nat (i + 3) = Some v3 ->
     byte v0 -> byte v1 -> byte v2 -> byte v3 ->
     exists n0 n1 n2 n3,
       body (ImageData.mk w h (length s)) y x (s ++ [buf])
         = Ret tt (s ++ [buf_set4 buf (4 * (y * w + x)) n0 n1 n2 n3]) /\
       Num.ToUint8Clamp n0 = v0 /\ Num.ToUint8Clamp n1 = v1 /\
       Num.ToUint8Clamp n2 = v2 /\ Num.ToUint8Clamp n3 = v3) ->
  (output ← new_ImageData w h;
   for_ 0 h (fun y => for_ 0 w (fun x => body output y x));;
   mret output) s
  = Ret (ImageData.mk w h (length s)) (s ++ [gather w h src c]).
Proof.
  intros Hb Hsrc Hbody.
  pose proof Hb as (Hd & Hw & Hh & Hlen & Hbytes & _).
  cbn [ImageData.width ImageData.height ImageData.data] in Hd, Hw, Hh, Hlen.
  rewrite run_bind, run_new_ImageData by done. cbv beta iota.
  rewrite run_bind.
  set (val := fun k ch : Z => default 0 (gather w h src c !! Z.to_nat (4 * k + ch))).
  destruct (fill_pixels s w h (fun y x => body (ImageData.mk w h (length s)) y x) val
              (replicate (Z.to_nat (w * h * 4)) 0))
    as (out & Hrun & Hlenout & Hfilled).
  - lia.
  - lia.
  - rewrite length_replicate. lia.
  - intros x y buf Hx Hy Hbuf. rewrite length_replicate in Hbuf.
    assert (Hk : 0 <= y * w + x < w * h) by nia.
    assert (Hkx : (y * w + x) mod w = x).
    { rewrite Z.add_comm, Z.mod_add, Z.mod_small; lia. }
    assert (Hky : (y * w + x) / w = y).
    { rewrite Z.add_comm, Z.div_add, Z.div_small; lia. }
    destruct (Hsrc x y Hx Hy) as [Hsx Hsy].
    set (i := 4 * (snd (src x y) * w + fst (src x y))).
    destruct (bitmap_lookup _ _ _ i Hb) as (v0 & H0 & Hb0); [simpl; subst i; nia|].
    destruct (bitmap_lookup _ _ _ (i + 1) Hb) as (v1 & H1 & Hb1); [simpl; subst i; nia|].
    destruct (bitmap_lookup _ _ _ (i + 2) Hb) as (v2 & H2 & Hb2); [simpl; subst i; nia|].
    destruct (bitmap_lookup _ _ _ (i + 3) Hb) as (v3 & H3 & Hb3); [simpl; subst i; nia|].
    destruct (Hbody x y buf v0 v1 v2 v3 Hx Hy) as (n0 & n1 & n2 & n3 & Hr & E0 & E1 & E2 & E3);
      try done; [lia|].
    exists n0, n1, n2, n3. split; [exact Hr|].
    unfold val. rewrite !(gather_lookup w h src c) by (done || lia).
    rewrite Hkx, Hky. fold i. rewrite Z.add_0_r, H0, H1, H2, H3. done.
  - rewrite Hrun. cbv beta iota. do 3 f_equal.
    apply (buffers_eq _ _ (w * h)).
    + rewrite Hlenout, length_replicate. lia.
    + by apply length_gather.
    + intros k ch Hk Hch. rewrite (Hfilled k ch Hk Hch). unfold val.
      destruct (lookup_lt_is_Some_2 (gather w h src c) (Z.to_nat (4 * k + ch)))
        as [z ->]; [|done].
      pose proof (length_gather w h src c Hw Hh Hlen Hsrc). lia.
Qed.

Lemma bitmap_gather s w h d c src :
  bitmap s (ImageData.mk w h d) c ->
  (forall x y, 0 <= x < w -> 0 <= y < h ->
     0 <= fst (src x y) < w /\ 0 <= snd (src x y) < h) ->
  bitmap (s ++ [gather w h src c]) (ImageData.mk w h (length s)) (gather w h src c).
Proof.
  intros Hb Hsrc. pose proof Hb as (_ & Hw & Hh & Hlen & Hbytes & _).
  cbn [ImageData.width ImageData.height] in Hw, Hh, Hlen.
  apply (bitmap_output s w h d c); [done | by apply gather_bytes |].
  pose proof (length_gather w h src c Hw Hh Hlen Hsrc). lia.
Qed.

(** ** flipped-axis *)

Lemma flippedAxis_pixels s img c p :
  bitmap s img c ->
  let w := img.(ImageData.width) in
  let h := img.(ImageData.height) in
  let flipMode := js_or (get p "flipMode") (VStr "Flip Vertical") in
  apply flippedAxis img p s =
    Ret (ImageData.mk w h (length s))
        (s ++ [gather w h (fun x y =>
                 if is_str flipMode "Flip Vertical" then (x, h - 1 - y)
                 else if is_str flipMode "Flip Horizontal" then (w - 1 - x, y)
                 else if is_str flipMode "Flip Both" then (w - 1 - x, h - 1 - y)
                 else if is_str flipMode "Rotate 180" then (w - 1 - x, h - 1 - y)
                 else (x, y)) c]).
Proof.
  intros Hb w h flipMode. destruct img as [w0 h0 d]. subst w h.
  pose proof Hb as (Hd & _).
  cbn [ImageData.width ImageData.height ImageData.data] in *.
  cbv [apply flippedAxis]. unfold flippedAxis_apply. fold flipMode. cbv zeta.
  apply (run_gather_loop s w0 h0 d c); [done| |].
  - intros x y Hx Hy.
    destruct (is_str flipMode "Flip Vertical"); [|
    destruct (is_str flipMode "Flip Horizontal"); [|
    destruct (is_str flipMode "Flip Both"); [|
    destruct (is_str flipMode "Rotate 180")]]]; cbn [fst snd]; lia.
  - intros x y buf v0 v1 v2 v3 Hx Hy Hbuf i. subst i.
    destruct (is_str flipMode "Flip Vertical"); [|
    destruct (is_str flipMode "Flip Horizontal"); [|
    destruct (is_str flipMode "Flip Both"); [|
    destruct (is_str flipMode "Rotate 180")]]]; cbn [fst snd];
      intros H0 H1 H2 H3 Hb0 Hb1 Hb2 Hb3;
      (exists (Num.of_Z v0), (Num.of_Z v1), (Num.of_Z v2), (Num.of_Z v3);
       split; [|by rewrite !clamp_byte]);
      rewrite !(Z.mul_comm _ 4); run_pixel Hd; reflexivity.
Qed.

(** [flipped-axis] run with [p1], then with [p2] on the result. *)
Lemma flippedAxis_then s w h d c p1 p2 :
  bitmap s (ImageData.mk w h d) c ->
  let src p := fun x y =>
    let flipMode := js_or (get p "flipMode") (VStr "Flip Vertical") in
    if is_str flipMode "Flip Vertical" then (x, h - 1 - y)
    else if is_str flipMode "Flip Horizontal" then (w - 1 - x, y)
    else if is_str flipMode "Flip Both" then (w - 1 - x, h - 1 - y)
    else if is_str flipMode "Rotate 180" then (w - 1 - x, h - 1 - y)
    else (x, y) in
  let out := gather w h (src p1) c in
  apply flippedAxis (ImageData.mk w h d) p1 s
    = Ret (ImageData.mk w h (length s)) (s ++ [out]) /\
  apply flippedAxis (ImageData.mk w h (length s)) p2 (s ++ [out])
    = Ret (ImageData.mk w h (S (length s)))
          (s ++ [out; gather w h (fun x y =>
                        src p1 (fst (src p2 x y)) (snd (src p2 x y))) c]).
Proof.
  intros Hb src out.
  pose proof Hb as (_ & Hw & Hh & Hlen & _).
  cbn [ImageData.width ImageData.height] in Hw, Hh, Hlen.
  assert (Hsrc : forall p x y, 0 <= x < w -> 0 <= y < h ->
            0 <= fst (src p x y) < w /\ 0 <= snd (src p x y) < h).
  { intros p x y Hx Hy. unfold src.
    repeat case_match; cbn [fst snd]; lia. }
  split; [apply (flippedAxis_pixels s _ c p1 Hb)|].
  assert (Hb' : bitmap (s ++ [out]) (ImageData.mk w h (length s)) out)
    by (apply (bitmap_gather s w h d c (src p1) Hb (Hsrc p1))).
  rewrite (flippedAxis_pixels _ _ out p2 Hb').
  cbn [ImageData.width ImageData.height].
  rewrite length_app. cbn [length]. rewrite Nat.add_1_r.
  rewrite <- app_assoc. cbn [app]. do 4 f_equal.
  subst out. apply (gather_gather w h (src p1) (src p2) c Hw Hh Hlen (Hsrc p1) (Hsrc p2)).
Qed.

(** Every mode of [flipped-axis] undoes itself -- the vertical and the
    horizontal flip, the two names of the rotation by 180 degrees, and
    the plain copy made for any other [flipMode]; a missing [flipMode]
    flips vertically. A second application with the same parameters
    gives the original bytes back, whatever the dimensions. *)
Theorem flippedAxis_twice_is_identity s img c p :
  bitmap s img c ->
  let w := img.(ImageData.width) in
  let h := img.(ImageData.height) in
  exists out,
    apply flippedAxis img p s = Ret (ImageData.mk w h (length s)) (s ++ [out]) /\
    apply flippedAxis (ImageData.mk w h (length s)) p (s ++ [out])
      = Ret (ImageData.mk w h (S (length s))) (s ++ [out; c]).
Proof.
  intros Hb w h. destruct img as [w0 h0 d]. subst w h.
  cbn [ImageData.width ImageData.height].
  pose proof Hb as (_ & Hw & Hh & Hlen & _).
  cbn [ImageData.width ImageData.height] in Hw, Hh, Hlen.
  destruct (flippedAxis_then s w0 h0 d c p p Hb) as [H1 H2].
  eexists. split; [exact H1|]. rewrite H2. do 4 f_equal.
  rewrite <- (gather_id w0 h0 c) at 2 by done.
  apply gather_ext; [done..|]. intros x y Hx Hy. cbv zeta.
  repeat case_match; cbn [fst snd]; f_equal; lia.
Qed.

(** Flipping vertically and then horizontally, or horizontally and then
    vertically, gives the bytes that 'Flip Both' gives in one step. *)
Theorem flippedAxis_vertical_horizontal_is_both s img c pv ph pb :
  bitmap s img c ->
  get pv "flipMode" = VStr "Flip Vertical" ->
  get ph "flipMode" = VStr "Flip Horizontal" ->
  get pb "flipMode" = VStr "Flip Both" ->
  let w := img.(ImageData.width) in
  let h := img.(ImageData.height) in
  exists v hz both,
    apply flippedAxis img pb s = Ret (ImageData.mk w h (length s)) (s ++ [both]) /\
    apply flippedAxis img pv s = Ret (ImageData.mk w h (length s)) (s ++ [v]) /\
    apply flippedAxis (ImageData.mk w h (length s)) ph (s ++ [v])
      = Ret (ImageData.mk w h (S (length s))) (s ++ [v; both]) /\
    apply flippedAxis img ph s = Ret (ImageData.mk w h (length s)) (s ++ [hz]) /\
    apply flippedAxis (ImageData.mk w h (length s)) pv (s ++ [hz])
      = Ret (ImageData.mk w h (S (length s))) (s ++ [hz; both]).
Proof.
  intros Hb Hv Hh Hboth w h. destruct img as [w0 h0 d]. subst w h.
  cbn [ImageData.width ImageData.height].
  pose proof Hb as (_ & Hw & Hh0 & Hlen & _).
  cbn [ImageData.width ImageData.height] in Hw, Hh0, Hlen.
  destruct (flippedAxis_then s w0 h0 d c pv ph Hb) as [V1 V2].
  destruct (flippedAxis_then s w0 h0 d c ph pv Hb) as [H1 H2].
  pose proof (flippedAxis_pixels s _ c pb Hb) as B.
  cbn [ImageData.width ImageData.height] in B.
  rewrite Hv, Hh in *. rewrite Hboth in B.
  eexists _, _, _. split; [exact B|]. split; [exact V1|].
  split; [rewrite V2|split; [exact H1|rewrite H2]]; do 4 f_equal;
    (apply gather_ext; [done..|]); intros x y Hx Hy; reflexivity.
Qed.

End MovingPixels.

(* ===================================================================== *)
(** * Pixels addressed through numbers: off-by-one *)
(* ===================================================================== *)

(** [((s % w) + w) % w] is the residue of [s] modulo [w]. *)
Lemma rem_add_rem s w : 0 < w -> Z.rem (Z.rem s w + w) w = s mod w.
Proof.
  intros Hw.
  pose proof (Z.rem_bound_abs s w ltac:(lia)) as Hb.
  rewrite Z.rem_mod_nonneg by lia.
  rewrite <- Z.add_mod_idemp_r, Z.mod_same, Z.add_0_r by lia.
  rewrite (Z.quot_rem' s w) at 2.
  rewrite Z.add_comm, Z.mul_comm, Z.mod_add by lia. reflexivity.
Qed.

Section AddressedPixels.
Context {rt : JSRuntime}.

(** The four loads and stores that copy the pixel at column [nx], row
    [ny] of the input to position [outIdx] of the output. *)
Lemma run_copy_pixel s d c w h buf (nx ny : number) sx sy outIdx v0 v1 v2 v3 :
  s !! d = Some c -> w * h * 4 < 2 ^ 53 ->
  integral nx sx -> integral ny sy -> 0 <= sx < w -> 0 <= sy < h ->
  let i := 4 * (sy * w + sx) in
  c !! Z.to_nat i = Some v0 -> c !! Z.to_nat (i + 1) = Some v1 ->
  c !! Z.to_nat (i + 2) = Some v2 -> c !! Z.to_nat (i + 3) = Some v3 ->
  (v0 ← read_num d ((ny * w + nx) * 4)%js;
   write (length s) outIdx (ToNumber v0);;
   v1 ← read_num d ((ny * w + nx) * 4 + 1)%js;
   write (length s) (outIdx + 1) (ToNumber v1);;
   v2 ← read_num d ((ny * w + nx) * 4 + 2)%js;
   write (length s) (outIdx + 2) (ToNumber v2);;
   v3 ← read_num d ((ny * w + nx) * 4 + 3)%js;
   write (length s) (outIdx + 3) (ToNumber v3)) (s ++ [buf])
  = Ret tt (s ++ [buf_set4 buf outIdx (Num.of_Z v0) (Num.of_Z v1)
                                      (Num.of_Z v2) (Num.of_Z v3)]).
Proof.
  intros Hd Hsize Hnx Hny Hsx Hsy i H0 H1 H2 H3.
  assert (Hi : integral ((ny * w + nx) * 4)%js i).
  { subst i. rewrite (Z.mul_comm 4).
    apply mul_integral; [|apply integral_of_Z; lia|nia].
    apply add_integral; [|done|nia].
    apply mul_integral; [done|apply integral_of_Z; nia|nia]. }
  assert (Hi1 : integral ((ny * w + nx) * 4 + 1)%js (i + 1))
    by (apply add_integral; [done|apply integral_of_Z; lia|subst i; nia]).
  assert (Hi2 : integral ((ny * w + nx) * 4 + 2)%js (i + 2))
    by (apply add_integral; [done|apply integral_of_Z; lia|subst i; nia]).
  assert (Hi3 : integral ((ny * w + nx) * 4 + 3)%js (i + 3))
    by (apply add_integral; [done|apply integral_of_Z; lia|subst i; nia]).
  rewrite (read_num_integral _ _ _ Hi), (read_num_integral _ _ _ Hi1),
    (read_num_integral _ _ _ Hi2), (read_num_integral _ _ _ Hi3).
  assert (0 <= i) by (subst i; nia).
  run_pixel Hd. reflexivity.
Qed.

(** ** off-by-one *)

Lemma offByOne_pixels s img c p ox oy :
  bitmap s img c ->
  js_or (get p "xOffset") (VNum 1) = VNum (Num.of_Z ox) ->
  js_or (get p "yOffset") (VNum 1) = VNum (Num.of_Z oy) ->
  Z.abs ox < 2 ^ 52 -> Z.abs oy < 2 ^ 52 ->
  let w := img.(ImageData.width) in
  let h := img.(ImageData.height) in
  apply offByOne img p s =
    Ret (ImageData.mk w h (length s))
        (s ++ [gather w h (fun x y =>
                 if is_not_false (get p "wrapEdges")
                 then ((x + ox) mod w, (y + oy) mod h)
                 else (Z.max 0 (Z.min (w - 1) (x + ox)),
                       Z.max 0 (Z.min (h - 1) (y + oy)))) c]).
Proof.
  intros Hb Hx Hy Hox Hoy w h. destruct img as [w0 h0 d]. subst w h.
  pose proof Hb as (Hd & Hw & Hh & Hlen & _ & Hsize).
  cbn [ImageData.width ImageData.height ImageData.data] in *.
  cbv [apply offByOne]. unfold offByOne_apply. rewrite Hx, Hy. cbv zeta.
  apply (run_gather_loop s w0 h0 d c); [done| |].
  - intros x y Hx' Hy'. destruct (is_not_false (get p "wrapEdges")); cbn [fst snd].
    + pose proof (Z.mod_pos_bound (x + ox) w0 Hw).
      pose proof (Z.mod_pos_bound (y + oy) h0 Hh). lia.
    + lia.
  - intros x y buf v0 v1 v2 v3 Hx' Hy' Hbuf i. subst i.
    assert (Hw51 : w0 < 2 ^ 51) by nia.
    assert (Hh51 : h0 < 2 ^ 51) by nia.
    assert (Hnx : integral (ToNumber (js_plus (VNum x) (VNum (Num.of_Z ox)))) (x + ox)).
    { cbn [js_plus ToNumber]. apply add_integral; [apply integral_of_Z; lia..|lia]. }
    assert (Hny : integral (ToNumber (js_plus (VNum y) (VNum (Num.of_Z oy)))) (y + oy)).
    { cbn [js_plus ToNumber]. apply add_integral; [apply integral_of_Z; lia..|lia]. }
    destruct (is_not_false (get p "wrapEdges")); cbn [fst snd];
      intros H0 H1 H2 H3 Hb0 Hb1 Hb2 Hb3;
      (exists (Num.of_Z v0), (Num.of_Z v1), (Num.of_Z v2), (Num.of_Z v3);
       split; [|by rewrite !clamp_byte]);
      rewrite !(Z.mul_comm _ 4).
    + eapply (run_copy_pixel s d c w0 h0 buf _ _ ((x + ox) mod w0) ((y + oy) mod h0));
        try eassumption.
      * rewrite <- (rem_add_rem (x + ox) w0) by done.
        apply rem_integral; [|apply integral_of_Z; lia|lia].
        pose proof (Z.rem_bound_abs (x + ox) w0 ltac:(lia)).
        apply add_integral; [|apply integral_of_Z; lia|lia].
        apply rem_integral; [done|apply integral_of_Z; lia|lia].
      * rewrite <- (rem_add_rem (y + oy) h0) by done.
        apply rem_integral; [|apply integral_of_Z; lia|lia].
        pose proof (Z.rem_bound_abs (y + oy) h0 ltac:(lia)).
        apply add_integral; [|apply integral_of_Z; lia|lia].
        apply rem_integral; [done|apply integral_of_Z; lia|lia].
      * apply Z.mod_pos_bound; lia.
      * apply Z.mod_pos_bound; lia.
    + eapply (run_copy_pixel s d c w0 h0 buf _ _ (Z.max 0 (Z.min (w0 - 1) (x + ox)))
                (Z.max 0 (Z.min (h0 - 1) (y + oy)))); try eassumption.
      * apply max_integral; [apply integral_of_Z; lia|].
        apply min_integral; [apply integral_of_Z; lia|done].
      * apply max_integral; [apply integral_of_Z; lia|].
        apply min_integral; [apply integral_of_Z; lia|done].
      * lia.
      * lia.
Qed.

(** [off-by-one] reads every pixel [(x, y)] of its result from the
    input at column [x + ox] and row [y + oy], where [ox] and [oy] are
    the offsets in force (1 for an offset that is absent or zero): taken
    modulo the dimensions when [wrapEdges] is not [false], clamped to
    the nearest edge otherwise. All four channels come from that pixel. *)
Theorem offByOne_moves_whole_pixels s img c p ox oy :
  bitmap s img c ->
  js_or (get p "xOffset") (VNum 1) = VNum (Num.of_Z ox) ->
  js_or (get p "yOffset") (VNum 1) = VNum (Num.of_Z oy) ->
  Z.abs ox < 2 ^ 52 -> Z.abs oy < 2 ^ 52 ->
  let w := img.(ImageData.width) in
  let h := img.(ImageData.height) in
  exists out,
    apply offByOne img p s = Ret (ImageData.mk w h (length s)) (s ++ [out]) /\
    length out = length c /\
    forall x y ch, 0 <= x < w -> 0 <= y < h -> 0 <= ch < 4 ->
      let sx := if is_not_false (get p "wrapEdges") then (x + ox) mod w
                else Z.max 0 (Z.min (w - 1) (x + ox)) in
      let sy := if is_not_false (get p "wrapEdges") then (y + oy) mod h
                else Z.max 0 (Z.min (h - 1) (y + oy)) in
      out !! Z.to_nat (4 * (y * w + x) + ch) = c !! Z.to_nat (4 * (sy * w + sx) + ch).
Proof.
  intros Hb Hx Hy Hox Hoy w h.
  pose proof (offByOne_pixels s img c p ox oy Hb Hx Hy Hox Hoy) as Hrun.
  pose proof Hb as (_ & Hw & Hh & Hlen & _). fold w h in Hw, Hh, Hlen, Hrun.
  cbv zeta in Hrun.
  set (src := fun x y : Z =>
         if is_not_false (get p "wrapEdges")
         then ((x + ox) mod w, (y + oy) mod h)
         else (Z.max 0 (Z.min (w - 1) (x + ox)), Z.max 0 (Z.min (h - 1) (y + oy)))) in *.
  assert (Hsrc : forall x y, 0 <= x < w -> 0 <= y < h ->
            0 <= fst (src x y) < w /\ 0 <= snd (src x y) < h).
  { intros x y Hx' Hy'. unfold src.
    destruct (is_not_false (get p "wrapEdges")); cbn [fst snd].
    - pose proof (Z.mod_pos_bound (x + ox) w Hw).
      pose proof (Z.mod_pos_bound (y + oy) h Hh). lia.
    - lia. }
  exists (gather w h src c). split; [exact Hrun|]. split.
  { pose proof (length_gather w h src c Hw Hh Hlen Hsrc). lia. }
  intros x y ch Hx' Hy' Hch sx sy.
  rewrite (gather_lookup w h src c Hw Hh Hlen Hsrc) by (done || nia).
  replace ((y * w + x) mod w) with x
    by (rewrite Z.add_comm, Z.mod_add, Z.mod_small; lia).
  replace ((y * w + x) / w) with y
    by (rewrite Z.add_comm, Z.div_add, Z.div_small; lia).
  subst sx sy src. cbv beta. by destruct (is_not_false (get p "wrapEdges")).
Qed.


End AddressedPixels.

(* ===================================================================== *)
(** * Samples taken one channel at a time: channel-shift *)
(* ===================================================================== *)

Section Channels.
Context {rt : JSRuntime}.

(** The loops over [y] and [x] when round [(x, y)] stores the four
    samples [val x y 0 .. val x y 3] at pixel [(x, y)] of the output. *)
Lemma run_xy_loops s w h (body : Z -> Z -> M unit) (val : Z -> Z -> Z -> Z)
      (r : ImageData) :
  0 < w -> 0 < h ->
  (forall x y buf, 0 <= x < w -> 0 <= y < h -> Z.of_nat (length buf) = w * h * 4 ->
     exists n0 n1 n2 n3,
       body y x (s ++ [buf])
         = Ret tt (s ++ [buf_set4 buf (4 * (y * w + x)) n0 n1 n2 n3]) /\
       Num.ToUint8Clamp n0 = val x y 0 /\ Num.ToUint8Clamp n1 = val x y 1 /\
       Num.ToUint8Clamp n2 = val x y 2 /\ Num.ToUint8Clamp n3 = val x y 3) ->
  exists out,
    (for_ 0 h (fun y => for_ 0 w (fun x => body y x));; mret r)
      (s ++ [replicate (Z.to_nat (w * h * 4)) 0])
      = Ret r (s ++ [out]) /\
    Z.of_nat (length out) = w * h * 4 /\
    forall x y ch, 0 <= x < w -> 0 <= y < h -> 0 <= ch < 4 ->
      out !! Z.to_nat (4 * (y * w + x) + ch) = Some (val x y ch).
Proof.
  intros Hw Hh Hbody.
  destruct (fill_pixels s w h body (fun k ch => val (k mod w) (k / w) ch)
              (replicate (Z.to_nat (w * h * 4)) 0))
    as (out & Hrun & Hlenout & Hfilled).
  - lia.
  - lia.
  - rewrite length_replicate. lia.
  - intros x y buf Hx Hy Hbuf. rewrite length_replicate in Hbuf.
    replace ((y * w + x) mod w) with x
      by (rewrite Z.add_comm, Z.mod_add, Z.mod_small; lia).
    replace ((y * w + x) / w) with y
      by (rewrite Z.add_comm, Z.div_add, Z.div_small; lia).
    apply Hbody; lia.
  - exists out. rewrite run_bind, Hrun. cbv beta iota. split; [done|].
    rewrite length_replicate in Hlenout. split; [lia|].
    intros x y ch Hx Hy Hch.
    rewrite (Hfilled (y * w + x) ch) by (nia || lia).
    replace ((y * w + x) mod w) with x
      by (rewrite Z.add_comm, Z.mod_add, Z.mod_small; lia).
    replace ((y * w + x) / w) with y
      by (rewrite Z.add_comm, Z.div_add, Z.div_small; lia).
    reflexivity.
Qed.

(** The shift that applies to channel [ch]: alpha is not shifted. *)
Lemma channelShift_samples s img c p rs gs bs :
  bitmap s img c ->
  js_or (get p "redShift") (VNum 0) = VNum (Num.of_Z rs) ->
  js_or (get p "greenShift") (VNum 0) = VNum (Num.of_Z gs) ->
  js_or (get p "blueShift") (VNum 0) = VNum (Num.of_Z bs) ->
  Z.abs rs < 2 ^ 52 -> Z.abs gs < 2 ^ 52 -> Z.abs bs < 2 ^ 52 ->
  let w := img.(ImageData.width) in
  let h := img.(ImageData.height) in
  let shift ch := if ch =? 0 then rs else if ch =? 1 then gs
                  else if ch =? 2 then bs else 0 in
  exists out,
    apply channelShift img p s = Ret (ImageData.mk w h (length s)) (s ++ [out]) /\
    Z.of_nat (length out) = w * h * 4 /\
    forall x y ch, 0 <= x < w -> 0 <= y < h -> 0 <= ch < 4 ->
      out !! Z.to_nat (4 * (y * w + x) + ch)
      = Some (default 0
                (c !! Z.to_nat (4 * (y * w + Z.max 0 (Z.min (w - 1) (x + shift ch))) + ch))).
Proof.
  intros Hb Hr Hg Hbl Hrs Hgs Hbs w h shift. destruct img as [w0 h0 d]. subst w h shift.
  pose proof Hb as (Hd & Hw & Hh & Hlen & _ & Hsize).
  cbn [ImageData.width ImageData.height ImageData.data] in *.
  cbv [apply channelShift]. unfold channelShift_apply. rewrite Hr, Hg, Hbl. cbv zeta.
  rewrite run_bind, run_new_ImageData by done. cbv beta iota.
  cbn [ImageData.data].
  set (cl := fun sx : Z => Z.max 0 (Z.min (w0 - 1) sx)).
  set (val := fun x y ch : Z =>
         default 0 (c !! Z.to_nat (4 * (y * w0 + cl (x + (if ch =? 0 then rs
                                                        else if ch =? 1 then gs
                                                        else if ch =? 2 then bs
                                                        else 0))) + ch))).
  match goal with
  | |- context [for_ 0 h0 ?b] =>
      destruct (run_xy_loops s w0 h0
                  (fun y x => ltac:(let t := eval cbv beta in (b y) in
                                    match t with for_ 0 w0 ?bx =>
                                      let u := eval cbv beta in (bx x) in exact u end))
                  val (ImageData.mk w0 h0 (length s)) Hw Hh)
        as (out & Hrun & Hlenout & Hval)
  end.
  - intros x y buf Hx Hy Hbuf.
    assert (Hw51 : w0 < 2 ^ 51) by nia.
    assert (Hclamp : forall n sx, integral n sx ->
              integral (Num.max 0 (Num.min (w0 - 1)%Z n)) (cl sx)).
    { intros n sx Hn. apply max_integral; [apply integral_of_Z; lia|].
      apply min_integral; [apply integral_of_Z; lia|done]. }
    assert (Hsum : forall o, Z.abs o < 2 ^ 52 ->
              integral (ToNumber (js_plus (VNum x) (VNum (Num.of_Z o)))) (x + o)).
    { intros o Ho. cbn [js_plus ToNumber].
      apply add_integral; [apply integral_of_Z; lia..|lia]. }
    assert (Hidx : forall n sx, integral n sx -> 0 <= sx < w0 ->
              integral (((y * w0)%Z + n) * 4)%js (4 * (y * w0 + sx))).
    { intros n sx Hn Hsx. rewrite (Z.mul_comm 4).
      apply mul_integral; [|apply integral_of_Z; lia|nia].
      apply add_integral; [apply integral_of_Z; nia|done|nia]. }
    assert (Hcl : forall sx, 0 <= cl sx < w0) by (intros sx; unfold cl; lia).
    pose proof (Hidx _ _ (Hclamp _ _ (Hsum rs Hrs)) (Hcl _)) as Ir.
    pose proof (Hidx _ _ (Hclamp _ _ (Hsum gs Hgs)) (Hcl _)) as Ig.
    pose proof (Hidx _ _ (Hclamp _ _ (Hsum bs Hbs)) (Hcl _)) as Ib.
    pose proof (Hcl (x + rs)) as Br. pose proof (Hcl (x + gs)) as Bg.
    pose proof (Hcl (x + bs)) as Bb.
    assert (Ig1 := add_integral _ 1 _ 1 Ig (integral_of_Z 1 ltac:(lia)) ltac:(nia)).
    assert (Ib2 := add_integral _ 2 _ 2 Ib (integral_of_Z 2 ltac:(lia)) ltac:(nia)).
    destruct (bitmap_lookup _ _ _ (4 * (y * w0 + cl (x + rs))) Hb)
      as (v0 & H0 & Hb0); [simpl; nia|].
    destruct (bitmap_lookup _ _ _ (4 * (y * w0 + cl (x + gs)) + 1) Hb)
      as (v1 & H1 & Hb1); [simpl; nia|].
    destruct (bitmap_lookup _ _ _ (4 * (y * w0 + cl (x + bs)) + 2) Hb)
      as (v2 & H2 & Hb2); [simpl; nia|].
    destruct (bitmap_lookup _ _ _ (4 * (y * w0 + x) + 3) Hb)
      as (v3 & H3 & Hb3); [simpl; nia|].
    exists (Num.of_Z v0), (Num.of_Z v1), (Num.of_Z v2), (Num.of_Z v3).
    split.
    + rewrite (read_num_integral _ _ _ Ir), (read_num_integral _ _ _ Ig1),
        (read_num_integral _ _ _ Ib2).
      rewrite !(Z.mul_comm _ 4). run_pixel Hd. reflexivity.
    + unfold val. cbn [Z.eqb Pos.eqb].
      replace (cl (x + 0)) with x by (unfold cl; lia).
      rewrite Z.add_0_r, H0, H1, H2, H3. by rewrite !clamp_byte.
  - exists out. split; [exact Hrun|]. split; [done|].
    intros x y ch Hx Hy Hch. by rewrite (Hval x y ch).
Qed.

(** [channel-shift] leaves alpha where it is and takes the red, green
    and blue sample of every pixel from the same row, [redShift],
    [greenShift] and [blueShift] columns further; a column off the row
    is replaced by the nearest end of the row. *)
Theorem channelShift_moves_channels_in_rows s img c p rs gs bs :
  bitmap s img c ->
  js_or (get p "redShift") (VNum 0) = VNum (Num.of_Z rs) ->
  js_or (get p "greenShift") (VNum 0) = VNum (Num.of_Z gs) ->
  js_or (get p "blueShift") (VNum 0) = VNum (Num.of_Z bs) ->
  Z.abs rs < 2 ^ 52 -> Z.abs gs < 2 ^ 52 -> Z.abs bs < 2 ^ 52 ->
  let w := img.(ImageData.width) in
  let h := img.(ImageData.height) in
  exists out,
    apply channelShift img p s = Ret (ImageData.mk w h (length s)) (s ++ [out]) /\
    length out = length c /\
    forall x y, 0 <= x < w -> 0 <= y < h ->
      let taken sx ch := c !! Z.to_nat (4 * (y * w + Z.max 0 (Z.min (w - 1) sx)) + ch) in
      out !! Z.to_nat (4 * (y * w + x) + 0) = taken (x + rs) 0 /\
      out !! Z.to_nat (4 * (y * w + x) + 1) = taken (x + gs) 1 /\
      out !! Z.to_nat (4 * (y * w + x) + 2) = taken (x + bs) 2 /\
      out !! Z.to_nat (4 * (y * w + x) + 3) = c !! Z.to_nat (4 * (y * w + x) + 3).
Proof.
  intros Hb Hr Hg Hbl Hrs Hgs Hbs w h.
  destruct (channelShift_samples s img c p rs gs bs Hb Hr Hg Hbl Hrs Hgs Hbs)
    as (out & Hrun & Hlenout & Hval).
  pose proof Hb as (_ & Hw & Hh & Hlen & _). fold w h in Hw, Hh, Hlen, Hrun, Hlenout, Hval.
  exists out. split; [exact Hrun|]. split; [lia|].
  intros x y Hx Hy taken. subst taken. cbv beta.
  rewrite !(Hval x y) by lia. cbn [Z.eqb Pos.eqb].
  set (cl := fun sx : Z => Z.max 0 (Z.min (w - 1) sx)).
  fold (cl (x + rs)) (cl (x + gs)) (cl (x + bs)) (cl (x + 0)).
  assert (Hcl : forall sx, 0 <= cl sx < w) by (intros sx; unfold cl; lia).
  replace (cl (x + 0)) with x by (unfold cl; lia).
  pose proof (Hcl (x + rs)). pose proof (Hcl (x + gs)). pose proof (Hcl (x + bs)).
  destruct (bitmap_lookup _ _ _ (4 * (y * w + cl (x + rs)) + 0) Hb)
    as (v0 & -> & _); [fold w h; nia|].
  destruct (bitmap_lookup _ _ _ (4 * (y * w + cl (x + gs)) + 1) Hb)
    as (v1 & -> & _); [fold w h; nia|].
  destruct (bitmap_lookup _ _ _ (4 * (y * w + cl (x + bs)) + 2) Hb)
    as (v2 & -> & _); [fold w h; nia|].
  destruct (bitmap_lookup _ _ _ (4 * (y * w + x) + 3) Hb)
    as (v3 & -> & _); [fold w h; nia|].
  done.
Qed.

(** Called without shifts -- each of the three absent or zero --
    [channel-shift] returns an exact copy of the input. *)
Theorem channelShift_without_shifts_copies s img c p :
  bitmap s img c ->
  js_or (get p "redShift") (VNum 0) = VNum 0 ->
  js_or (get p "greenShift") (VNum 0) = VNum 0 ->
  js_or (get p "blueShift") (VNum 0) = VNum 0 ->
  apply channelShift img p s
  = Ret (ImageData.mk img.(ImageData.width) img.(ImageData.height) (length s))
        (s ++ [c]).
Proof.
  intros Hb Hr Hg Hbl.
  destruct (channelShift_samples s img c p 0 0 0 Hb Hr Hg Hbl)
    as (out & Hrun & Hlenout & Hout); [done..|].
  pose proof Hb as (_ & Hw & Hh & Hlen & _).
  set (w := img.(ImageData.width)) in *. set (h := img.(ImageData.height)) in *.
  rewrite Hrun. do 3 f_equal.
  apply (buffers_eq _ _ (w * h)); [lia..|].
  intros k ch Hk Hch.
  destruct (pixel_index _ _ k Hw Hh Hk) as [Hx Hy].
  pose proof (Z.div_mod k w ltac:(lia)) as Hdm.
  rewrite <- (Z.mul_comm (k / w)) in Hdm.
  specialize (Hout _ _ ch Hx Hy Hch). rewrite <- Hdm in Hout. rewrite Hout.
  replace (if ch =? 0 then 0 else if ch =? 1 then 0 else if ch =? 2 then 0 else 0)
    with 0 by (by repeat case_match).
  rewrite Z.add_0_r.
  replace (Z.max 0 (Z.min (w - 1) (k mod w))) with (k mod w) by lia.
  rewrite <- Hdm.
  destruct (bitmap_lookup _ _ _ (4 * k + ch) Hb) as (v & -> & _); [fold w h; lia|].
  done.
Qed.

End Channels.

(* ===================================================================== *)
(** * compression and rgba-as-rgb *)
(* ===================================================================== *)

Section Formats.
Context {rt : JSRuntime}.

(** A [blockSize] that is truthy and not a string -- the number 8, say,
    or [true] -- makes [compression] throw: [startsWith] is called on
    it. *)
Theorem compression_throws_on_non_string_blockSize s img p :
  truthy (get p "blockSize") = true ->
  (forall str, get p "blockSize" <> VStr str) ->
  exists s', apply compression img p s = Stopped Throws s'.
Proof.
  intros Ht Hns. destruct img as [w h d].
  cbv [apply compression]. unfold compression_apply, js_or. rewrite Ht. cbv zeta.
  rewrite run_bind. unfold new_ImageData.
  destruct ((0 <? w) && (0 <? h)); [|by eexists].
  destruct (get p "blockSize") as [|n|b|str]; try (by eexists).
  by destruct (Hns str).
Qed.

(** [c * (1 - 1) + w * 1], rounded and stored, is [w]. *)
Lemma blend_full a b :
  byte a -> byte b ->
  Num.ToUint8Clamp
    (Num.round (Num.of_Z a * (1 - Num.of_Z 1) + Num.of_Z b * Num.of_Z 1)%js) = b.
Proof.
  intros Ha Hb. unfold byte in *.
  apply clamp_integral; [|done]. apply round_integral.
  replace b with (a * 0 + b * 1) at 2 by lia.
  apply add_integral; [| |lia].
  - apply mul_integral; [apply integral_of_Z; lia| |lia].
    change (1 - Num.of_Z 1)%js with (Num.of_Z 0). apply integral_of_Z; lia.
  - apply mul_integral; [apply integral_of_Z; lia..|lia].
Qed.

(** At full intensity -- [intensity] 1, absent, or 0 -- [rgba-as-rgb]
    reads the buffer as packed three-byte pixels: pixel [k] of the
    result has the bytes [3k], [3k + 1] and [3k + 2] of the input as its
    red, green and blue, and is opaque. The last quarter of the input is
    not read. *)
Theorem rgbaAsRgb_reads_packed_triples s img c p :
  bitmap s img c ->
  js_or (get p "intensity") (VNum 1) = VNum 1 ->
  let w := img.(ImageData.width) in
  let h := img.(ImageData.height) in
  exists out,
    apply rgbaAsRgb img p s = Ret (ImageData.mk w h (length s)) (s ++ [out]) /\
    length out = length c /\
    forall k, 0 <= k < w * h ->
      out !! Z.to_nat (4 * k) = c !! Z.to_nat (3 * k) /\
      out !! Z.to_nat (4 * k + 1) = c !! Z.to_nat (3 * k + 1) /\
      out !! Z.to_nat (4 * k + 2) = c !! Z.to_nat (3 * k + 2) /\
      out !! Z.to_nat (4 * k + 3) = Some 255.
Proof.
  intros Hb Hi w h. destruct img as [w0 h0 d]. subst w h.
  pose proof Hb as (Hd & Hw & Hh & Hlen & _ & Hsize).
  cbn [ImageData.width ImageData.height ImageData.data] in *.
  cbv [apply rgbaAsRgb]. unfold rgbaAsRgb_apply. rewrite Hi. cbv zeta.
  cbn [ToNumber].
  rewrite run_bind, run_new_ImageData by done. cbv beta iota.
  rewrite run_bind, (run_buf_length_input s d c Hd). cbv beta iota.
  cbn [ImageData.data].
  set (val := fun x y ch : Z =>
         if ch =? 3 then 255 else default 0 (c !! Z.to_nat (3 * (y * w0 + x) + ch))).
  match goal with
  | |- context [for_ 0 h0 ?b] =>
      destruct (run_xy_loops s w0 h0
                  (fun y x => ltac:(let t := eval cbv beta in (b y) in
                                    match t with for_ 0 w0 ?bx =>
                                      let u := eval cbv beta in (bx x) in exact u end))
                  val (ImageData.mk w0 h0 (length s)) Hw Hh)
        as (out & Hrun & Hlenout & Hval)
  end.
  - intros x y buf Hx Hy Hbuf.
    assert (Hk : 0 <= y * w0 + x < w0 * h0) by nia.
    set (k := y * w0 + x) in *.
    rewrite Z.rem_small by lia.
    assert ((k * 3 + 2 <? Z.of_nat (length c)) = true) as -> by lia.
    destruct (bitmap_lookup _ _ _ (k * 4) Hb) as (c0 & Hc0 & Hbc0); [simpl; lia|].
    destruct (bitmap_lookup _ _ _ (k * 4 + 1) Hb) as (c1 & Hc1 & Hbc1); [simpl; lia|].
    destruct (bitmap_lookup _ _ _ (k * 4 + 2) Hb) as (c2 & Hc2 & Hbc2); [simpl; lia|].
    destruct (bitmap_lookup _ _ _ (k * 3) Hb) as (v0 & H0 & Hb0); [simpl; lia|].
    destruct (bitmap_lookup _ _ _ (k * 3 + 1) Hb) as (v1 & H1 & Hb1); [simpl; lia|].
    destruct (bitmap_lookup _ _ _ (k * 3 + 2) Hb) as (v2 & H2 & Hb2); [simpl; lia|].
    eexists _, _, _, _. split.
    + run_pixel Hd. rewrite (Z.mul_comm k 4). reflexivity.
    + cbn [ToNumber]. rewrite !blend_full by done. unfold val. cbn [Z.eqb Pos.eqb].
      fold k. rewrite Z.add_0_r, !(Z.mul_comm 3 k), H0, H1, H2. done.
  - exists out. split; [exact Hrun|]. split; [lia|].
    intros k Hk.
    destruct (pixel_index _ _ k Hw Hh Hk) as [Hx Hy].
    pose proof (Z.div_mod k w0 ltac:(lia)) as Hdm.
    assert (Hkk : k / w0 * w0 + k mod w0 = k) by lia.
    pose proof (Hval _ _ 0 Hx Hy ltac:(lia)) as V0.
    pose proof (Hval _ _ 1 Hx Hy ltac:(lia)) as V1.
    pose proof (Hval _ _ 2 Hx Hy ltac:(lia)) as V2.
    pose proof (Hval _ _ 3 Hx Hy ltac:(lia)) as V3.
    rewrite Hkk in V0, V1, V2, V3. rewrite Z.add_0_r in V0.
    rewrite V0, V1, V2, V3. unfold val. cbn [Z.eqb Pos.eqb]. rewrite Hkk, Z.add_0_r.
    destruct (bitmap_lookup _ _ _ (3 * k) Hb) as (v0 & -> & _); [simpl; lia|].
    destruct (bitmap_lookup _ _ _ (3 * k + 1) Hb) as (v1 & -> & _); [simpl; lia|].
    destruct (bitmap_lookup _ _ _ (3 * k + 2) Hb) as (v2 & -> & _); [simpl; lia|].
    done.
Qed.

End Formats.

(* ===================================================================== *)
(** * premultiplied-alpha *)
(* ===================================================================== *)

Lemma triple_proj {A B C D} (t : A * B * C) (F : A -> B -> C -> D) :
  (let '(x, y, z) := t in F x y z) = F (fst (fst t)) (snd (fst t)) (snd t).
Proof. by destruct t as [[x y] z]. Qed.

(** At alpha 255 the background takes no part: [bg * (1 - a)] is 0. *)
Lemma background_term_opaque n :
  byte n -> (Num.of_Z n / 255 * (1 - Num.of_Z 255 / 255))%js = Num.of_Z 0.
Proof.
  intros Hn.
  pose proof (byte_cases
    (fun n => if spec_float_eq_dec
                   (Num.of_Z n / 255 * (1 - Num.of_Z 255 / 255))%js (Num.of_Z 0)
              then true else false)
    ltac:(vm_compute; reflexivity) n Hn) as H.
  cbv beta in H. by destruct (spec_float_eq_dec _ _).
Qed.

(** ... and the sample is stored as it was, in every mode. *)
Lemma opaque_sample v :
  byte v ->
  let a := (Num.of_Z 255 / 255)%js in
  let stored x := Num.ToUint8Clamp (Num.round (Num.max 0 (Num.min 1 x) * 255)%js) in
  stored (Num.of_Z v / 255 + 0)%js = v /\
  stored (Num.of_Z v / 255 * a * a + 0)%js = v /\
  stored (Num.of_Z v / 255 * (a * a) + 0)%js = v /\
  stored (Num.of_Z v / 255 * a + 0)%js = v.
Proof.
  intros Hv a stored.
  assert (H : (let stored x :=
                 Num.ToUint8Clamp (Num.round (Num.max 0 (Num.min 1 x) * 255)%js) in
               (stored (Num.of_Z v / 255 + 0)%js =? v) &&
               (stored (Num.of_Z v / 255 * a * a + 0)%js =? v) &&
               (stored (Num.of_Z v / 255 * (a * a) + 0)%js =? v) &&
               (stored (Num.of_Z v / 255 * a + 0)%js =? v)) = true).
  { apply (byte_cases (fun v =>
      let stored x :=
        Num.ToUint8Clamp (Num.round (Num.max 0 (Num.min 1 x) * 255)%js) in
      (stored (Num.of_Z v / 255 + 0)%js =? v) &&
      (stored (Num.of_Z v / 255 * a * a + 0)%js =? v) &&
      (stored (Num.of_Z v / 255 * (a * a) + 0)%js =? v) &&
      (stored (Num.of_Z v / 255 * a + 0)%js =? v))); [|done].
    vm_compute. reflexivity. }
  cbv zeta in H. fold stored in H.
  apply andb_true_iff in H as [H H4]. apply andb_true_iff in H as [H H3].
  apply andb_true_iff in H as [H1 H2].
  repeat split; by apply Z.eqb_eq.
Qed.

Section Alpha.
Context {rt : JSRuntime}.

(** [premultiplied-alpha] makes every pixel opaque, and leaves a pixel
    that was opaque already exactly as it was, whatever the mode and the
    background colour. *)
Theorem premultipliedAlpha_keeps_opaque_pixels s img c p nr ng nb :
  bitmap s img c ->
  js_or (get p "backgroundR") (VNum 128) = VNum (Num.of_Z nr) ->
  js_or (get p "backgroundG") (VNum 128) = VNum (Num.of_Z ng) ->
  js_or (get p "backgroundB") (VNum 128) = VNum (Num.of_Z nb) ->
  byte nr -> byte ng -> byte nb ->
  let w := img.(ImageData.width) in
  let h := img.(ImageData.height) in
  exists out,
    apply premultipliedAlpha img p s = Ret (ImageData.mk w h (length s)) (s ++ [out]) /\
    length out = length c /\
    forall k, 0 <= k < w * h ->
      out !! Z.to_nat (4 * k + 3) = Some 255 /\
      (c !! Z.to_nat (4 * k + 3) = Some 255 ->
       forall ch, 0 <= ch < 4 ->
         out !! Z.to_nat (4 * k + ch) = c !! Z.to_nat (4 * k + ch)).
Proof.
  intros Hb Hr Hg Hbl Bnr Bng Bnb w h. destruct img as [w0 h0 d]. subst w h.
  pose proof Hb as (Hd & Hw & Hh & Hlen & _ & Hsize).
  cbn [ImageData.width ImageData.height ImageData.data] in *.
  cbv [apply premultipliedAlpha]. unfold premultipliedAlpha_apply.
  rewrite Hr, Hg, Hbl. cbv zeta. cbn [ToNumber].
  eexists. split.
  { eapply (run_pixel_loop s w0 h0 d c); [done|].
    intros k buf r g b a Hk Hbuf Hr' Hg' Hb' Ha' Br Bg Bb Ba.
    eexists _, _, _, _. split.
    - run_pixel Hd. cbn [ToNumber]. rewrite triple_proj. run_pixel Hd. reflexivity.
    - reflexivity. }
  match goal with |- context [map_pixels ?f0 c] => set (f := f0) end.
  split; [by apply (length_map_pixels f c (w0 * h0))|].
  intros k Hk.
  destruct (bitmap_lookup _ _ _ (4 * k) Hb) as (r & Hr' & Br); [simpl; lia|].
  destruct (bitmap_lookup _ _ _ (4 * k + 1) Hb) as (g & Hg' & Bg); [simpl; lia|].
  destruct (bitmap_lookup _ _ _ (4 * k + 2) Hb) as (b & Hb' & Bb); [simpl; lia|].
  destruct (bitmap_lookup _ _ _ (4 * k + 3) Hb) as (a & Ha' & Ba); [simpl; lia|].
  split.
  - rewrite (map_pixels_lookup f c k 3 r g b a) by (done || lia). reflexivity.
  - rewrite Ha'. intros [= ->] ch Hch.
    rewrite (map_pixels_lookup f c k ch r g b 255) by (done || lia).
    assert (Hf : f r g b 255 = (r, g, b, 255)).
    { unfold f. rewrite !background_term_opaque by done.
      destruct (opaque_sample r Br) as (R1 & R2 & R3 & R4).
      destruct (opaque_sample g Bg) as (G1 & G2 & G3 & G4).
      destruct (opaque_sample b Bb) as (B1 & B2 & B3 & B4).
      assert (Hlt : (Num.of_Z 255 / 255 <? 1)%js = false) by reflexivity.
      rewrite Hlt. cbn [andb].
      repeat case_match; cbn [fst snd];
        rewrite ?R1, ?R2, ?R3, ?R4, ?G1, ?G2, ?G3, ?G4, ?B1, ?B2, ?B3, ?B4; reflexivity. }
    rewrite Hf. unfold channel.
    assert (ch = 0 \/ ch = 1 \/ ch = 2 \/ ch = 3) as [-> | [-> | [-> | ->]]] by lia;
      cbn [Z.eqb Pos.eqb]; rewrite ?Z.add_0_r; done.
Qed.

End Alpha.

(* ===================================================================== *)
(** * Morton codes: [splitBits], [compactBits] and their composition *)
(* ===================================================================== *)

(** ** The bitwise operators on 32-bit integers *)

Lemma truncZ_integral a x : integral a x -> Num.truncZ a = x.
Proof.
  intros Ha.
  destruct (integral_shape _ _ Ha) as [[-> [sa ->]]|[Hx (ma & ea & -> & Hea & Hma & Hda)]];
    [reflexivity|].
  unfold Num.truncZ, Num.floor_pos.
  destruct (Z.leb_spec 0 ea) as [H0|H0].
  - assert (ea = 0) as -> by lia. change (- 0) with 0 in Hma.
    rewrite Z.pow_0_r, Z.mul_1_r in *. rewrite Hma.
    destruct (Z.ltb_spec x 0); lia.
  - rewrite Hma, Z.div_mul by lia. destruct (Z.ltb_spec x 0); lia.
Qed.

Lemma wrap32_int32 z : int32 z -> Num.wrap32 z = z.
Proof.
  unfold int32, Num.wrap32. change (2 ^ 31) with 2147483648.
  change (2 ^ 32) with 4294967296. intros Hz. cbv zeta.
  destruct (Z.leb_spec 2147483648 (z mod 4294967296));
    Z.div_mod_to_equations; lia.
Qed.

Lemma int32_wrap32 z : int32 (Num.wrap32 z).
Proof.
  unfold int32, Num.wrap32. change (2 ^ 31) with 2147483648.
  change (2 ^ 32) with 4294967296. cbv zeta.
  destruct (Z.leb_spec 2147483648 (z mod 4294967296));
    Z.div_mod_to_equations; lia.
Qed.

Lemma ToInt32_of_Z z : int32 z -> Num.ToInt32 (Num.of_Z z) = z.
Proof.
  intros Hz. unfold Num.ToInt32.
  rewrite (truncZ_integral _ z); [by apply wrap32_int32|].
  apply integral_of_Z. unfold int32 in Hz. lia.
Qed.

Lemma int32_shiftr_31 z : int32 z <-> Z.shiftr z 31 = 0 \/ Z.shiftr z 31 = -1.
Proof.
  rewrite Z.shiftr_div_pow2 by lia. unfold int32.
  change (2 ^ 31) with 2147483648. Z.div_mod_to_equations. lia.
Qed.

Lemma int32_lor a b : int32 a -> int32 b -> int32 (Z.lor a b).
Proof.
  rewrite !int32_shiftr_31, Z.shiftr_lor.
  intros [-> | ->] [-> | ->]; cbn; auto.
Qed.

Lemma land_mask_bound a m k :
  0 <= k -> 0 <= m < 2 ^ k -> 0 <= Z.land a m < 2 ^ k.
Proof.
  intros Hk Hm.
  assert (Hm' : Z.land m (Z.ones k) = m).
  { rewrite Z.land_ones by done. apply Z.mod_small. lia. }
  rewrite <- Hm', Z.land_assoc, Z.land_ones by done.
  apply Z.mod_pos_bound. apply Z.pow_pos_nonneg; lia.
Qed.

Lemma int32_land_mask a m : 0 <= m < 2 ^ 31 -> int32 (Z.land a m).
Proof.
  intros Hm. pose proof (land_mask_bound a m 31 ltac:(lia) Hm). unfold int32. lia.
Qed.

Lemma int32_shiftr a k : 0 <= k -> int32 a -> int32 (Z.shiftr a k).
Proof.
  intros Hk. unfold int32. rewrite Z.shiftr_div_pow2 by done.
  assert (0 < 2 ^ k) by (apply Z.pow_pos_nonneg; lia).
  assert (1 <= 2 ^ k) by lia.
  intros Ha. split.
  - apply Z.div_le_lower_bound; [done|]. nia.
  - apply Z.div_lt_upper_bound; [done|]. nia.
Qed.

Lemma band_int32 a b :
  int32 a -> int32 b -> Num.band (Num.of_Z a) (Num.of_Z b) = Num.of_Z (Z.land a b).
Proof. intros Ha Hb. unfold Num.band. by rewrite !ToInt32_of_Z. Qed.

Lemma bor_int32 a b :
  int32 a -> int32 b -> Num.bor (Num.of_Z a) (Num.of_Z b) = Num.of_Z (Z.lor a b).
Proof. intros Ha Hb. unfold Num.bor. by rewrite !ToInt32_of_Z. Qed.

Lemma shl_int32 a k :
  int32 a -> 0 <= k < 32 ->
  Num.shl (Num.of_Z a) (Num.of_Z k) = Num.of_Z (Num.wrap32 (Z.shiftl a k)).
Proof.
  intros Ha Hk. unfold Num.shl.
  rewrite !ToInt32_of_Z by (done || (unfold int32; lia)).
  by rewrite Z.mod_small by lia.
Qed.

Lemma shr_int32 a k :
  int32 a -> 0 <= k < 32 ->
  Num.shr (Num.of_Z a) (Num.of_Z k) = Num.of_Z (Z.shiftr a k).
Proof.
  intros Ha Hk. unfold Num.shr.
  rewrite !ToInt32_of_Z by (done || (unfold int32; lia)).
  by rewrite Z.mod_small by lia.
Qed.

(** ** One step of each kind *)

Lemma spread_step x k m j :
  0 <= x < 2 ^ j -> 0 <= k -> 0 <= j -> j + k <= 31 -> 0 <= m < 2 ^ 31 ->
  Num.band (Num.bor (Num.of_Z x) (Num.shl (Num.of_Z x) (Num.of_Z k))) (Num.of_Z m)
  = Num.of_Z (spread k m x).
Proof.
  intros Hx Hk Hj Hjk Hm.
  assert (H31 : 2 ^ j <= 2 ^ 31) by (apply Z.pow_le_mono_r; lia).
  assert (Hs : 0 <= Z.shiftl x k < 2 ^ 31).
  { rewrite Z.shiftl_mul_pow2 by done.
    assert (0 < 2 ^ k) by (apply Z.pow_pos_nonneg; lia).
    assert (2 ^ j * 2 ^ k <= 2 ^ 31).
    { rewrite <- Z.pow_add_r by lia. apply Z.pow_le_mono_r; lia. }
    nia. }
  assert (Ix : int32 x) by (unfold int32; lia).
  assert (Is : int32 (Z.shiftl x k)) by (unfold int32; lia).
  rewrite shl_int32 by (done || lia). rewrite (wrap32_int32 _ Is).
  rewrite bor_int32 by done.
  rewrite band_int32; [done|by apply int32_lor|unfold int32; lia].
Qed.

Lemma squeeze_step x k m :
  int32 x -> 0 <= k < 32 -> 0 <= m < 2 ^ 31 ->
  Num.band (Num.bor (Num.of_Z x) (Num.shr (Num.of_Z x) (Num.of_Z k))) (Num.of_Z m)
  = Num.of_Z (squeeze k m x).
Proof.
  intros Ix Hk Hm.
  rewrite shr_int32 by done.
  rewrite bor_int32 by (done || (apply int32_shiftr; [lia|done])).
  rewrite band_int32; [done| |unfold int32; lia].
  apply int32_lor; [done|]. apply int32_shiftr; [lia|done].
Qed.

Lemma spread_bound k m x j : 0 <= j -> 0 <= m < 2 ^ j -> 0 <= spread k m x < 2 ^ j.
Proof. intros Hj Hm. by apply land_mask_bound. Qed.

Lemma squeeze_int32 k m x : 0 <= m < 2 ^ 31 -> int32 (squeeze k m x).
Proof. intros Hm. by apply int32_land_mask. Qed.

(** [splitBits] and [compactBits] on integers. *)
Lemma splitBits_of_Z x :
  0 <= x < 2 ^ 16 -> splitBits (Num.of_Z x) = Num.of_Z (splitZ x).
Proof.
  intros Hx. unfold splitBits, splitZ. cbv zeta.
  rewrite (spread_step x 8 0x00FF00FF 16) by lia.
  rewrite (spread_step _ 4 0x0F0F0F0F 24) by (lia || (apply spread_bound; lia)).
  rewrite (spread_step _ 2 0x33333333 28) by (lia || (apply spread_bound; lia)).
  rewrite (spread_step _ 1 0x55555555 30) by (lia || (apply spread_bound; lia)).
  reflexivity.
Qed.

Lemma splitZ_bound x : 0 <= splitZ x < 2 ^ 31.
Proof. unfold splitZ. apply spread_bound; lia. Qed.

Lemma compactBits_of_Z c :
  int32 c -> compactBits (Num.of_Z c) = Num.of_Z (compactZ c).
Proof.
  intros Hc. unfold compactBits, compactZ. cbv zeta.
  rewrite band_int32 by (done || (unfold int32; lia)).
  rewrite (squeeze_step _ 1 0x33333333) by (lia || (apply int32_land_mask; lia)).
  rewrite (squeeze_step _ 2 0x0F0F0F0F) by (lia || (apply squeeze_int32; lia)).
  rewrite (squeeze_step _ 4 0x00FF00FF) by (lia || (apply squeeze_int32; lia)).
  rewrite (squeeze_step _ 8 0x0000FFFF) by (lia || (apply squeeze_int32; lia)).
  reflexivity.
Qed.

(** ** The steps distribute over [lor] *)

Lemma spread_lor k m a b :
  spread k m (Z.lor a b) = Z.lor (spread k m a) (spread k m b).
Proof.
  unfold spread. rewrite Z.shiftl_lor, <- Z.land_lor_distr_l. f_equal.
  apply Z.bits_inj'. intros n _. rewrite !Z.lor_spec.
  destruct (Z.testbit a n), (Z.testbit b n), (Z.testbit (Z.shiftl a k) n); reflexivity.
Qed.

Lemma squeeze_lor k m a b :
  squeeze k m (Z.lor a b) = Z.lor (squeeze k m a) (squeeze k m b).
Proof.
  unfold squeeze. rewrite Z.shiftr_lor, <- Z.land_lor_distr_l. f_equal.
  apply Z.bits_inj'. intros n _. rewrite !Z.lor_spec.
  destruct (Z.testbit a n), (Z.testbit b n), (Z.testbit (Z.shiftr a k) n); reflexivity.
Qed.

Lemma splitZ_lor a b : splitZ (Z.lor a b) = Z.lor (splitZ a) (splitZ b).
Proof. unfold splitZ. by rewrite !spread_lor. Qed.

Lemma compactZ_lor a b : compactZ (Z.lor a b) = Z.lor (compactZ a) (compactZ b).
Proof. unfold compactZ. by rewrite Z.land_lor_distr_l, !squeeze_lor. Qed.

Lemma lor_high_bit u n : 0 <= n -> 0 <= u < 2 ^ n -> Z.lor u (2 ^ n) = u + 2 ^ n.
Proof.
  intros Hn Hu.
  assert (Hdisj : Z.land u (2 ^ n) = 0).
  { apply Z.bits_inj'. intros m Hm.
    rewrite Z.land_spec, Z.pow2_bits_eqb, Z.bits_0 by done.
    destruct (Z.eqb_spec n m) as [<-|]; [|by rewrite andb_false_r].
    rewrite andb_true_r.
    destruct (Z.eq_dec u 0) as [->|Hnz]; [apply Z.bits_0|].
    apply Z.bits_above_log2; [lia|]. apply Z.log2_lt_pow2; lia. }
  rewrite <- Z.lxor_lor by done. symmetry. by apply Z.add_nocarry_lxor.
Qed.

(** Two maps that distribute over [lor] and agree on 0 and on the
    powers of two below [2^n] agree below [2^n]. *)
Lemma lor_hom_basis (f g : Z -> Z) (n : nat) :
  (forall a b, f (Z.lor a b) = Z.lor (f a) (f b)) ->
  (forall a b, g (Z.lor a b) = Z.lor (g a) (g b)) ->
  f 0 = g 0 ->
  (forall i, (i < n)%nat -> f (2 ^ Z.of_nat i) = g (2 ^ Z.of_nat i)) ->
  forall u, 0 <= u < 2 ^ Z.of_nat n -> f u = g u.
Proof.
  intros Hf Hg H0. induction n as [|n IH]; intros Hb u Hu.
  - assert (u = 0) as -> by (change (2 ^ Z.of_nat 0) with 1 in Hu; lia). done.
  - rewrite Nat2Z.inj_succ, Z.pow_succ_r in Hu by lia.
    destruct (Z.lt_ge_cases u (2 ^ Z.of_nat n)) as [Hlt|Hge].
    + apply IH; [|lia]. intros i Hi. apply Hb. lia.
    + replace u with (Z.lor (u - 2 ^ Z.of_nat n) (2 ^ Z.of_nat n))
        by (rewrite lor_high_bit; lia).
      rewrite Hf, Hg. f_equal.
      * apply IH; [|lia]. intros i Hi. apply Hb. lia.
      * apply Hb. lia.
Qed.

Lemma compact_split u : 0 <= u < 2 ^ 16 -> compactZ (splitZ u) = u.
Proof.
  apply (lor_hom_basis (fun u => compactZ (splitZ u)) (fun u => u) 16).
  - intros a b. by rewrite splitZ_lor, compactZ_lor.
  - done.
  - reflexivity.
  - intros i Hi. do 16 (destruct i as [|i]; [vm_compute; reflexivity|]). lia.
Qed.

Lemma compact_split_shifted_left u :
  0 <= u < 2 ^ 16 -> compactZ (Z.shiftl (splitZ u) 1) = 0.
Proof.
  apply (lor_hom_basis (fun u => compactZ (Z.shiftl (splitZ u) 1)) (fun _ => 0) 16).
  - intros a b. by rewrite splitZ_lor, Z.shiftl_lor, compactZ_lor.
  - done.
  - reflexivity.
  - intros i Hi. do 16 (destruct i as [|i]; [vm_compute; reflexivity|]). lia.
Qed.

Lemma compact_split_shifted_right u :
  0 <= u < 2 ^ 16 -> compactZ (Z.shiftr (splitZ u) 1) = 0.
Proof.
  apply (lor_hom_basis (fun u => compactZ (Z.shiftr (splitZ u) 1)) (fun _ => 0) 16).
  - intros a b. by rewrite splitZ_lor, Z.shiftr_lor, compactZ_lor.
  - done.
  - reflexivity.
  - intros i Hi. do 16 (destruct i as [|i]; [vm_compute; reflexivity|]). lia.
Qed.

(** ** Wrapping to 32 bits keeps the low 32 bits *)

Lemma land_low a m : 0 <= m < 2 ^ 32 -> Z.land a m = Z.land (a mod 2 ^ 32) m.
Proof.
  intros Hm.
  assert (Hm' : Z.land (Z.ones 32) m = m).
  { rewrite Z.land_comm, Z.land_ones by lia. apply Z.mod_small. lia. }
  rewrite <- Hm' at 1. rewrite Z.land_assoc, Z.land_ones by lia. reflexivity.
Qed.

Lemma wrap32_mod t : Num.wrap32 t mod 2 ^ 32 = t mod 2 ^ 32.
Proof.
  unfold Num.wrap32. change (2 ^ 31) with 2147483648.
  change (2 ^ 32) with 4294967296. cbv zeta.
  destruct (Z.leb_spec 2147483648 (t mod 4294967296));
    Z.div_mod_to_equations; lia.
Qed.

Lemma land_wrap32 t m : 0 <= m < 2 ^ 32 -> Z.land (Num.wrap32 t) m = Z.land t m.
Proof.
  intros Hm. by rewrite (land_low (Num.wrap32 t)), (land_low t), wrap32_mod.
Qed.

Lemma land_shiftr_wrap32 t m :
  0 <= m < 2 ^ 31 ->
  Z.land (Z.shiftr (Num.wrap32 t) 1) m = Z.land (Z.shiftr t 1) m.
Proof.
  intros Hm.
  assert (Hm' : Z.shiftr (Z.shiftl m 1) 1 = m).
  { rewrite Z.shiftr_shiftl_l by lia. apply Z.shiftl_0_r. }
  rewrite <- Hm', <- !Z.shiftr_land. f_equal.
  apply land_wrap32. rewrite Z.shiftl_mul_pow2 by lia. lia.
Qed.

Lemma compactZ_low a b :
  Z.land a 0x55555555 = Z.land b 0x55555555 -> compactZ a = compactZ b.
Proof. intros H. unfold compactZ. by rewrite H. Qed.

(** Decoding the Morton code of two 16-bit coordinates gives the
    coordinates back. *)
Theorem mortonDecode_mortonEncode x y :
  0 <= x < 2 ^ 16 -> 0 <= y < 2 ^ 16 ->
  mortonDecode (mortonEncode (Num.of_Z x) (Num.of_Z y)) = (Num.of_Z x, Num.of_Z y).
Proof.
  intros Hx Hy.
  pose proof (splitZ_bound x) as Bx. pose proof (splitZ_bound y) as By.
  assert (Ix : int32 (splitZ x)) by (unfold int32; lia).
  assert (Iy : int32 (splitZ y)) by (unfold int32; lia).
  set (t := Z.shiftl (splitZ y) 1).
  assert (Hcode : mortonEncode (Num.of_Z x) (Num.of_Z y)
                  = Num.of_Z (Z.lor (splitZ x) (Num.wrap32 t))).
  { unfold mortonEncode. rewrite !splitBits_of_Z by done.
    rewrite shl_int32 by (done || lia).
    rewrite bor_int32 by (done || apply int32_wrap32). reflexivity. }
  assert (Ic : int32 (Z.lor (splitZ x) (Num.wrap32 t)))
    by (apply int32_lor; [done | apply int32_wrap32]).
  rewrite Hcode. unfold mortonDecode.
  rewrite shr_int32 by (done || lia).
  rewrite !compactBits_of_Z by (done || (apply int32_shiftr; [lia | done])).
  f_equal; f_equal.
  - rewrite (compactZ_low _ (Z.lor (splitZ x) t)).
    2:{ rewrite !Z.land_lor_distr_l. f_equal. apply land_wrap32. lia. }
    rewrite compactZ_lor, compact_split by done.
    unfold t. rewrite compact_split_shifted_left by done. apply Z.lor_0_r.
  - rewrite (compactZ_low _ (Z.lor (Z.shiftr (splitZ x) 1) (splitZ y))).
    2:{ rewrite Z.shiftr_lor, !Z.land_lor_distr_l. f_equal.
        rewrite land_shiftr_wrap32 by lia. unfold t.
        rewrite Z.shiftr_shiftl_l by lia. by rewrite Z.shiftl_0_r. }
    rewrite compactZ_lor, compact_split by done.
    rewrite compact_split_shifted_right by done. apply Z.lor_0_l.
Qed.

(* ===================================================================== *)
(** * row-padding, read as a padded bitmap file *)
(* ===================================================================== *)

(** The padded row of [w] three-byte pixels is no longer than [4 * w]. *)
Lemma padded_row_bound w :
  0 < w ->
  let row := w * 3 + Z.rem (4 - Z.rem (w * 3) 4) 4 in
  w * 3 <= row <= w * 4.
Proof.
  intros Hw row. subst row.
  rewrite (Z.rem_mod_nonneg (w * 3)) by lia.
  rewrite Z.rem_mod_nonneg by (Z.div_mod_to_equations; lia).
  Z.div_mod_to_equations. lia.
Qed.

Section Padding.
Context {rt : JSRuntime}.

(** With [simulateBMP] on, the guard of [row-padding] never fails: every
    pixel of the result is written, opaque, with the red, green and blue
    of one pixel of the input -- pixel [(y * row + 3 * x) / 4], where
    [row] is [3 * width] rounded up to a multiple of four. No pixel is
    left transparent. *)
Theorem rowPadding_bmp_writes_every_pixel s img c p :
  bitmap s img c ->
  truthy (js_or (get p "simulateBMP") (VBool false)) = true ->
  let w := img.(ImageData.width) in
  let h := img.(ImageData.height) in
  let row := w * 3 + Z.rem (4 - Z.rem (w * 3) 4) 4 in
  exists out,
    apply rowPadding img p s = Ret (ImageData.mk w h (length s)) (s ++ [out]) /\
    length out = length c /\
    forall x y, 0 <= x < w -> 0 <= y < h ->
      let n := (y * row + x * 3) / 4 in
      0 <= n < w * h /\
      out !! Z.to_nat (4 * (y * w + x) + 0) = c !! Z.to_nat (4 * n + 0) /\
      out !! Z.to_nat (4 * (y * w + x) + 1) = c !! Z.to_nat (4 * n + 1) /\
      out !! Z.to_nat (4 * (y * w + x) + 2) = c !! Z.to_nat (4 * n + 2) /\
      out !! Z.to_nat (4 * (y * w + x) + 3) = Some 255.
Proof.
  intros Hb Hbmp w h row. destruct img as [w0 h0 d]. subst w h.
  pose proof Hb as (Hd & Hw & Hh & Hlen & _ & Hsize).
  cbn [ImageData.width ImageData.height ImageData.data] in *.
  pose proof (padded_row_bound w0 Hw) as Hrow. cbv zeta in Hrow. fold row in Hrow.
  assert (Hn : forall x y, 0 <= x < w0 -> 0 <= y < h0 ->
            0 <= (y * row + x * 3) / 4 < w0 * h0).
  { intros x y Hx Hy.
    assert (0 <= y * row + x * 3 < 4 * (w0 * h0)) by nia.
    split; [apply Z.div_pos; lia|]. apply Z.div_lt_upper_bound; lia. }
  cbv [apply rowPadding]. unfold rowPadding_apply. cbv zeta. rewrite Hbmp.
  rewrite run_bind, run_new_ImageData by done. cbv beta iota.
  rewrite run_bind, (run_buf_length_input s d c Hd). cbv beta iota.
  cbn [ImageData.data]. fold row.
  set (val := fun x y ch : Z =>
         if ch =? 3 then 255
         else default 0 (c !! Z.to_nat (4 * ((y * row + x * 3) / 4) + ch))).
  match goal with
  | |- context [for_ 0 h0 ?b] =>
      destruct (run_xy_loops s w0 h0
                  (fun y x => ltac:(let t := eval cbv beta in (b y) in
                                    match t with for_ 0 w0 ?bx =>
                                      let u := eval cbv beta in (bx x) in exact u end))
                  val (ImageData.mk w0 h0 (length s)) Hw Hh)
        as (out & Hrun & Hlenout & Hval)
  end.
  - intros x y buf Hx Hy Hbuf.
    pose proof (Hn x y Hx Hy) as Hnxy.
    replace (y * (w0 * 3) + x * 3 + y * Z.rem (4 - Z.rem (w0 * 3) 4) 4)
      with (y * row + x * 3) by (unfold row; ring).
    set (n := (y * row + x * 3) / 4) in *.
    assert ((n * 4 + 3 <? Z.of_nat (length c)) = true) as -> by lia.
    destruct (bitmap_lookup _ _ _ (n * 4) Hb) as (v0 & H0 & Hb0); [simpl; lia|].
    destruct (bitmap_lookup _ _ _ (n * 4 + 1) Hb) as (v1 & H1 & Hb1); [simpl; lia|].
    destruct (bitmap_lookup _ _ _ (n * 4 + 2) Hb) as (v2 & H2 & Hb2); [simpl; lia|].
    eexists _, _, _, _. split.
    + run_pixel Hd. rewrite (Z.mul_comm (y * w0 + x) 4). reflexivity.
    + cbn [ToNumber]. unfold val. cbn [Z.eqb Pos.eqb]. fold n.
      rewrite Z.add_0_r, !(Z.mul_comm 4 n), H0, H1, H2, !clamp_byte by done. done.
  - exists out. split; [exact Hrun|]. split; [lia|].
    intros x y Hx Hy. split; [by apply Hn|].
    rewrite !(Hval x y) by lia. unfold val. cbn [Z.eqb Pos.eqb].
    pose proof (Hn x y Hx Hy) as Hnxy.
    set (n := (y * row + x * 3) / 4) in *.
    destruct (bitmap_lookup _ _ _ (4 * n + 0) Hb) as (v0 & -> & _); [simpl; lia|].
    destruct (bitmap_lookup _ _ _ (4 * n + 1) Hb) as (v1 & -> & _); [simpl; lia|].
    destruct (bitmap_lookup _ _ _ (4 * n + 2) Hb) as (v2 & -> & _); [simpl; lia|].
    done.
Qed.

End Padding.

(* ===================================================================== *)
(** * gamma *)
(* ===================================================================== *)

Section Gamma.
Context {rt : JSRuntime}.

(** [gamma] never touches alpha: whatever the parameter map holds and
    whatever [Math.pow] computes, the call returns a bitmap of the same
    size whose alpha samples are those of the input. *)
Theorem gamma_keeps_alpha s img c p :
  bitmap s img c ->
  let w := img.(ImageData.width) in
  let h := img.(ImageData.height) in
  exists out,
    apply gamma img p s = Ret (ImageData.mk w h (length s)) (s ++ [out]) /\
    length out = length c /\
    forall k, 0 <= k < w * h ->
      out !! Z.to_nat (4 * k + 3) = c !! Z.to_nat (4 * k + 3).
Proof.
  intros Hb w h. destruct img as [w0 h0 d]. subst w h.
  pose proof Hb as (Hd & Hw & Hh & Hlen & _ & Hsize).
  cbn [ImageData.width ImageData.height ImageData.data] in *.
  cbv [apply gamma]. unfold gamma_apply. cbv zeta.
  eexists. split.
  { eapply (run_pixel_loop s w0 h0 d c); [done|].
    intros k buf r g b a Hk Hbuf Hr' Hg' Hb' Ha' Br Bg Bb Ba.
    eexists _, _, _, _. split.
    - run_pixel Hd. cbn [ToNumber]. rewrite triple_proj. run_pixel Hd. reflexivity.
    - reflexivity. }
  match goal with |- context [map_pixels ?f0 c] => set (f := f0) end.
  split; [by apply (length_map_pixels f c (w0 * h0))|].
  intros k Hk.
  destruct (bitmap_lookup _ _ _ (4 * k) Hb) as (r & Hr' & Br); [simpl; lia|].
  destruct (bitmap_lookup _ _ _ (4 * k + 1) Hb) as (g & Hg' & Bg); [simpl; lia|].
  destruct (bitmap_lookup _ _ _ (4 * k + 2) Hb) as (b & Hb' & Bb); [simpl; lia|].
  destruct (bitmap_lookup _ _ _ (4 * k + 3) Hb) as (a & Ha' & Ba); [simpl; lia|].
  rewrite (map_pixels_lookup f c k 3 r g b a) by (done || lia).
  rewrite Ha'. f_equal. unfold f, channel. cbn [Z.eqb Pos.eqb ToNumber].
  by apply clamp_byte.
Qed.

End Gamma.

(* ===================================================================== *)
(** * swizzle: interleaved rows *)
(* ===================================================================== *)

Section Interleaved.
Context {rt : JSRuntime}.



End Interleaved.

(* ===================================================================== *)
(** * Rows read at a wrong distance: wrong-stride and wrong-pitch *)
(* ===================================================================== *)

Lemma lt_integral a b x y : integral a x -> integral b y -> Num.lt a b = (x <? y).
Proof.
  intros Ha Hb. unfold Num.lt, SFltb. rewrite (compare_integral a b x y) by done.
  unfold Z.ltb. by destruct (x ?= y).
Qed.

(** [Math.floor] leaves an integer as it is. *)
Lemma floor_integral a x : integral a x -> integral (Num.floor a) x.
Proof.
  intros Ha.
  destruct (integral_shape _ _ Ha) as [[-> [sa ->]]|[Hx (ma & ea & -> & Hea & Hma & Hda)]];
    [exact Ha|].
  unfold Num.floor. destruct (Z.leb_spec 0 ea) as [H0|H0]; [exact Ha|].
  assert (Hf : Num.floorZ (x <? 0) ma ea = x).
  { unfold Num.floorZ, Num.floor_pos, Num.exact_pos.
    assert ((0 <=? ea) = false) as -> by lia.
    rewrite Hma, Z.mod_mul, Z.div_mul by lia. cbn [Z.eqb].
    destruct (Z.ltb_spec x 0); lia. }
  rewrite Hf.
  replace x with (x * 2 ^ 0) at 1 by (rewrite Z.pow_0_r; lia).
  change 0 with (- 0) at 2.
  destruct Ha as [Hb _]. apply integral_normalize; lia.
Qed.

Section Strides.
Context {rt : JSRuntime}.

(** The loops of [wrong-stride] and [wrong-pitch] for a distance between
    rows that is the integer [S]: pixel [(x, y)] of the result is read at
    the byte offset [(y * S + 4 * x) mod length], and is black when fewer
    than four bytes are left there; it is opaque in both cases. *)
Lemma run_strided_loops s w h d c (nS : number) S :
  bitmap s (ImageData.mk w h d) c ->
  integral nS S -> 0 <= S -> h * S + w * 4 < 2 ^ 53 ->
  exists out,
    (for_ 0 h (fun y =>
       for_ 0 w (fun x =>
         let outIdx := (y * w + x) * 4 in
         let wrongOffset := (y * nS + (x * 4)%Z)%js in
         let wrongIdx := (wrongOffset mod Num.of_Z (Z.of_nat (length c)))%js in
         if (wrongIdx + 3 <? Num.of_Z (Z.of_nat (length c)))%js then
           v0 ← read_num d wrongIdx;
           write (length s) outIdx (ToNumber v0);;
           v1 ← read_num d (wrongIdx + 1);
           write (length s) (outIdx + 1) (ToNumber v1);;
           v2 ← read_num d (wrongIdx + 2);
           write (length s) (outIdx + 2) (ToNumber v2);;
           write (length s) (outIdx + 3) 255
         else
           write (length s) outIdx 0;;
           write (length s) (outIdx + 1) 0;;
           write (length s) (outIdx + 2) 0;;
           write (length s) (outIdx + 3) 255));;
     mret (ImageData.mk w h (length s)))
      (s ++ [replicate (Z.to_nat (w * h * 4)) 0])
      = Ret (ImageData.mk w h (length s)) (s ++ [out]) /\
    Z.of_nat (length out) = w * h * 4 /\
    forall x y ch, 0 <= x < w -> 0 <= y < h -> 0 <= ch < 4 ->
      let idx := (y * S + x * 4) mod (w * h * 4) in
      out !! Z.to_nat (4 * (y * w + x) + ch)
      = Some (if ch =? 3 then 255
              else if idx + 3 <? w * h * 4 then default 0 (c !! Z.to_nat (idx + ch))
              else 0).
Proof.
  intros Hb HS HS0 Hbound.
  pose proof Hb as (Hd & Hw & Hh & Hlen & _ & Hsize).
  cbn [ImageData.width ImageData.height ImageData.data] in *.
  set (L := w * h * 4) in *.
  set (val := fun x y ch : Z =>
         if ch =? 3 then 255
         else if (y * S + x * 4) mod L + 3 <? L
              then default 0 (c !! Z.to_nat ((y * S + x * 4) mod L + ch))
              else 0).
  match goal with
  | |- context [for_ 0 h ?b] =>
      destruct (run_xy_loops s w h
                  (fun y x => ltac:(let t := eval cbv beta in (b y) in
                                    match t with for_ 0 w ?bx =>
                                      let u := eval cbv beta in (bx x) in exact u end))
                  val (ImageData.mk w h (length s)) Hw Hh)
        as (out & Hrun & Hlenout & Hval)
  end.
  - intros x y buf Hx Hy Hbuf. cbv zeta. rewrite Hlen.
    assert (HyS : 0 <= y * S <= h * S) by nia.
    assert (Hoff0 : 0 <= y * S + x * 4) by lia.
    assert (Hoff1 : y * S + x * 4 < 2 ^ 53) by lia.
    assert (HS53 : S < 2 ^ 53) by nia.
    assert (Hh53 : h < 2 ^ 53) by (subst L; nia).
    assert (Hw53 : w < 2 ^ 53) by (subst L; nia).
    pose proof (Z.mod_pos_bound (y * S + x * 4) L ltac:(lia)) as Hidx.
    assert (Ioff : integral (y * nS + (x * 4)%Z)%js (y * S + x * 4)).
    { apply add_integral; [|apply integral_of_Z; lia|lia].
      apply mul_integral; [apply integral_of_Z; lia|done|lia]. }
    assert (Iidx : integral ((y * nS + (x * 4)%Z) mod Num.of_Z L)%js
                     ((y * S + x * 4) mod L)).
    { rewrite <- Z.rem_mod_nonneg by lia.
      apply rem_integral; [done|apply integral_of_Z; lia|lia]. }
    set (idx := (y * S + x * 4) mod L) in *.
    assert (I3 := add_integral _ 3 _ 3 Iidx (integral_of_Z 3 ltac:(lia)) ltac:(lia)).
    rewrite (lt_integral _ _ _ L I3 (integral_of_Z L ltac:(lia))).
    destruct (Z.ltb_spec (idx + 3) L) as [Hin|Hout].
    + assert (I1 := add_integral _ 1 _ 1 Iidx (integral_of_Z 1 ltac:(lia)) ltac:(lia)).
      assert (I2 := add_integral _ 2 _ 2 Iidx (integral_of_Z 2 ltac:(lia)) ltac:(lia)).
      destruct (bitmap_lookup _ _ _ idx Hb) as (v0 & H0 & Hb0); [simpl; lia|].
      destruct (bitmap_lookup _ _ _ (idx + 1) Hb) as (v1 & H1 & Hb1); [simpl; lia|].
      destruct (bitmap_lookup _ _ _ (idx + 2) Hb) as (v2 & H2 & Hb2); [simpl; lia|].
      eexists _, _, _, _. split.
      * rewrite (read_num_integral _ _ _ Iidx), (read_num_integral _ _ _ I1),
          (read_num_integral _ _ _ I2).
        run_pixel Hd. rewrite (Z.mul_comm (y * w + x) 4). reflexivity.
      * cbn [ToNumber]. unfold val. cbn [Z.eqb Pos.eqb]. fold idx.
        assert ((idx + 3 <? L) = true) as -> by lia.
        rewrite Z.add_0_r, H0, H1, H2, !clamp_byte by done. done.
    + eexists _, _, _, _. split.
      * run_pixel Hd. rewrite (Z.mul_comm (y * w + x) 4). reflexivity.
      * unfold val. cbn [Z.eqb Pos.eqb]. fold idx.
        assert ((idx + 3 <? L) = false) as -> by lia. done.
  - exists out. split; [exact Hrun|]. split; [done|].
    intros x y ch Hx Hy Hch. cbv zeta. by rewrite (Hval x y ch).
Qed.

(** [wrong-stride] reads row [y] of its result [y * strideError] bytes
    too far: pixel [(x, y)] has alpha 255 and, as red, green and blue,
    the three bytes of the input at the offset
    [(y * (4 * width + strideError) + 4 * x) mod length] -- or it is black
    when fewer than four bytes are left at that offset. The error in
    force is the integer [e], which is 4 when the parameter is absent or
    zero. *)
Theorem wrongStride_reads_at_wrong_stride s img c p e :
  bitmap s img c ->
  js_or (get p "strideError") (VNum 4) = VNum (Num.of_Z e) ->
  let w := img.(ImageData.width) in
  let h := img.(ImageData.height) in
  0 <= w * 4 + e -> h * (w * 4 + e) + w * 4 < 2 ^ 53 ->
  exists out,
    apply wrongStride img p s = Ret (ImageData.mk w h (length s)) (s ++ [out]) /\
    length out = length c /\
    forall x y, 0 <= x < w -> 0 <= y < h ->
      let idx := (y * (w * 4 + e) + x * 4) mod (w * h * 4) in
      out !! Z.to_nat (4 * (y * w + x) + 3) = Some 255 /\
      forall ch, 0 <= ch < 3 ->
        out !! Z.to_nat (4 * (y * w + x) + ch)
        = if idx + 3 <? w * h * 4 then c !! Z.to_nat (idx + ch) else Some 0.
Proof.
  intros Hb He w h HS0 Hbound. destruct img as [w0 h0 d]. subst w h.
  pose proof Hb as (Hd & Hw & Hh & Hlen & _ & Hsize).
  cbn [ImageData.width ImageData.height ImageData.data] in *.
  cbv [apply wrongStride]. unfold wrongStride_apply. rewrite He. cbv zeta.
  rewrite run_bind, run_new_ImageData by done. cbv beta iota.
  rewrite run_bind, (run_buf_length_input s d c Hd). cbv beta iota.
  cbn [ImageData.data js_plus ToNumber].
  assert (HS : integral (Num.of_Z (w0 * 4) + Num.of_Z e)%js (w0 * 4 + e)).
  { apply add_integral; [apply integral_of_Z; nia..|nia]. }
  destruct (run_strided_loops s w0 h0 d c _ _ Hb HS HS0 Hbound)
    as (out & Hrun & Hlenout & Hval).
  exists out. split; [exact Hrun|]. split; [lia|].
  intros x y Hx Hy. split.
  - by rewrite (Hval x y 3) by lia.
  - intros ch Hch. rewrite (Hval x y ch) by lia. cbv zeta.
    assert ((ch =? 3) = false) as -> by lia.
    pose proof (Z.mod_pos_bound (y * (w0 * 4 + e) + x * 4) (w0 * h0 * 4) ltac:(lia)).
    destruct (Z.ltb_spec ((y * (w0 * 4 + e) + x * 4) mod (w0 * h0 * 4) + 3) (w0 * h0 * 4));
      [|done].
    destruct (bitmap_lookup _ _ _ ((y * (w0 * 4 + e) + x * 4) mod (w0 * h0 * 4) + ch) Hb)
      as (v & -> & _); [simpl; lia|]. done.
Qed.

(** With a whole number [m] as [pitchMultiplier], [wrong-pitch] shows at
    row [y] the row [m * y mod height] of the input, made opaque: with 1
    the colours are copied as they are, with 2 every second row is shown
    and the picture repeats. *)
Theorem wrongPitch_whole_multiplier_selects_rows s img c p m :
  bitmap s img c ->
  js_or (get p "pitchMultiplier") (VNum (Num.dec 125 2)) = VNum (Num.of_Z m) ->
  let w := img.(ImageData.width) in
  let h := img.(ImageData.height) in
  0 <= m -> h * (w * 4 * m) + w * 4 < 2 ^ 53 ->
  exists out,
    apply wrongPitch img p s = Ret (ImageData.mk w h (length s)) (s ++ [out]) /\
    length out = length c /\
    forall x y, 0 <= x < w -> 0 <= y < h ->
      out !! Z.to_nat (4 * (y * w + x) + 3) = Some 255 /\
      forall ch, 0 <= ch < 3 ->
        out !! Z.to_nat (4 * (y * w + x) + ch)
        = c !! Z.to_nat (4 * ((y * m) mod h * w + x) + ch).
Proof.
  intros Hb Hm w h Hm0 Hbound. destruct img as [w0 h0 d]. subst w h.
  pose proof Hb as (Hd & Hw & Hh & Hlen & _ & Hsize).
  cbn [ImageData.width ImageData.height ImageData.data] in *.
  cbv [apply wrongPitch]. unfold wrongPitch_apply. rewrite Hm. cbv zeta.
  rewrite run_bind, run_new_ImageData by done. cbv beta iota.
  rewrite run_bind, (run_buf_length_input s d c Hd). cbv beta iota.
  cbn [ImageData.data ToNumber].
  assert (HS : integral (Num.floor (Num.of_Z (w0 * 4) * Num.of_Z m)%js) (w0 * 4 * m)).
  { apply floor_integral. apply mul_integral; [apply integral_of_Z; nia..|nia]. }
  destruct (run_strided_loops s w0 h0 d c _ _ Hb HS ltac:(nia) Hbound)
    as (out & Hrun & Hlenout & Hval).
  exists out. split; [exact Hrun|]. split; [lia|].
  intros x y Hx Hy.
  assert (Hidx : (y * (w0 * 4 * m) + x * 4) mod (w0 * h0 * 4)
                 = 4 * ((y * m) mod h0 * w0 + x)).
  { replace (y * (w0 * 4 * m) + x * 4) with (4 * (w0 * (y * m) + x)) by ring.
    replace (w0 * h0 * 4) with (4 * (w0 * h0)) by ring.
    rewrite Z.mul_mod_distr_l by lia. f_equal.
    pose proof (Z.div_mod (y * m) h0 ltac:(lia)) as Hdm.
    pose proof (Z.mod_pos_bound (y * m) h0 ltac:(lia)) as Hr.
    rewrite Hdm at 1.
    replace (w0 * (h0 * (y * m / h0) + (y * m) mod h0) + x)
      with ((y * m) mod h0 * w0 + x + (y * m / h0) * (w0 * h0)) by ring.
    rewrite Z.mod_add by lia. apply Z.mod_small. nia. }
  pose proof (Z.mod_pos_bound (y * m) h0 ltac:(lia)) as Hr.
  split.
  - by rewrite (Hval x y 3) by lia.
  - intros ch Hch. rewrite (Hval x y ch) by lia. cbv zeta. rewrite Hidx.
    assert ((ch =? 3) = false) as -> by lia.
    assert ((4 * ((y * m) mod h0 * w0 + x) + 3 <? w0 * h0 * 4) = true) as -> by nia.
    destruct (bitmap_lookup _ _ _ (4 * ((y * m) mod h0 * w0 + x) + ch) Hb)
      as (v & -> & _); [simpl; nia|]. done.
Qed.

End Strides.

(* ===================================================================== *)
(** * Bitmaps without pixels *)
(* ===================================================================== *)

Section Empty.
Context {rt : JSRuntime}.


End Empty.

(* ===================================================================== *)
(** * Parameters outside the schema *)
(* ===================================================================== *)

Section AnyParameters.
Context {rt : JSRuntime}.

Ltac each_glitch H :=
  unfold glitches in H;
  repeat (apply elem_of_cons in H as [->|H]);
  [..|by apply elem_of_nil in H];
  cbv [apply rgbaAsRgb rgbAsRgba bgrSwap argbOrder endianness channelShift
       bitDepth gamma premultipliedAlpha signedUnsigned compression yuv
       floatPrecision wrongStride wrongPitch rowPadding alignment swizzle
       offByOne flippedAxis uvWrapping aspectRatio sampling halfPixel mipmap].

(** Twenty-two of the 25 transforms never fail on a well-formed bitmap:
    whatever the parameter map holds -- values of the wrong type, out
    of range, NaN -- the call returns a bitmap of the shape of the
    input. The three others are [compression], [sampling] and
    [mipmap]. *)
Theorem apply_returns_whatever_the_parameters g s img c p :
  g ∈ glitches -> g.(id) ∉ ["compression"; "sampling"; "mipmap"] ->
  bitmap s img c ->
  exists out s', apply g img p s = Ret out s' /\ same_shape s' img out.
Proof.
  intros Hg Hid Hb. pose proof Hb as (_ & Hw & Hh & _).
  assert (Hret : returns (apply g img p) (fun _ => True)).
  { destruct img as [w h d]. cbn [ImageData.width ImageData.height] in Hw, Hh.
    assert (Hnot : forall i : string,
              i ∈ ["compression"; "sampling"; "mipmap"] -> g.(id) <> i)
      by (intros i Hi E; apply Hid; by rewrite E).
    each_glitch Hg;
    [> by apply ret_rgbaAsRgb
     | by apply ret_rgbAsRgba
     | by apply ret_bgrSwap
     | by apply ret_argbOrder
     | by apply ret_endianness
     | by apply ret_channelShift
     | by apply ret_bitDepth
     | by apply ret_gamma
     | by apply ret_premultipliedAlpha
     | by apply ret_signedUnsigned
     | by destruct (Hnot "compression" ltac:(apply list_elem_of_here))
     | by apply ret_yuv
     | by apply ret_floatPrecision
     | by apply ret_wrongStride
     | by apply ret_wrongPitch
     | by apply ret_rowPadding
     | by apply ret_alignment
     | by apply ret_swizzle
     | by apply ret_offByOne
     | by apply ret_flippedAxis
     | by apply ret_uvWrapping
     | by apply ret_aspectRatio
     | by destruct (Hnot "sampling"
                      ltac:(apply list_elem_of_further, list_elem_of_here))
     | by apply ret_halfPixel
     | by destruct (Hnot "mipmap"
                      ltac:(do 2 apply list_elem_of_further; apply list_elem_of_here)) ]. }
  destruct (Hret s) as (out & s' & Hrun & _ & _).
  exists out, s'. split; [done|]. by apply (apply_shape g s img c p).
Qed.

(** A round of the loops over [y] and [x] that stops -- by throwing or
    by never ending -- stops the loops; the first round is the one at
    [(0, 0)]. *)
Lemma first_round_stops w h (body : Z -> Z -> M unit) t why t' :
  0 < w -> 0 < h -> body 0 0 t = Stopped why t' ->
  for_ 0 h (fun y => for_ 0 w (fun x => body y x)) t = Stopped why t'.
Proof.
  intros Hw Hh Hstop. rewrite for_unfold.
  destruct (Z.to_nat (h - 0)) as [|n] eqn:En; [lia|].
  rewrite iterate_S, run_bind, for_unfold.
  destruct (Z.to_nat (w - 0)) as [|m] eqn:Em; [lia|].
  by rewrite iterate_S, run_bind, Hstop.
Qed.

(** [sampling] can fail to return: in the mode 'Bad bilinear (blurry)'
    with [scale] Infinity the loop over the samples of the first pixel
    never ends. *)
Theorem sampling_never_returns_for_infinite_scale s img c p :
  bitmap s img c ->
  js_or (get p "mode") (VStr "Nearest (blocky)") = VStr "Bad bilinear (blurry)" ->
  js_or (get p "scale") (VNum 4) = VNum Num.Infinity ->
  exists s', apply sampling img p s = Stopped Hangs s'.
Proof.
  intros Hb Hmode Hscale. destruct img as [w h d].
  pose proof Hb as (_ & Hw & Hh & _).
  cbn [ImageData.width ImageData.height] in Hw, Hh.
  cbv [apply sampling]. unfold sampling_apply. rewrite Hmode, Hscale. cbv zeta.
  cbn [is_str String.eqb Ascii.eqb Bool.eqb ToNumber].
  rewrite run_bind, run_new_ImageData by done. cbv beta iota.
  eexists. rewrite run_bind.
  erewrite first_round_stops; [reflexivity|done|done|].
  rewrite run_bind. reflexivity.
Qed.

(** [mipmap] can throw: in its default mode a negative whole [lodBias]
    selects the mip level of that negative number, which does not
    exist, and reading its width throws at the first pixel. *)
Theorem mipmap_throws_for_negative_lodBias s img c p n :
  bitmap s img c ->
  js_or (get p "mode") (VStr "Too blurry (high LOD)") = VStr "Too blurry (high LOD)" ->
  js_or (get p "lodBias") (VNum 2) = VNum (Num.of_Z n) ->
  - 2 ^ 53 < n < 0 ->
  exists s', apply mipmap img p s = Stopped Throws s'.
Proof.
  intros Hb Hmode Hlod Hn. destruct img as [w h d].
  pose proof Hb as (_ & Hw & Hh & _ & _ & Hsize).
  cbn [ImageData.width ImageData.height] in Hw, Hh, Hsize.
  cbv [apply mipmap]. unfold mipmap_apply. rewrite Hmode, Hlod. cbv zeta.
  cbn [is_str String.eqb Ascii.eqb Bool.eqb ToNumber].
  rewrite run_bind, run_new_ImageData by done. cbv beta iota.
  rewrite run_bind.
  destruct (returns_mip_chain (Z.to_nat (w + h)) [ImageData.mk w h d] w h
              Hw Hh ltac:(done) ltac:(lia)
              (s ++ [replicate (Z.to_nat (w * h * 4)) 0]))
    as (levels & t & Hchain & Hlen & _).
  unfold mipLevels_of. rewrite Hchain. cbv beta iota.
  cbn [length] in Hlen.
  assert (Hlog : 0 <= Z.log2 (Z.max w h) < 53).
  { split; [apply Z.log2_nonneg|]. apply Z.log2_lt_pow2; [lia|]. nia. }
  eexists. rewrite run_bind.
  erewrite first_round_stops; [reflexivity|done|done|].
  assert (Hlevel : integral (Num.min (Num.of_Z (Z.of_nat (length levels) - 1))
                               (Num.floor (Num.of_Z n)))
                     (Z.min (Z.of_nat (length levels) - 1) n)).
  { apply min_integral; [apply integral_of_Z; lia|].
    apply floor_integral, integral_of_Z. lia. }
  unfold lookup_num. rewrite (to_index_integral _ _ Hlevel).
  assert ((0 <=? Z.min (Z.of_nat (length levels) - 1) n) = false) as -> by lia.
  reflexivity.
Qed.

End AnyParameters.

(* ===================================================================== *)
(** * Closed examples *)
(* ===================================================================== *)

#[local] Existing Instance example_runtime.

Lemma bgrSwap_in_catalog : bgrSwap ∈ glitches.
Proof. unfold glitches. do 2 apply list_elem_of_further. apply list_elem_of_here. Qed.

Lemma red_pixel_bitmap : bitmap [[255; 0; 0; 255]] (ImageData.mk 1 1 0) [255; 0; 0; 255].
Proof.
  unfold bitmap, byte. simpl. repeat split; try lia.
  repeat constructor; lia.
Qed.

(** The scenario of the specification: a single red pixel through
    [bgr-swap] comes out blue, into a second buffer. *)
Example bgrSwap_red_pixel :
  apply bgrSwap (ImageData.mk 1 1 0) ∅ [[255; 0; 0; 255]]
  = Ret (ImageData.mk 1 1 1) [[255; 0; 0; 255]; [0; 0; 255; 255]].
Proof. vm_compute. reflexivity. Qed.

Lemma apply_leaves_input_unchanged_witness :
  let s := [[255; 0; 0; 255]] in
  let img := ImageData.mk 1 1 0 in
  let s' := final (apply bgrSwap img ∅ s) in
  bitmap s' img [255; 0; 0; 255] /\
  (forall i buf, s !! i = Some buf -> s' !! i = Some buf) /\
  (forall out u, apply bgrSwap img ∅ s = Ret out u ->
                 s !! out.(ImageData.data) = None).
Proof.
  exact (apply_leaves_input_unchanged bgrSwap
           (ImageData.mk 1 1 0) ∅ [[255; 0; 0; 255]] [255; 0; 0; 255]
           bgrSwap_in_catalog red_pixel_bitmap).
Defined.

Lemma apply_deterministic_witness :
  let s := [[255; 0; 0; 255]] in
  let s' := [[7]; [255; 0; 0; 255]] in
  let img := ImageData.mk 1 1 0 in
  let img' := ImageData.mk 1 1 1 in
  (completion (apply bgrSwap img ∅ s)
     = completion (apply bgrSwap img' ∅ s') /\
   returned_pixels (apply bgrSwap img ∅ s)
     = returned_pixels (apply bgrSwap img' ∅ s')) /\
  (completion (apply bgrSwap img ∅
                 (final (apply bgrSwap img ∅ s)))
     = completion (apply bgrSwap img ∅ s) /\
   returned_pixels (apply bgrSwap img ∅
                      (final (apply bgrSwap img ∅ s)))
     = returned_pixels (apply bgrSwap img ∅ s)).
Proof.
  refine (apply_deterministic bgrSwap ∅
            [[255; 0; 0; 255]] [[7]; [255; 0; 0; 255]]
            (ImageData.mk 1 1 0) (ImageData.mk 1 1 1) [255; 0; 0; 255]
            bgrSwap_in_catalog red_pixel_bitmap _ eq_refl eq_refl).
  unfold bitmap, byte. simpl. repeat split; try lia.
  repeat constructor; lia.
Defined.

(** ** Channel shift and its schema defaults *)


(** C4, at the input where it fails. The schema of [channel-shift]
    declares the defaults redShift = 5, greenShift = 0, blueShift = -5,
    and [apply] falls back to 0 for all three: on an empty parameter
    map it copies the row, whereas on the map completed with the schema
    defaults it shifts the red and the blue channel. *)
Theorem channelShift_fallback_is_not_schema_default (rt : JSRuntime) :
  complete channelShift.(params) ∅ =
    <["redShift" := VNum 5]> (<["greenShift" := VNum 0]>
      (<["blueShift" := VNum (-5)]> ∅)) /\
  returned_pixels (apply channelShift (ImageData.mk 4 1 0) ∅ [four_pixels])
    = Some four_pixels /\
  returned_pixels (apply channelShift (ImageData.mk 4 1 0)
                     (complete channelShift.(params) ∅) [four_pixels])
    = Some [13; 20; 30; 255;  13; 21; 30; 255;  13; 22; 30; 255;  13; 23; 30; 255].
Proof. split; [|split]; vm_compute; reflexivity. Qed.

(** ** Off by one, wrapped *)



(** C5, at the input where it fails. With [yOffset: 0] the fallback
    [(params.yOffset as number) || 1] takes 0 for a missing value and
    shifts by one row as well: output pixel [(0, y)] is input pixel
    [(1, y + 1)] and output pixel [(3, y)] is input pixel [(0, y + 1)]
    (rows wrapping), not the pixels of row [y]. *)
Theorem offByOne_zero_offset_becomes_one (rt : JSRuntime) :
  exists out,
    returned_pixels (apply offByOne (ImageData.mk 4 4 0) wrap_params [distinct_4x4])
      = Some out /\
    Forall (fun y =>
      pixel 4 out 0 y = pixel 4 distinct_4x4 1 ((y + 1) mod 4) /\
      pixel 4 out 3 y = pixel 4 distinct_4x4 0 ((y + 1) mod 4) /\
      pixel 4 out 0 y <> pixel 4 distinct_4x4 1 y /\
      pixel 4 out 3 y <> pixel 4 distinct_4x4 0 y) [0; 1; 2; 3].
Proof.
  eexists. split; [vm_compute; reflexivity|].
  repeat constructor; vm_compute; congruence.
Qed.

(** ** The theorems at concrete inputs *)

Lemma Forall_byte_check l :
  forallb (fun z => (0 <=? z) && (z <=? 255)) l = true -> Forall byte l.
Proof.
  intros H. rewrite forallb_forall in H. apply Forall_forall.
  intros z Hz. apply list_elem_of_In, H, andb_true_iff in Hz. unfold byte. lia.
Qed.

Lemma two_by_two_bitmap : bitmap [two_by_two] (ImageData.mk 2 2 0) two_by_two.
Proof.
  unfold bitmap. simpl. repeat split; try lia.
  apply Forall_byte_check. reflexivity.
Qed.

Lemma quadrants_4x4_bitmap :
  bitmap [quadrants_4x4] (ImageData.mk 4 4 0) quadrants_4x4.
Proof.
  unfold bitmap. simpl. repeat split; try lia.
  apply Forall_byte_check. reflexivity.
Qed.

Lemma conforms_empty schema : conforms schema ∅.
Proof. intros d v _ H. by rewrite lookup_empty in H. Qed.

Lemma apply_preserves_shape_witness :
  let s := [[255; 0; 0; 255]] in
  let img := ImageData.mk 1 1 0 in
  (forall out s', apply bgrSwap img ∅ s = Ret out s' -> same_shape s' img out) /\
  (exists out s', apply bgrSwap img ∅ s = Ret out s' /\ same_shape s' img out).
Proof.
  destruct (apply_preserves_shape bgrSwap [[255; 0; 0; 255]] (ImageData.mk 1 1 0)
              [255; 0; 0; 255] ∅ bgrSwap_in_catalog red_pixel_bitmap)
    as [Hshape Hret].
  split; [exact Hshape | exact (Hret (conforms_empty _))].
Defined.

Lemma flip_both_twice_is_identity_witness :
  exists out1 s1 out2 s2,
    apply flippedAxis (ImageData.mk 2 2 0) flip_both_params [two_by_two]
      = Ret out1 s1 /\
    apply flippedAxis out1 flip_both_params s1 = Ret out2 s2 /\
    s2 !! out2.(ImageData.data) = Some two_by_two.
Proof.
  apply (flip_both_twice_is_identity [two_by_two] (ImageData.mk 2 2 0)
           two_by_two flip_both_params two_by_two_bitmap).
  - reflexivity.
  - reflexivity.
  - vm_compute. reflexivity.
Defined.

Lemma mipmap_first_level_is_box_average_witness :
  exists m1 m2,
    mipLevels_of (ImageData.mk 4 4 0) [quadrants_4x4] =
      Ret [ImageData.mk 4 4 0; ImageData.mk 2 2 1; ImageData.mk 1 1 2]
          ([quadrants_4x4] ++ [m1; m2]) /\
    forall x y ch, 0 <= x < 2 -> 0 <= y < 2 -> 0 <= ch < 4 ->
      exists p q r t,
        sample 4 quadrants_4x4 (2 * x) (2 * y) ch = Some p /\
        sample 4 quadrants_4x4 (2 * x + 1) (2 * y) ch = Some q /\
        sample 4 quadrants_4x4 (2 * x) (2 * y + 1) ch = Some r /\
        sample 4 quadrants_4x4 (2 * x + 1) (2 * y + 1) ch = Some t /\
        sample 2 m1 x y ch = Some (box_average p q r t) /\
        (p = q -> q = r -> r = t -> sample 2 m1 x y ch = Some p).
Proof.
  apply (mipmap_first_level_is_box_average [quadrants_4x4] (ImageData.mk 4 4 0)
           quadrants_4x4 quadrants_4x4_bitmap).
  - reflexivity.
  - reflexivity.
Defined.

Lemma bitDepth_16_as_8_blacks_out_rgb_witness :
  exists out,
    apply bitDepth (ImageData.mk 1 1 0) sixteen_as_eight_params [[255; 0; 0; 255]] =
      Ret (ImageData.mk 1 1 1) ([[255; 0; 0; 255]] ++ [out]) /\
    length out = 4%nat /\
    forall k, 0 <= k < 1 * 1 ->
      out !! Z.to_nat (4 * k) = Some 0 /\
      out !! Z.to_nat (4 * k + 1) = Some 0 /\
      out !! Z.to_nat (4 * k + 2) = Some 0 /\
      out !! Z.to_nat (4 * k + 3) = [255; 0; 0; 255] !! Z.to_nat (4 * k + 3).
Proof.
  apply (bitDepth_16_as_8_blacks_out_rgb [[255; 0; 0; 255]] (ImageData.mk 1 1 0)
           [255; 0; 0; 255] sixteen_as_eight_params red_pixel_bitmap).
  vm_compute. reflexivity.
Defined.

(** ** Further theorems at concrete inputs *)

Lemma apply_resolves_defaults_witness :
  apply bgrSwap (ImageData.mk 1 1 0) (complete bgrSwap.(params) ∅)
  = apply bgrSwap (ImageData.mk 1 1 0) ∅.
Proof.
  apply (apply_resolves_defaults bgrSwap (ImageData.mk 1 1 0) ∅ bgrSwap_in_catalog).
  simpl. discriminate.
Defined.

Lemma bgrSwap_twice_is_identity_witness :
  apply bgrSwap (ImageData.mk 1 1 0) ∅ [[255; 0; 0; 255]]
    = Ret (ImageData.mk 1 1 1) [[255; 0; 0; 255]; [0; 0; 255; 255]] /\
  apply bgrSwap (ImageData.mk 1 1 1) ∅ [[255; 0; 0; 255]; [0; 0; 255; 255]]
    = Ret (ImageData.mk 1 1 2) [[255; 0; 0; 255]; [0; 0; 255; 255]; [255; 0; 0; 255]].
Proof.
  exact (bgrSwap_twice_is_identity [[255; 0; 0; 255]] (ImageData.mk 1 1 0)
           [255; 0; 0; 255] ∅ red_pixel_bitmap).
Defined.

Lemma endianness_twice_is_identity_witness :
  let reversed := [255; 3; 2; 1;  255; 6; 5; 4;  255; 9; 8; 7;  255; 12; 11; 10] in
  apply endianness (ImageData.mk 2 2 0) ∅ [two_by_two]
    = Ret (ImageData.mk 2 2 1) [two_by_two; reversed] /\
  apply endianness (ImageData.mk 2 2 1) ∅ [two_by_two; reversed]
    = Ret (ImageData.mk 2 2 2) [two_by_two; reversed; two_by_two].
Proof.
  exact (endianness_twice_is_identity [two_by_two] (ImageData.mk 2 2 0)
           two_by_two ∅ two_by_two_bitmap).
Defined.

Lemma signedUnsigned_twice_is_identity_witness :
  apply signedUnsigned (ImageData.mk 1 1 0) ∅ [[255; 0; 0; 255]]
    = Ret (ImageData.mk 1 1 1) [[255; 0; 0; 255]; [127; 128; 128; 255]] /\
  apply signedUnsigned (ImageData.mk 1 1 1) ∅ [[255; 0; 0; 255]; [127; 128; 128; 255]]
    = Ret (ImageData.mk 1 1 2)
          [[255; 0; 0; 255]; [127; 128; 128; 255]; [255; 0; 0; 255]].
Proof.
  apply (signedUnsigned_twice_is_identity [[255; 0; 0; 255]] (ImageData.mk 1 1 0)
           [255; 0; 0; 255] ∅ red_pixel_bitmap).
  reflexivity.
Defined.

Lemma argbOrder_formats_invert_witness :
  exists out,
    apply argbOrder (ImageData.mk 1 1 0) (<["format" := VStr "RGBA as ARGB"]> ∅)
          [[255; 0; 0; 255]]
      = Ret (ImageData.mk 1 1 1) ([[255; 0; 0; 255]] ++ [out]) /\
    apply argbOrder (ImageData.mk 1 1 1) (<["format" := VStr "Rotate channels left"]> ∅)
          ([[255; 0; 0; 255]] ++ [out])
      = Ret (ImageData.mk 1 1 2) ([[255; 0; 0; 255]] ++ [out; [255; 0; 0; 255]]).
Proof.
  apply (argbOrder_formats_invert [[255; 0; 0; 255]] (ImageData.mk 1 1 0)
           [255; 0; 0; 255] ∅ "RGBA as ARGB" "Rotate channels left" red_pixel_bitmap).
  constructor.
Defined.

Lemma bitDepth_truncation_idempotent_witness :
  let p := <["mode" := VStr "Bit truncation"]> (<["bits" := VNum 4]> ∅) in
  apply bitDepth (ImageData.mk 1 1 0) p [[255; 0; 0; 255]]
    = Ret (ImageData.mk 1 1 1) [[255; 0; 0; 255]; [240; 0; 0; 255]] /\
  apply bitDepth (ImageData.mk 1 1 1) p [[255; 0; 0; 255]; [240; 0; 0; 255]]
    = Ret (ImageData.mk 1 1 2) [[255; 0; 0; 255]; [240; 0; 0; 255]; [240; 0; 0; 255]].
Proof.
  apply (bitDepth_truncation_idempotent [[255; 0; 0; 255]] (ImageData.mk 1 1 0)
           [255; 0; 0; 255]
           (<["mode" := VStr "Bit truncation"]> (<["bits" := VNum 4]> ∅)) 4
           red_pixel_bitmap).
  - reflexivity.
  - reflexivity.
  - lia.
Defined.

Lemma renderPreview_shows_a_bitmap_witness :
  conforms bgrSwap.(params) (defaultParams bgrSwap.(params)) /\
  exists out s',
    renderPreview bgrSwap (ImageData.mk 1 1 0) [[255; 0; 0; 255]] = Ret (Some out) s' /\
    same_shape s' (ImageData.mk 1 1 0) out.
Proof.
  exact (renderPreview_shows_a_bitmap bgrSwap [[255; 0; 0; 255]] (ImageData.mk 1 1 0)
           [255; 0; 0; 255] bgrSwap_in_catalog red_pixel_bitmap).
Defined.

Lemma selectGlitch_resets_and_applies_witness :
  let img := ImageData.mk 1 1 0 in
  let this := Sandbox.mk (Some img) None None ∅ in
  id bgrSwap = "bgr-swap" /\
  exists out s',
    selectGlitch this "bgr-swap" [[255; 0; 0; 255]] =
      Ret (Sandbox.mk (Some img) (Some out) (Some bgrSwap)
                      (defaultParams bgrSwap.(params))) s' /\
    same_shape s' img out.
Proof.
  exact (selectGlitch_resets_and_applies
           (Sandbox.mk (Some (ImageData.mk 1 1 0)) None None ∅) "bgr-swap"
           [[255; 0; 0; 255]] (ImageData.mk 1 1 0) [255; 0; 0; 255]
           eq_refl red_pixel_bitmap).
Defined.

Lemma handleParamChange_keeps_conforming_witness :
  let img := ImageData.mk 1 1 0 in
  let swapMode :=
    Param.Select "swapMode" ["RGB to BGR"; "Swap R and G"; "Swap G and B"] "RGB to BGR" in
  let this := Sandbox.mk (Some img) None (Some bgrSwap) ∅ in
  let params' := <["swapMode" := VStr "Swap R and G"]> ∅ in
  conforms bgrSwap.(params) params' /\
  exists out s',
    handleParamChange this swapMode (VStr "Swap R and G") [[255; 0; 0; 255]] =
      Ret (Sandbox.mk (Some img) (Some out) (Some bgrSwap) params') s' /\
    same_shape s' img out.
Proof.
  apply (handleParamChange_keeps_conforming
           (Sandbox.mk (Some (ImageData.mk 1 1 0)) None (Some bgrSwap) ∅) bgrSwap
           (Param.Select "swapMode" ["RGB to BGR"; "Swap R and G"; "Swap G and B"]
                         "RGB to BGR")
           (VStr "Swap R and G") [[255; 0; 0; 255]] (ImageData.mk 1 1 0)
           [255; 0; 0; 255] eq_refl red_pixel_bitmap eq_refl bgrSwap_in_catalog
           (conforms_empty _)).
  - simpl. constructor.
  - simpl. do 2 constructor.
Defined.

Lemma flippedAxis_twice_is_identity_witness :
  exists out,
    apply flippedAxis (ImageData.mk 2 2 0) ∅ [two_by_two]
      = Ret (ImageData.mk 2 2 1) ([two_by_two] ++ [out]) /\
    apply flippedAxis (ImageData.mk 2 2 1) ∅ ([two_by_two] ++ [out])
      = Ret (ImageData.mk 2 2 2) ([two_by_two] ++ [out; two_by_two]).
Proof.
  exact (flippedAxis_twice_is_identity [two_by_two] (ImageData.mk 2 2 0) two_by_two ∅
           two_by_two_bitmap).
Defined.

Lemma flippedAxis_vertical_horizontal_is_both_witness :
  let pv : GlitchParams := <["flipMode" := VStr "Flip Vertical"]> ∅ in
  let ph : GlitchParams := <["flipMode" := VStr "Flip Horizontal"]> ∅ in
  let img := ImageData.mk 2 2 0 in
  exists v hz both,
    apply flippedAxis img flip_both_params [two_by_two]
      = Ret (ImageData.mk 2 2 1) ([two_by_two] ++ [both]) /\
    apply flippedAxis img pv [two_by_two]
      = Ret (ImageData.mk 2 2 1) ([two_by_two] ++ [v]) /\
    apply flippedAxis (ImageData.mk 2 2 1) ph ([two_by_two] ++ [v])
      = Ret (ImageData.mk 2 2 2) ([two_by_two] ++ [v; both]) /\
    apply flippedAxis img ph [two_by_two]
      = Ret (ImageData.mk 2 2 1) ([two_by_two] ++ [hz]) /\
    apply flippedAxis (ImageData.mk 2 2 1) pv ([two_by_two] ++ [hz])
      = Ret (ImageData.mk 2 2 2) ([two_by_two] ++ [hz; both]).
Proof.
  apply (flippedAxis_vertical_horizontal_is_both [two_by_two] (ImageData.mk 2 2 0)
           two_by_two (<["flipMode" := VStr "Flip Vertical"]> ∅)
           (<["flipMode" := VStr "Flip Horizontal"]> ∅) flip_both_params
           two_by_two_bitmap).
  - reflexivity.
  - reflexivity.
  - reflexivity.
Defined.

Lemma offByOne_moves_whole_pixels_witness :
  exists out,
    apply offByOne (ImageData.mk 2 2 0) ∅ [two_by_two]
      = Ret (ImageData.mk 2 2 1) ([two_by_two] ++ [out]) /\
    length out = length two_by_two /\
    forall x y ch, 0 <= x < 2 -> 0 <= y < 2 -> 0 <= ch < 4 ->
      let sx := if is_not_false (get ∅ "wrapEdges") then (x + 1) mod 2
                else Z.max 0 (Z.min (2 - 1) (x + 1)) in
      let sy := if is_not_false (get ∅ "wrapEdges") then (y + 1) mod 2
                else Z.max 0 (Z.min (2 - 1) (y + 1)) in
      out !! Z.to_nat (4 * (y * 2 + x) + ch)
      = two_by_two !! Z.to_nat (4 * (sy * 2 + sx) + ch).
Proof.
  apply (offByOne_moves_whole_pixels [two_by_two] (ImageData.mk 2 2 0) two_by_two ∅ 1 1
           two_by_two_bitmap).
  - reflexivity.
  - reflexivity.
  - reflexivity.
  - reflexivity.
Defined.


Lemma channelShift_moves_channels_in_rows_witness :
  let p : GlitchParams := <["redShift" := VNum 1]> ∅ in
  exists out,
    apply channelShift (ImageData.mk 2 2 0) p [two_by_two]
      = Ret (ImageData.mk 2 2 1) ([two_by_two] ++ [out]) /\
    length out = length two_by_two /\
    forall x y, 0 <= x < 2 -> 0 <= y < 2 ->
      let taken sx ch :=
        two_by_two !! Z.to_nat (4 * (y * 2 + Z.max 0 (Z.min (2 - 1) sx)) + ch) in
      out !! Z.to_nat (4 * (y * 2 + x) + 0) = taken (x + 1) 0 /\
      out !! Z.to_nat (4 * (y * 2 + x) + 1) = taken (x + 0) 1 /\
      out !! Z.to_nat (4 * (y * 2 + x) + 2) = taken (x + 0) 2 /\
      out !! Z.to_nat (4 * (y * 2 + x) + 3) = two_by_two !! Z.to_nat (4 * (y * 2 + x) + 3).
Proof.
  apply (channelShift_moves_channels_in_rows [two_by_two] (ImageData.mk 2 2 0) two_by_two
           (<["redShift" := VNum 1]> ∅) 1 0 0 two_by_two_bitmap).
  - reflexivity.
  - reflexivity.
  - reflexivity.
  - reflexivity.
  - reflexivity.
  - reflexivity.
Defined.

Lemma channelShift_without_shifts_copies_witness :
  apply channelShift (ImageData.mk 2 2 0) ∅ [two_by_two]
  = Ret (ImageData.mk 2 2 1) ([two_by_two] ++ [two_by_two]).
Proof.
  apply (channelShift_without_shifts_copies [two_by_two] (ImageData.mk 2 2 0) two_by_two
           ∅ two_by_two_bitmap).
  - reflexivity.
  - reflexivity.
  - reflexivity.
Defined.

Lemma compression_throws_on_non_string_blockSize_witness :
  exists s',
    apply compression (ImageData.mk 1 1 0) (<["blockSize" := VNum 8]> ∅)
          [[255; 0; 0; 255]]
    = Stopped Throws s'.
Proof.
  apply (compression_throws_on_non_string_blockSize [[255; 0; 0; 255]]
           (ImageData.mk 1 1 0) (<["blockSize" := VNum 8]> ∅)).
  - reflexivity.
  - intros str H. vm_compute in H. discriminate H.
Defined.

Lemma rgbaAsRgb_reads_packed_triples_witness :
  exists out,
    apply rgbaAsRgb (ImageData.mk 2 2 0) ∅ [two_by_two]
      = Ret (ImageData.mk 2 2 1) ([two_by_two] ++ [out]) /\
    length out = length two_by_two /\
    forall k, 0 <= k < 2 * 2 ->
      out !! Z.to_nat (4 * k) = two_by_two !! Z.to_nat (3 * k) /\
      out !! Z.to_nat (4 * k + 1) = two_by_two !! Z.to_nat (3 * k + 1) /\
      out !! Z.to_nat (4 * k + 2) = two_by_two !! Z.to_nat (3 * k + 2) /\
      out !! Z.to_nat (4 * k + 3) = Some 255.
Proof.
  apply (rgbaAsRgb_reads_packed_triples [two_by_two] (ImageData.mk 2 2 0) two_by_two ∅
           two_by_two_bitmap).
  reflexivity.
Defined.

Lemma premultipliedAlpha_keeps_opaque_pixels_witness :
  exists out,
    apply premultipliedAlpha (ImageData.mk 2 2 0) ∅ [two_by_two]
      = Ret (ImageData.mk 2 2 1) ([two_by_two] ++ [out]) /\
    length out = length two_by_two /\
    forall k, 0 <= k < 2 * 2 ->
      out !! Z.to_nat (4 * k + 3) = Some 255 /\
      (two_by_two !! Z.to_nat (4 * k + 3) = Some 255 ->
       forall ch, 0 <= ch < 4 ->
         out !! Z.to_nat (4 * k + ch) = two_by_two !! Z.to_nat (4 * k + ch)).
Proof.
  apply (premultipliedAlpha_keeps_opaque_pixels [two_by_two] (ImageData.mk 2 2 0)
           two_by_two ∅ 128 128 128 two_by_two_bitmap).
  - reflexivity.
  - reflexivity.
  - reflexivity.
  - unfold byte. lia.
  - unfold byte. lia.
  - unfold byte. lia.
Defined.

Lemma mortonDecode_mortonEncode_witness :
  mortonDecode (mortonEncode (Num.of_Z 5) (Num.of_Z 3)) = (Num.of_Z 5, Num.of_Z 3).
Proof. apply (mortonDecode_mortonEncode 5 3); lia. Defined.

Lemma rowPadding_bmp_writes_every_pixel_witness :
  let p : GlitchParams := <["simulateBMP" := VBool true]> ∅ in
  let row := 2 * 3 + Z.rem (4 - Z.rem (2 * 3) 4) 4 in
  exists out,
    apply rowPadding (ImageData.mk 2 2 0) p [two_by_two]
      = Ret (ImageData.mk 2 2 1) ([two_by_two] ++ [out]) /\
    length out = length two_by_two /\
    forall x y, 0 <= x < 2 -> 0 <= y < 2 ->
      let n := (y * row + x * 3) / 4 in
      0 <= n < 2 * 2 /\
      out !! Z.to_nat (4 * (y * 2 + x) + 0) = two_by_two !! Z.to_nat (4 * n + 0) /\
      out !! Z.to_nat (4 * (y * 2 + x) + 1) = two_by_two !! Z.to_nat (4 * n + 1) /\
      out !! Z.to_nat (4 * (y * 2 + x) + 2) = two_by_two !! Z.to_nat (4 * n + 2) /\
      out !! Z.to_nat (4 * (y * 2 + x) + 3) = Some 255.
Proof.
  apply (rowPadding_bmp_writes_every_pixel [two_by_two] (ImageData.mk 2 2 0) two_by_two
           (<["simulateBMP" := VBool true]> ∅) two_by_two_bitmap).
  reflexivity.
Defined.

Lemma gamma_keeps_alpha_witness :
  exists out,
    apply gamma (ImageData.mk 2 2 0) ∅ [two_by_two]
      = Ret (ImageData.mk 2 2 1) ([two_by_two] ++ [out]) /\
    length out = length two_by_two /\
    forall k, 0 <= k < 2 * 2 ->
      out !! Z.to_nat (4 * k + 3) = two_by_two !! Z.to_nat (4 * k + 3).
Proof.
  exact (gamma_keeps_alpha [two_by_two] (ImageData.mk 2 2 0) two_by_two ∅
           two_by_two_bitmap).
Defined.


Lemma wrongStride_reads_at_wrong_stride_witness :
  exists out,
    apply wrongStride (ImageData.mk 2 2 0) ∅ [two_by_two]
      = Ret (ImageData.mk 2 2 1) ([two_by_two] ++ [out]) /\
    length out = length two_by_two /\
    forall x y, 0 <= x < 2 -> 0 <= y < 2 ->
      let idx := (y * (2 * 4 + 4) + x * 4) mod (2 * 2 * 4) in
      out !! Z.to_nat (4 * (y * 2 + x) + 3) = Some 255 /\
      forall ch, 0 <= ch < 3 ->
        out !! Z.to_nat (4 * (y * 2 + x) + ch)
        = if idx + 3 <? 2 * 2 * 4 then two_by_two !! Z.to_nat (idx + ch) else Some 0.
Proof.
  apply (wrongStride_reads_at_wrong_stride [two_by_two] (ImageData.mk 2 2 0) two_by_two
           ∅ 4 two_by_two_bitmap).
  - reflexivity.
  - simpl. lia.
  - simpl. lia.
Defined.

Lemma wrongPitch_whole_multiplier_selects_rows_witness :
  let p : GlitchParams := <["pitchMultiplier" := VNum 2]> ∅ in
  exists out,
    apply wrongPitch (ImageData.mk 2 2 0) p [two_by_two]
      = Ret (ImageData.mk 2 2 1) ([two_by_two] ++ [out]) /\
    length out = length two_by_two /\
    forall x y, 0 <= x < 2 -> 0 <= y < 2 ->
      out !! Z.to_nat (4 * (y * 2 + x) + 3) = Some 255 /\
      forall ch, 0 <= ch < 3 ->
        out !! Z.to_nat (4 * (y * 2 + x) + ch)
        = two_by_two !! Z.to_nat (4 * ((y * 2) mod 2 * 2 + x) + ch).
Proof.
  apply (wrongPitch_whole_multiplier_selects_rows [two_by_two] (ImageData.mk 2 2 0)
           two_by_two (<["pitchMultiplier" := VNum 2]> ∅) 2 two_by_two_bitmap).
  - reflexivity.
  - lia.
  - simpl. lia.
Defined.


Lemma apply_returns_whatever_the_parameters_witness :
  exists out s',
    apply bgrSwap (ImageData.mk 1 1 0) (<["swapMode" := VNum 7]> ∅) [[255; 0; 0; 255]]
      = Ret out s' /\
    same_shape s' (ImageData.mk 1 1 0) out.
Proof.
  apply (apply_returns_whatever_the_parameters bgrSwap [[255; 0; 0; 255]]
           (ImageData.mk 1 1 0) [255; 0; 0; 255] (<["swapMode" := VNum 7]> ∅)
           bgrSwap_in_catalog).
  - refine (bool_decide_unpack _ _). vm_compute. exact I.
  - exact red_pixel_bitmap.
Defined.

Lemma sampling_never_returns_for_infinite_scale_witness :
  let p : GlitchParams :=
    <["mode" := VStr "Bad bilinear (blurry)"]> (<["scale" := VNum Num.Infinity]> ∅) in
  exists s', apply sampling (ImageData.mk 1 1 0) p [[255; 0; 0; 255]] = Stopped Hangs s'.
Proof.
  apply (sampling_never_returns_for_infinite_scale [[255; 0; 0; 255]] (ImageData.mk 1 1 0)
           [255; 0; 0; 255]
           (<["mode" := VStr "Bad bilinear (blurry)"]> (<["scale" := VNum Num.Infinity]> ∅))
           red_pixel_bitmap).
  - reflexivity.
  - reflexivity.
Defined.

Lemma mipmap_throws_for_negative_lodBias_witness :
  exists s',
    apply mipmap (ImageData.mk 1 1 0) (<["lodBias" := VNum (-1)]> ∅) [[255; 0; 0; 255]]
    = Stopped Throws s'.
Proof.
  apply (mipmap_throws_for_negative_lodBias [[255; 0; 0; 255]] (ImageData.mk 1 1 0)
           [255; 0; 0; 255] (<["lodBias" := VNum (-1)]> ∅) (-1) red_pixel_bitmap).
  - reflexivity.
  - reflexivity.
  - lia.
Defined.
